(** * A multi-core job scheduler over a comparator-ordered queue

    Shallow embedding of [libpriqueue.c] and [libscheduler.c]:

    - C [int] values are [Z]; every arithmetic result that the code stores
      in a field of a job or in the counters [size] and [n_jobs] goes
      through [wrap], the two's-complement reduction to 32 bits (a loop
      index stays below a bound that is an [int] and is not reduced);
    - a pointer to a [job_t] is an address ([nat]) into a heap of
      malloc'ed objects; [NULL] is [None]; a freed cell stays in the heap
      as [None] so that a dangling pointer is detected when dereferenced;
    - the linked list of [node_t] is a Rocq list: a [node_t*] is the
      suffix of the list that starts at that node and [NULL] is [[]];
    - behaviour that C leaves undefined (dereferencing [NULL], a freed or
      an uninitialised pointer, indexing outside the core array, reading
      a field that was never written) is the result [Crash];
    - [float] is IEEE-754 binary32 from [SpecFloat] (precision 24,
      maximal exponent 128), with round-to-nearest-even. *)

From Stdlib Require Import ZArith Bool Lia.
From Stdlib Require Import Floats.SpecFloat.
From stdpp Require Import base tactics option numbers sorting list.

Local Open Scope Z_scope.

(** ** Results of running C code *)

Inductive fault : Type :=
| NullDeref        (* [p->f] with [p == NULL] *)
| UseAfterFree     (* [p->f] or [free(p)] on a freed object *)
| WildPointer      (* [p->f] on an address that was never allocated *)
| UninitPointer    (* [p->f] on a local pointer that was never assigned *)
| UninitField      (* reading a field of a malloc'ed object before any write *)
| OutOfBounds.     (* [a[i]] outside the allocated array *)

Inductive res (A : Type) : Type :=
| Ok (a : A)
| Crash (f : fault).
Arguments Ok {A} a.
Arguments Crash {A} f.

Definition bind {A B} (m : res A) (k : A -> res B) : res B :=
  match m with
  | Ok a => k a
  | Crash f => Crash f
  end.

Notation "'let!' x ':=' m 'in' k" := (bind m (fun x => k))
  (at level 10, x name, m at level 100, k at level 200).
Notation "'let!' ' pat ':=' m 'in' k" :=
  (bind m (fun x => match x with pat => k end))
  (at level 10, pat pattern, m at level 100, k at level 200).

(** ** C [int] *)

Definition INT_MIN : Z := - 2 ^ 31.
Definition INT_MAX : Z := 2 ^ 31 - 1.

(** Two's-complement reduction of an arithmetic result to [int]. *)
Definition wrap (x : Z) : Z := (x + 2 ^ 31) mod 2 ^ 32 - 2 ^ 31.

Definition in_int (x : Z) : Prop := INT_MIN <= x <= INT_MAX.

(** ** C [float] (binary32) *)

Definition float : Type := spec_float.
Definition fzero : float := S754_zero false.
(** [(float) i] *)
Definition float_of_int (i : Z) : float := binary_normalize 24 128 i 0 false.
Definition fadd : float -> float -> float := SFadd 24 128.
Definition fsub : float -> float -> float := SFsub 24 128.
Definition fdiv : float -> float -> float := SFdiv 24 128.
(** [x != 0.0] *)
Definition fnonzero (x : float) : bool := negb (SFeqb x fzero).

(** ** libpriqueue: the comparator-ordered queue *)

Module PriQueue.

Section Queue.
Context {A : Type}.

(** [priqueue_t]: the [size] counter and the chain of nodes from
    [head].  The [comp] field always holds the comparer given to
    [priqueue_init]; the operations below take it as an argument.  It
    returns a [res] because the scheduler's comparer dereferences the
    two items. *)
Record priqueue_t : Type := mkq { size : Z; head : list A }.

Definition priqueue_init : priqueue_t := {| size := 0; head := [] |}.

Definition priqueue_size (q : priqueue_t) : Z := size q.

(** The [while (i < priqueue_size(q))] loop of [priqueue_offer].
    [next] is [cNode->next]; the result is the new [cNode->next] and the
    value returned, or [None] when the loop ran out without inserting. *)
Fixpoint offer_walk (comp : A -> A -> res Z) (x : A) (sz i : Z) (next : list A)
  : res (option (list A * Z)) :=
  if i <? sz then
    match next with
    | [] => Ok (Some ([x], i))
    | e :: rest =>
        let! c := comp x e in
        if c <? 0 then Ok (Some (x :: e :: rest, i))
        else
          let! r := offer_walk comp x sz (i + 1) rest in
          Ok (match r with
              | Some (l, k) => Some (e :: l, k)
              | None => None
              end)
    end
  else Ok None.

Definition priqueue_offer (comp : A -> A -> res Z) (q : priqueue_t) (ptr : option A)
  : res (Z * priqueue_t) :=
  match ptr with
  | None => Ok (-1, q)
  | Some x =>
      match head q with
      | [] => Ok (0, {| size := wrap (size q + 1); head := [x] |})
      | h :: rest =>
          let! c := comp x h in
          if c <? 0 then Ok (0, {| size := wrap (size q + 1); head := x :: h :: rest |})
          else
            let! r := offer_walk comp x (priqueue_size q) 0 rest in
            match r with
            | Some (rest', i) =>
                Ok (i, {| size := wrap (size q + 1); head := h :: rest' |})
            | None => Ok (-1, q)
            end
      end
  end.

Definition priqueue_peek (q : priqueue_t) : res (option A) :=
  if priqueue_size q =? 0 then Ok None
  else match head q with
       | [] => Crash NullDeref
       | a :: _ => Ok (Some a)
       end.

Definition priqueue_poll (q : priqueue_t) : res (option A * priqueue_t) :=
  if priqueue_size q =? 0 then Ok (None, q)
  else match head q with
       | [] => Crash NullDeref
       | a :: nx => Ok (Some a, {| size := wrap (size q - 1); head := nx |})
       end.

(** [n] times [cNode = cNode->next]. *)
Fixpoint walk (n : nat) (cNode : list A) : res (list A) :=
  match n with
  | O => Ok cNode
  | S n' =>
      match cNode with
      | [] => Crash NullDeref
      | _ :: nx => walk n' nx
      end
  end.

Definition priqueue_at (q : priqueue_t) (index : Z) : res (option A) :=
  if (index >? priqueue_size q) || (index <? 0) then Ok None
  else
    let! cNode := walk (Z.to_nat index) (head q) in
    match cNode with
    | [] => Crash NullDeref
    | a :: _ => Ok (Some a)
    end.

(** [n] times [cNode = cNode->next], then unlink [cNode->next]: the
    data removed and the chain from the starting node. *)
Fixpoint unlink_after (n : nat) (cNode : list A) : res (A * list A) :=
  match cNode with
  | [] => Crash NullDeref
  | c :: nx =>
      match n with
      | O =>
          match nx with
          | [] => Crash NullDeref
          | r :: nx' => Ok (r, c :: nx')
          end
      | S n' =>
          let! '(d, nx') := unlink_after n' nx in
          Ok (d, c :: nx')
      end
  end.

Definition priqueue_remove_at (q : priqueue_t) (index : Z) : res (option A * priqueue_t) :=
  if (index >? priqueue_size q) || (index <? 0) then Ok (None, q)
  else if index =? 0 then
    match head q with
    | [] => Crash NullDeref
    | a :: nx => Ok (Some a, {| size := wrap (size q - 1); head := nx |})
    end
  else
    let! '(d, l) := unlink_after (Z.to_nat (index - 1)) (head q) in
    Ok (Some d, {| size := wrap (size q - 1); head := l |}).

(** The queue built by [priqueue_init] and kept by the operations:
    the counter is the number of nodes. *)
Definition wf (q : priqueue_t) : Prop := size q = Z.of_nat (length (head q)).

(** A chain in the order of the comparer [cmp] (negative when its first
    argument goes before its second): no node goes before a node that
    is placed before it. *)
Definition ordered (cmp : A -> A -> Z) (l : list A) : Prop :=
  StronglySorted (fun a b => ~ cmp b a < 0) l.

End Queue.

Arguments priqueue_t A : clear implicits.

Section Removal.
Context {A : Type} `{!EqDecision A}.

(** The first loop of [priqueue_remove],
    [while (priqueue_size(q) > 0 && q->head->data == ptr)]: [sz] and [l]
    are [q->size] and the chain from [q->head].  The body is
    [priqueue_poll] on a queue whose counter is not 0 and whose head was
    just read: it unlinks the head and decrements the counter.  The
    result is the counter, the chain and [removed] after the loop.  The
    nodes hold no [NULL], so [ptr == NULL] equals none of them. *)
Fixpoint remove_heads (ptr : option A) (sz : Z) (l : list A) (removed : Z)
  : res (Z * list A * Z) :=
  if sz >? 0 then
    match l with
    | [] => Crash NullDeref
    | a :: nx =>
        if decide (Some a = ptr)
        then remove_heads ptr (wrap (sz - 1)) nx (wrap (removed + 1))
        else Ok (sz, l, removed)
    end
  else Ok (sz, l, removed).

(** The second loop, [while (cNode->next != NULL)]: [next] is
    [cNode->next]; the result is the new [cNode->next], the counter and
    [removed]. *)
Fixpoint remove_walk (ptr : option A) (next : list A) (sz removed : Z)
  : list A * Z * Z :=
  match next with
  | [] => ([], sz, removed)
  | e :: rest =>
      if decide (Some e = ptr)
      then remove_walk ptr rest (wrap (sz - 1)) (wrap (removed + 1))
      else
        let '(rest', sz', removed') := remove_walk ptr rest sz removed in
        (e :: rest', sz', removed')
  end.

Definition priqueue_remove (q : priqueue_t A) (ptr : option A) : res (Z * priqueue_t A) :=
  let! '(sz, l, removed) := remove_heads ptr (size q) (head q) 0 in
  if sz >? 0 then
    match l with
    | [] => Crash NullDeref
    | c :: next =>
        let '(next', sz', removed') := remove_walk ptr next sz removed in
        Ok (removed', {| size := sz'; head := c :: next' |})
    end
  else Ok (removed, {| size := sz; head := l |}).

(** [priqueue_destroy]: [while (priqueue_size(q) > 0) priqueue_poll(q);]
    with the counter [sz] and the chain [l]; [priqueue_poll] reads
    [q->head->data] when the counter is not 0. *)
Fixpoint destroy_walk (sz : Z) (l : list A) : res (priqueue_t A) :=
  if sz >? 0 then
    match l with
    | [] => Crash NullDeref
    | _ :: nx => destroy_walk (wrap (sz - 1)) nx
    end
  else Ok {| size := sz; head := l |}.

Definition priqueue_destroy (q : priqueue_t A) : res (priqueue_t A) :=
  destroy_walk (size q) (head q).

End Removal.

End PriQueue.

(** ** libscheduler: jobs, cores and the three events *)

Module Scheduler.

Import PriQueue.

(** [scheme_t] *)
Inductive scheme_t : Type := FCFS | SJF | PSJF | PRI | PPRI | RR.

(** [job_t].  [malloc] does not initialise the object: [t_waiting] and
    [t_end] are written some time after creation and are [None] before;
    the other fields are all written at the start of [scheduler_new_job]. *)
Record job_t : Type := mkjob {
  t_arrival : Z;
  t_total : Z;
  t_remaining : Z;
  t_waiting : option Z;
  t_updated : Z;
  t_started : Z;
  t_end : option Z;
  job_id : Z;
  priority : Z;
  j_core : Z
}.

Definition set_t_remaining (v : Z) (j : job_t) : job_t :=
  mkjob (t_arrival j) (t_total j) v (t_waiting j) (t_updated j) (t_started j)
        (t_end j) (job_id j) (priority j) (j_core j).
Definition set_t_waiting (v : Z) (j : job_t) : job_t :=
  mkjob (t_arrival j) (t_total j) (t_remaining j) (Some v) (t_updated j) (t_started j)
        (t_end j) (job_id j) (priority j) (j_core j).
Definition set_t_updated (v : Z) (j : job_t) : job_t :=
  mkjob (t_arrival j) (t_total j) (t_remaining j) (t_waiting j) v (t_started j)
        (t_end j) (job_id j) (priority j) (j_core j).
Definition set_t_started (v : Z) (j : job_t) : job_t :=
  mkjob (t_arrival j) (t_total j) (t_remaining j) (t_waiting j) (t_updated j) v
        (t_end j) (job_id j) (priority j) (j_core j).
Definition set_t_end (v : Z) (j : job_t) : job_t :=
  mkjob (t_arrival j) (t_total j) (t_remaining j) (t_waiting j) (t_updated j) (t_started j)
        (Some v) (job_id j) (priority j) (j_core j).
Definition set_j_core (v : Z) (j : job_t) : job_t :=
  mkjob (t_arrival j) (t_total j) (t_remaining j) (t_waiting j) (t_updated j) (t_started j)
        (t_end j) (job_id j) (priority j) v.

(** A [job_t*] that is not [NULL]: an address in the heap. *)
Abbreviation ptr := nat (only parsing).

(** The globals of libscheduler.c, with the [cores_t] and [priqueue_t]
    they point to, and the heap of malloc'ed [job_t] objects. *)
Record sched : Type := mksched {
  jobs : priqueue_t ptr;
  c_job : list (option ptr);
  n_cores : Z;
  t_scheme : scheme_t;
  c_time : Z;
  n_jobs : Z;
  t_response : float;
  t_wait : float;
  t_turnaround : float;
  heap : list (option job_t)
}.

Definition with_jobs (q : priqueue_t ptr) (s : sched) : sched :=
  mksched q (c_job s) (n_cores s) (t_scheme s) (c_time s) (n_jobs s)
          (t_response s) (t_wait s) (t_turnaround s) (heap s).
Definition with_c_job (c : list (option ptr)) (s : sched) : sched :=
  mksched (jobs s) c (n_cores s) (t_scheme s) (c_time s) (n_jobs s)
          (t_response s) (t_wait s) (t_turnaround s) (heap s).
Definition with_c_time (t : Z) (s : sched) : sched :=
  mksched (jobs s) (c_job s) (n_cores s) (t_scheme s) t (n_jobs s)
          (t_response s) (t_wait s) (t_turnaround s) (heap s).
Definition with_n_jobs (n : Z) (s : sched) : sched :=
  mksched (jobs s) (c_job s) (n_cores s) (t_scheme s) (c_time s) n
          (t_response s) (t_wait s) (t_turnaround s) (heap s).
Definition with_stats (r w t : float) (s : sched) : sched :=
  mksched (jobs s) (c_job s) (n_cores s) (t_scheme s) (c_time s) (n_jobs s)
          r w t (heap s).
Definition with_heap (h : list (option job_t)) (s : sched) : sched :=
  mksched (jobs s) (c_job s) (n_cores s) (t_scheme s) (c_time s) (n_jobs s)
          (t_response s) (t_wait s) (t_turnaround s) h.

(** *** Memory accesses *)

(** [*p] for a non-null [p]. *)
Definition load (h : list (option job_t)) (p : ptr) : res job_t :=
  match h !! p with
  | Some (Some j) => Ok j
  | Some None => Crash UseAfterFree
  | None => Crash WildPointer
  end.

(** [*p] for a pointer that may be [NULL]. *)
Definition deref (h : list (option job_t)) (p : option ptr) : res job_t :=
  match p with
  | None => Crash NullDeref
  | Some a => load h a
  end.

(** [p->f = v;] and sequences of such writes, as one function on the object. *)
Definition update (p : ptr) (f : job_t -> job_t) (s : sched) : res sched :=
  let! j := load (heap s) p in
  Ok (with_heap (<[p := Some (f j)]> (heap s)) s).

(** [free(p)] *)
Definition free (p : ptr) (s : sched) : res sched :=
  let! _ := load (heap s) p in
  Ok (with_heap (<[p := None]> (heap s)) s).

(** [c_cores->c_job[i]] as an rvalue. *)
Definition read_core (i : Z) (s : sched) : res (option ptr) :=
  if i <? 0 then Crash OutOfBounds
  else match c_job s !! Z.to_nat i with
       | Some v => Ok v
       | None => Crash OutOfBounds
       end.

(** [c_cores->c_job[i] = v;] *)
Definition write_core (i : Z) (v : option ptr) (s : sched) : res sched :=
  if (i <? 0) || (Z.of_nat (length (c_job s)) <=? i) then Crash OutOfBounds
  else Ok (with_c_job (<[Z.to_nat i := v]> (c_job s)) s).

(** [t_waiting] as an rvalue. *)
Definition read_waiting (j : job_t) : res Z :=
  match t_waiting j with
  | Some w => Ok w
  | None => Crash UninitField
  end.

(** *** The comparer *)

(** [comparer(p1, p2)]: [p1] is the job to insert, [p2] a job in the
    queue.  The queue never holds [NULL], so the [job_2 == NULL] test is
    false.  FCFS and RR return without reading either job. *)
Definition comparer (s : sched) (p1 p2 : ptr) : res Z :=
  match t_scheme s with
  | FCFS => Ok 1
  | SJF =>
      let! job_1 := load (heap s) p1 in
      let! job_2 := load (heap s) p2 in
      if (t_total job_1 <? t_remaining job_2) && (t_started job_2 =? -1)
      then Ok (-1) else Ok 1
  | PSJF =>
      let! job_1 := load (heap s) p1 in
      let! job_2 := load (heap s) p2 in
      if t_remaining job_1 <? t_remaining job_2 then Ok (-1) else Ok 1
  | PRI =>
      let! job_1 := load (heap s) p1 in
      let! job_2 := load (heap s) p2 in
      if (priority job_1 <? priority job_2) && (t_started job_2 =? -1)
      then Ok (-1) else Ok 1
  | PPRI =>
      let! job_1 := load (heap s) p1 in
      let! job_2 := load (heap s) p2 in
      if priority job_1 <? priority job_2 then Ok (-1) else Ok 1
  | RR => Ok 1
  end.

(** [priqueue_offer(jobs, job)] *)
Definition offer_job (job : ptr) (s : sched) : res (Z * sched) :=
  let! '(r, q) := priqueue_offer (comparer s) (jobs s) (Some job) in
  Ok (r, with_jobs q s).

(** *** increment_timestep *)

(** The body of the loop for the job on one core. *)
Definition tick_job (now : Z) (running_job : job_t) : job_t :=
  if (t_started running_job =? -1) && negb (t_updated running_job =? now)
  then set_t_started (t_updated running_job) running_job
  else
    set_t_updated now
      (set_t_remaining
         (wrap (t_remaining running_job - wrap (now - t_updated running_job)))
         running_job).

(** [for (i = ..; i < n_cores; i++)] with [n] iterations left. *)
Fixpoint increment_loop (n : nat) (i : Z) (s : sched) : res sched :=
  match n with
  | O => Ok s
  | S n' =>
      let! running_job := read_core i s in
      match running_job with
      | None => increment_loop n' (i + 1) s
      | Some p =>
          let! s' := update p (tick_job (c_time s)) s in
          increment_loop n' (i + 1) s'
      end
  end.

Definition increment_timestep (s : sched) : res sched :=
  increment_loop (Z.to_nat (n_cores s)) 0 s.

(** *** scheduler_start_up *)

(** [n_jobs] is not assigned by [scheduler_start_up]: it keeps the value
    0 that a global has when the program is loaded. *)
Definition scheduler_start_up (cores : Z) (scheme : scheme_t) : sched :=
  {| jobs := priqueue_init;
     c_job := replicate (Z.to_nat cores) None;
     n_cores := cores;
     t_scheme := scheme;
     c_time := 0;
     n_jobs := 0;
     t_response := fzero;
     t_wait := fzero;
     t_turnaround := fzero;
     heap := [] |}.

(** *** scheduler_new_job *)

(** [while (i < n_cores && c_job[i] != NULL) i++;] with [n] = [n_cores - i]. *)
Fixpoint free_core_scan (n : nat) (i : Z) (s : sched) : res Z :=
  match n with
  | O => Ok i
  | S n' =>
      let! c := read_core i s in
      match c with
      | None => Ok i
      | Some _ => free_core_scan n' (i + 1) s
      end
  end.

(** The PSJF loop: [remaining] is [job->t_remaining] of the arriving job. *)
Fixpoint psjf_scan (n : nat) (i : Z) (remaining : Z)
    (coretochange corejoblength : Z) (s : sched) : res Z :=
  match n with
  | O => Ok coretochange
  | S n' =>
      let! c := read_core i s in
      let! cj := deref (heap s) c in
      if t_remaining cj >? remaining then
        if t_remaining cj >? corejoblength
        then psjf_scan n' (i + 1) remaining i (t_remaining cj) s
        else psjf_scan n' (i + 1) remaining coretochange corejoblength s
      else psjf_scan n' (i + 1) remaining coretochange corejoblength s
  end.

(** The PPRI loop: [prio] is [job->priority] of the arriving job. *)
Fixpoint ppri_scan (n : nat) (i : Z) (prio : Z)
    (coretochange corepriority : Z) (s : sched) : res Z :=
  match n with
  | O => Ok coretochange
  | S n' =>
      let! c := read_core i s in
      let! cj := deref (heap s) c in
      if priority cj >? prio then
        if priority cj >? corepriority
        then ppri_scan n' (i + 1) prio i (priority cj) s
        else if priority cj =? corepriority then
          let! o := read_core coretochange s in
          let! oj := deref (heap s) o in
          if t_arrival cj >? t_arrival oj
          then ppri_scan n' (i + 1) prio i corepriority s
          else ppri_scan n' (i + 1) prio coretochange corepriority s
        else ppri_scan n' (i + 1) prio coretochange corepriority s
      else ppri_scan n' (i + 1) prio coretochange corepriority s
  end.

(** The writes to the evicted job [c_cores->c_job[coretochange]]. *)
Definition evict_job (now : Z) (j : job_t) : job_t :=
  let j1 := set_t_updated now (set_j_core (-1) j) in
  if t_started j1 =? now
  then set_t_updated (-1) (set_t_started (-1) j1)
  else j1.

(** The writes to the arriving job when it gets core [i] at once. *)
Definition start_job (now i : Z) (j : job_t) : job_t :=
  set_j_core i (set_t_updated now (set_t_started now (set_t_waiting 0 j))).

Definition scheduler_new_job (job_number time running_time priority : Z) (s : sched)
  : res (Z * sched) :=
  let job : ptr := length (heap s) in
  let fresh :=
    {| t_arrival := time; t_total := running_time; t_remaining := running_time;
       t_waiting := None; t_updated := -1; t_started := -1; t_end := None;
       job_id := job_number; priority := priority; j_core := -1 |} in
  let s := with_heap (heap s ++ [Some fresh]) s in
  let s := with_n_jobs (wrap (n_jobs s + 1)) (with_c_time time s) in
  let! s := increment_timestep s in
  let! i := free_core_scan (Z.to_nat (n_cores s)) 0 s in
  if i <? n_cores s then
    let! s := update job (start_job (c_time s) i) s in
    let! s := write_core i (Some job) s in
    let! '(_, s) := offer_job job s in
    Ok (i, s)
  else
    let! j := load (heap s) job in
    let! coretochange :=
      match t_scheme s with
      | PSJF => psjf_scan (Z.to_nat (n_cores s)) 0 (t_remaining j) (-1) (-1) s
      | PPRI => ppri_scan (Z.to_nat (n_cores s)) 0 (Scheduler.priority j) (-1) (-1) s
      | _ => Ok (-1)
      end in
    if negb (coretochange =? -1) then
      let! s := update job (start_job (c_time s) coretochange) s in
      let! old := read_core coretochange s in
      match old with
      | None => Crash NullDeref
      | Some o =>
          let! s := update o (evict_job (c_time s)) s in
          let! s := write_core coretochange (Some job) s in
          let! '(_, s) := offer_job job s in
          Ok (coretochange, s)
      end
    else
      let! '(_, s) := offer_job job s in
      Ok (-1, s).

(** *** scheduler_job_finished *)

(** The search [while (i < priqueue_size(jobs))] for the finished job,
    with [n] iterations left.  [job_finished] is the local variable:
    [None] while it has not been assigned, [Some None] when it holds
    [NULL].  The result is its value after the loop and the queue. *)
Fixpoint finished_scan (n : nat) (i : Z) (job_number : Z) (h : list (option job_t))
    (q : priqueue_t ptr) (job_finished : option (option ptr))
  : res (option (option ptr) * priqueue_t ptr) :=
  match n with
  | O => Ok (job_finished, q)
  | S n' =>
      let! r := priqueue_at q i in
      let! j := deref h r in
      if job_id j =? job_number then
        let! '(r', q') := priqueue_remove_at q i in
        Ok (Some r', q')
      else finished_scan n' (i + 1) job_number h q (Some r)
  end.

(** [v->f] for a local pointer variable [v]. *)
Definition local_ptr (v : option (option ptr)) : res ptr :=
  match v with
  | None => Crash UninitPointer
  | Some None => Crash NullDeref
  | Some (Some p) => Ok p
  end.

(** The three [+=] on the statistics for a job that ends. *)
Definition add_stats (j : job_t) (t_end_read : Z) (s : sched) : res sched :=
  let turnaround :=
    fadd (t_turnaround s) (fsub (float_of_int t_end_read) (float_of_int (t_arrival j))) in
  let! w := read_waiting j in
  let wait := fadd (t_wait s) (float_of_int w) in
  let response :=
    fadd (t_response s) (fsub (float_of_int (t_started j)) (float_of_int (t_arrival j))) in
  Ok (with_stats response wait turnaround s).

(** The search for the next job to run: [next_job] and [i] after the loop. *)
Fixpoint next_scan (n : nat) (i : Z) (h : list (option job_t))
    (q : priqueue_t ptr) (next_job : option ptr) : res (Z * option ptr) :=
  match n with
  | O => Ok (i, next_job)
  | S n' =>
      let! r := priqueue_at q i in
      match r with
      | None => next_scan n' (i + 1) h q None
      | Some p =>
          let! j := load h p in
          if j_core j =? -1 then Ok (i, Some p)
          else next_scan n' (i + 1) h q (Some p)
      end
  end.

(** The writes to [next_job] when it is given the core [core_id]. *)
Definition dispatch_job (now core_id : Z) (j : job_t) : res job_t :=
  if t_started j =? -1 then
    Ok (set_j_core core_id
          (set_t_waiting (wrap (now - t_arrival j))
             (set_t_updated now (set_t_started now j))))
  else
    let! w := read_waiting j in
    Ok (set_j_core core_id
          (set_t_updated now
             (set_t_waiting (wrap (w + wrap (now - t_updated j))) j))).

(** From [next_job->t_started == -1] to [return next_job->job_id]. *)
Definition dispatch (core_id : Z) (next_job : ptr) (s : sched) : res (Z * sched) :=
  let! j := load (heap s) next_job in
  let! j' := dispatch_job (c_time s) core_id j in
  let s := with_heap (<[next_job := Some j']> (heap s)) s in
  let! s := write_core core_id (Some next_job) s in
  Ok (job_id j', s).

Definition scheduler_job_finished (core_id job_number time : Z) (s : sched)
  : res (Z * sched) :=
  let s := with_c_time time s in
  let! s := increment_timestep s in
  let! '(v, q) :=
    finished_scan (Z.to_nat (priqueue_size (jobs s))) 0 job_number (heap s) (jobs s) None in
  let s := with_jobs q s in
  let! job_finished := local_ptr v in
  let! s := update job_finished (set_t_end time) s in
  let! j := load (heap s) job_finished in
  let! s := add_stats j time s in
  let! s := free job_finished s in
  let! s := write_core core_id None s in
  if priqueue_size (jobs s) =? 0 then Ok (-1, s)
  else
    let! '(i, next_job) :=
      next_scan (Z.to_nat (priqueue_size (jobs s))) 0 (heap s) (jobs s) None in
    if i >=? priqueue_size (jobs s) then Ok (-1, s)
    else
      match next_job with
      | Some p => dispatch core_id p s
      | None => Ok (-1, s)
      end.

(** *** scheduler_quantum_expired *)

(** What is done with [active_job] once it is found and removed from
    the queue. *)
Definition requeue_or_end (core_id : Z) (active_job : option ptr) (s : sched)
  : res sched :=
  let! j := deref (heap s) active_job in
  match active_job with
  | None => Crash NullDeref
  | Some p =>
      if negb (t_remaining j =? 0) then
        let! s := update p (fun j => set_t_updated (c_time s) (set_j_core (-1) j)) s in
        let! '(_, s) := offer_job p s in
        Ok s
      else
        let! s := update p (set_t_end (c_time s)) s in
        let! j := load (heap s) p in
        let! s := add_stats j (c_time s) s in
        let! s := write_core core_id None s in
        free p s
  end.

(** The search [while (i < length)] for the job on the core, with [n]
    iterations left. *)
Fixpoint active_scan (n : nat) (i : Z) (core_id : Z) (s : sched) : res sched :=
  match n with
  | O => Ok s
  | S n' =>
      let! r := priqueue_at (jobs s) i in
      let! j := deref (heap s) r in
      let! c := read_core core_id s in
      let! cj := deref (heap s) c in
      if job_id j =? job_id cj then
        let! '(r', q') := priqueue_remove_at (jobs s) i in
        requeue_or_end core_id r' (with_jobs q' s)
      else active_scan n' (i + 1) core_id s
  end.

(** The search for the next job: the first one in the queue with no core. *)
Fixpoint assign_scan (n : nat) (i : Z) (core_id : Z) (s : sched) : res (Z * sched) :=
  match n with
  | O => Ok (-1, s)
  | S n' =>
      let! r := priqueue_at (jobs s) i in
      let! j := deref (heap s) r in
      if j_core j =? -1 then
        match r with
        | Some p => dispatch core_id p s
        | None => Crash NullDeref
        end
      else assign_scan n' (i + 1) core_id s
  end.

Definition scheduler_quantum_expired (core_id time : Z) (s : sched) : res (Z * sched) :=
  let s := with_c_time time s in
  let! s := increment_timestep s in
  let length := priqueue_size (jobs s) in
  let! s := active_scan (Z.to_nat length) 0 core_id s in
  assign_scan (Z.to_nat (priqueue_size (jobs s))) 0 core_id s.

(** *** The averages *)

Definition scheduler_average_waiting_time (s : sched) : float :=
  if fnonzero (t_wait s) then fdiv (t_wait s) (float_of_int (n_jobs s)) else fzero.

Definition scheduler_average_turnaround_time (s : sched) : float :=
  if fnonzero (t_turnaround s) then fdiv (t_turnaround s) (float_of_int (n_jobs s))
  else fzero.

Definition scheduler_average_response_time (s : sched) : float :=
  if fnonzero (t_response s) then fdiv (t_response s) (float_of_int (n_jobs s))
  else fzero.

(** *** scheduler_show_queue *)

(** The arguments of one [printf] of [scheduler_show_queue]: the job
    number, the priority, the remaining time and the core. *)
Record shown : Type := mkshown {
  shown_id : Z;
  shown_priority : Z;
  shown_remaining : Z;
  shown_core : Z
}.

(** [while (i < length)] with [n] iterations left; [out] is what has
    been printed. *)
Fixpoint show_loop (n : nat) (i : Z) (s : sched) (out : list shown) : res (list shown) :=
  match n with
  | O => Ok out
  | S n' =>
      let! temp := priqueue_at (jobs s) i in
      let! j := deref (heap s) temp in
      show_loop n' (i + 1) s
        (out ++ [mkshown (job_id j) (priority j) (t_remaining j) (j_core j)])
  end.

Definition scheduler_show_queue (s : sched) : res (list shown) :=
  let length := priqueue_size (jobs s) in
  show_loop (Z.to_nat length) 0 s [].

(** *** scheduler_clean_up *)

(** [priqueue_destroy(jobs)] frees the nodes of the queue; then the
    queue, the array of slots and [c_cores], which [scheduler_start_up]
    allocated, are freed, and nothing is called after.  No [job_t] is
    freed: the call leaves the heap of job objects as it is, and that
    heap is its result. *)
Definition scheduler_clean_up (s : sched) : res (list (option job_t)) :=
  let! _ := priqueue_destroy (jobs s) in
  Ok (heap s).

(** *** Calls from the simulator *)

Inductive event : Type :=
| NewJob (job_number time running_time priority : Z)
| JobFinished (core_id job_number time : Z)
| QuantumExpired (core_id time : Z).

Definition step (e : event) (s : sched) : res (Z * sched) :=
  match e with
  | NewJob job_number time running_time priority =>
      scheduler_new_job job_number time running_time priority s
  | JobFinished core_id job_number time =>
      scheduler_job_finished core_id job_number time s
  | QuantumExpired core_id time =>
      scheduler_quantum_expired core_id time s
  end.

(** The calls of a trace in order: the values returned and the last state. *)
Fixpoint run (es : list event) (s : sched) : res (list Z * sched) :=
  match es with
  | [] => Ok ([], s)
  | e :: es' =>
      let! '(r, s') := step e s in
      let! '(rs, s'') := run es' s' in
      Ok (r :: rs, s'')
  end.

End Scheduler.

(** ** Consistency of the state and the calls a simulator makes *)

Module Contract.

Import Scheduler.

(** [p] points to the live object [j]. *)
Definition job_at (s : sched) (p : ptr) (j : job_t) : Prop :=
  heap s !! p = Some (Some j).

Definition queued (s : sched) (p : ptr) : Prop := p ∈ PriQueue.head (jobs s).

(** The queue counts its nodes, holds no job twice, and every queued job
    is live; one that has a start time has had [t_waiting] written. *)
Definition queue_ok (s : sched) : Prop :=
  PriQueue.wf (jobs s) /\
  NoDup (PriQueue.head (jobs s)) /\
  forall p, queued s p ->
    exists j, job_at s p j /\ (t_started j <> -1 -> is_Some (t_waiting j)).

(** The job in slot [k]: queued, recorded on [k], started. *)
Definition core_ok (s : sched) (k : nat) (p : ptr) : Prop :=
  queued s p /\
  exists j, job_at s p j /\ j_core j = Z.of_nat k /\ t_started j <> -1 /\
            is_Some (t_waiting j).

(** All the slots but [skip], which is the slot an event is working on. *)
Definition cores_ok (skip : option nat) (s : sched) : Prop :=
  n_cores s = Z.of_nat (length (c_job s)) /\
  forall k p, Some k <> skip -> c_job s !! k = Some (Some p) -> core_ok s k p.

(** The clock has not gone below 0, where [scheduler_start_up] sets it,
    and the queue counter is an [int]. *)
Definition inv_but (skip : option nat) (s : sched) : Prop :=
  (0 <= c_time s /\ PriQueue.size (jobs s) <= INT_MAX) /\
  queue_ok s /\ cores_ok skip s.

(** The state between two calls. *)
Definition inv (s : sched) : Prop := inv_but None s.

(** Every taken slot points to a live job, and no job is in two slots. *)
Definition slots_live (s : sched) : Prop :=
  forall k p, c_job s !! k = Some (Some p) -> exists j, job_at s p j.

Definition slots_distinct (s : sched) : Prop :=
  forall k1 k2 p,
    c_job s !! k1 = Some (Some p) -> c_job s !! k2 = Some (Some p) -> k1 = k2.

(** What [increment_timestep] keeps of a job. *)
Definition tick_rel (j j' : job_t) : Prop :=
  job_id j' = job_id j /\ priority j' = priority j /\
  t_arrival j' = t_arrival j /\ t_total j' = t_total j /\
  j_core j' = j_core j /\ t_waiting j' = t_waiting j /\ t_end j' = t_end j /\
  (t_started j <> -1 -> t_started j' = t_started j).

(** Two heaps with the same cells, live jobs related by [tick_rel]. *)
Definition heap_rel (h h' : list (option job_t)) : Prop :=
  forall p,
    match h !! p with
    | Some (Some j) => exists j', h' !! p = Some (Some j') /\ tick_rel j j'
    | o => h' !! p = o
    end.

(** Every slot is taken by a live job. *)
Definition all_busy (s : sched) : Prop :=
  forall i, (i < length (c_job s))%nat ->
    exists p j, c_job s !! i = Some (Some p) /\ job_at s p j.

(** The variables [coretochange] and [corepriority] of the PPRI scan
    when it has looked at the slots below [k], for an arriving job of
    priority [prio]: either no slot so far holds a job of a greater
    priority number, or [coretochange] is a slot with the greatest such
    number, [corepriority], and no slot with that number holds a job that
    arrived later. *)
Definition ppri_state (s : sched) (prio : Z) (k : nat) (coretochange corepriority : Z)
  : Prop :=
  (coretochange = -1 /\ corepriority = -1 /\
   forall i p j, (i < k)%nat -> c_job s !! i = Some (Some p) -> job_at s p j ->
     priority j <= prio)
  \/
  (exists (c : nat) pc jc,
     coretochange = Z.of_nat c /\ (c < k)%nat /\
     c_job s !! c = Some (Some pc) /\ job_at s pc jc /\
     priority jc = corepriority /\ prio < corepriority /\
     forall i p j, (i < k)%nat -> c_job s !! i = Some (Some p) -> job_at s p j ->
       prio < priority j ->
       priority j <= corepriority /\
       (priority j = corepriority -> t_arrival j <= t_arrival jc)).

(** What a call of [scheduler_new_job] at [time] with priority [prio]
    did, from the state [s] to the result [r] and the state [s']; the
    arriving job is at the address [length (heap s)].  Either it got the
    lowest free slot; or all slots were taken and it replaced the job [o]
    of the slot [r], under PSJF or PPRI; or all slots were taken and
    nothing changed on the cores. *)
Definition new_job_outcome (s : sched) (time prio r : Z) (s' : sched) : Prop :=
  let job := length (heap s) in
  (exists i : nat,
     r = Z.of_nat i /\ c_job s !! i = Some None /\
     (forall i', (i' < i)%nat -> exists p, c_job s !! i' = Some (Some p)) /\
     c_job s' = <[i := Some job]> (c_job s))
  \/
  (all_busy s /\
   exists (c : nat) o jo,
     r = Z.of_nat c /\ c_job s !! c = Some (Some o) /\ job_at s o jo /\
     c_job s' = <[c := Some job]> (c_job s) /\
     job_at s' o (evict_job time (tick_job time jo)) /\
     match t_scheme s with
     | PSJF => True
     | PPRI => exists cp, ppri_state s prio (length (c_job s)) r cp
     | _ => False
     end)
  \/
  (all_busy s /\ r = -1 /\ c_job s' = c_job s /\
   (t_scheme s = PPRI ->
    exists cp, ppri_state s prio (length (c_job s)) (-1) cp)).

(** What a call of [scheduler_job_finished] for the slot [core_id] did:
    the job [p] of that slot was unlinked and freed, and the slot is
    empty or holds a job that waited in the queue. *)
Definition job_finished_outcome (s : sched) (core_id r : Z) (s' : sched) : Prop :=
  exists (c : nat) p,
    core_id = Z.of_nat c /\ c_job s !! c = Some (Some p) /\
    heap s' !! p = Some None /\ ~ queued s' p /\
    ((r = -1 /\ c_job s' = <[c := None]> (c_job s)) \/
     (exists p2 j2, r = job_id j2 /\ job_at s' p2 j2 /\
                    c_job s' = <[c := Some p2]> (c_job s))).

(** The first job of the chain [l] whose [job_id] is [id]: the one the
    searches of [scheduler_job_finished] and [scheduler_quantum_expired]
    stop at. *)
Fixpoint first_with_id (h : list (option job_t)) (id : Z) (l : list ptr) : option ptr :=
  match l with
  | [] => None
  | p :: l' =>
      match h !! p with
      | Some (Some j) => if job_id j =? id then Some p else first_with_id h id l'
      | _ => None
      end
  end.

(** The first job of the chain [l] that is on no core ([j_core == -1]):
    the one the dispatch searches stop at. *)
Fixpoint first_idle (h : list (option job_t)) (l : list ptr) : option ptr :=
  match l with
  | [] => None
  | p :: l' =>
      match h !! p with
      | Some (Some j) => if j_core j =? -1 then Some p else first_idle h l'
      | _ => None
      end
  end.

(** [l'] is [l] with [p] linked in somewhere. *)
Definition inserted (p : ptr) (l l' : list ptr) : Prop :=
  exists l1 l2, l = l1 ++ l2 /\ l' = l1 ++ p :: l2.

(** The job in slot [core_id], if the index is valid and the slot taken. *)
Definition running_on (s : sched) (core_id : Z) : option ptr :=
  if core_id <? 0 then None
  else match c_job s !! Z.to_nat core_id with
       | Some (Some p) => Some p
       | _ => None
       end.

(** The calls the simulator makes: the clock does not go back; a
    completion or a quantum expiry is reported for the core the job runs
    on, and the search by [job_id] finds that job; the queue counter has
    room for one more job; under PPRI no priority is below the -1 that
    the preemption scan starts from. *)
Definition admissible (s : sched) (e : event) : bool :=
  match e with
  | NewJob _ time _ prio =>
      (c_time s <=? time) && (PriQueue.size (jobs s) <? INT_MAX) &&
      match t_scheme s with
      | PPRI => -1 <=? prio
      | _ => true
      end
  | JobFinished core_id job_number time =>
      (c_time s <=? time) &&
      match running_on s core_id with
      | Some p =>
          bool_decide (first_with_id (heap s) job_number (PriQueue.head (jobs s)) = Some p)
      | None => false
      end
  | QuantumExpired core_id time =>
      (c_time s <=? time) &&
      match running_on s core_id with
      | Some p =>
          match heap s !! p with
          | Some (Some j) =>
              bool_decide
                (first_with_id (heap s) (job_id j) (PriQueue.head (jobs s)) = Some p)
          | _ => false
          end
      | None => false
      end
  end.

(** Every call of the trace is admissible in the state it is made in. *)
Fixpoint conforming (es : list event) (s : sched) : bool :=
  match es with
  | [] => true
  | e :: es' =>
      admissible s e &&
      match step e s with
      | Ok (_, s') => conforming es' s'
      | Crash _ => false
      end
  end.

(** The disciplines under which an arrival can take a core from a job. *)
Definition preemptive (scheme : scheme_t) : bool :=
  match scheme with
  | PSJF | PPRI => true
  | _ => false
  end.


Definition is_arrival (e : event) : bool :=
  match e with
  | NewJob _ _ _ _ => true
  | _ => false
  end.

(** The number of arrivals in a trace. *)
Fixpoint arrivals (es : list event) : nat :=
  match es with
  | [] => O
  | NewJob _ _ _ _ :: es' => S (arrivals es')
  | _ :: es' => arrivals es'
  end.

(** The heap [h1] that [increment_timestep] makes of the heap of [s]
    when the clock is set to [time]: the jobs in the slots, which all
    have a start time, are advanced and nothing else changes. *)
Definition ticked_heap (s : sched) (time : Z) (h1 : list (option job_t)) : Prop :=
  length h1 = length (heap s) /\
  heap_rel (heap s) h1 /\
  (forall k p j, c_job s !! k = Some (Some p) -> job_at s p j ->
     h1 !! p = Some (Some (tick_job time j)) /\ t_started j <> -1) /\
  (forall p, (forall k, c_job s !! k <> Some (Some p)) -> h1 !! p = heap s !! p).

(** The variables [coretochange] and [corejoblength] of the PSJF scan
    when it has looked at the slots below [k], for an arriving job with
    [remaining] time units: either no slot so far holds a job with more
    than [remaining] and more than -1 left, or [coretochange] is the
    lowest slot whose job has the most left, [corejoblength]. *)
Definition psjf_state (s : sched) (remaining : Z) (k : nat)
    (coretochange corejoblength : Z) : Prop :=
  (coretochange = -1 /\ corejoblength = -1 /\
   forall i p j, (i < k)%nat -> c_job s !! i = Some (Some p) -> job_at s p j ->
     t_remaining j <= Z.max remaining (-1))
  \/
  (exists (c : nat) pc jc,
     coretochange = Z.of_nat c /\ (c < k)%nat /\
     c_job s !! c = Some (Some pc) /\ job_at s pc jc /\
     t_remaining jc = corejoblength /\ Z.max remaining (-1) < corejoblength /\
     forall i p j, (i < k)%nat -> c_job s !! i = Some (Some p) -> job_at s p j ->
       t_remaining j <= corejoblength /\
       (t_remaining j = corejoblength -> (c <= i)%nat)).

(** Every job object that is allocated is in the queue. *)
Definition no_leak (s : sched) : Prop :=
  forall p j, job_at s p j -> queued s p.

(** No core is idle while a job of the queue is on no core. *)
Definition work_conserving (s : sched) : Prop :=
  (exists k, c_job s !! k = Some None) ->
  forall p j, queued s p -> job_at s p j -> j_core j <> -1.

(** The core that a job records is the slot that points to it. *)
Definition core_recorded (s : sched) : Prop :=
  forall q j, job_at s q j -> j_core j <> -1 ->
    exists k : nat, j_core j = Z.of_nat k /\ c_job s !! k = Some (Some q).

(** What a job keeps for as long as its object is allocated. *)
Definition same_identity (j j' : job_t) : Prop :=
  job_id j' = job_id j /\ t_arrival j' = t_arrival j /\
  t_total j' = t_total j /\ priority j' = priority j.

(** What one call at the time [now] does to a job whose object stays
    allocated and that no arriving job evicts: nothing, when the job is
    on no core and is not chosen; the clock advance, when it keeps its
    core; a dispatch from the queue; the clock advance and the loss of
    the core at the end of a quantum, after which the same job may be
    dispatched again. *)
Inductive job_step (now : Z) (j : job_t) : job_t -> Prop :=
| step_same : job_step now j j
| step_tick : t_started j <> -1 -> job_step now j (tick_job now j)
| step_dispatch core j' :
    j_core j = -1 -> dispatch_job now core j = Ok j' -> job_step now j j'
| step_requeue :
    t_started j <> -1 ->
    job_step now j (set_t_updated now (set_j_core (-1) (tick_job now j)))
| step_continue core j' :
    t_started j <> -1 ->
    dispatch_job now core (set_t_updated now (set_j_core (-1) (tick_job now j))) = Ok j' ->
    job_step now j j'.

(** [x] and [y] are the same [int] once reduced to 32 bits. *)
Definition cong32 (x y : Z) : Prop := wrap x = wrap y.

(** The times of a job add up: it has not arrived after the clock; a
    job with no start time has not run; a job with one has waited and
    run, between its arrival and its last update, for as long as that
    span (in 32-bit arithmetic); its start is not before its arrival,
    its last update is not before its start nor after the clock, and it
    has not run if the two are the same. *)
Definition accounted (clock : Z) (j : job_t) : Prop :=
  t_arrival j <= clock /\
  if t_started j =? -1 then cong32 (t_total j - t_remaining j) 0
  else
    exists w,
      t_waiting j = Some w /\
      cong32 (w + (t_total j - t_remaining j)) (t_updated j - t_arrival j) /\
      t_arrival j <= t_started j /\
      t_started j <= t_updated j <= clock /\
      (t_updated j = t_started j -> cong32 (t_total j - t_remaining j) 0).

Definition all_accounted (s : sched) : Prop :=
  forall p j, job_at s p j -> accounted (c_time s) j.

(** The order that the comparer of a discipline keeps between an earlier
    job [j1] and a later job [j2] of the queue: under PPRI by priority;
    under PRI by priority and under SJF by remaining time, for two jobs
    with no start time, since the comparer of these two never puts a
    job before one that has started.  The comparers of FCFS and RR put
    every job last, and the remaining times that the comparer of PSJF
    reads change while the jobs run. *)
Definition in_order (scheme : scheme_t) (j1 j2 : job_t) : Prop :=
  match scheme with
  | PPRI => priority j1 <= priority j2
  | PRI => t_started j1 = -1 -> t_started j2 = -1 -> priority j1 <= priority j2
  | SJF => t_started j1 = -1 -> t_started j2 = -1 -> t_remaining j1 <= t_remaining j2
  | _ => True
  end.

Definition heap_in_order (scheme : scheme_t) (h : list (option job_t)) (p q : ptr) : Prop :=
  forall jp jq, h !! p = Some (Some jp) -> h !! q = Some (Some jq) -> in_order scheme jp jq.

Definition queue_in_order (s : sched) : Prop :=
  StronglySorted (heap_in_order (t_scheme s) (heap s)) (PriQueue.head (jobs s)).

(** The order of the arrivals, which is the order of the queue under
    FCFS for as long as no quantum expires. *)
Definition heap_by_arrival (h : list (option job_t)) (p q : ptr) : Prop :=
  forall jp jq, h !! p = Some (Some jp) -> h !! q = Some (Some jq) ->
    t_arrival jp <= t_arrival jq.

Definition queue_by_arrival (s : sched) : Prop :=
  StronglySorted (heap_by_arrival (heap s)) (PriQueue.head (jobs s)).

(** A job of the queue that is on no core has never run: what holds
    under the disciplines without preemption for as long as no quantum
    expires. *)
Definition waiting_unstarted (s : sched) : Prop :=
  forall q j, job_at s q j -> j_core j = -1 ->
    t_started j = -1 /\ t_remaining j = t_total j.

Definition is_quantum_expiry (e : event) : bool :=
  match e with
  | QuantumExpired _ _ => true
  | _ => false
  end.

(** The object that [scheduler_new_job] allocates and initialises, and
    the state in which it calls [increment_timestep]. *)
Definition fresh_job (job_number time running_time priority : Z) : job_t :=
  mkjob time running_time running_time None (-1) (-1) None job_number priority (-1).

Definition arrival_state (job_number time running_time priority : Z) (s : sched) : sched :=
  with_n_jobs (wrap (n_jobs s + 1))
    (with_c_time time
       (with_heap (heap s ++ [Some (fresh_job job_number time running_time priority)]) s)).

(** The state in which a call runs [increment_timestep], its first
    step: the clock is set to the time of the call, and for an arrival
    the new object is allocated and counted. *)
Definition at_tick (e : event) (s : sched) : sched :=
  match e with
  | NewJob job_number time running_time priority =>
      arrival_state job_number time running_time priority s
  | JobFinished _ _ time => with_c_time time s
  | QuantumExpired _ time => with_c_time time s
  end.

End Contract.

(** ** States used as examples *)

Module Examples.

Import Scheduler.

(** Two cores at time 5: on core 0 a job with no start time that was
    last updated at 3, on core 1 a job started at 0 and updated at 2. *)
Definition two_cores_at_5 : sched :=
  {| jobs := {| PriQueue.size := 2; PriQueue.head := [0%nat; 1%nat] |};
     c_job := [Some 0%nat; Some 1%nat];
     n_cores := 2;
     t_scheme := FCFS;
     c_time := 5;
     n_jobs := 2;
     t_response := fzero;
     t_wait := fzero;
     t_turnaround := fzero;
     heap :=
       [Some (mkjob 3 5 5 (Some 0) 3 (-1) None 1 0 0);
        Some (mkjob 0 4 4 (Some 0) 2 0 None 2 0 1)] |}.

End Examples.

(** * Properties *)

Lemma bind_Ok {A B} (m : res A) (k : A -> res B) (b : B) :
  bind m k = Ok b -> exists a, m = Ok a /\ k a = Ok b.
Proof. destruct m as [a|f]; simpl; [eauto | discriminate]. Qed.

Lemma wrap_in_int x : in_int x -> wrap x = x.
Proof.
  unfold in_int, INT_MIN, INT_MAX, wrap. intros H.
  rewrite Z.mod_small; lia.
Qed.

Lemma wrap_range x : in_int (wrap x).
Proof.
  unfold in_int, INT_MIN, INT_MAX, wrap.
  pose proof (Z.mod_pos_bound (x + 2 ^ 31) (2 ^ 32)). lia.
Qed.

(** Decide the integer tests of the goal from the hypotheses. *)
Ltac ztest :=
  rewrite ?Z.gtb_ltb, ?Z.geb_leb;
  repeat match goal with
    | |- context [?a <? ?b] => destruct (Z.ltb_spec a b); try lia
    | |- context [?a <=? ?b] => destruct (Z.leb_spec a b); try lia
    | |- context [?a =? ?b] => destruct (Z.eqb_spec a b); try lia
    end;
  cbn [orb andb negb].

(** ** The queue *)

Module PriQueueFacts.

Import PriQueue.

Section Facts.
Context {A : Type}.
Implicit Types (q : priqueue_t A) (l : list A) (x : A).

Lemma walk_eq n l :
  walk n l = if decide (n <= length l)%nat then Ok (drop n l) else Crash NullDeref.
Proof.
  revert l. induction n as [|n IH]; intros l.
  - destruct (decide (0 <= length l)%nat); [by rewrite drop_0 | lia].
  - destruct l as [|a l]; cbn [walk].
    + destruct (decide (S n <= length (@nil A))%nat) as [H|H]; [simpl in H; lia | done].
    + rewrite IH. cbn [length drop].
      destruct (decide (n <= length l)%nat), (decide (S n <= S (length l))%nat);
        try lia; done.
Qed.

(** [priqueue_at] in closed form: past the guard, the [index]-th node
    is read whether it exists or not. *)
Lemma priqueue_at_eq q index :
  priqueue_at q index =
  if (index >? size q) || (index <? 0) then Ok None
  else match head q !! Z.to_nat index with
       | Some a => Ok (Some a)
       | None => Crash NullDeref
       end.
Proof.
  unfold priqueue_at, priqueue_size.
  destruct ((index >? size q) || (index <? 0)); [done|].
  rewrite walk_eq. case_decide as Hn; simpl.
  - destruct (drop (Z.to_nat index) (head q)) as [|a l'] eqn:Hd.
    + rewrite lookup_ge_None_2; [done|].
      apply (f_equal length) in Hd. rewrite length_drop in Hd. simpl in Hd. lia.
    + rewrite <- (Nat.add_0_r (Z.to_nat index)), <- lookup_drop, Hd. done.
  - rewrite lookup_ge_None_2 by lia. done.
Qed.

Lemma unlink_after_eq n l :
  unlink_after n l =
  match l !! S n with
  | Some a => Ok (a, delete (S n) l)
  | None => Crash NullDeref
  end.
Proof.
  revert l. induction n as [|n IH]; intros [|c nx]; simpl; try done.
  - by destruct nx.
  - rewrite IH. simpl. destruct nx as [|c' nx']; simpl; [done|].
    destruct (nx' !! n); done.
Qed.

Lemma priqueue_remove_at_eq q index :
  priqueue_remove_at q index =
  if (index >? size q) || (index <? 0) then Ok (None, q)
  else match head q !! Z.to_nat index with
       | Some a =>
           Ok (Some a, {| size := wrap (size q - 1);
                          head := delete (Z.to_nat index) (head q) |})
       | None => Crash NullDeref
       end.
Proof.
  unfold priqueue_remove_at, priqueue_size.
  destruct ((index >? size q) || (index <? 0)) eqn:Hg; [done|].
  apply orb_false_iff in Hg as [_ Hneg]. apply Z.ltb_ge in Hneg.
  destruct (index =? 0) eqn:H0.
  - apply Z.eqb_eq in H0. subst index. simpl. by destruct (head q).
  - apply Z.eqb_neq in H0. rewrite unlink_after_eq.
    replace (S (Z.to_nat (index - 1))) with (Z.to_nat index) by lia.
    destruct (head q !! Z.to_nat index); done.
Qed.

(** The boundary [index == size]: the guard lets it through and the
    walk ends on [NULL]. *)
Lemma priqueue_at_size q : wf q -> priqueue_at q (size q) = Crash NullDeref.
Proof.
  unfold wf. intros Hwf. rewrite priqueue_at_eq.
  ztest. rewrite lookup_ge_None_2 by lia. done.
Qed.

Lemma priqueue_remove_at_size q : wf q -> priqueue_remove_at q (size q) = Crash NullDeref.
Proof.
  unfold wf. intros Hwf. rewrite priqueue_remove_at_eq.
  ztest. rewrite lookup_ge_None_2 by lia. done.
Qed.

Lemma priqueue_at_in_range q index a :
  0 <= index -> head q !! Z.to_nat index = Some a -> index <= size q ->
  priqueue_at q index = Ok (Some a).
Proof.
  intros H0 Ha Hs. rewrite priqueue_at_eq, Ha.
  ztest. done.
Qed.

Lemma priqueue_at_out_of_range q index :
  index < 0 \/ size q < index -> priqueue_at q index = Ok None.
Proof.
  intros H. rewrite priqueue_at_eq.
  destruct H as [H|H]; ztest; done.
Qed.

Lemma priqueue_remove_at_in_range q index a :
  0 <= index -> head q !! Z.to_nat index = Some a -> index <= size q ->
  priqueue_remove_at q index =
  Ok (Some a, {| size := wrap (size q - 1); head := delete (Z.to_nat index) (head q) |}).
Proof.
  intros H0 Ha Hs. rewrite priqueue_remove_at_eq, Ha.
  ztest. done.
Qed.

Lemma priqueue_remove_at_out_of_range q index :
  index < 0 \/ size q < index -> priqueue_remove_at q index = Ok (None, q).
Proof.
  intros H. rewrite priqueue_remove_at_eq.
  destruct H as [H|H]; ztest; done.
Qed.

(** The insertion loop on a chain whose remaining length is below the
    counter: it always inserts, before the first node that [x] precedes. *)
Lemma offer_walk_spec (comp : A -> A -> res Z) x sz i next :
  Z.of_nat (length next) + 1 <= sz - i ->
  (forall e, e ∈ next -> exists z, comp x e = Ok z) ->
  exists l1 l2,
    next = l1 ++ l2 /\
    offer_walk comp x sz i next = Ok (Some (l1 ++ x :: l2, i + Z.of_nat (length l1))) /\
    (forall e, e ∈ l1 -> exists z, comp x e = Ok z /\ 0 <= z) /\
    (l2 = [] \/ exists e l2' z, l2 = e :: l2' /\ comp x e = Ok z /\ z < 0).
Proof.
  revert i. induction next as [|e rest IH]; intros i Hlen Htot; cbn [offer_walk].
  - exists [], []. simpl in Hlen. ztest. rewrite Z.add_0_r.
    split_and!; try done; [|by left]. intros e He. by apply elem_of_nil in He.
  - cbn [length] in Hlen. ztest.
    destruct (Htot e) as [z Hz]; [by left|]. rewrite Hz. cbn [bind].
    destruct (Z.ltb_spec z 0) as [Hneg|Hpos].
    + exists [], (e :: rest). rewrite Z.add_0_r.
      split_and!; try done; [|right; eauto 10].
      intros e' He'. by apply elem_of_nil in He'.
    + destruct (IH (i + 1)) as (l1 & l2 & -> & Hw & Hl1 & Hl2); [lia| |].
      { intros e' He'. apply Htot. by right. }
      exists (e :: l1), l2. rewrite Hw. cbn [bind length].
      split_and!; try done; [simpl; do 3 f_equal; lia|].
      intros e' He'. apply elem_of_cons in He' as [->|He']; eauto.
Qed.

(** What [priqueue_offer] does to a well-formed queue: [x] goes before
    the first node it precedes and after all the nodes before that one.
    The value returned is the index of the node [x] was linked behind:
    one less than the index of [x], except at the front. *)
Lemma priqueue_offer_spec (comp : A -> A -> res Z) q x :
  wf q ->
  (forall e, e ∈ head q -> exists z, comp x e = Ok z) ->
  exists l1 l2,
    head q = l1 ++ l2 /\
    priqueue_offer comp q (Some x) =
      Ok (Z.max 0 (Z.of_nat (length l1) - 1),
          {| size := wrap (size q + 1); head := l1 ++ x :: l2 |}) /\
    (forall e, e ∈ l1 -> exists z, comp x e = Ok z /\ 0 <= z) /\
    (l2 = [] \/ exists e l2' z, l2 = e :: l2' /\ comp x e = Ok z /\ z < 0).
Proof.
  unfold wf, priqueue_offer, priqueue_size. intros Hwf Htot.
  destruct (head q) as [|h rest] eqn:Hh.
  - exists [], []. split_and!; try done; [|by left].
    intros e He. by apply elem_of_nil in He.
  - destruct (Htot h) as [z Hz]; [by left|]. rewrite Hz. cbn [bind].
    destruct (Z.ltb_spec z 0) as [Hneg|Hpos].
    + exists [], (h :: rest). split_and!; try done; [|right; eauto 10].
      intros e He. by apply elem_of_nil in He.
    + destruct (offer_walk_spec comp x (size q) 0 rest) as (l1 & l2 & -> & Hw & Hl1 & Hl2).
      { cbn [length] in Hwf. lia. }
      { intros e He. apply Htot. by right. }
      exists (h :: l1), l2. rewrite Hw. cbn [bind length].
      split_and!; try done; [simpl; do 2 f_equal; lia|].
      intros e He. apply elem_of_cons in He as [->|He]; eauto.
Qed.

End Facts.

End PriQueueFacts.

(** ** The scheduler *)

Module SchedulerFacts.

Import Scheduler Contract.

Lemma load_job h p j : h !! p = Some (Some j) -> load h p = Ok j.
Proof. unfold load. by intros ->. Qed.

Lemma update_job s p j f :
  job_at s p j -> update p f s = Ok (with_heap (<[p := Some (f j)]> (heap s)) s).
Proof. unfold job_at, update. intros H. by rewrite (load_job _ _ _ H). Qed.

Lemma free_job s p j :
  job_at s p j -> free p s = Ok (with_heap (<[p := None]> (heap s)) s).
Proof. unfold job_at, free. intros H. by rewrite (load_job _ _ _ H). Qed.

Lemma read_core_nat s (k : nat) v :
  c_job s !! k = Some v -> read_core (Z.of_nat k) s = Ok v.
Proof.
  unfold read_core. intros H. ztest. by rewrite Nat2Z.id, H.
Qed.

Lemma write_core_nat s (k : nat) v :
  (k < length (c_job s))%nat ->
  write_core (Z.of_nat k) v s = Ok (with_c_job (<[k := v]> (c_job s)) s).
Proof.
  unfold write_core. intros H. ztest. by rewrite Nat2Z.id.
Qed.

Lemma tick_job_started now j :
  t_started j <> -1 ->
  tick_job now j =
  set_t_updated now
    (set_t_remaining (wrap (t_remaining j - wrap (now - t_updated j))) j).
Proof. unfold tick_job. intros H. ztest; done. Qed.

Lemma tick_job_rel now j : tick_rel j (tick_job now j).
Proof.
  unfold tick_job, tick_rel.
  destruct ((t_started j =? -1) && negb (t_updated j =? now)) eqn:E;
    simpl; split_and!; try done.
  apply andb_true_iff in E as [E _]. apply Z.eqb_eq in E. done.
Qed.

Lemma tick_rel_refl j : tick_rel j j.
Proof. unfold tick_rel. split_and!; done. Qed.

(** *** increment_timestep *)

Lemma increment_loop_spec n k s :
  (k + n = length (c_job s))%nat -> slots_live s -> slots_distinct s ->
  exists h',
    increment_loop n (Z.of_nat k) s = Ok (with_heap h' s) /\
    length h' = length (heap s) /\
    (forall i p j, (k <= i)%nat -> c_job s !! i = Some (Some p) -> job_at s p j ->
       h' !! p = Some (Some (tick_job (c_time s) j))) /\
    (forall p, (forall i, (k <= i)%nat -> c_job s !! i <> Some (Some p)) ->
       h' !! p = heap s !! p).
Proof.
  revert k s. induction n as [|n IH]; intros k s Hlen Hlive Hdist.
  - exists (heap s). split_and!; try done.
    + by destruct s.
    + intros i p j Hi Hp _. apply lookup_lt_Some in Hp. lia.
  - cbn [increment_loop].
    destruct (lookup_lt_is_Some_2 (c_job s) k) as [c Hc]; [lia|].
    rewrite (read_core_nat _ _ _ Hc). cbn [bind].
    replace (Z.of_nat k + 1) with (Z.of_nat (S k)) by lia.
    destruct c as [p|].
    + destruct (Hlive _ _ Hc) as [j Hj].
      rewrite (update_job _ _ _ _ Hj). cbn [bind].
      set (s1 := with_heap _ s).
      destruct (IH (S k) s1) as (h' & Hrun & Hl & Hin & Hout).
      { simpl. lia. }
      { intros i q Hq. simpl in Hq. destruct (Hlive _ _ Hq) as [jq Hjq].
        unfold job_at, s1. simpl.
        destruct (decide (q = p)) as [->|Hne].
        - rewrite list_lookup_insert_eq; [eauto|]. by eapply lookup_lt_Some.
        - rewrite list_lookup_insert_ne by done. eauto. }
      { exact Hdist. }
      exists h'. split_and!.
      * rewrite Hrun. by destruct s.
      * rewrite Hl. unfold s1. simpl. by rewrite length_insert.
      * intros i q jq Hi Hq Hjq.
        destruct (decide (i = k)) as [->|Hik].
        -- assert (q = p) as -> by congruence.
           assert (jq = j) as -> by (unfold job_at in *; congruence).
           rewrite Hout.
           ++ unfold s1. simpl. rewrite list_lookup_insert_eq; [done|].
              by eapply lookup_lt_Some.
           ++ intros i' Hi' Hq'. simpl in Hq'.
              specialize (Hdist _ _ _ Hc Hq'). lia.
        -- assert (q <> p) as Hne.
           { intros ->. specialize (Hdist _ _ _ Hc Hq). lia. }
           rewrite (Hin i q jq); [done|lia|done|].
           unfold job_at, s1. simpl. by rewrite list_lookup_insert_ne.
      * intros q Hq. rewrite Hout.
        -- unfold s1. simpl. rewrite list_lookup_insert_ne; [done|].
           intros ->. by apply (Hq k).
        -- intros i Hi. apply Hq. lia.
    + destruct (IH (S k) s) as (h' & Hrun & Hl & Hin & Hout); [lia|done|done|].
      exists h'. split_and!; try done.
      * intros i q jq Hi Hq Hjq. apply (Hin i); [|done|done].
        destruct (decide (i = k)) as [->|]; [congruence|lia].
      * intros q Hq. apply Hout. intros i Hi. apply Hq. lia.
Qed.

Lemma increment_timestep_spec s :
  n_cores s = Z.of_nat (length (c_job s)) -> slots_live s -> slots_distinct s ->
  exists h',
    increment_timestep s = Ok (with_heap h' s) /\
    length h' = length (heap s) /\
    (forall k p j, c_job s !! k = Some (Some p) -> job_at s p j ->
       h' !! p = Some (Some (tick_job (c_time s) j))) /\
    (forall p, (forall k, c_job s !! k <> Some (Some p)) -> h' !! p = heap s !! p).
Proof.
  intros Hn Hlive Hdist. unfold increment_timestep.
  destruct (increment_loop_spec (length (c_job s)) 0 s) as (h' & Hrun & Hl & Hin & Hout);
    [done..|].
  exists h'. rewrite Hn, Nat2Z.id. split_and!; try done.
  - intros k p j. apply Hin. lia.
  - intros p Hp. apply Hout. intros i _. apply Hp.
Qed.

(** *** The invariant under each kind of write *)

(** Split [inv_but] into its seven parts. *)
Ltac split_inv := split; [ split | split; [ split; [ | split ] | split ] ].

Lemma inv_slots_live s : inv s -> slots_live s.
Proof.
  intros (_ & _ & _ & Hc). unfold slots_live. intros k p Hk.
  destruct (Hc k p) as (_ & j & Hj & _); [done|done|]. eauto.
Qed.

Lemma inv_slots_distinct s : inv s -> slots_distinct s.
Proof.
  intros (_ & _ & _ & Hc). unfold slots_distinct. intros k1 k2 p H1 H2.
  destruct (Hc k1 p) as (_ & j1 & Hj1 & Hk1 & _); [done|done|].
  destruct (Hc k2 p) as (_ & j2 & Hj2 & Hk2 & _); [done|done|].
  unfold job_at in *. assert (j1 = j2) as -> by congruence. lia.
Qed.

Lemma inv_open c s : inv s -> inv_but (Some c) s.
Proof.
  intros ((Ht & Hbd) & Hq & Hn & Hc). do 3 (split; [done|]).
  intros k p _. by apply Hc.
Qed.

Lemma inv_close c s :
  inv_but (Some c) s ->
  (forall p, c_job s !! c = Some (Some p) -> core_ok s c p) ->
  inv s.
Proof.
  intros ((Ht & Hbd) & Hq & Hn & Hc) Hcc. do 3 (split; [done|]).
  intros k p _ Hk. destruct (decide (k = c)) as [->|Hne]; [by apply Hcc|].
  apply Hc; [congruence|done].
Qed.

Lemma inv_but_update skip s p j j' :
  inv_but skip s -> job_at s p j ->
  (queued s p -> t_started j' <> -1 -> is_Some (t_waiting j')) ->
  (forall k, Some k <> skip -> c_job s !! k = Some (Some p) ->
     j_core j' = Z.of_nat k /\ t_started j' <> -1 /\ is_Some (t_waiting j')) ->
  inv_but skip (with_heap (<[p := Some j']> (heap s)) s).
Proof.
  intros ((Ht & Hbd) & (Hwf & Hnd & Hq) & Hn & Hc) Hj Hpq Hpc.
  assert (p < length (heap s))%nat as Hlt by (by eapply lookup_lt_Some).
  split_inv; try done.
  - intros q Hqq. destruct (decide (q = p)) as [->|Hne].
    + exists j'. split; [|by apply Hpq].
      unfold job_at. simpl. by rewrite list_lookup_insert_eq.
    + destruct (Hq q Hqq) as (jq & Hjq & Hw). exists jq. split; [|done].
      unfold job_at. simpl. by rewrite list_lookup_insert_ne.
  - intros k q Hk Hkq. simpl in Hkq.
    destruct (Hc k q Hk Hkq) as (Hqq & jq & Hjq & Hcore).
    split; [done|].
    destruct (decide (q = p)) as [->|Hne].
    + exists j'. split; [|by apply Hpc].
      unfold job_at. simpl. by rewrite list_lookup_insert_eq.
    + exists jq. split; [|done].
      unfold job_at. simpl. by rewrite list_lookup_insert_ne.
Qed.

Lemma inv_but_write_core c v s :
  inv_but (Some c) s -> inv_but (Some c) (with_c_job (<[c := v]> (c_job s)) s).
Proof.
  intros ((Ht & Hbd) & Hq & Hn & Hc). split; [done|split; [done|split]].
  - simpl. by rewrite length_insert.
  - intros k p Hk Hkp. simpl in Hkp.
    rewrite list_lookup_insert_ne in Hkp by congruence.
    by apply (Hc k p).
Qed.

Lemma inv_but_malloc skip s j :
  inv_but skip s -> inv_but skip (with_heap (heap s ++ [Some j]) s).
Proof.
  intros ((Ht & Hbd) & (Hwf & Hnd & Hq) & Hn & Hc).
  assert (forall q jq, job_at s q jq -> job_at (with_heap (heap s ++ [Some j]) s) q jq)
    as Hkeep.
  { unfold job_at. simpl. intros q jq Hjq. rewrite lookup_app_l; [done|].
    by eapply lookup_lt_Some. }
  split_inv; try done.
  - intros q Hqq. destruct (Hq q Hqq) as (jq & Hjq & Hw). eauto.
  - intros k q Hk Hkq. destruct (Hc k q Hk Hkq) as (Hqq & jq & Hjq & Hcore).
    split; [done|]. eauto.
Qed.

Lemma inv_but_c_time skip s t :
  inv_but skip s -> 0 <= t -> inv_but skip (with_c_time t s).
Proof. intros ((Ht & Hs) & Hq & Hc) H0. by split. Qed.

Lemma inv_but_free skip s p :
  inv_but skip s -> ~ queued s p ->
  (forall k, Some k <> skip -> c_job s !! k <> Some (Some p)) ->
  inv_but skip (with_heap (<[p := None]> (heap s)) s).
Proof.
  intros ((Ht & Hbd) & (Hwf & Hnd & Hq) & Hn & Hc) Hnq Hnc.
  split_inv; try done.
  - intros q Hqq. destruct (Hq q Hqq) as (jq & Hjq & Hw). exists jq. split; [|done].
    unfold job_at. simpl. rewrite list_lookup_insert_ne; [done|]. by intros ->.
  - intros k q Hk Hkq. simpl in Hkq.
    destruct (Hc k q Hk Hkq) as (Hqq & jq & Hjq & Hcore).
    split; [done|]. exists jq. split; [|done].
    unfold job_at. simpl. rewrite list_lookup_insert_ne; [done|]. by intros ->.
Qed.

(** Unlinking the job [p] that no slot but [skip] holds. *)
Lemma inv_but_unlink skip s p l :
  inv_but skip s -> inserted p l (PriQueue.head (jobs s)) ->
  (forall k, Some k <> skip -> c_job s !! k <> Some (Some p)) ->
  inv_but skip
    (with_jobs {| PriQueue.size := PriQueue.size (jobs s) - 1; PriQueue.head := l |} s)
  /\ ~ p ∈ l.
Proof.
  intros ((Ht & Hbd) & (Hwf & Hnd & Hq) & Hn & Hc) (l1 & l2 & -> & Hl) Hnc.
  unfold PriQueue.wf in Hwf. rewrite Hl in Hwf, Hnd.
  assert (~ p ∈ l1 ++ l2) as Hp.
  { apply NoDup_app in Hnd as (_ & Hd & Hnd2). apply NoDup_cons in Hnd2 as [Hp2 _].
    intros [H1|H2]%elem_of_app; [|done]. apply (Hd _ H1). by left. }
  assert (forall q, q ∈ l1 ++ l2 -> queued s q) as Hsub.
  { intros q Hqq. unfold queued. rewrite Hl.
    apply elem_of_app in Hqq as [?|?]; apply elem_of_app; [by left|right; by right]. }
  split; [|done]. split_inv; try done.
  - simpl. lia.
  - unfold PriQueue.wf. simpl. rewrite Hwf, !length_app. simpl. lia.
  - simpl. apply NoDup_app in Hnd as (Hn1 & Hd & Hnd2).
    apply NoDup_cons in Hnd2 as [_ Hn2]. apply NoDup_app. split_and!; try done.
    intros q H1 H2. apply (Hd q H1). by right.
  - intros q Hqq. apply (Hq q), Hsub, Hqq.
  - intros k q Hk Hkq. simpl in Hkq.
    destruct (Hc k q Hk Hkq) as (Hqq & Hcore). split; [|done].
    unfold queued in *. simpl. rewrite Hl in Hqq.
    apply elem_of_app in Hqq as [?|Hqq]; [apply elem_of_app; by left|].
    apply elem_of_cons in Hqq as [->|?]; [|apply elem_of_app; by right].
    by destruct (Hnc k Hk).
Qed.

(** *** The clock advance keeps the invariant *)

Lemma heap_rel_first_with_id h h' id l :
  heap_rel h h' -> first_with_id h' id l = first_with_id h id l.
Proof.
  intros Hrel. induction l as [|p l IH]; [done|]. simpl.
  unfold heap_rel in Hrel. specialize (Hrel p). destruct (h !! p) as [[j|]|].
  - destruct Hrel as (j' & -> & Hid & _). by rewrite Hid, IH.
  - by rewrite Hrel.
  - by rewrite Hrel.
Qed.

Lemma inv_tick s :
  inv s ->
  exists h',
    increment_timestep s = Ok (with_heap h' s) /\
    inv (with_heap h' s) /\
    length h' = length (heap s) /\
    heap_rel (heap s) h' /\
    (forall k p j, c_job s !! k = Some (Some p) -> job_at s p j ->
       h' !! p = Some (Some (tick_job (c_time s) j)) /\ t_started j <> -1) /\
    (forall p, (forall k, c_job s !! k <> Some (Some p)) -> h' !! p = heap s !! p).
Proof.
  intros Hinv.
  destruct (increment_timestep_spec s) as (h' & Hrun & Hl & Hin & Hout).
  { by destruct Hinv as (_ & _ & ? & _). }
  { by apply inv_slots_live. }
  { by apply inv_slots_distinct. }
  destruct Hinv as ((Ht & Hbd) & (Hwf & Hnd & Hq) & Hn & Hc).
  assert (forall p, (exists k, c_job s !! k = Some (Some p)) \/
                    (forall k, c_job s !! k <> Some (Some p))) as Hdec.
  { intros p. destruct (decide (Some p ∈ c_job s)) as [Hp|Hp].
    - left. by apply list_elem_of_lookup_1.
    - right. intros k Hk. apply Hp. by eapply list_elem_of_lookup_2. }
  assert (heap_rel (heap s) h') as Hrel.
  { intros p. destruct (Hdec p) as [[k Hk]|Hoff].
    - destruct (Hc k p) as (_ & j & Hj & _); [done|done|].
      rewrite Hj. exists (tick_job (c_time s) j). split; [by eapply Hin|].
      apply tick_job_rel.
    - rewrite (Hout p Hoff). destruct (heap s !! p) as [[j|]|]; [|done..].
      exists j. split; [done|apply tick_rel_refl]. }
  exists h'. split; [done|]. split; [|split; [done|split; [done|split; [|done]]]].
  - split_inv; try done.
    + intros p Hp. destruct (Hq p Hp) as (j & Hj & Hw).
      unfold heap_rel in Hrel. specialize (Hrel p). rewrite Hj in Hrel.
      destruct Hrel as (j' & Hj' & Hr). exists j'. split; [done|].
      destruct (Hdec p) as [[k Hk]|Hoff].
      * destruct (Hc k p) as (_ & j0 & Hj0 & _ & _ & Hw0); [done|done|].
        unfold job_at in *. assert (j0 = j) as -> by congruence.
        destruct Hr as (_ & _ & _ & _ & _ & -> & _). done.
      * rewrite (Hout p Hoff) in Hj'. unfold job_at in Hj.
        assert (j' = j) as -> by congruence. done.
    + intros k p Hk Hkp. simpl in Hkp.
      destruct (Hc k p) as (Hpq & j & Hj & Hcore & Hst & Hw); [done|done|].
      split; [done|].
      unfold heap_rel in Hrel. specialize (Hrel p). rewrite Hj in Hrel.
      destruct Hrel as (j' & Hj' & Hr). exists j'. split; [done|].
      destruct Hr as (_ & _ & _ & _ & -> & -> & _ & Hs). rewrite (Hs Hst). done.
  - intros k p j Hk Hj. split; [by eapply Hin|].
    destruct (Hc k p) as (_ & j0 & Hj0 & _ & Hst & _); [done|done|].
    unfold job_at in *. congruence.
Qed.

(** *** The comparer and the ordered insertion *)

Lemma comparer_total s p1 p2 j1 j2 :
  job_at s p1 j1 -> job_at s p2 j2 -> exists z, comparer s p1 p2 = Ok z.
Proof.
  unfold job_at, comparer. intros H1 H2.
  rewrite (load_job _ _ _ H1), (load_job _ _ _ H2). cbn [bind].
  destruct (t_scheme s); eauto;
    match goal with |- context [if ?b then _ else _] => destruct b end; eauto.
Qed.

Lemma offer_job_spec skip s p j :
  inv_but skip s -> job_at s p j -> ~ queued s p ->
  (t_started j <> -1 -> is_Some (t_waiting j)) ->
  PriQueue.size (jobs s) < INT_MAX ->
  exists r l',
    inserted p (PriQueue.head (jobs s)) l' /\
    offer_job p s =
      Ok (r, with_jobs {| PriQueue.size := PriQueue.size (jobs s) + 1;
                          PriQueue.head := l' |} s) /\
    inv_but skip
      (with_jobs {| PriQueue.size := PriQueue.size (jobs s) + 1;
                    PriQueue.head := l' |} s).
Proof.
  intros ((Ht & Hbd) & (Hwf & Hnd & Hq) & Hn & Hc) Hj Hnq Hw Hsz.
  destruct (PriQueueFacts.priqueue_offer_spec (comparer s) (jobs s) p)
    as (l1 & l2 & Hl & Hoff & _); [done| |].
  { intros e He. destruct (Hq e He) as (je & Hje & _).
    by eapply comparer_total. }
  assert (wrap (PriQueue.size (jobs s) + 1) = PriQueue.size (jobs s) + 1) as Hwrap.
  { apply wrap_in_int. unfold PriQueue.wf in Hwf. unfold in_int, INT_MIN, INT_MAX in *. lia. }
  rewrite Hwrap in Hoff.
  eexists _, (l1 ++ p :: l2). split; [by exists l1, l2|].
  split; [unfold offer_job; rewrite Hoff; done|].
  split_inv; try done.
  - simpl. lia.
  - unfold PriQueue.wf in *. simpl. rewrite Hwf, Hl, !length_app. simpl. lia.
  - simpl. rewrite Hl in Hnd. apply NoDup_app in Hnd as (Hn1 & Hd & Hn2).
    apply NoDup_app. split_and!; [done| |].
    + intros q H1 [->|H2]%elem_of_cons; [|by apply (Hd q)].
      apply Hnq. unfold queued. rewrite Hl. apply elem_of_app. by left.
    + apply NoDup_cons. split; [|done].
      intros H2. apply Hnq. unfold queued. rewrite Hl. apply elem_of_app. by right.
  - intros q Hqq. unfold queued in Hqq. simpl in Hqq.
    apply elem_of_app in Hqq as [H1|[->|H2]%elem_of_cons].
    + apply Hq. unfold queued. rewrite Hl. apply elem_of_app. by left.
    + by exists j.
    + apply Hq. unfold queued. rewrite Hl. apply elem_of_app. by right.
  - intros k q Hk Hkq. destruct (Hc k q Hk Hkq) as (Hqq & Hcore). split; [|done].
    unfold queued in *. simpl. rewrite Hl in Hqq.
    apply elem_of_app in Hqq as [?|?]; apply elem_of_app; [by left|right; by right].
Qed.

(** *** The scans of scheduler_new_job *)

Lemma free_core_scan_spec n k s :
  (k + n = length (c_job s))%nat ->
  (forall i, (i < k)%nat -> exists p, c_job s !! i = Some (Some p)) ->
  exists i : nat,
    free_core_scan n (Z.of_nat k) s = Ok (Z.of_nat i) /\
    (i <= length (c_job s))%nat /\
    (forall i', (i' < i)%nat -> exists p, c_job s !! i' = Some (Some p)) /\
    ((i < length (c_job s))%nat -> c_job s !! i = Some None).
Proof.
  revert k. induction n as [|n IH]; intros k Hlen Hbusy; cbn [free_core_scan].
  - exists k. split_and!; [done|lia|done|lia].
  - destruct (lookup_lt_is_Some_2 (c_job s) k) as [c Hc]; [lia|].
    rewrite (read_core_nat _ _ _ Hc). cbn [bind]. destruct c as [p|].
    + replace (Z.of_nat k + 1) with (Z.of_nat (S k)) by lia.
      apply IH; [lia|]. intros i Hi.
      destruct (decide (i = k)) as [->|]; [eauto|]. apply Hbusy. lia.
    + exists k. split_and!; [done|lia|done|done].
Qed.

Lemma psjf_scan_range n k remaining ctc cjl s :
  (k + n = length (c_job s))%nat -> all_busy s ->
  ctc = -1 \/ 0 <= ctc < Z.of_nat k ->
  exists ctc',
    psjf_scan n (Z.of_nat k) remaining ctc cjl s = Ok ctc' /\
    (ctc' = -1 \/ 0 <= ctc' < Z.of_nat (length (c_job s))).
Proof.
  revert k ctc cjl. induction n as [|n IH]; intros k ctc cjl Hlen Hbusy Hctc;
    cbn [psjf_scan].
  - exists ctc. split; [done|]. lia.
  - destruct (Hbusy k) as (p & j & Hp & Hj); [lia|].
    rewrite (read_core_nat _ _ _ Hp). cbn [bind deref].
    rewrite (load_job _ _ _ Hj). cbn [bind].
    replace (Z.of_nat k + 1) with (Z.of_nat (S k)) by lia.
    destruct (t_remaining j >? remaining); [destruct (t_remaining j >? cjl)|];
      apply IH; try done; lia.
Qed.

Lemma ppri_scan_spec n k prio ctc cp s :
  -1 <= prio ->
  (k + n = length (c_job s))%nat -> all_busy s ->
  ppri_state s prio k ctc cp ->
  exists ctc' cp',
    ppri_scan n (Z.of_nat k) prio ctc cp s = Ok ctc' /\
    ppri_state s prio (length (c_job s)) ctc' cp'.
Proof.
  intros Hprio. revert k ctc cp.
  induction n as [|n IH]; intros k ctc cp Hlen Hbusy Hst; cbn [ppri_scan].
  - exists ctc, cp. split; [done|]. by replace (length (c_job s)) with k by lia.
  - destruct (Hbusy k) as (p & j & Hp & Hj); [lia|].
    rewrite (read_core_nat _ _ _ Hp). cbn [bind deref].
    rewrite (load_job _ _ _ Hj). cbn [bind].
    replace (Z.of_nat k + 1) with (Z.of_nat (S k)) by lia.
    assert (forall i q jq, (i < S k)%nat -> c_job s !! i = Some (Some q) ->
              job_at s q jq -> (i < k)%nat \/ (i = k /\ jq = j)) as Hcase.
    { intros i q jq Hi Hq Hjq. destruct (decide (i = k)) as [->|]; [right|left; lia].
      split; [done|]. unfold job_at in *. congruence. }
    rewrite !Z.gtb_ltb.
    destruct (Z.ltb_spec prio (priority j)) as [Hqual|Hnq].
    + destruct (Z.ltb_spec cp (priority j)) as [Hgt|Hle].
      * (* a new greatest priority number *)
        apply IH; [lia|done|]. right. exists k, p, j.
        split_and!; try done; [lia|].
        intros i q jq Hi Hq Hjq Hq'.
        destruct (Hcase i q jq Hi Hq Hjq) as [Hlt|[-> ->]]; [|lia].
        destruct Hst as [(_ & _ & Hno)|(c & pc & jc & _ & _ & _ & _ & Hcp & _ & Hmax)].
        -- specialize (Hno i q jq Hlt Hq Hjq). lia.
        -- destruct (Hmax i q jq Hlt Hq Hjq Hq') as [? _]. lia.
      * destruct Hst as [(-> & -> & Hno)|(c & pc & jc & -> & Hc & Hpc & Hjc & Hcp & Hpr & Hmax)];
          [lia|].
        destruct (Z.eqb_spec (priority j) cp) as [Heq|Hne].
        -- rewrite (read_core_nat _ _ _ Hpc). cbn [bind deref].
           rewrite (load_job _ _ _ Hjc). cbn [bind]. rewrite Z.gtb_ltb.
           destruct (Z.ltb_spec (t_arrival jc) (t_arrival j)) as [Hlater|Hearlier].
           ++ apply IH; [lia|done|]. right. exists k, p, j.
              split_and!; try done; [lia|].
              intros i q jq Hi Hq Hjq Hq'.
              destruct (Hcase i q jq Hi Hq Hjq) as [Hlt|[-> ->]]; [|lia].
              destruct (Hmax i q jq Hlt Hq Hjq Hq') as [? Htie]. split; [done|].
              intros Hpq. specialize (Htie Hpq). lia.
           ++ apply IH; [lia|done|]. right. exists c, pc, jc.
              split_and!; try done; [lia|].
              intros i q jq Hi Hq Hjq Hq'.
              destruct (Hcase i q jq Hi Hq Hjq) as [Hlt|[-> ->]]; [exact (Hmax i q jq Hlt Hq Hjq Hq')|].
              split; [lia|]. intros _. lia.
        -- apply IH; [lia|done|]. right. exists c, pc, jc.
           split_and!; try done; [lia|].
           intros i q jq Hi Hq Hjq Hq'.
           destruct (Hcase i q jq Hi Hq Hjq) as [Hlt|[-> ->]]; [exact (Hmax i q jq Hlt Hq Hjq Hq')|].
           split; [lia|]. intros ?. lia.
    + apply IH; [lia|done|].
      destruct Hst as [(-> & -> & Hno)|(c & pc & jc & -> & Hc & Hpc & Hjc & Hcp & Hpr & Hmax)].
      * left. split_and!; try done. intros i q jq Hi Hq Hjq.
        destruct (Hcase i q jq Hi Hq Hjq) as [Hlt|[-> ->]]; [exact (Hno i q jq Hlt Hq Hjq)|lia].
      * right. exists c, pc, jc. split_and!; try done; [lia|].
        intros i q jq Hi Hq Hjq Hq'.
        destruct (Hcase i q jq Hi Hq Hjq) as [Hlt|[-> ->]]; [exact (Hmax i q jq Hlt Hq Hjq Hq')|lia].
Qed.

Lemma ppri_state_transfer s s1 prio k ctc cp :
  c_job s1 = c_job s -> slots_live s ->
  (forall i p j, c_job s !! i = Some (Some p) -> job_at s p j ->
     exists j1, job_at s1 p j1 /\ priority j1 = priority j /\
                t_arrival j1 = t_arrival j) ->
  ppri_state s1 prio k ctc cp -> ppri_state s prio k ctc cp.
Proof.
  intros Hcj Hlive Hsame [(-> & -> & Hno)|(c & pc & jc1 & -> & Hc & Hpc & Hjc1 & Hcp & Hpr & Hmax)].
  - left. split_and!; try done. intros i p j Hi Hp Hj.
    destruct (Hsame i p j Hp Hj) as (j1 & Hj1 & <- & _).
    apply (Hno i p j1); [done|by rewrite Hcj|done].
  - rewrite Hcj in Hpc. destruct (Hlive _ _ Hpc) as [jc Hjc].
    destruct (Hsame c pc jc Hpc Hjc) as (jc1' & Hjc1' & Hp1 & Ha1).
    assert (jc1' = jc1) as -> by (unfold job_at in *; congruence).
    right. exists c, pc, jc. split_and!; try done; [congruence|].
    intros i p j Hi Hp Hj Hq.
    destruct (Hsame i p j Hp Hj) as (j1 & Hj1 & Hp2 & Ha2).
    rewrite <- Hp2, <- Ha2, <- Ha1.
    apply (Hmax i p j1); [done|by rewrite Hcj|done|lia].
Qed.

(** *** scheduler_new_job *)

(** The arriving job takes the slot [c], which the invariant leaves out. *)
Lemma install_spec c job j s :
  inv_but (Some c) s -> (c < length (c_job s))%nat ->
  job_at s job j -> ~ queued s job ->
  (forall k, k <> c -> c_job s !! k <> Some (Some job)) ->
  0 <= c_time s -> PriQueue.size (jobs s) < INT_MAX ->
  exists s',
    (let! s1 := update job (start_job (c_time s) (Z.of_nat c)) s in
     let! s2 := write_core (Z.of_nat c) (Some job) s1 in
     let! '(_, s3) := offer_job job s2 in
     Ok (Z.of_nat c, s3)) = Ok (Z.of_nat c, s') /\
    inv s' /\
    PriQueue.size (jobs s') = PriQueue.size (jobs s) + 1 /\
    c_job s' = <[c := Some job]> (c_job s) /\
    heap s' = <[job := Some (start_job (c_time s) (Z.of_nat c) j)]> (heap s) /\
    inserted job (PriQueue.head (jobs s)) (PriQueue.head (jobs s')) /\
    n_cores s' = n_cores s /\ t_scheme s' = t_scheme s /\ c_time s' = c_time s /\
    n_jobs s' = n_jobs s /\ t_wait s' = t_wait s /\ t_response s' = t_response s /\
    t_turnaround s' = t_turnaround s.
Proof.
  intros Hinv Hc Hj Hnq Hnc Ht Hsz.
  rewrite (update_job _ _ _ _ Hj). cbn [bind].
  set (j' := start_job (c_time s) (Z.of_nat c) j).
  set (s1 := with_heap _ s).
  assert (inv_but (Some c) s1) as Hinv1.
  { apply (inv_but_update _ _ _ j); [done|done|done|].
    intros k Hk Hkj. destruct (Hnc k); [congruence|done]. }
  rewrite write_core_nat by done. cbn [bind].
  set (s2 := with_c_job _ s1).
  assert (inv_but (Some c) s2) as Hinv2 by (by apply inv_but_write_core).
  assert (job_at s2 job j') as Hj2.
  { unfold job_at, s2, s1. simpl. rewrite list_lookup_insert_eq; [done|].
    by eapply lookup_lt_Some. }
  destruct (offer_job_spec (Some c) s2 job j') as (r & l' & Hins & Hoff & Hinv3);
    [done|done|done|done|done|].
  rewrite Hoff. cbn [bind].
  eexists. split; [done|]. split_and!; try done.
  apply (inv_close c); [done|].
  intros p Hp. simpl in Hp. rewrite list_lookup_insert_eq in Hp by done.
  assert (p = job) as -> by congruence.
  split.
  - destruct Hins as (l1 & l2 & _ & Hl'). unfold queued. simpl. rewrite Hl'.
    apply elem_of_app. right. by left.
  - exists j'. split; [done|]. unfold j', start_job. simpl.
    split_and!; [done|lia|by eexists].
Qed.

Lemma evict_job_fields now j :
  j_core (evict_job now j) = -1 /\ t_waiting (evict_job now j) = t_waiting j /\
  job_id (evict_job now j) = job_id j /\ priority (evict_job now j) = priority j /\
  t_arrival (evict_job now j) = t_arrival j /\
  (t_started j = now -> t_started (evict_job now j) = -1) /\
  (t_started j <> now -> t_started (evict_job now j) = t_started j).
Proof.
  unfold evict_job. cbn [t_started set_t_updated set_j_core].
  destruct (Z.eqb_spec (t_started j) now); simpl; split_and!; done.
Qed.

(** The arriving job replaces the job [o] on the slot [c]. *)
Lemma preempt_spec c job j o jo s :
  inv s -> c_job s !! c = Some (Some o) -> job_at s o jo ->
  job_at s job j -> ~ queued s job ->
  (forall k, c_job s !! k <> Some (Some job)) ->
  PriQueue.size (jobs s) < INT_MAX ->
  exists s',
    (let! s1 := update job (start_job (c_time s) (Z.of_nat c)) s in
     let! old := read_core (Z.of_nat c) s1 in
     match old with
     | None => Crash NullDeref
     | Some o =>
         let! s2 := update o (evict_job (c_time s1)) s1 in
         let! s3 := write_core (Z.of_nat c) (Some job) s2 in
         let! '(_, s4) := offer_job job s3 in
         Ok (Z.of_nat c, s4)
     end) = Ok (Z.of_nat c, s') /\
    inv s' /\
    PriQueue.size (jobs s') = PriQueue.size (jobs s) + 1 /\
    c_job s' = <[c := Some job]> (c_job s) /\
    job_at s' o (evict_job (c_time s) jo) /\
    job_at s' job (start_job (c_time s) (Z.of_nat c) j) /\
    queued s' job /\
    n_cores s' = n_cores s /\ t_scheme s' = t_scheme s /\ c_time s' = c_time s /\
    n_jobs s' = n_jobs s /\ t_wait s' = t_wait s /\ t_response s' = t_response s /\
    t_turnaround s' = t_turnaround s.
Proof.
  intros Hinv Hc Hjo Hj Hnq Hnc Hsz.
  assert (o <> job) as Hne by (intros ->; by apply (Hnc c)).
  assert (c < length (c_job s))%nat as Hlt by (by eapply lookup_lt_Some).
  assert (o < length (heap s))%nat as Hlo by (by eapply lookup_lt_Some).
  assert (job < length (heap s))%nat as Hlj by (by eapply lookup_lt_Some).
  pose proof Hinv as ((Ht & Hbd) & _ & _ & Hcores).
  destruct (Hcores c o) as (Hoq & jo' & Hjo' & _ & _ & Hwo); [done|done|].
  assert (jo' = jo) as -> by (unfold job_at in *; congruence).
  set (ev := evict_job (c_time s) jo).
  set (sE := with_heap (<[o := Some ev]> (heap s)) s).
  assert (inv_but (Some c) sE) as HinvE.
  { apply (inv_but_update _ _ _ jo); [by apply inv_open|done| |].
    - intros _ _. unfold ev.
      destruct (evict_job_fields (c_time s) jo) as (_ & -> & _). done.
    - intros k Hk Hko. destruct Hk.
      f_equal. by apply (inv_slots_distinct s Hinv k c o). }
  destruct (install_spec c job j sE) as (s' & Hrun & Hinv' & Hsize & Hcj & Hheap & Hins & Hfr).
  { done. }
  { done. }
  { unfold job_at, sE. simpl. by rewrite list_lookup_insert_ne. }
  { done. }
  { intros k _. apply Hnc. }
  { done. }
  { done. }
  exists s'. split.
  - rewrite <- Hrun.
    rewrite (update_job _ _ _ _ Hj). cbn [bind].
    rewrite (read_core_nat _ c (Some o)) by exact Hc. cbn [bind].
    erewrite (update_job _ o jo).
    2:{ unfold job_at. simpl. by rewrite list_lookup_insert_ne. }
    erewrite (update_job sE job j).
    2:{ unfold job_at, sE. simpl. by rewrite list_lookup_insert_ne. }
    cbn [bind]. unfold sE, with_heap. simpl. fold ev.
    rewrite (list_insert_insert_ne _ o job) by done. done.
  - split_and!; try done.
    + unfold job_at. rewrite Hheap. simpl. rewrite list_lookup_insert_ne by done.
      by rewrite list_lookup_insert_eq.
    + unfold job_at. rewrite Hheap. simpl. rewrite list_lookup_insert_eq; [done|].
      by rewrite length_insert.
    + destruct Hins as (l1 & l2 & _ & Hl'). unfold queued. rewrite Hl'.
      apply elem_of_app. right. by left.
    + by destruct Hfr as (? & ? & ? & ? & ? & ? & ?).
    + by destruct Hfr as (? & ? & ? & ? & ? & ? & ?).
    + by destruct Hfr as (? & ? & ? & ? & ? & ? & ?).
    + by destruct Hfr as (? & ? & ? & ? & ? & ? & ?).
    + by destruct Hfr as (? & ? & ? & ? & ? & ? & ?).
    + by destruct Hfr as (? & ? & ? & ? & ? & ? & ?).
    + by destruct Hfr as (? & ? & ? & ? & ? & ? & ?).
Qed.

Lemma admissible_new_job s id t run prio :
  admissible s (NewJob id t run prio) = true ->
  c_time s <= t /\ PriQueue.size (jobs s) < INT_MAX /\
  (t_scheme s = PPRI -> -1 <= prio).
Proof.
  cbn [admissible]. intros H.
  apply andb_true_iff in H as [H Hp]. apply andb_true_iff in H as [Ht Hs].
  apply Z.leb_le in Ht. apply Z.ltb_lt in Hs. split_and!; try done.
  intros E. rewrite E in Hp. by apply Z.leb_le.
Qed.

Lemma new_job_exec job_number time running_time prio s :
  inv s -> admissible s (NewJob job_number time running_time prio) = true ->
  exists r s',
    scheduler_new_job job_number time running_time prio s = Ok (r, s') /\
    inv s' /\
    PriQueue.size (jobs s') = PriQueue.size (jobs s) + 1 /\
    new_job_outcome s time prio r s' /\
    queued s' (length (heap s)) /\
    (exists jn, job_at s' (length (heap s)) jn /\ job_id jn = job_number /\
                priority jn = prio /\ t_arrival jn = time) /\
    n_cores s' = n_cores s /\ t_scheme s' = t_scheme s /\ c_time s' = time /\
    n_jobs s' = wrap (n_jobs s + 1) /\ t_wait s' = t_wait s /\
    t_response s' = t_response s /\ t_turnaround s' = t_turnaround s.
Proof.
  intros Hinv Hadm.
  apply admissible_new_job in Hadm as (Htime & Hsz & Hprio).
  pose proof Hinv as ((Ht & Hbd) & (Hwf & Hnd & Hq) & Hn & Hc).
  unfold scheduler_new_job. cbv zeta.
  set (job := length (heap s)).
  set (fresh := mkjob time running_time running_time None (-1) (-1) None
                      job_number prio (-1)).
  set (s0 := with_n_jobs _ (with_c_time time (with_heap (heap s ++ [Some fresh]) s))).
  assert (inv s0) as Hinv0.
  { apply (inv_but_c_time None (with_heap (heap s ++ [Some fresh]) s) time); [|lia].
    by apply inv_but_malloc. }
  assert (forall k, c_job s !! k <> Some (Some job)) as Hnc.
  { intros k Hk. destruct (Hc k job) as (_ & j & Hj & _); [done|done|].
    apply lookup_lt_Some in Hj. unfold job in Hj. lia. }
  assert (~ queued s job) as Hnq.
  { intros Hjq. destruct (Hq job Hjq) as (j & Hj & _).
    apply lookup_lt_Some in Hj. unfold job in Hj. lia. }
  destruct (inv_tick s0 Hinv0) as (h1 & Hrun & Hinv1 & Hlen & Hrel & Hon & Hoff).
  rewrite Hrun. cbn [bind].
  set (s1 := with_heap h1 s0) in *.
  assert (job_at s1 job fresh) as Hj1.
  { unfold job_at, s1. simpl. rewrite (Hoff job Hnc). simpl.
    unfold job. by rewrite list_lookup_middle. }
  assert (Z.to_nat (n_cores s1) = length (c_job s)) as Hnn.
  { simpl. rewrite Hn. apply Nat2Z.id. }
  rewrite Hnn.
  destruct (free_core_scan_spec (length (c_job s)) 0 s1) as (i & Hscan & Hile & Hbusy & Hfree);
    [done|intros ? ?; lia|].
  change (Z.of_nat 0) with 0 in Hscan. rewrite Hscan. cbn [bind].
  change (n_cores s1) with (n_cores s). change (c_time s1) with time.
  change (c_job s1) with (c_job s) in *.
  destruct (Z.ltb_spec (Z.of_nat i) (n_cores s)) as [Hilt|Hige].
  - (* a free slot *)
    destruct (install_spec i job fresh s1)
      as (s' & Hexec & Hinv' & Hsize & Hcj & Hheap & Hins & Hfr).
    { by apply inv_open. }
    { simpl. lia. }
    { done. }
    { done. }
    { intros k _. apply Hnc. }
    { simpl. lia. }
    { done. }
    destruct Hfr as (? & ? & ? & ? & ? & ? & ?).
    exists (Z.of_nat i), s'. change (c_time s1) with time in *.
    split; [exact Hexec|]. split_and!; try done.
    + left. exists i. split_and!; try done. apply Hfree. lia.
    + destruct Hins as (l1 & l2 & _ & Hl'). unfold queued. rewrite Hl'.
      apply elem_of_app. right. by left.
    + eexists. split.
      * unfold job_at. rewrite Hheap. rewrite list_lookup_insert_eq; [done|].
        by eapply lookup_lt_Some.
      * done.
  - (* every slot is taken *)
    assert (i = length (c_job s)) as -> by lia.
    assert (forall p j, job_at s p j -> job_at s0 p j) as Hs0.
    { intros p j Hj. unfold job_at, s0. simpl. rewrite lookup_app_l; [done|].
      by eapply lookup_lt_Some. }
    assert (forall k p j, c_job s !! k = Some (Some p) -> job_at s p j ->
              job_at s1 p (tick_job time j)) as Hticked.
    { intros k p j Hk Hj. by destruct (Hon k p j Hk (Hs0 _ _ Hj)) as [? _]. }
    assert (all_busy s) as Hbusy0.
    { intros k Hk. destruct (Hbusy k Hk) as [p Hp].
      destruct (Hc k p) as (_ & j & Hj & _); [done|done|]. eauto. }
    assert (all_busy s1) as Hbusy1.
    { intros k Hk. destruct (Hbusy0 k Hk) as (p & j & Hp & Hj).
      exists p, (tick_job time j). split; [done|]. by eapply Hticked. }
    assert (forall k cp, ppri_state s1 prio k (-1) cp \/
                         (exists c : nat, ppri_state s1 prio k (Z.of_nat c) cp) ->
              forall ctc, ctc = -1 \/ (exists c : nat, ctc = Z.of_nat c) ->
              ppri_state s1 prio k ctc cp -> ppri_state s prio k ctc cp) as Htransfer.
    { intros k cp _ ctc _. apply ppri_state_transfer; [done|by apply inv_slots_live|].
      intros k' p j Hk' Hj. exists (tick_job time j). split; [by eapply Hticked|].
      destruct (tick_job_rel time j) as (_ & ? & ? & _). done. }
    rewrite (load_job _ _ _ Hj1). cbn [bind].
    change (t_scheme s1) with (t_scheme s).
    change (t_remaining fresh) with running_time.
    change (priority fresh) with prio.
    assert (exists ctc,
      match t_scheme s with
      | PSJF => psjf_scan (length (c_job s)) 0 running_time (-1) (-1) s1
      | PPRI => ppri_scan (length (c_job s)) 0 prio (-1) (-1) s1
      | _ => Ok (-1)
      end = Ok ctc /\
      ((ctc = -1 /\
        (t_scheme s = PPRI ->
         exists cp, ppri_state s prio (length (c_job s)) (-1) cp)) \/
       (exists c : nat, ctc = Z.of_nat c /\ (c < length (c_job s))%nat /\
          match t_scheme s with
          | PSJF => True
          | PPRI => exists cp, ppri_state s prio (length (c_job s)) ctc cp
          | _ => False
          end))) as (ctc & -> & Hctc).
    { destruct (t_scheme s) eqn:Hsch;
        try (exists (-1); split; [done|left; split; [done|discriminate]]).
      - destruct (psjf_scan_range (length (c_job s)) 0 running_time (-1) (-1) s1)
          as (ctc & Hps & Hr); [done|done|by left|].
        exists ctc. split; [exact Hps|].
        change (c_job s1) with (c_job s) in Hr.
        destruct Hr as [->|Hr]; [left; split; [done|discriminate]|].
        right. exists (Z.to_nat ctc). split_and!; [lia|lia|done].
      - destruct (ppri_scan_spec (length (c_job s)) 0 prio (-1) (-1) s1)
          as (ctc & cp & Hpp & Hst); [by apply Hprio|done|done| |].
        { left. split_and!; try done. intros ? ? ? ?. lia. }
        exists ctc. split; [exact Hpp|].
        change (c_job s1) with (c_job s) in Hst.
        pose proof Hst as [(-> & _)|(c & pc & jc & -> & Hclt & _)].
        + left. split; [done|]. intros _. exists cp.
          apply (Htransfer _ cp); [by left|by left|done].
        + right. exists c. split_and!; [done|done|]. exists cp.
          apply (Htransfer _ cp); [right; eauto|right; eauto|done]. }
    cbn [bind].
    destruct Hctc as [(-> & Hnone)|(c & -> & Hclt & Hsch)].
    + (* no slot to take over *)
      change (negb (-1 =? -1)) with false. cbv iota.
      destruct (offer_job_spec None s1 job fresh) as (r & l' & Hins & Hoffer & Hinv');
        [done|done|done|done|done|].
      rewrite Hoffer. cbn [bind].
      eexists (-1), _. split; [done|]. split_and!; try done.
      * right. right. split_and!; done.
      * destruct Hins as (l1 & l2 & _ & Hl'). unfold queued. simpl. rewrite Hl'.
        apply elem_of_app. right. by left.
      * exists fresh. split_and!; done.
    + (* the job on slot [c] is replaced *)
      replace (negb (Z.of_nat c =? -1)) with true by (symmetry; ztest; done).
      cbv iota.
      destruct (Hbusy0 c Hclt) as (o & jo & Ho & Hjo).
      destruct (preempt_spec c job fresh o (tick_job time jo) s1)
        as (s' & Hexec & Hinv' & Hsize & Hcj & Hev & Hst & Hqd & Hfr);
        [done|done|by eapply Hticked|done|done|done|done|].
      destruct Hfr as (? & ? & ? & ? & ? & ? & ?).
      change (c_time s1) with time in *.
      exists (Z.of_nat c), s'. split; [exact Hexec|]. split_and!; try done.
      * right. left. split; [done|]. exists c, o, jo. split_and!; done.
      * eexists. split; [exact Hst|]. done.
Qed.

(** *** The searches in the queue *)

Lemma queue_lookup_middle (q : PriQueue.priqueue_t nat) pre x post :
  PriQueue.head q = pre ++ x :: post -> PriQueue.wf q ->
  PriQueue.head q !! Z.to_nat (Z.of_nat (length pre)) = Some x /\
  Z.of_nat (length pre) < PriQueue.size q.
Proof.
  unfold PriQueue.wf. intros Hh Hwf. rewrite Nat2Z.id, Hwf, Hh.
  split; [by apply list_lookup_middle|]. rewrite length_app. simpl. lia.
Qed.

Lemma finished_scan_spec h id (q : PriQueue.priqueue_t nat) p pre post v :
  PriQueue.head q = pre ++ post -> PriQueue.wf q ->
  first_with_id h id post = Some p ->
  exists l1 l2 j,
    post = l1 ++ p :: l2 /\ h !! p = Some (Some j) /\ job_id j = id /\
    finished_scan (length post) (Z.of_nat (length pre)) id h q v =
      Ok (Some (Some p),
          {| PriQueue.size := wrap (PriQueue.size q - 1);
             PriQueue.head := pre ++ l1 ++ l2 |}).
Proof.
  revert pre v. induction post as [|x post IH]; intros pre v Hh Hwf Hfirst; [done|].
  cbn [first_with_id] in Hfirst.
  destruct (h !! x) as [[j|]|] eqn:Hx; [|done..].
  destruct (queue_lookup_middle q pre x post Hh Hwf) as [Hlk Hlt].
  cbn [length finished_scan].
  rewrite (PriQueueFacts.priqueue_at_in_range q _ x) by (done || lia).
  cbn [bind deref]. rewrite (load_job _ _ _ Hx). cbn [bind].
  destruct (Z.eqb_spec (job_id j) id) as [Hid|Hid].
  - assert (p = x) as -> by congruence.
    rewrite (PriQueueFacts.priqueue_remove_at_in_range q _ x) by (done || lia).
    cbn [bind]. exists [], post, j. split_and!; try done.
    rewrite Nat2Z.id, Hh, delete_middle. done.
  - destruct (IH (pre ++ [x]) (Some (Some x))) as (l1 & l2 & j' & Hpost & Hp & Hj' & Hrun);
      [by rewrite <- app_assoc|done|done|].
    exists (x :: l1), l2, j'. split_and!; try done; [by rewrite Hpost|].
    replace (Z.of_nat (length pre) + 1) with (Z.of_nat (length (pre ++ [x])))
      by (rewrite length_app; simpl; lia).
    rewrite Hrun. by rewrite <- app_assoc.
Qed.

Lemma first_idle_Some h l p :
  first_idle h l = Some p ->
  p ∈ l /\ exists j, h !! p = Some (Some j) /\ j_core j = -1.
Proof.
  induction l as [|x l IH]; [done|]. cbn [first_idle].
  destruct (h !! x) as [[j|]|] eqn:Hx; [|done..].
  destruct (Z.eqb_spec (j_core j) (-1)) as [Hc|Hc].
  - intros [= <-]. split; [by left|eauto].
  - intros H. destruct (IH H) as [? ?]. split; [by right|done].
Qed.

Lemma first_idle_None h l p j :
  (forall x, x ∈ l -> exists jx, h !! x = Some (Some jx)) ->
  p ∈ l -> h !! p = Some (Some j) -> j_core j = -1 ->
  first_idle h l <> None.
Proof.
  induction l as [|x l IH]; intros Hlive Hp Hj Hc; [by apply elem_of_nil in Hp|].
  cbn [first_idle]. destruct (Hlive x) as [jx Hx]; [by left|]. rewrite Hx.
  destruct (Z.eqb_spec (j_core jx) (-1)) as [|Hcx]; [done|].
  apply elem_of_cons in Hp as [->|Hp]; [congruence|].
  apply IH; try done. intros y Hy. apply Hlive. by right.
Qed.

Lemma next_scan_spec h (q : PriQueue.priqueue_t nat) pre post v :
  PriQueue.head q = pre ++ post -> PriQueue.wf q ->
  (forall x, x ∈ post -> exists jx, h !! x = Some (Some jx)) ->
  exists i nx,
    next_scan (length post) (Z.of_nat (length pre)) h q v = Ok (i, nx) /\
    match first_idle h post with
    | Some p => nx = Some p /\ i < PriQueue.size q
    | None => i = PriQueue.size q
    end.
Proof.
  revert pre v. induction post as [|x post IH]; intros pre v Hh Hwf Hlive.
  - exists (Z.of_nat (length pre)), v. split; [done|]. simpl.
    unfold PriQueue.wf in Hwf. rewrite Hwf, Hh, app_nil_r. done.
  - destruct (queue_lookup_middle q pre x post Hh Hwf) as [Hlk Hlt].
    cbn [length next_scan first_idle].
    rewrite (PriQueueFacts.priqueue_at_in_range q _ x) by (done || lia).
    cbn [bind]. destruct (Hlive x) as [jx Hx]; [by left|].
    rewrite (load_job _ _ _ Hx), Hx. cbn [bind].
    destruct (Z.eqb_spec (j_core jx) (-1)) as [Hc|Hc].
    + eexists _, _. split; [done|]. split; [done|lia].
    + destruct (IH (pre ++ [x]) (Some x)) as (i & nx & Hrun & Hres);
        [by rewrite <- app_assoc|done| |].
      { intros y Hy. apply Hlive. by right. }
      exists i, nx. split; [|done].
      replace (Z.of_nat (length pre) + 1) with (Z.of_nat (length (pre ++ [x])))
        by (rewrite length_app; simpl; lia).
      done.
Qed.

Lemma assign_scan_spec core_id s pre post :
  PriQueue.head (jobs s) = pre ++ post -> PriQueue.wf (jobs s) ->
  (forall x, x ∈ post -> exists jx, heap s !! x = Some (Some jx)) ->
  assign_scan (length post) (Z.of_nat (length pre)) core_id s =
  match first_idle (heap s) post with
  | Some p => dispatch core_id p s
  | None => Ok (-1, s)
  end.
Proof.
  revert pre. induction post as [|x post IH]; intros pre Hh Hwf Hlive; [done|].
  destruct (queue_lookup_middle (jobs s) pre x post Hh Hwf) as [Hlk Hlt].
  cbn [length assign_scan first_idle].
  rewrite (PriQueueFacts.priqueue_at_in_range (jobs s) _ x) by (done || lia).
  cbn [bind deref]. destruct (Hlive x) as [jx Hx]; [by left|].
  rewrite (load_job _ _ _ Hx), Hx. cbn [bind].
  destruct (Z.eqb_spec (j_core jx) (-1)) as [Hc|Hc]; [done|].
  replace (Z.of_nat (length pre) + 1) with (Z.of_nat (length (pre ++ [x])))
    by (rewrite length_app; simpl; lia).
  apply IH; [by rewrite <- app_assoc|done|].
  intros y Hy. apply Hlive. by right.
Qed.

(** *** Giving a slot to a queued job *)

Lemma dispatch_job_ok now core j :
  (t_started j <> -1 -> is_Some (t_waiting j)) -> now <> -1 ->
  exists j',
    dispatch_job now core j = Ok j' /\
    j_core j' = core /\ job_id j' = job_id j /\ t_started j' <> -1 /\
    is_Some (t_waiting j').
Proof.
  intros Hw Hnow. unfold dispatch_job.
  destruct (Z.eqb_spec (t_started j) (-1)) as [Hs|Hs].
  - eexists. split; [done|]. simpl. split_and!; try done; by eexists.
  - destruct (Hw Hs) as [w Hwj]. unfold read_waiting. rewrite Hwj. cbn [bind].
    eexists. split; [done|]. simpl. split_and!; try done; by eexists.
Qed.

Lemma dispatch_spec c p j s :
  inv_but (Some c) s -> (c < length (c_job s))%nat ->
  queued s p -> job_at s p j -> j_core j = -1 -> 0 <= c_time s ->
  exists j' s',
    dispatch (Z.of_nat c) p s = Ok (job_id j, s') /\
    inv s' /\
    c_job s' = <[c := Some p]> (c_job s) /\
    heap s' = <[p := Some j']> (heap s) /\
    job_id j' = job_id j /\
    jobs s' = jobs s /\ n_cores s' = n_cores s /\ t_scheme s' = t_scheme s /\
    c_time s' = c_time s /\ n_jobs s' = n_jobs s /\ t_wait s' = t_wait s /\
    t_response s' = t_response s /\ t_turnaround s' = t_turnaround s.
Proof.
  intros Hinv Hc Hq Hj Hcore Ht.
  pose proof Hinv as (_ & (_ & _ & Hqs) & _ & Hcs).
  destruct (Hqs p Hq) as (j0 & Hj0 & Hw).
  assert (j0 = j) as -> by (unfold job_at in *; congruence).
  destruct (dispatch_job_ok (c_time s) (Z.of_nat c) j) as (j' & Hd & Hjc & Hid & Hst & Hwt);
    [done|lia|].
  unfold dispatch. rewrite (load_job _ _ _ Hj). cbn [bind]. rewrite Hd. cbn [bind].
  set (s1 := with_heap _ s).
  assert (inv_but (Some c) s1) as Hinv1.
  { apply (inv_but_update _ _ _ j); [done|done|done|].
    intros k Hk Hkp. destruct (Hcs k p Hk Hkp) as (_ & j1 & Hj1 & Hk1 & _).
    unfold job_at in *. assert (j1 = j) as -> by congruence. lia. }
  rewrite write_core_nat by done. cbn [bind]. rewrite Hid.
  eexists j', _. split; [done|]. split_and!; try done.
  apply (inv_close c); [by apply inv_but_write_core|].
  intros p' Hp'. simpl in Hp'. rewrite list_lookup_insert_eq in Hp' by done.
  assert (p' = p) as -> by congruence.
  split; [done|]. exists j'. split; [|done].
  unfold job_at. simpl. rewrite list_lookup_insert_eq; [done|].
  by eapply lookup_lt_Some.
Qed.

(** The slot [c] is empty, the queue may hold a job for it. *)
Lemma dispatch_first_idle c s :
  inv s -> c_job s !! c = Some None ->
  exists r s',
    match first_idle (heap s) (PriQueue.head (jobs s)) with
    | Some p => dispatch (Z.of_nat c) p s
    | None => Ok (-1, s)
    end = Ok (r, s') /\
    inv s' /\
    ((r = -1 /\ c_job s' = c_job s) \/
     (exists p2 j2, r = job_id j2 /\ job_at s' p2 j2 /\
                    c_job s' = <[c := Some p2]> (c_job s))) /\
    jobs s' = jobs s /\ n_cores s' = n_cores s /\ t_scheme s' = t_scheme s /\
    c_time s' = c_time s /\ n_jobs s' = n_jobs s /\ t_wait s' = t_wait s /\
    t_response s' = t_response s /\ t_turnaround s' = t_turnaround s /\
    (forall p, heap s !! p = Some None -> heap s' !! p = Some None).
Proof.
  intros Hinv Hc.
  destruct (first_idle (heap s) (PriQueue.head (jobs s))) as [p|] eqn:Hfi.
  - destruct (first_idle_Some _ _ _ Hfi) as (Hq & j & Hj & Hcore).
    destruct (dispatch_spec c p j s) as (j' & s' & Hrun & Hinv' & Hcj & Hheap & Hid & Hfr).
    { by apply inv_open. }
    { by eapply lookup_lt_Some. }
    { done. }
    { done. }
    { done. }
    { by destruct Hinv as ((? & _) & _). }
    destruct Hfr as (? & ? & ? & ? & ? & ? & ? & ?).
    exists (job_id j), s'. split; [done|]. split_and!; try done.
    + right. exists p, j'. split_and!; [done| |done].
      unfold job_at. rewrite Hheap. rewrite list_lookup_insert_eq; [done|].
      by eapply lookup_lt_Some.
    + intros p' Hp'. rewrite Hheap. rewrite list_lookup_insert_ne; [done|].
      intros ->. congruence.
  - exists (-1), s. split_and!; try done. by left.
Qed.

(** *** A job ends *)

(** The job [p] of the slot [c] has been unlinked from the queue; its end
    is recorded, its object freed and the slot emptied.  The two events
    that end a job do this in two orders. *)
Lemma retire_spec c p j s :
  inv_but (Some c) s -> (c < length (c_job s))%nat ->
  job_at s p j -> is_Some (t_waiting j) -> ~ queued s p ->
  (forall k, k <> c -> c_job s !! k <> Some (Some p)) ->
  exists s',
    (forall A (K : sched -> res A),
       (let! s1 := update p (set_t_end (c_time s)) s in
        let! j1 := load (heap s1) p in
        let! s2 := add_stats j1 (c_time s) s1 in
        let! s3 := free p s2 in
        let! s4 := write_core (Z.of_nat c) None s3 in
        K s4) = K s') /\
    (let! s1 := update p (set_t_end (c_time s)) s in
     let! j1 := load (heap s1) p in
     let! s2 := add_stats j1 (c_time s) s1 in
     let! s3 := write_core (Z.of_nat c) None s2 in
     free p s3) = Ok s' /\
    inv s' /\
    c_job s' = <[c := None]> (c_job s) /\
    heap s' = <[p := None]> (heap s) /\
    jobs s' = jobs s /\ n_cores s' = n_cores s /\ t_scheme s' = t_scheme s /\
    c_time s' = c_time s /\ n_jobs s' = n_jobs s.
Proof.
  intros Hinv Hc Hj [w Hw] Hnq Hnc.
  assert (p < length (heap s))%nat as Hlt by (by eapply lookup_lt_Some).
  rewrite (update_job _ _ _ _ Hj). cbn [bind heap with_heap].
  rewrite (load_job _ p (set_t_end (c_time s) j))
    by (by rewrite list_lookup_insert_eq).
  cbn [bind]. unfold add_stats, read_waiting.
  cbn [t_waiting set_t_end]. rewrite Hw. cbn [bind].
  set (s2 := with_stats _ _ _ _).
  assert (job_at s2 p (set_t_end (c_time s) j)) as Hj2.
  { unfold job_at, s2. simpl. by rewrite list_lookup_insert_eq. }
  rewrite (free_job _ _ _ Hj2). cbn [bind].
  rewrite !write_core_nat by done. cbn [bind].
  erewrite free_job by exact Hj2. cbn [bind].
  eexists. split; [done|]. split; [done|].
  split; [|split_and!; try done; simpl; by rewrite list_insert_insert_eq].
  apply (inv_close c).
  - apply inv_but_write_core.
    simpl. rewrite list_insert_insert_eq.
    apply (inv_but_free (Some c) (with_stats (t_response s2) (t_wait s2) (t_turnaround s2) s));
      [done|done|].
    intros k Hk. apply Hnc. congruence.
  - intros p' Hp'. simpl in Hp'. rewrite list_lookup_insert_eq in Hp' by done. done.
Qed.

(** The end of [scheduler_job_finished], from the test of the size on:
    the first queued job without a core gets the slot. *)
Lemma job_finished_tail core_id s :
  PriQueue.wf (jobs s) -> 
  (forall x, x ∈ PriQueue.head (jobs s) -> exists jx, heap s !! x = Some (Some jx)) ->
  (if PriQueue.priqueue_size (jobs s) =? 0 then Ok (-1, s)
   else
     let! '(i, next_job) :=
       next_scan (Z.to_nat (PriQueue.priqueue_size (jobs s))) 0 (heap s) (jobs s) None in
     if i >=? PriQueue.priqueue_size (jobs s) then Ok (-1, s)
     else
       match next_job with
       | Some p => dispatch core_id p s
       | None => Ok (-1, s)
       end) =
  match first_idle (heap s) (PriQueue.head (jobs s)) with
  | Some p => dispatch core_id p s
  | None => Ok (-1, s)
  end.
Proof.
  intros Hwf Hlive. unfold PriQueue.priqueue_size. pose proof Hwf as Hwf'.
  unfold PriQueue.wf in Hwf'.
  destruct (Z.eqb_spec (PriQueue.size (jobs s)) 0) as [H0|H0].
  - destruct (PriQueue.head (jobs s)); [done|]. simpl in Hwf'. lia.
  - destruct (next_scan_spec (heap s) (jobs s) [] (PriQueue.head (jobs s)) None)
      as (i & nx & Hrun & Hres); [done|done|done|].
    rewrite Hwf' at 1. rewrite Nat2Z.id.
    change 0 with (Z.of_nat (length (@nil nat))). rewrite Hrun. cbn [bind].
    rewrite Z.geb_leb.
    destruct (first_idle (heap s) (PriQueue.head (jobs s))) as [p|].
    + destruct Hres as [-> Hi]. destruct (Z.leb_spec (PriQueue.size (jobs s)) i); [lia|done].
    + subst i. destruct (Z.leb_spec (PriQueue.size (jobs s)) (PriQueue.size (jobs s))); [done|lia].
Qed.

Lemma admissible_job_finished s core_id id t :
  admissible s (JobFinished core_id id t) = true ->
  c_time s <= t /\
  exists (c : nat) p,
    core_id = Z.of_nat c /\ c_job s !! c = Some (Some p) /\
    first_with_id (heap s) id (PriQueue.head (jobs s)) = Some p.
Proof.
  cbn [admissible]. unfold running_on. intros H.
  apply andb_true_iff in H as [Ht H]. apply Z.leb_le in Ht. split; [done|].
  destruct (Z.ltb_spec core_id 0) as [|H0]; [done|].
  destruct (c_job s !! Z.to_nat core_id) as [[p|]|] eqn:Hp; [|done..].
  apply bool_decide_eq_true in H.
  exists (Z.to_nat core_id), p. split_and!; [lia|done|done].
Qed.

Lemma job_finished_exec core_id job_number time s :
  inv s -> admissible s (JobFinished core_id job_number time) = true ->
  exists r s',
    scheduler_job_finished core_id job_number time s = Ok (r, s') /\
    inv s' /\
    PriQueue.size (jobs s') = PriQueue.size (jobs s) - 1 /\
    job_finished_outcome s core_id r s' /\
    n_cores s' = n_cores s /\ t_scheme s' = t_scheme s /\ c_time s' = time /\
    n_jobs s' = n_jobs s.
Proof.
  intros Hinv Hadm.
  apply admissible_job_finished in Hadm as (Htime & c & p & -> & Hcp & Hfirst).
  pose proof Hinv as ((Ht & Hbd) & _).
  unfold scheduler_job_finished. cbv zeta.
  set (s0 := with_c_time time s).
  assert (inv s0) as Hinv0 by (apply inv_but_c_time; [done|lia]).
  destruct (inv_tick s0 Hinv0) as (h1 & Hrun & Hinv1 & Hlen & Hrel & Hon & Hoff).
  rewrite Hrun. cbn [bind].
  set (s1 := with_heap h1 s0) in *.
  pose proof Hinv1 as (_ & (Hwf & Hnd & Hq) & Hn & Hc).
  change (jobs s1) with (jobs s) in *. change (c_job s1) with (c_job s) in *.
  change (heap s1) with h1 in *.
  assert (c < length (c_job s))%nat as Hclt by (by eapply lookup_lt_Some).
  (* the search stops at [p] *)
  rewrite <- (heap_rel_first_with_id _ _ _ _ Hrel) in Hfirst.
  destruct (finished_scan_spec h1 job_number (jobs s) p [] (PriQueue.head (jobs s)) None)
    as (l1 & l2 & jp & Hhead & Hjp & Hid & Hscan); [done|done|done|].
  unfold PriQueue.priqueue_size.
  replace (Z.to_nat (PriQueue.size (jobs s))) with (length (PriQueue.head (jobs s)))
    by (unfold PriQueue.wf in Hwf; lia).
  change 0 with (Z.of_nat (length (@nil nat))). rewrite Hscan. cbn [bind local_ptr].
  assert (wrap (PriQueue.size (jobs s) - 1) = PriQueue.size (jobs s) - 1) as ->.
  { apply wrap_in_int. pose proof (f_equal length Hhead) as Hl.
    rewrite length_app in Hl. simpl in Hl. unfold PriQueue.wf in Hwf.
    unfold in_int, INT_MIN, INT_MAX in *. lia. }
  cbn [app].
  destruct (inv_but_unlink (Some c) s1 p (l1 ++ l2)) as [HinvR Hpnq].
  { by apply inv_open. }
  { by exists l1, l2. }
  { intros k Hk Hkp. apply Hk. f_equal. by apply (inv_slots_distinct s1 Hinv1 k c p). }
  change (jobs s1) with (jobs s) in HinvR. clear Hscan.
  set (sR := with_jobs _ s1) in *.
  destruct (Hc c p) as (_ & jp' & Hjp' & _ & _ & Hw); [done|done|].
  assert (jp' = jp) as -> by (unfold job_at in *; simpl in *; congruence).
  destruct (retire_spec c p jp sR) as (s5 & Hjf & _ & Hinv5 & Hcj5 & Hh5 & Hfr5).
  { done. }
  { done. }
  { done. }
  { done. }
  { done. }
  { intros k Hk Hkp. apply Hk. by apply (inv_slots_distinct s1 Hinv1 k c p). }
  destruct Hfr5 as (Hjobs5 & Hnc5 & Hsc5 & Hct5 & Hnj5).
  change time with (c_time sR). rewrite Hjf.
  pose proof Hinv5 as (_ & (Hwf5 & _ & Hq5) & _).
  rewrite job_finished_tail; [|done|].
  2:{ intros x Hx. destruct (Hq5 x Hx) as (jx & Hjx & _). eauto. }
  destruct (dispatch_first_idle c s5) as (r & s' & Hrun' & Hinv' & Hout & Hfr').
  { done. }
  { rewrite Hcj5. by rewrite list_lookup_insert_eq. }
  destruct Hfr' as (Hjobs' & Hnc' & Hsc' & Hct' & Hnj' & _ & _ & _ & Hfreed).
  exists r, s'. split; [exact Hrun'|]. split_and!;
    [done| | |by rewrite Hnc', Hnc5|by rewrite Hsc', Hsc5|by rewrite Hct', Hct5
    |by rewrite Hnj', Hnj5].
  - rewrite Hjobs', Hjobs5. done.
  - exists c, p. split_and!; try done.
    + apply Hfreed. rewrite Hh5. rewrite list_lookup_insert_eq; [done|].
      by eapply lookup_lt_Some.
    + unfold queued. rewrite Hjobs', Hjobs5. done.
    + destruct Hout as [[-> Hcj']|(p2 & j2 & -> & Hj2 & Hcj')].
      * left. split; [done|]. by rewrite Hcj', Hcj5.
      * right. exists p2, j2. split_and!; try done.
        rewrite Hcj', Hcj5. by rewrite list_insert_insert_eq.
Qed.

(** *** scheduler_quantum_expired *)

Lemma active_scan_spec c s pc jc p pre post :
  PriQueue.head (jobs s) = pre ++ post -> PriQueue.wf (jobs s) ->
  c_job s !! c = Some (Some pc) -> job_at s pc jc ->
  first_with_id (heap s) (job_id jc) post = Some p ->
  exists l1 l2,
    post = l1 ++ p :: l2 /\
    active_scan (length post) (Z.of_nat (length pre)) (Z.of_nat c) s =
      requeue_or_end (Z.of_nat c) (Some p)
        (with_jobs {| PriQueue.size := wrap (PriQueue.size (jobs s) - 1);
                      PriQueue.head := pre ++ l1 ++ l2 |} s).
Proof.
  intros Hh Hwf Hc Hjc. revert pre Hh.
  induction post as [|x post IH]; intros pre Hh Hfirst; [done|].
  cbn [first_with_id] in Hfirst.
  destruct (heap s !! x) as [[j|]|] eqn:Hx; [|done..].
  destruct (queue_lookup_middle (jobs s) pre x post Hh Hwf) as [Hlk Hlt].
  cbn [length active_scan].
  rewrite (PriQueueFacts.priqueue_at_in_range (jobs s) _ x) by (done || lia).
  cbn [bind deref]. rewrite (load_job _ _ _ Hx). cbn [bind].
  rewrite (read_core_nat _ _ _ Hc). cbn [bind deref].
  rewrite (load_job _ _ _ Hjc). cbn [bind].
  destruct (Z.eqb_spec (job_id j) (job_id jc)) as [Hid|Hid].
  - assert (p = x) as -> by congruence.
    rewrite (PriQueueFacts.priqueue_remove_at_in_range (jobs s) _ x) by (done || lia).
    cbn [bind]. exists [], post. split; [done|].
    rewrite Nat2Z.id, Hh, delete_middle. done.
  - destruct (IH (pre ++ [x])) as (l1 & l2 & Hpost & Hrun);
      [by rewrite <- app_assoc|done|].
    exists (x :: l1), l2. split; [by rewrite Hpost|].
    replace (Z.of_nat (length pre) + 1) with (Z.of_nat (length (pre ++ [x])))
      by (rewrite length_app; simpl; lia).
    rewrite Hrun. by rewrite <- app_assoc.
Qed.

Lemma assign_scan_all core_id s :
  PriQueue.wf (jobs s) ->
  (forall x, x ∈ PriQueue.head (jobs s) -> exists jx, heap s !! x = Some (Some jx)) ->
  assign_scan (Z.to_nat (PriQueue.priqueue_size (jobs s))) 0 core_id s =
  match first_idle (heap s) (PriQueue.head (jobs s)) with
  | Some p => dispatch core_id p s
  | None => Ok (-1, s)
  end.
Proof.
  intros Hwf Hlive. unfold PriQueue.priqueue_size.
  replace (Z.to_nat (PriQueue.size (jobs s))) with (length (PriQueue.head (jobs s)))
    by (unfold PriQueue.wf in Hwf; lia).
  by apply (assign_scan_spec core_id s []).
Qed.

(** The job [p] of the slot [c], unlinked with time left, goes back
    into the queue with no core. *)
Lemma requeue_spec c p j s :
  inv_but (Some c) s -> job_at s p j -> ~ queued s p ->
  is_Some (t_waiting j) ->
  (forall k, k <> c -> c_job s !! k <> Some (Some p)) ->
  PriQueue.size (jobs s) < INT_MAX -> t_remaining j <> 0 ->
  exists s',
    requeue_or_end (Z.of_nat c) (Some p) s = Ok s' /\
    inv_but (Some c) s' /\
    c_job s' = c_job s /\ queued s' p /\
    job_at s' p (set_t_updated (c_time s) (set_j_core (-1) j)) /\
    PriQueue.size (jobs s') = PriQueue.size (jobs s) + 1 /\
    n_cores s' = n_cores s /\ t_scheme s' = t_scheme s /\
    c_time s' = c_time s /\ n_jobs s' = n_jobs s /\ t_wait s' = t_wait s /\
    t_response s' = t_response s /\ t_turnaround s' = t_turnaround s.
Proof.
  intros Hinv Hj Hnq Hw Hnc Hsz Hrem.
  unfold requeue_or_end. cbn [deref]. rewrite (load_job _ _ _ Hj). cbn [bind].
  replace (t_remaining j =? 0) with false by (symmetry; by apply Z.eqb_neq).
  cbn [negb]. rewrite (update_job _ _ _ _ Hj). cbn [bind].
  set (j' := set_t_updated (c_time s) (set_j_core (-1) j)).
  set (s1 := with_heap _ s).
  assert (job_at s1 p j') as Hj1.
  { unfold job_at, s1. simpl. rewrite list_lookup_insert_eq; [done|].
    by eapply lookup_lt_Some. }
  assert (inv_but (Some c) s1) as Hinv1.
  { apply (inv_but_update _ _ _ j); [done|done|done|].
    intros k Hk Hkp. destruct (Hnc k); [congruence|done]. }
  destruct (offer_job_spec (Some c) s1 p j') as (r & l' & Hins & Hoff & Hinv');
    [done|done|done|done|done|].
  rewrite Hoff. cbn [bind].
  eexists. split; [done|]. split_and!; try done.
  destruct Hins as (l1 & l2 & _ & Hl'). unfold queued. simpl. rewrite Hl'.
  apply elem_of_app. right. by left.
Qed.

Lemma admissible_quantum_expired s core_id t :
  admissible s (QuantumExpired core_id t) = true ->
  c_time s <= t /\
  exists (c : nat) p j,
    core_id = Z.of_nat c /\ c_job s !! c = Some (Some p) /\ job_at s p j /\
    first_with_id (heap s) (job_id j) (PriQueue.head (jobs s)) = Some p.
Proof.
  cbn [admissible]. unfold running_on. intros H.
  apply andb_true_iff in H as [Ht H]. apply Z.leb_le in Ht. split; [done|].
  destruct (Z.ltb_spec core_id 0) as [|H0]; [done|].
  destruct (c_job s !! Z.to_nat core_id) as [[p|]|] eqn:Hp; [|done..].
  destruct (heap s !! p) as [[j|]|] eqn:Hj; [|done..].
  apply bool_decide_eq_true in H.
  exists (Z.to_nat core_id), p, j. split_and!; [lia|done|done|done].
Qed.

Lemma quantum_expired_exec core_id time s :
  inv s -> admissible s (QuantumExpired core_id time) = true ->
  exists r s',
    scheduler_quantum_expired core_id time s = Ok (r, s') /\
    inv s' /\
    (exists (c : nat) v, core_id = Z.of_nat c /\ c_job s' = <[c := v]> (c_job s)) /\
    n_cores s' = n_cores s /\ t_scheme s' = t_scheme s /\ c_time s' = time /\
    n_jobs s' = n_jobs s.
Proof.
  intros Hinv Hadm.
  apply admissible_quantum_expired in Hadm as (Htime & c & p & j & -> & Hcp & Hj & Hfirst).
  pose proof Hinv as ((Ht & Hbd) & _).
  unfold scheduler_quantum_expired. cbv zeta.
  set (s0 := with_c_time time s).
  assert (inv s0) as Hinv0 by (apply inv_but_c_time; [done|lia]).
  destruct (inv_tick s0 Hinv0) as (h1 & Hrun & Hinv1 & Hlen & Hrel & Hon & Hoff).
  rewrite Hrun. cbn [bind].
  set (s1 := with_heap h1 s0) in *.
  pose proof Hinv1 as (_ & (Hwf & Hnd & Hq) & Hn & Hc).
  assert (c < length (c_job s))%nat as Hclt by (by eapply lookup_lt_Some).
  destruct (Hon c p j Hcp Hj) as [Hj1 _]. change (c_time s0) with time in Hj1.
  set (j1 := tick_job time j) in *.
  assert (job_id j1 = job_id j) as Hid1 by (by destruct (tick_job_rel time j)).
  rewrite <- (heap_rel_first_with_id _ _ _ _ Hrel), <- Hid1 in Hfirst.
  destruct (active_scan_spec c s1 p j1 p [] (PriQueue.head (jobs s1)))
    as (l1 & l2 & Hhead & Hscan); [done|done|done|done|done|].
  unfold PriQueue.priqueue_size at 1.
  replace (Z.to_nat (PriQueue.size (jobs s1))) with (length (PriQueue.head (jobs s1)))
    by (unfold PriQueue.wf in Hwf; lia).
  change 0 with (Z.of_nat (length (@nil nat))) at 1. rewrite Hscan. cbn [app].
  assert (wrap (PriQueue.size (jobs s1) - 1) = PriQueue.size (jobs s1) - 1) as ->.
  { apply wrap_in_int. pose proof (f_equal length Hhead) as Hl.
    rewrite length_app in Hl. simpl in Hl. unfold PriQueue.wf in Hwf.
    change (jobs s1) with (jobs s) in *.
    unfold in_int, INT_MIN, INT_MAX in *. lia. }
  destruct (inv_but_unlink (Some c) s1 p (l1 ++ l2)) as [HinvR Hpnq].
  { by apply inv_open. }
  { by exists l1, l2. }
  { intros k Hk Hkp. apply Hk. f_equal. by apply (inv_slots_distinct s1 Hinv1 k c p). }
  clear Hscan.
  set (sR := with_jobs _ s1) in *.
  destruct (Hc c p) as (_ & jp' & Hjp' & _ & _ & Hw); [done|done|].
  assert (jp' = j1) as -> by (unfold job_at in *; simpl in *; congruence).
  assert (forall k, k <> c -> c_job sR !! k <> Some (Some p)) as Hnc.
  { intros k Hk Hkp. apply Hk. by apply (inv_slots_distinct s1 Hinv1 k c p). }
  destruct (Z.eq_dec (t_remaining j1) 0) as [Hrem|Hrem].
  - (* the job has ended *)
    destruct (retire_spec c p j1 sR) as (s5 & _ & Hqe & Hinv5 & Hcj5 & Hh5 & Hfr5);
      [done|done|done|done|exact Hpnq|done|].
    destruct Hfr5 as (Hjobs5 & Hnc5 & Hsc5 & Hct5 & Hnj5).
    assert (requeue_or_end (Z.of_nat c) (Some p) sR = Ok s5) as ->.
    { unfold requeue_or_end. cbn [deref].
      rewrite (load_job (heap sR) p j1) by exact Hj1. cbn [bind].
      rewrite Hrem. cbn [Z.eqb negb]. rewrite <- Hqe.
      rewrite !(update_job sR p j1) by exact Hjp'. reflexivity. }
    cbn [bind].
    pose proof Hinv5 as (_ & (Hwf5 & _ & Hq5) & _).
    rewrite assign_scan_all; [|done|].
    2:{ intros x Hx. destruct (Hq5 x Hx) as (jx & Hjx & _). eauto. }
    destruct (dispatch_first_idle c s5) as (r & s' & Hrun' & Hinv' & Hout & Hfr').
    { done. }
    { rewrite Hcj5. by rewrite list_lookup_insert_eq. }
    destruct Hfr' as (Hjobs' & Hnc' & Hsc' & Hct' & Hnj' & _).
    exists r, s'. split; [exact Hrun'|]. split_and!;
      [done| |by rewrite Hnc', Hnc5|by rewrite Hsc', Hsc5|by rewrite Hct', Hct5
      |by rewrite Hnj', Hnj5].
    destruct Hout as [[_ Hcj']|(p2 & j2 & _ & _ & Hcj')].
    + exists c, None. split; [done|]. by rewrite Hcj', Hcj5.
    + exists c, (Some p2). split; [done|].
      rewrite Hcj', Hcj5. by rewrite list_insert_insert_eq.
  - (* the job goes back into the queue *)
    destruct (requeue_spec c p j1 sR)
      as (s3 & Hreq & Hinv3 & Hcj3 & Hq3 & Hj3 & Hsz3 & Hnc3 & Hsc3 & Hct3 & Hnj3 & _);
      [done|done|exact Hpnq|done|done| |done|].
    { simpl. lia. }
    rewrite Hreq. cbn [bind].
    pose proof Hinv3 as ((Ht3 & _) & (Hwf3 & _ & Hqs3) & _).
    assert (forall x, x ∈ PriQueue.head (jobs s3) ->
              exists jx, heap s3 !! x = Some (Some jx)) as Hlive3.
    { intros x Hx. destruct (Hqs3 x Hx) as (jx & Hjx & _). eauto. }
    rewrite assign_scan_all; [|done|done].
    destruct (first_idle (heap s3) (PriQueue.head (jobs s3))) as [p2|] eqn:Hfi.
    2:{ by destruct (first_idle_None _ _ p _ Hlive3 Hq3 Hj3). }
    destruct (first_idle_Some _ _ _ Hfi) as (Hq2 & j2 & Hj2 & Hcore2).
    destruct (dispatch_spec c p2 j2 s3) as (j' & s' & Hrun' & Hinv' & Hcj' & _ & _ & Hfr').
    { done. }
    { by rewrite Hcj3. }
    { done. }
    { done. }
    { done. }
    { done. }
    destruct Hfr' as (_ & Hnc' & Hsc' & Hct' & Hnj' & _).
    exists (job_id j2), s'. split; [exact Hrun'|]. split_and!;
      [done| |by rewrite Hnc', Hnc3|by rewrite Hsc', Hsc3|by rewrite Hct', Hct3
      |by rewrite Hnj', Hnj3].
    exists c, (Some p2). split; [done|]. by rewrite Hcj', Hcj3.
Qed.

(** *** A completion for any queued job *)

Lemma inv_but_clear_core skip c s :
  inv_but skip s -> inv_but skip (with_c_job (<[c := None]> (c_job s)) s).
Proof.
  intros ((Ht & Hbd) & Hq & Hn & Hc). split; [done|split; [done|split]].
  - simpl. by rewrite length_insert.
  - intros k p Hk Hkp. simpl in Hkp.
    destruct (decide (k = c)) as [->|Hne].
    + destruct (decide (c < length (c_job s))%nat).
      * rewrite list_lookup_insert_eq in Hkp by done. done.
      * rewrite list_insert_ge in Hkp by lia. by apply (Hc c p).
    + rewrite list_lookup_insert_ne in Hkp by done. by apply (Hc k p).
Qed.

(** The writes of [scheduler_job_finished] for the job [p] it found, when
    the slot it clears need not be the one [p] ran on. *)
Lemma finish_chain k c p j s :
  inv_but (Some k) s -> (c < length (c_job s))%nat ->
  job_at s p j -> is_Some (t_waiting j) -> ~ queued s p ->
  (forall k', k' <> k -> c_job s !! k' <> Some (Some p)) ->
  exists s',
    (forall A (K : sched -> res A),
       (let! s1 := update p (set_t_end (c_time s)) s in
        let! j1 := load (heap s1) p in
        let! s2 := add_stats j1 (c_time s) s1 in
        let! s3 := free p s2 in
        let! s4 := write_core (Z.of_nat c) None s3 in
        K s4) = K s') /\
    inv_but (Some k) s' /\ jobs s' = jobs s /\
    length (c_job s') = length (c_job s).
Proof.
  intros Hinv Hc Hj [w Hw] Hnq Hnc.
  assert (p < length (heap s))%nat as Hlt by (by eapply lookup_lt_Some).
  rewrite (update_job _ _ _ _ Hj). cbn [bind heap with_heap].
  rewrite (load_job _ p (set_t_end (c_time s) j))
    by (by rewrite list_lookup_insert_eq).
  cbn [bind]. unfold add_stats, read_waiting.
  cbn [t_waiting set_t_end]. rewrite Hw. cbn [bind].
  set (s2 := with_stats _ _ _ _).
  assert (job_at s2 p (set_t_end (c_time s) j)) as Hj2.
  { unfold job_at, s2. simpl. by rewrite list_lookup_insert_eq. }
  rewrite (free_job _ _ _ Hj2). cbn [bind].
  rewrite !write_core_nat by done. cbn [bind].
  eexists. split; [done|]. split; [|split; [done|simpl; by rewrite length_insert]].
  apply (inv_but_clear_core (Some k) c
           (with_heap (<[p:=None]> (heap s2)) s2)).
  simpl. rewrite list_insert_insert_eq.
  apply (inv_but_free (Some k) (with_stats (t_response s2) (t_wait s2) (t_turnaround s2) s));
    [done|done|].
  intros k' Hk. apply Hnc. congruence.
Qed.

Lemma dispatch_returns c p s :
  queue_ok s -> queued s p -> (c < length (c_job s))%nat ->
  exists r s', dispatch (Z.of_nat c) p s = Ok (r, s') /\ jobs s' = jobs s.
Proof.
  intros (_ & _ & Hq) Hp Hc. destruct (Hq p Hp) as (j & Hj & Hw).
  unfold dispatch. rewrite (load_job _ _ _ Hj). cbn [bind].
  assert (exists j', dispatch_job (c_time s) (Z.of_nat c) j = Ok j') as [j' ->].
  { unfold dispatch_job. destruct (Z.eqb_spec (t_started j) (-1)) as [|Hs]; [eauto|].
    destruct (Hw Hs) as [w Hwj]. unfold read_waiting. rewrite Hwj. cbn [bind]. eauto. }
  cbn [bind]. rewrite write_core_nat by done. cbn [bind]. eauto.
Qed.

Lemma job_finished_size core_id job_number time s p j :
  inv s -> c_time s <= time -> 0 <= core_id < n_cores s ->
  first_with_id (heap s) job_number (PriQueue.head (jobs s)) = Some p ->
  job_at s p j -> is_Some (t_waiting j) ->
  exists r s',
    scheduler_job_finished core_id job_number time s = Ok (r, s') /\
    PriQueue.size (jobs s') = PriQueue.size (jobs s) - 1.
Proof.
  intros Hinv Htime Hcore Hfirst Hj Hw.
  pose proof Hinv as ((Ht & Hbd) & _ & Hncs & _).
  unfold scheduler_job_finished. cbv zeta.
  set (s0 := with_c_time time s).
  assert (inv s0) as Hinv0 by (apply inv_but_c_time; [done|lia]).
  destruct (inv_tick s0 Hinv0) as (h1 & Hrun & Hinv1 & Hlen & Hrel & Hon & Hoff).
  rewrite Hrun. cbn [bind].
  set (s1 := with_heap h1 s0) in *.
  pose proof Hinv1 as (_ & (Hwf & Hnd & Hq) & Hn & Hc).
  change (jobs s1) with (jobs s) in *. change (c_job s1) with (c_job s) in *.
  change (heap s1) with h1 in *.
  rewrite <- (heap_rel_first_with_id _ _ _ _ Hrel) in Hfirst.
  destruct (finished_scan_spec h1 job_number (jobs s) p [] (PriQueue.head (jobs s)) None)
    as (l1 & l2 & jp & Hhead & Hjp & Hid & Hscan); [done|done|done|].
  unfold PriQueue.priqueue_size.
  replace (Z.to_nat (PriQueue.size (jobs s))) with (length (PriQueue.head (jobs s)))
    by (unfold PriQueue.wf in Hwf; lia).
  change 0 with (Z.of_nat (length (@nil nat))). rewrite Hscan. cbn [bind local_ptr].
  assert (wrap (PriQueue.size (jobs s) - 1) = PriQueue.size (jobs s) - 1) as ->.
  { apply wrap_in_int. pose proof (f_equal length Hhead) as Hl.
    rewrite length_app in Hl. simpl in Hl. unfold PriQueue.wf in Hwf.
    unfold in_int, INT_MIN, INT_MAX in *. lia. }
  cbn [app]. clear Hscan.
  (* the slot, if any, that [p] is in *)
  assert (exists k, forall k', k' <> k -> c_job s !! k' <> Some (Some p)) as [k Hk].
  { destruct (decide (Some p ∈ c_job s)) as [Hp|Hp].
    - apply list_elem_of_lookup_1 in Hp as [k Hkp]. exists k. intros k' Hne Hk'.
      apply Hne. by apply (inv_slots_distinct s1 Hinv1 k' k p).
    - exists 0%nat. intros k' _ Hk'. apply Hp. by eapply list_elem_of_lookup_2. }
  destruct (inv_but_unlink (Some k) s1 p (l1 ++ l2)) as [HinvR Hpnq].
  { by apply inv_open. }
  { by exists l1, l2. }
  { intros k' Hk' Hkp. apply (Hk k'); [congruence|done]. }
  change (jobs s1) with (jobs s) in HinvR.
  set (sR := with_jobs _ s1) in *.
  assert (is_Some (t_waiting jp)) as Hwp.
  { unfold heap_rel in Hrel. specialize (Hrel p). unfold job_at in Hj. simpl in Hrel.
    rewrite Hj in Hrel. destruct Hrel as (j' & Hj' & Hr).
    assert (j' = jp) as -> by congruence.
    by destruct Hr as (_ & _ & _ & _ & _ & -> & _). }
  destruct (finish_chain k (Z.to_nat core_id) p jp sR) as (s5 & Hjf & Hinv5 & Hjobs5 & Hlen5).
  { done. }
  { simpl. lia. }
  { done. }
  { done. }
  { exact Hpnq. }
  { done. }
  change time with (c_time sR).
  replace core_id with (Z.of_nat (Z.to_nat core_id)) by lia.
  rewrite Hjf.
  pose proof Hinv5 as (_ & Hq5 & _). pose proof Hq5 as (Hwf5 & _ & Hlive5).
  rewrite job_finished_tail; [|done|].
  2:{ intros x Hx. destruct (Hlive5 x Hx) as (jx & Hjx & _). eauto. }
  destruct (first_idle (heap s5) (PriQueue.head (jobs s5))) as [p2|] eqn:Hfi.
  - destruct (first_idle_Some _ _ _ Hfi) as (Hq2 & _).
    destruct (dispatch_returns (Z.to_nat core_id) p2 s5) as (r & s' & Hd & Hjobs');
      [done|done|rewrite Hlen5; simpl; lia|].
    exists r, s'. split; [done|]. rewrite Hjobs', Hjobs5. done.
  - exists (-1), s5. split; [done|]. rewrite Hjobs5. done.
Qed.

(** *** Traces *)

Lemma inv_start_up cores scheme : 0 < cores -> inv (scheduler_start_up cores scheme).
Proof.
  intros Hc. split_inv.
  - done.
  - simpl. unfold INT_MAX. lia.
  - done.
  - simpl. apply NoDup_nil_2.
  - intros p Hp. by apply elem_of_nil in Hp.
  - simpl. rewrite length_replicate. lia.
  - intros k p _ Hk. simpl in Hk. apply lookup_replicate in Hk as [? _]. done.
Qed.

Lemma step_inv e s :
  inv s -> admissible s e = true ->
  exists r s', step e s = Ok (r, s') /\ inv s' /\ t_scheme s' = t_scheme s.
Proof.
  intros Hinv Hadm. destruct e as [id t run prio|core id t|core t]; cbn [step].
  - destruct (new_job_exec id t run prio s Hinv Hadm)
      as (r & s' & Hrun & Hinv' & _ & _ & _ & _ & _ & Hsc & _). eauto.
  - destruct (job_finished_exec core id t s Hinv Hadm)
      as (r & s' & Hrun & Hinv' & _ & _ & _ & Hsc & _). eauto.
  - destruct (quantum_expired_exec core t s Hinv Hadm)
      as (r & s' & Hrun & Hinv' & _ & _ & Hsc & _). eauto.
Qed.

Lemma conforming_cons e es s :
  conforming (e :: es) s = true ->
  admissible s e = true /\
  forall r s', step e s = Ok (r, s') -> conforming es s' = true.
Proof.
  cbn [conforming]. intros [Ha Hc]%andb_true_iff. split; [done|].
  intros r s' Hs. by rewrite Hs in Hc.
Qed.

Lemma conforming_app es1 es2 s :
  conforming (es1 ++ es2) s = true -> conforming es1 s = true.
Proof.
  revert s. induction es1 as [|e es1 IH]; intros s; [done|].
  cbn [app conforming]. intros [Ha Hc]%andb_true_iff. rewrite Ha. cbn [andb].
  destruct (step e s) as [[r s']|]; [by apply IH|done].
Qed.

Lemma run_inv es s :
  inv s -> conforming es s = true ->
  exists rs s', run es s = Ok (rs, s') /\ inv s' /\ t_scheme s' = t_scheme s.
Proof.
  revert s. induction es as [|e es IH]; intros s Hinv Hconf.
  - by exists [], s.
  - apply conforming_cons in Hconf as [Ha Hc].
    destruct (step_inv e s Hinv Ha) as (r & s1 & Hs & Hinv1 & Hsc1).
    destruct (IH s1 Hinv1 (Hc r s1 Hs)) as (rs & s' & Hr & Hinv' & Hsc').
    exists (r :: rs), s'. cbn [run]. rewrite Hs. cbn [bind]. rewrite Hr. cbn [bind].
    split_and!; [done|done|congruence].
Qed.

End SchedulerFacts.

(** * The claims *)

Import Scheduler Contract SchedulerFacts.

(** ** The ordered queue *)

(** C2, the value returned by [priqueue_offer]: in the queue built by
    [priqueue_init] and one [priqueue_offer] of the item 10, with a
    comparer that always answers 1 (as the scheduler's does under FCFS),
    offering 20 links it behind 10, at index 1, and returns 0.  The
    placement is the one of the claim; the value returned is the index of
    the node that 20 was linked behind. *)
Theorem priqueue_offer_returns_predecessor_index :
  exists q1 q2,
    PriQueue.priqueue_offer (fun _ _ : nat => Ok 1) PriQueue.priqueue_init (Some 10%nat)
      = Ok (0, q1) /\
    PriQueue.priqueue_offer (fun _ _ : nat => Ok 1) q1 (Some 20%nat) = Ok (0, q2) /\
    PriQueue.head q2 = [10%nat; 20%nat] /\
    PriQueue.head q2 !! 1%nat = Some 20%nat /\
    PriQueue.head q2 !! 0%nat <> Some 20%nat.
Proof.
  eexists _, _. split; [reflexivity|]. split; [reflexivity|].
  split_and!; done.
Qed.

(** C3, the boundary [index == size]: in the queue that holds the one
    item 10, [priqueue_at] and [priqueue_remove_at] at index 1
    dereference [NULL], and so does [priqueue_at] at index 0 of the
    empty queue; none returns [NULL]. *)
Theorem priqueue_at_size_null_deref :
  exists q1,
    PriQueue.priqueue_offer (fun _ _ : nat => Ok 1) PriQueue.priqueue_init (Some 10%nat)
      = Ok (0, q1) /\
    PriQueue.size q1 = 1 /\
    PriQueue.priqueue_at q1 1 = Crash NullDeref /\
    PriQueue.priqueue_remove_at q1 1 = Crash NullDeref /\
    PriQueue.priqueue_at (@PriQueue.priqueue_init nat) 0 = Crash NullDeref /\
    PriQueue.priqueue_remove_at (@PriQueue.priqueue_init nat) 0 = Crash NullDeref.
Proof.
  eexists. split; [reflexivity|]. split_and!; reflexivity.
Qed.

(** ** The scenario *)

(** C5: FCFS on one core.  Job 1 gets core 0; the arrival of job 2
    returns -1; when job 1 finishes at time 5 the call returns 2, and
    job 2, on core 0, has waited 4. *)
Theorem fcfs_one_core_scenario :
  exists s1 s2 s3 j2,
    scheduler_new_job 1 0 5 0 (scheduler_start_up 1 FCFS) = Ok (0, s1) /\
    scheduler_new_job 2 1 3 0 s1 = Ok (-1, s2) /\
    scheduler_job_finished 0 1 5 s2 = Ok (2, s3) /\
    c_job s3 = [Some 1%nat] /\ job_at s3 1%nat j2 /\
    job_id j2 = 2 /\ t_waiting j2 = Some 4 /\ j_core j2 = 0.
Proof.
  eexists _, _, _, _. split; [vm_compute; reflexivity|].
  split; [vm_compute; reflexivity|]. split; [vm_compute; reflexivity|].
  split_and!; reflexivity.
Qed.

(** ** A completion for a job that is not in the queue *)

(** C6: [scheduler_job_finished] has no path for a job number that the
    search does not find.  On the empty queue it dereferences the
    pointer [job_finished], which was never assigned.  On a queue of
    three jobs under PPRI (job 2 on core 0, jobs 4 and 1 preempted), a
    completion for the unknown job 99 returns 4, not -1: the last job
    looked at, job 1, has its times added to the sums and is freed while
    still linked in the queue, whose size stays 3; core 0 goes to job 4
    while job 2 still records core 0. *)
Theorem job_finished_unknown_id :
  scheduler_job_finished 0 99 0 (scheduler_start_up 1 FCFS) = Crash UninitPointer /\
  exists rs s s' j2 j4,
    run [NewJob 1 0 9 5; NewJob 4 1 9 3; NewJob 2 2 9 1] (scheduler_start_up 1 PPRI)
      = Ok (rs, s) /\
    PriQueue.head (jobs s) = [2%nat; 1%nat; 0%nat] /\
    first_with_id (heap s) 99 (PriQueue.head (jobs s)) = None /\
    t_turnaround s = fzero /\
    scheduler_job_finished 0 99 3 s = Ok (4, s') /\
    heap s' !! 0%nat = Some None /\
    PriQueue.head (jobs s') = [2%nat; 1%nat; 0%nat] /\
    PriQueue.size (jobs s') = 3 /\
    t_turnaround s' = float_of_int 3 /\
    c_job s' = [Some 1%nat] /\
    job_at s' 1%nat j4 /\ job_id j4 = 4 /\
    job_at s' 2%nat j2 /\ job_id j2 = 2 /\ j_core j2 = 0.
Proof.
  split; [vm_compute; reflexivity|].
  eexists _, _, _, _, _. split; [vm_compute; reflexivity|].
  split; [reflexivity|]. split; [reflexivity|]. split; [reflexivity|].
  split; [vm_compute; reflexivity|].
  split_and!; vm_compute; reflexivity.
Qed.

(** ** The clock advance *)

(** Every call begins with [increment_timestep] in the state
    [at_tick]. *)
Lemma step_begins_with_tick e s :
  exists k, step e s = (let! s1 := increment_timestep (at_tick e s) in k s1).
Proof. destruct e; eexists; reflexivity. Qed.



(** The two branches of [increment_timestep], in any state in which
    every taken slot points to a live job and no job is in two slots:
    the call returns, changes nothing but the jobs in the slots, and for
    the job [j] in a slot: if [j] has no start time and was not updated
    at the current time, its start time becomes the time of its last
    update and nothing else changes; otherwise its remaining time is
    reduced by the current time minus the time of its last update (in
    32-bit arithmetic: exactly, when the two differences are in the
    range of [int]) and its last update becomes the current time. *)
Theorem increment_timestep_effect s :
  n_cores s = Z.of_nat (length (c_job s)) -> slots_live s -> slots_distinct s ->
  exists s',
    increment_timestep s = Ok s' /\
    s' = with_heap (heap s') s /\
    (forall k p j, c_job s !! k = Some (Some p) -> job_at s p j ->
       (t_started j = -1 /\ t_updated j <> c_time s ->
        job_at s' p (set_t_started (t_updated j) j)) /\
       (~ (t_started j = -1 /\ t_updated j <> c_time s) ->
        job_at s' p
          (set_t_updated (c_time s)
             (set_t_remaining
                (wrap (t_remaining j - wrap (c_time s - t_updated j))) j)) /\
        (in_int (c_time s - t_updated j) ->
         in_int (t_remaining j - (c_time s - t_updated j)) ->
         job_at s' p
           (set_t_updated (c_time s)
              (set_t_remaining (t_remaining j - (c_time s - t_updated j)) j))))) /\
    (forall p, (forall k, c_job s !! k <> Some (Some p)) ->
       heap s' !! p = heap s !! p).
Proof.
  intros Hn Hlive Hdist.
  destruct (increment_timestep_spec s Hn Hlive Hdist) as (h' & Hrun & Hl & Hin & Hout).
  exists (with_heap h' s). split; [done|]. split; [done|]. split; [|done].
  intros k p j Hk Hj. specialize (Hin k p j Hk Hj). unfold job_at. simpl.
  rewrite Hin. unfold tick_job. split.
  - intros [Hs Hu]. rewrite Hs.
    replace (t_updated j =? c_time s) with false by (symmetry; by apply Z.eqb_neq).
    done.
  - intros Hno.
    assert ((t_started j =? -1) && negb (t_updated j =? c_time s) = false) as ->.
    { destruct (Z.eqb_spec (t_started j) (-1)) as [Hs|]; [|done].
      destruct (Z.eqb_spec (t_updated j) (c_time s)) as [|Hu]; [done|].
      destruct Hno. done. }
    split; [done|]. intros H1 H2. by rewrite (wrap_in_int _ H1), (wrap_in_int _ H2).
Qed.

Lemma increment_timestep_effect_witness :
  n_cores Examples.two_cores_at_5 =
    Z.of_nat (length (c_job Examples.two_cores_at_5)) /\
  slots_live Examples.two_cores_at_5 /\
  slots_distinct Examples.two_cores_at_5 /\
  exists s',
    increment_timestep Examples.two_cores_at_5 = Ok s' /\
    job_at s' 0%nat (mkjob 3 5 5 (Some 0) 3 3 None 1 0 0) /\
    job_at s' 1%nat (mkjob 0 4 1 (Some 0) 5 0 None 2 0 1).
Proof.
  assert (slots_live Examples.two_cores_at_5) as Hlive.
  { intros [|[|k]] p Hp; simpl in Hp; simplify_eq; eexists; reflexivity. }
  assert (slots_distinct Examples.two_cores_at_5) as Hdist.
  { intros [|[|k1]] [|[|k2]] p H1 H2; simpl in H1, H2; simplify_eq; done. }
  split; [reflexivity|]. split; [exact Hlive|]. split; [exact Hdist|].
  destruct (increment_timestep_effect Examples.two_cores_at_5 eq_refl Hlive Hdist)
    as (s' & Hrun & _ & Hjobs & _).
  exists s'. split; [exact Hrun|]. split.
  - destruct (Hjobs 0%nat 0%nat _ eq_refl eq_refl) as [H _]. apply H. split; [done|].
    simpl. lia.
  - destruct (Hjobs 1%nat 1%nat _ eq_refl eq_refl) as [_ H].
    destruct H as [H _]; [|exact H]. intros [H _]. simpl in H. lia.
Defined.

(** ** The state between two calls *)

(** C10: after [scheduler_start_up] with at least one core and any
    calls made as the simulator makes them ([conforming]), each call
    returns, and in the state after any number of them every taken slot
    [k] holds a live job that records core [k] and has a start time; a
    queued job that records no core is in no slot; and so no job in a
    slot takes the never-started branch of [increment_timestep] at the
    next call, whatever its time. *)
Theorem cores_and_queue_consistent cores scheme es rest :
  0 < cores ->
  conforming (es ++ rest) (scheduler_start_up cores scheme) = true ->
  exists rs s,
    run es (scheduler_start_up cores scheme) = Ok (rs, s) /\
    (forall k p, c_job s !! k = Some (Some p) ->
       exists j, job_at s p j /\ j_core j = Z.of_nat k /\ t_started j <> -1) /\
    (forall p j, queued s p -> job_at s p j -> j_core j = -1 ->
       forall k, c_job s !! k <> Some (Some p)) /\
    (forall k p j now, c_job s !! k = Some (Some p) -> job_at s p j ->
       tick_job now j =
       set_t_updated now
         (set_t_remaining (wrap (t_remaining j - wrap (now - t_updated j))) j)).
Proof.
  intros Hc Hconf. apply conforming_app in Hconf.
  destruct (run_inv es _ (inv_start_up cores scheme Hc) Hconf) as (rs & s & Hrun & Hinv & _).
  exists rs, s. split; [done|].
  destruct Hinv as (_ & _ & _ & Hcores).
  assert (forall k p, c_job s !! k = Some (Some p) ->
            exists j, job_at s p j /\ j_core j = Z.of_nat k /\ t_started j <> -1) as Hslots.
  { intros k p Hk. destruct (Hcores k p) as (_ & j & Hj & Hjc & Hst & _); [done|done|].
    eauto. }
  split_and!; [done| |].
  - intros p j _ Hj Hcore k Hk. destruct (Hslots k p Hk) as (j' & Hj' & Hjc & _).
    unfold job_at in *. assert (j' = j) as -> by congruence. lia.
  - intros k p j now Hk Hj. destruct (Hslots k p Hk) as (j' & Hj' & _ & Hst).
    unfold job_at in *. assert (j' = j) as -> by congruence.
    by apply tick_job_started.
Qed.

Lemma cores_and_queue_consistent_witness :
  0 < 1 /\
  conforming ([NewJob 1 0 5 0; NewJob 2 1 3 0; JobFinished 0 1 5] ++ [NewJob 3 6 2 0])
    (scheduler_start_up 1 FCFS) = true /\
  exists rs s,
    run [NewJob 1 0 5 0; NewJob 2 1 3 0; JobFinished 0 1 5] (scheduler_start_up 1 FCFS)
      = Ok (rs, s) /\
    (forall k p, c_job s !! k = Some (Some p) ->
       exists j, job_at s p j /\ j_core j = Z.of_nat k /\ t_started j <> -1).
Proof.
  split; [lia|]. split; [vm_compute; reflexivity|].
  destruct (cores_and_queue_consistent 1 FCFS
              [NewJob 1 0 5 0; NewJob 2 1 3 0; JobFinished 0 1 5] [NewJob 3 6 2 0])
    as (rs & s & Hrun & Hslots & _); [lia|vm_compute; reflexivity|].
  exists rs, s. split; [exact Hrun|exact Hslots].
Defined.

(** ** The size of the queue *)

(** C9: under PPRI an arrival does not always leave the queue one
    longer.  The scan for the core to take starts with
    [coretochange = -1] and [corepriority = -1]; when the job on the one
    core has the priority number -1 and a job of priority -2 arrives,
    the running job qualifies, its priority equals [corepriority], and
    the comparison of the arrival times reads [c_job[coretochange]],
    that is [c_job[-1]], before the arriving job is offered to the
    queue.  The first call is one the simulator makes and leaves a queue
    of size 1; the second has no state after it. *)
Theorem new_job_ppri_reads_slot_minus_one :
  exists s,
    conforming [NewJob 1 0 5 (-1)] (scheduler_start_up 1 PPRI) = true /\
    run [NewJob 1 0 5 (-1)] (scheduler_start_up 1 PPRI) = Ok ([0], s) /\
    c_job s = [Some 0%nat] /\
    PriQueue.priqueue_size (jobs s) = 1 /\
    scheduler_new_job 2 1 3 (-2) s = Crash OutOfBounds /\
    run [NewJob 1 0 5 (-1); NewJob 2 1 3 (-2)] (scheduler_start_up 1 PPRI) =
      Crash OutOfBounds.
Proof.
  eexists. split; [vm_compute; reflexivity|]. split; [vm_compute; reflexivity|].
  split; [reflexivity|]. split; [reflexivity|].
  split; vm_compute; reflexivity.
Qed.

(** Where the calls return: in a state between two calls ([inv]), a
    call of [scheduler_new_job] at a time that is not before the clock,
    with room in the queue counter and, under PPRI, a priority number of
    at least -1, returns and leaves the queue one longer; and a call of
    [scheduler_job_finished], for a valid core and a time that is not
    before the clock, with a job number that the search finds in the
    queue, returns and leaves the queue one shorter, whichever core that
    job ran on, provided its waiting time was ever written. *)
Theorem queue_size_after_event s :
  inv s ->
  (forall job_number time running_time prio,
     admissible s (NewJob job_number time running_time prio) = true ->
     exists r s',
       scheduler_new_job job_number time running_time prio s = Ok (r, s') /\
       PriQueue.priqueue_size (jobs s') = PriQueue.priqueue_size (jobs s) + 1) /\
  (forall core_id job_number time p j,
     c_time s <= time -> 0 <= core_id < n_cores s ->
     first_with_id (heap s) job_number (PriQueue.head (jobs s)) = Some p ->
     job_at s p j -> is_Some (t_waiting j) ->
     exists r s',
       scheduler_job_finished core_id job_number time s = Ok (r, s') /\
       PriQueue.priqueue_size (jobs s') = PriQueue.priqueue_size (jobs s) - 1).
Proof.
  intros Hinv. split.
  - intros id t run prio Hadm.
    destruct (new_job_exec id t run prio s Hinv Hadm) as (r & s' & Hrun & _ & Hsz & _).
    eauto.
  - intros core id t p j Ht Hcore Hfirst Hj Hw.
    by apply (job_finished_size core id t s p j).
Qed.

Lemma queue_size_after_event_witness :
  exists rs s,
    run [NewJob 1 0 5 0; NewJob 2 1 3 0] (scheduler_start_up 1 SJF) = Ok (rs, s) /\
    inv s /\
    admissible s (NewJob 3 2 4 0) = true /\
    (exists r s',
       scheduler_new_job 3 2 4 0 s = Ok (r, s') /\
       PriQueue.priqueue_size (jobs s') = PriQueue.priqueue_size (jobs s) + 1) /\
    c_time s <= 5 /\ 0 <= 0 < n_cores s /\
    (exists p j,
       first_with_id (heap s) 1 (PriQueue.head (jobs s)) = Some p /\
       job_at s p j /\ is_Some (t_waiting j)) /\
    (exists r s',
       scheduler_job_finished 0 1 5 s = Ok (r, s') /\
       PriQueue.priqueue_size (jobs s') = PriQueue.priqueue_size (jobs s) - 1).
Proof.
  assert (inv (scheduler_start_up 1 SJF)) as Hinv0 by (apply inv_start_up; lia).
  destruct (run_inv [NewJob 1 0 5 0; NewJob 2 1 3 0] (scheduler_start_up 1 SJF)
              Hinv0 eq_refl) as (rs & s & Hrun & Hinv & _).
  exists rs, s. split; [exact Hrun|]. split; [exact Hinv|].
  vm_compute in Hrun. injection Hrun as <- <-.
  set (s := mksched _ _ _ _ _ _ _ _ _ _) in *.
  destruct (queue_size_after_event s Hinv) as [Hnew Hfin].
  split; [reflexivity|]. split; [by apply Hnew|].
  split; [simpl; lia|]. split; [simpl; lia|].
  split; [exists 0%nat; eexists; split; [reflexivity|split; [reflexivity|by eexists]]|].
  apply (Hfin 0 1 5 0%nat (mkjob 0 5 4 (Some 0) 1 0 None 1 0 0));
    [simpl; lia|simpl; lia|reflexivity|reflexivity|by eexists].
Defined.

(** ** Jobs that keep their core *)





(** ** Preemption under PPRI *)

(** C4: the scan for the core to take starts its maximum,
    [corepriority], at -1, a value that is itself a priority number, so
    a running job whose priority number is below -1 is never a
    candidate.  With a job of priority -3 on the one core, the arrival
    of a job of priority -5, which goes before it in the order of the
    comparer and is linked before it in the queue, returns -1 and leaves
    the core to the job of priority -3: the job that the claim says is
    evicted keeps its core. *)
Lemma ppri_negative_priority_not_preempted :
  exists s1 s2 j1,
    scheduler_new_job 1 0 5 (-3) (scheduler_start_up 1 PPRI) = Ok (0, s1) /\
    c_job s1 = [Some 0%nat] /\ job_at s1 0%nat j1 /\ -5 < priority j1 /\
    scheduler_new_job 2 1 3 (-5) s1 = Ok (-1, s2) /\
    c_job s2 = [Some 0%nat] /\
    PriQueue.head (jobs s2) = [1%nat; 0%nat].
Proof.
  eexists _, _, _. split; [vm_compute; reflexivity|].
  split; [reflexivity|]. split; [reflexivity|]. split; [simpl; lia|].
  split; [vm_compute; reflexivity|]. split; reflexivity.
Qed.

(** Where the starting value -1 of the scan is out of the way: under
    PPRI, in a state between two calls with every core taken, an arrival
    whose priority number [prio] is at least -1 and below that of some
    running job returns a core [c] such that the
    job [jo] that ran there has a priority number above [prio], no
    running job above [prio] has a greater one, and none with the same
    one arrived later.  After the call the arriving job is in slot [c]
    and in the queue, and [jo] records no core; its start time is unset
    if it was the time of the call and is unchanged otherwise. *)
Theorem ppri_preemption_target job_number time running_time prio s :
  inv s -> t_scheme s = PPRI ->
  admissible s (NewJob job_number time running_time prio) = true ->
  all_busy s ->
  (exists i p j, c_job s !! i = Some (Some p) /\ job_at s p j /\ prio < priority j) ->
  exists (c : nat) o jo s' jn jo',
    scheduler_new_job job_number time running_time prio s = Ok (Z.of_nat c, s') /\
    c_job s !! c = Some (Some o) /\ job_at s o jo /\ prio < priority jo /\
    (forall i p j, c_job s !! i = Some (Some p) -> job_at s p j -> prio < priority j ->
       priority j <= priority jo /\
       (priority j = priority jo -> t_arrival j <= t_arrival jo)) /\
    c_job s' !! c = Some (Some (length (heap s))) /\
    queued s' (length (heap s)) /\
    job_at s' (length (heap s)) jn /\ job_id jn = job_number /\
    job_at s' o jo' /\ j_core jo' = -1 /\
    (t_started jo = time -> t_started jo' = -1) /\
    (t_started jo <> time -> t_started jo' = t_started jo).
Proof.
  intros Hinv Hsch Hadm Hbusy (i0 & p0 & j0 & Hi0 & Hj0 & Hq0).
  destruct (new_job_exec job_number time running_time prio s Hinv Hadm)
    as (r & s' & Hrun & Hinv' & _ & Hout & Hqd & (jn & Hjn & Hid & _) & _).
  assert (forall i p, c_job s !! i = Some (Some p) -> (i < length (c_job s))%nat) as Hlt.
  { intros i p Hi. by eapply lookup_lt_Some. }
  destruct Hout as [(i & _ & Hi & _)|[(_ & c & o & jo & -> & Hc & Hjo & Hcj & Hev & Hst)|(_ & -> & _ & Hst)]].
  - (* a free slot: there is none *)
    destruct (Hbusy i) as (p & j & Hp & _); [by eapply lookup_lt_Some|]. congruence.
  - rewrite Hsch in Hst. destruct Hst as (cp & [(Hneg & _)|(c' & pc & jc & Hcc & _ & Hpc & Hjc & Hcp & Hpr & Hmax)]);
      [lia|].
    assert (c' = c) as -> by lia.
    assert (pc = o) as -> by congruence.
    assert (jc = jo) as -> by (unfold job_at in *; congruence).
    destruct (evict_job_fields time (tick_job time jo))
      as (He1 & _ & _ & _ & _ & He2 & He3).
    assert (t_started (tick_job time jo) = t_started jo) as Hts.
    { destruct Hinv as (_ & _ & _ & Hcores).
      destruct (Hcores c o) as (_ & jo2 & Hjo2 & _ & Hs2 & _); [done|done|].
      unfold job_at in *. assert (jo2 = jo) as -> by congruence.
      by destruct (tick_job_rel time jo) as (_ & _ & _ & _ & _ & _ & _ & ->). }
    rewrite Hts in He2, He3.
    exists c, o, jo, s', jn, (evict_job time (tick_job time jo)).
    split_and!; try done.
    + lia.
    + intros i p j Hi Hj Hq. rewrite Hcp.
      apply (Hmax i p j); [by eapply Hlt|done|done|done].
    + rewrite Hcj. rewrite list_lookup_insert_eq; [done|by eapply Hlt].
  - (* no slot taken over: some job qualifies *)
    destruct (Hst Hsch) as (cp & [(_ & _ & Hno)|(c' & _ & _ & Hcc & _)]); [|lia].
    specialize (Hno i0 p0 j0 (Hlt _ _ Hi0) Hi0 Hj0). lia.
Qed.

Lemma ppri_preemption_target_witness :
  exists rs s,
    run [NewJob 1 0 5 3; NewJob 2 1 5 3] (scheduler_start_up 2 PPRI) = Ok (rs, s) /\
    inv s /\ t_scheme s = PPRI /\
    admissible s (NewJob 3 2 5 1) = true /\
    all_busy s /\
    (exists i p j, c_job s !! i = Some (Some p) /\ job_at s p j /\ 1 < priority j) /\
    exists (c : nat) o jo s',
      scheduler_new_job 3 2 5 1 s = Ok (Z.of_nat c, s') /\
      c_job s !! c = Some (Some o) /\ job_at s o jo /\ 1 < priority jo /\
      c_job s' !! c = Some (Some (length (heap s))).
Proof.
  assert (inv (scheduler_start_up 2 PPRI)) as Hinv0 by (apply inv_start_up; lia).
  destruct (run_inv [NewJob 1 0 5 3; NewJob 2 1 5 3] (scheduler_start_up 2 PPRI)
              Hinv0 eq_refl) as (rs & s & Hrun & Hinv & Hsc).
  exists rs, s. split; [exact Hrun|]. split; [exact Hinv|].
  vm_compute in Hrun. injection Hrun as <- <-.
  set (s := mksched _ _ _ _ _ _ _ _ _ _) in *.
  assert (all_busy s) as Hbusy.
  { intros [|[|i]] Hi; simpl in Hi; [| |lia]; eexists _, _; split; reflexivity. }
  assert (exists i p j, c_job s !! i = Some (Some p) /\ job_at s p j /\ 1 < priority j)
    as Hqual.
  { exists 0%nat. eexists _, _. split; [reflexivity|]. split; [reflexivity|]. simpl; lia. }
  split; [reflexivity|]. split; [reflexivity|]. split; [exact Hbusy|].
  split; [exact Hqual|].
  destruct (ppri_preemption_target 3 2 5 1 s Hinv eq_refl eq_refl Hbusy Hqual)
    as (c & o & jo & s' & jn & jo' & Hrun & Hc & Hjo & Hpr & _ & Hslot & _).
  exists c, o, jo, s'. done.
Defined.

(** ** The averages *)

Lemma run_counts es s :
  inv s -> conforming es s = true ->
  0 <= n_jobs s -> n_jobs s + Z.of_nat (arrivals es) <= INT_MAX ->
  exists rs s',
    run es s = Ok (rs, s') /\
    n_jobs s' = n_jobs s + Z.of_nat (arrivals es) /\
    (forallb is_arrival es = true ->
     t_wait s' = t_wait s /\ t_turnaround s' = t_turnaround s /\
     t_response s' = t_response s).
Proof.
  revert s. induction es as [|e es IH]; intros s Hinv Hconf H0 Hmax.
  - exists [], s. split_and!; [done|simpl; lia|done].
  - apply conforming_cons in Hconf as [Ha Hc].
    assert (exists r s1,
              step e s = Ok (r, s1) /\ inv s1 /\
              n_jobs s1 = n_jobs s + Z.of_nat (arrivals [e]) /\
              (is_arrival e = true ->
               t_wait s1 = t_wait s /\ t_turnaround s1 = t_turnaround s /\
               t_response s1 = t_response s))
      as (r & s1 & Hs & Hinv1 & Hn1 & Hst1).
    { destruct e as [id t rt prio|core id t|core t]; cbn [step arrivals is_arrival].
      - destruct (new_job_exec id t rt prio s Hinv Ha)
          as (r & s1 & Hrun & Hinv1 & _ & _ & _ & _ & _ & _ & _ & Hn & Hw & Hrs & Htt).
        exists r, s1. split_and!; try done.
        rewrite Hn. apply wrap_in_int. cbn [arrivals] in Hmax.
        unfold in_int, INT_MIN, INT_MAX in *. lia.
      - destruct (job_finished_exec core id t s Hinv Ha)
          as (r & s1 & Hrun & Hinv1 & _ & _ & _ & _ & _ & Hn).
        exists r, s1. split_and!; try done. simpl. lia.
      - destruct (quantum_expired_exec core t s Hinv Ha)
          as (r & s1 & Hrun & Hinv1 & _ & _ & _ & _ & Hn).
        exists r, s1. split_and!; try done. simpl. lia. }
    assert (arrivals (e :: es) = (arrivals [e] + arrivals es)%nat) as Harr
      by (by destruct e).
    destruct (IH s1) as (rs & s' & Hr & Hn' & Hst'); [done|by eapply Hc|lia|lia|].
    exists (r :: rs), s'. cbn [run]. rewrite Hs. cbn [bind]. rewrite Hr. cbn [bind].
    split_and!; [done|lia|].
    cbn [forallb]. intros [He Hes]%andb_true_iff.
    destruct (Hst1 He) as (H1 & H2 & H3). destruct (Hst' Hes) as (H4 & H5 & H6).
    split_and!; congruence.
Qed.

(** C8: each average is the sum divided by [n_jobs] when the sum is not
    zero, and 0 when it is a zero of either sign; after
    [scheduler_start_up] and calls made as the simulator makes them,
    [n_jobs] is the number of jobs submitted (as long as it is in the
    range of [int]), and while the calls are all arrivals the three
    averages are 0. *)
Theorem averages_divide_sum_by_n_jobs :
  (forall s,
     scheduler_average_waiting_time s =
       (if fnonzero (t_wait s) then fdiv (t_wait s) (float_of_int (n_jobs s))
        else fzero) /\
     scheduler_average_turnaround_time s =
       (if fnonzero (t_turnaround s)
        then fdiv (t_turnaround s) (float_of_int (n_jobs s)) else fzero) /\
     scheduler_average_response_time s =
       (if fnonzero (t_response s)
        then fdiv (t_response s) (float_of_int (n_jobs s)) else fzero)) /\
  (forall s b, t_wait s = S754_zero b -> scheduler_average_waiting_time s = fzero) /\
  (forall s b, t_turnaround s = S754_zero b ->
     scheduler_average_turnaround_time s = fzero) /\
  (forall s b, t_response s = S754_zero b ->
     scheduler_average_response_time s = fzero) /\
  (forall cores scheme es,
     0 < cores ->
     conforming es (scheduler_start_up cores scheme) = true ->
     Z.of_nat (arrivals es) <= INT_MAX ->
     exists rs s,
       run es (scheduler_start_up cores scheme) = Ok (rs, s) /\
       n_jobs s = Z.of_nat (arrivals es) /\
       (forallb is_arrival es = true ->
        scheduler_average_waiting_time s = fzero /\
        scheduler_average_turnaround_time s = fzero /\
        scheduler_average_response_time s = fzero)).
Proof.
  split; [done|].
  split; [intros s b H; unfold scheduler_average_waiting_time; rewrite H; by destruct b|].
  split; [intros s b H; unfold scheduler_average_turnaround_time; rewrite H; by destruct b|].
  split; [intros s b H; unfold scheduler_average_response_time; rewrite H; by destruct b|].
  intros cores scheme es Hc Hconf Hmax.
  destruct (run_counts es _ (inv_start_up cores scheme Hc) Hconf) as (rs & s & Hr & Hn & Hst);
    [done|simpl; lia|].
  exists rs, s. split_and!; [done|simpl in Hn; lia|].
  intros Hall. destruct (Hst Hall) as (Hw & Ht & Hrs).
  unfold scheduler_average_waiting_time, scheduler_average_turnaround_time,
    scheduler_average_response_time.
  rewrite Hw, Ht, Hrs. done.
Qed.

Lemma averages_divide_sum_by_n_jobs_witness :
  0 < 1 /\
  conforming [NewJob 1 0 5 0; NewJob 2 1 3 0] (scheduler_start_up 1 FCFS) = true /\
  Z.of_nat (arrivals [NewJob 1 0 5 0; NewJob 2 1 3 0]) <= INT_MAX /\
  exists rs s,
    run [NewJob 1 0 5 0; NewJob 2 1 3 0] (scheduler_start_up 1 FCFS) = Ok (rs, s) /\
    n_jobs s = 2 /\ scheduler_average_waiting_time s = fzero.
Proof.
  split; [lia|]. split; [vm_compute; reflexivity|]. split; [vm_compute; discriminate|].
  destruct averages_divide_sum_by_n_jobs as (_ & _ & _ & _ & H).
  destruct (H 1 FCFS [NewJob 1 0 5 0; NewJob 2 1 3 0]) as (rs & s & Hr & Hn & Havg);
    [lia|vm_compute; reflexivity|vm_compute; discriminate|].
  exists rs, s. split; [exact Hr|]. split; [exact Hn|]. by apply Havg.
Defined.

(** * Further properties of the code *)

(** ** Counters that stay in the range of [int] *)

Lemma wrap_succ z : 0 <= z < INT_MAX -> wrap (z + 1) = z + 1.
Proof. intros H. apply wrap_in_int. unfold in_int, INT_MIN, INT_MAX in *. lia. Qed.

Lemma wrap_pred z : 0 < z <= INT_MAX -> wrap (z - 1) = z - 1.
Proof. intros H. apply wrap_in_int. unfold in_int, INT_MIN, INT_MAX in *. lia. Qed.

(** ** The queue: order, round trips, removal *)

Module PriQueueMore.

Import PriQueue PriQueueFacts.

Section More.
Context {A : Type}.
Implicit Types (q : priqueue_t A) (l : list A) (x : A).

Lemma queue_eta q : {| size := size q; head := head q |} = q.
Proof. by destruct q. Qed.

(** The node that [priqueue_offer] links is at the index [length l1]. *)
Lemma offer_position (comp : A -> A -> res Z) q x :
  wf q -> size q < INT_MAX ->
  (forall e, e ∈ head q -> exists z, comp x e = Ok z) ->
  exists l1 l2,
    head q = l1 ++ l2 /\
    priqueue_offer comp q (Some x) =
      Ok (Z.max 0 (Z.of_nat (length l1) - 1),
          {| size := size q + 1; head := l1 ++ x :: l2 |}) /\
    (forall e, e ∈ l1 -> exists z, comp x e = Ok z /\ 0 <= z) /\
    (l2 = [] \/ exists e l2' z, l2 = e :: l2' /\ comp x e = Ok z /\ z < 0).
Proof.
  intros Hwf Hsz Hcomp.
  destruct (priqueue_offer_spec comp q x Hwf Hcomp) as (l1 & l2 & Hl & Hoff & H1 & H2).
  exists l1, l2. rewrite wrap_succ in Hoff; [done|]. unfold wf in Hwf. lia.
Qed.

Lemma filter_split_length `{!EqDecision A} (ptr : option A) l :
  (length (filter (fun a => Some a = ptr) l) +
   length (filter (fun a => Some a <> ptr) l) = length l)%nat.
Proof.
  induction l as [|a l IH]; [done|].
  destruct (decide (Some a = ptr)) as [He|Hne].
  - rewrite (filter_cons_True (fun a => Some a = ptr)) by done.
    rewrite (filter_cons_False (fun a => Some a <> ptr)) by (intros H; by apply H).
    simpl. lia.
  - rewrite (filter_cons_False (fun a => Some a = ptr)) by done.
    rewrite (filter_cons_True (fun a => Some a <> ptr)) by done.
    simpl. lia.
Qed.

Lemma remove_heads_spec `{!EqDecision A} (ptr : option A) l removed :
  Z.of_nat (length l) <= INT_MAX -> 0 <= removed ->
  removed + Z.of_nat (length l) <= INT_MAX ->
  exists l',
    remove_heads ptr (Z.of_nat (length l)) l removed =
      Ok (Z.of_nat (length l'), l',
          removed + Z.of_nat (length l) - Z.of_nat (length l')) /\
    filter (fun a => Some a <> ptr) l = filter (fun a => Some a <> ptr) l' /\
    (length l' <= length l)%nat /\
    match l' with
    | [] => True
    | c :: _ => Some c <> ptr
    end.
Proof.
  revert removed. induction l as [|a nx IH]; intros removed Hmax H0 Hsum.
  - exists []. split_and!; try done. simpl. do 3 f_equal. lia.
  - cbn [remove_heads]. rewrite Z.gtb_ltb.
    destruct (Z.ltb_spec 0 (Z.of_nat (length (a :: nx)))) as [_|Hle]; [|simpl in Hle; lia].
    destruct (decide (Some a = ptr)) as [He|Hne].
    + replace (wrap (Z.of_nat (length (a :: nx)) - 1)) with (Z.of_nat (length nx)).
      2:{ rewrite wrap_pred; simpl in *; lia. }
      rewrite wrap_succ by (simpl in *; lia).
      destruct (IH (removed + 1)) as (l' & Hrun & Hf & Hlen & Hhd);
        [simpl in *; lia|lia|simpl in *; lia|].
      exists l'. rewrite Hrun. split_and!; try done.
      * do 3 f_equal. simpl. lia.
      * rewrite (filter_cons_False (fun a => Some a <> ptr)) by (intros H; by apply H). done.
      * simpl. lia.
    + exists (a :: nx). split_and!; try done. do 3 f_equal. lia.
Qed.

Lemma remove_walk_spec `{!EqDecision A} (ptr : option A) next sz removed :
  Z.of_nat (length next) <= sz <= INT_MAX -> 0 <= removed ->
  removed + Z.of_nat (length next) <= INT_MAX ->
  remove_walk ptr next sz removed =
  (filter (fun a => Some a <> ptr) next,
   sz - Z.of_nat (length (filter (fun a => Some a = ptr) next)),
   removed + Z.of_nat (length (filter (fun a => Some a = ptr) next))).
Proof.
  revert sz removed. induction next as [|e rest IH]; intros sz removed Hsz H0 Hsum.
  - simpl. do 2 f_equal; lia.
  - cbn [remove_walk]. destruct (decide (Some e = ptr)) as [He|Hne].
    + rewrite wrap_pred by (simpl in *; lia). rewrite wrap_succ by (simpl in *; lia).
      rewrite IH by (simpl in *; lia).
      rewrite (filter_cons_True (fun a => Some a = ptr)) by done.
      rewrite (filter_cons_False (fun a => Some a <> ptr)) by (intros H; by apply H).
      cbn [length]. f_equal; [f_equal|]; lia.
    + rewrite IH by (simpl in *; lia).
      rewrite (filter_cons_False (fun a => Some a = ptr)) by done.
      rewrite (filter_cons_True (fun a => Some a <> ptr)) by done.
      done.
Qed.

Lemma destroy_walk_spec l :
  Z.of_nat (length l) <= INT_MAX ->
  destroy_walk (Z.of_nat (length l)) l = Ok (@priqueue_init A).
Proof.
  induction l as [|a nx IH]; intros Hmax; [done|].
  cbn [destroy_walk]. rewrite Z.gtb_ltb.
  destruct (Z.ltb_spec 0 (Z.of_nat (length (a :: nx)))) as [_|Hle]; [|simpl in Hle; lia].
  replace (wrap (Z.of_nat (length (a :: nx)) - 1)) with (Z.of_nat (length nx)).
  2:{ rewrite wrap_pred; simpl in *; lia. }
  apply IH. simpl in *. lia.
Qed.

End More.

End PriQueueMore.

(** With a comparer that never answers a negative number for the items
    of the queue (the scheduler's under FCFS and RR answers 1 for all),
    [priqueue_offer] links the item at the tail: the queue is first in,
    first out.  The value returned is the index of the old tail. *)
Theorem priqueue_offer_fifo {A} (comp : A -> A -> res Z) (q : PriQueue.priqueue_t A) x :
  PriQueue.wf q -> PriQueue.size q < INT_MAX ->
  (forall e, e ∈ PriQueue.head q -> exists z, comp x e = Ok z /\ 0 <= z) ->
  PriQueue.priqueue_offer comp q (Some x) =
    Ok (Z.max 0 (PriQueue.size q - 1),
        {| PriQueue.size := PriQueue.size q + 1;
           PriQueue.head := PriQueue.head q ++ [x] |}).
Proof.
  intros Hwf Hsz Hcomp.
  destruct (PriQueueMore.offer_position comp q x) as (l1 & l2 & Hl & Hoff & _ & Hl2);
    [done|done| |].
  { intros e He. destruct (Hcomp e He) as (z & Hz & _). eauto. }
  destruct Hl2 as [->|(e & l2' & z & -> & Hz & Hneg)].
  - rewrite app_nil_r in Hl. unfold PriQueue.wf in Hwf.
    rewrite Hoff. rewrite Hl in Hwf |- *. by rewrite Hwf.
  - destruct (Hcomp e) as (z' & Hz' & Hpos).
    { rewrite Hl. apply elem_of_app. right. by left. }
    assert (z' = z) by congruence. lia.
Qed.

Lemma priqueue_offer_fifo_witness :
  PriQueue.priqueue_offer (fun _ _ : nat => Ok 1)
    {| PriQueue.size := 2; PriQueue.head := [10%nat; 20%nat] |} (Some 30%nat) =
  Ok (1, {| PriQueue.size := 3; PriQueue.head := [10%nat; 20%nat; 30%nat] |}).
Proof.
  apply (priqueue_offer_fifo (fun _ _ : nat => Ok 1)
           {| PriQueue.size := 2; PriQueue.head := [10%nat; 20%nat] |} 30%nat).
  - reflexivity.
  - simpl. unfold INT_MAX. lia.
  - intros e _. exists 1. split; [reflexivity|lia].
Defined.

(** When the comparer is a strict order (asymmetric and transitive) and
    the queue is in that order, [priqueue_offer] returns a queue that
    is in that order too, with the same items and the new one. *)
Theorem priqueue_offer_keeps_order {A} (cmp : A -> A -> Z) (q : PriQueue.priqueue_t A) x :
  PriQueue.wf q -> PriQueue.size q < INT_MAX ->
  (forall a b, cmp a b < 0 -> ~ cmp b a < 0) ->
  (forall a b c, cmp a b < 0 -> cmp b c < 0 -> cmp a c < 0) ->
  PriQueue.ordered cmp (PriQueue.head q) ->
  exists r q',
    PriQueue.priqueue_offer (fun a b => Ok (cmp a b)) q (Some x) = Ok (r, q') /\
    PriQueue.wf q' /\ PriQueue.size q' = PriQueue.size q + 1 /\
    PriQueue.head q' ≡ₚ x :: PriQueue.head q /\
    PriQueue.ordered cmp (PriQueue.head q').
Proof.
  intros Hwf Hsz Hasym Htrans Hord.
  destruct (PriQueueMore.offer_position (fun a b => Ok (cmp a b)) q x)
    as (l1 & l2 & Hl & Hoff & Hl1 & Hl2); [done|done|eauto|].
  eexists _, _. split; [exact Hoff|]. cbn [PriQueue.size PriQueue.head].
  unfold PriQueue.wf in *. rewrite Hl in *. split_and!.
  - simpl. rewrite Hwf, !length_app. simpl. lia.
  - done.
  - by rewrite Permutation_middle.
  - unfold PriQueue.ordered in *.
    apply StronglySorted_app in Hord as (H12 & Hs1 & Hs2).
    apply StronglySorted_app. split_and!; [|done|].
    + intros x1 x2 H1 [->|H2]%elem_of_cons; [|by apply H12].
      destruct (Hl1 x1 H1) as (z & Hz & Hpos). injection Hz as <-. lia.
    + apply StronglySorted_cons. split; [|done].
      destruct Hl2 as [->|(e & l2' & z & -> & Hz & Hneg)]; [by apply Forall_nil|].
      injection Hz as <-.
      apply StronglySorted_cons in Hs2 as [Hall _].
      apply Forall_cons. split; [by apply Hasym|].
      eapply Forall_impl; [exact Hall|]. intros e' He' Hlt.
      apply He'. by apply (Htrans e' x e).
Qed.

Lemma priqueue_offer_keeps_order_witness :
  exists r q',
    PriQueue.priqueue_offer (fun a b : Z => Ok (if a <? b then -1 else 1))
      {| PriQueue.size := 2; PriQueue.head := [1; 5] |} (Some 3) = Ok (r, q') /\
    PriQueue.head q' = [1; 3; 5] /\
    PriQueue.ordered (fun a b : Z => if a <? b then -1 else 1) (PriQueue.head q').
Proof.
  destruct (priqueue_offer_keeps_order (fun a b : Z => if a <? b then -1 else 1)
              {| PriQueue.size := 2; PriQueue.head := [1; 5] |} 3)
    as (r & q' & Hoff & _ & _ & _ & Hord).
  - reflexivity.
  - simpl. unfold INT_MAX. lia.
  - intros a b. destruct (Z.ltb_spec a b), (Z.ltb_spec b a); lia.
  - intros a b c. destruct (Z.ltb_spec a b), (Z.ltb_spec b c), (Z.ltb_spec a c); lia.
  - repeat constructor; simpl; lia.
  - exists r, q'. split; [exact Hoff|]. split; [|exact Hord].
    vm_compute in Hoff. by injection Hoff as <- <-.
Defined.

(** What [priqueue_offer] links can be read and unlinked again: the
    item is at the index returned or at the next one, [priqueue_at]
    reads it there, and [priqueue_remove_at] at that index gives the
    queue back as it was. *)
Theorem priqueue_offer_then_remove_at {A} (comp : A -> A -> res Z)
    (q : PriQueue.priqueue_t A) x :
  PriQueue.wf q -> PriQueue.size q < INT_MAX ->
  (forall e, e ∈ PriQueue.head q -> exists z, comp x e = Ok z) ->
  exists r i q',
    PriQueue.priqueue_offer comp q (Some x) = Ok (r, q') /\
    0 <= r /\ (i = r \/ i = r + 1) /\ 0 <= i <= PriQueue.size q /\
    PriQueue.priqueue_at q' i = Ok (Some x) /\
    PriQueue.priqueue_remove_at q' i = Ok (Some x, q).
Proof.
  intros Hwf Hsz Hcomp.
  destruct (PriQueueMore.offer_position comp q x) as (l1 & l2 & Hl & Hoff & _);
    [done|done|done|].
  unfold PriQueue.wf in Hwf. rewrite Hl, length_app in Hwf.
  eexists _, (Z.of_nat (length l1)), _. split; [exact Hoff|].
  split_and!; try lia.
  - rewrite (PriQueueFacts.priqueue_at_in_range _ _ x); [done|lia| |simpl; lia].
    simpl. rewrite Nat2Z.id. by apply list_lookup_middle.
  - rewrite (PriQueueFacts.priqueue_remove_at_in_range _ _ x); [|lia| |simpl; lia].
    + simpl. rewrite Nat2Z.id, delete_middle, <- Hl.
      rewrite wrap_pred by lia.
      replace (PriQueue.size q + 1 - 1) with (PriQueue.size q) by lia.
      by rewrite PriQueueMore.queue_eta.
    + simpl. rewrite Nat2Z.id. by apply list_lookup_middle.
Qed.

Lemma priqueue_offer_then_remove_at_witness :
  exists r i q',
    PriQueue.priqueue_offer (fun a b : Z => Ok (if a <? b then -1 else 1))
      {| PriQueue.size := 2; PriQueue.head := [1; 5] |} (Some 3) = Ok (r, q') /\
    PriQueue.priqueue_at q' i = Ok (Some 3) /\
    PriQueue.priqueue_remove_at q' i =
      Ok (Some 3, {| PriQueue.size := 2; PriQueue.head := [1; 5] |}).
Proof.
  destruct (priqueue_offer_then_remove_at (fun a b : Z => Ok (if a <? b then -1 else 1))
              {| PriQueue.size := 2; PriQueue.head := [1; 5] |} 3)
    as (r & i & q' & Hoff & _ & _ & _ & Hat & Hrm).
  - reflexivity.
  - simpl. unfold INT_MAX. lia.
  - intros e _. eauto.
  - exists r, i, q'. done.
Defined.

(** In a queue that is in the order of its comparer and is not empty,
    [priqueue_peek] and [priqueue_poll] return the item at index 0,
    which none of the other items goes before; [priqueue_poll] leaves
    the other items, in their order. *)
Theorem priqueue_poll_takes_first {A} (cmp : A -> A -> Z) (q : PriQueue.priqueue_t A) :
  PriQueue.wf q -> 0 < PriQueue.size q <= INT_MAX ->
  PriQueue.ordered cmp (PriQueue.head q) ->
  exists a q',
    PriQueue.priqueue_peek q = Ok (Some a) /\
    PriQueue.priqueue_at q 0 = Ok (Some a) /\
    PriQueue.priqueue_poll q = Ok (Some a, q') /\
    PriQueue.head q = a :: PriQueue.head q' /\
    PriQueue.wf q' /\ PriQueue.size q' = PriQueue.size q - 1 /\
    PriQueue.ordered cmp (PriQueue.head q') /\
    forall b, b ∈ PriQueue.head q' -> ~ cmp b a < 0.
Proof.
  intros Hwf Hsz Hord. destruct q as [sz [|a nx]]; unfold PriQueue.wf in *; simpl in *; [lia|].
  apply StronglySorted_cons in Hord as [Hall Hord].
  exists a, {| PriQueue.size := sz - 1; PriQueue.head := nx |}.
  unfold PriQueue.priqueue_peek, PriQueue.priqueue_poll, PriQueue.priqueue_at,
    PriQueue.priqueue_size.
  cbn [PriQueue.size PriQueue.head].
  rewrite wrap_pred by lia.
  replace (sz =? 0) with false by (symmetry; apply Z.eqb_neq; lia).
  replace (0 >? sz) with false by (symmetry; rewrite Z.gtb_ltb; apply Z.ltb_ge; lia).
  split_and!; try done.
  - lia.
  - intros b Hb. by apply (proj1 (Forall_forall _ _) Hall).
Qed.

Lemma priqueue_poll_takes_first_witness :
  exists q',
    PriQueue.priqueue_poll {| PriQueue.size := 3; PriQueue.head := [1; 3; 5] |} =
      Ok (Some 1, q') /\
    PriQueue.head q' = [3; 5].
Proof.
  destruct (priqueue_poll_takes_first (fun a b : Z => if a <? b then -1 else 1)
              {| PriQueue.size := 3; PriQueue.head := [1; 3; 5] |})
    as (a & q' & _ & _ & Hpoll & _).
  - reflexivity.
  - simpl. unfold INT_MAX. lia.
  - repeat constructor; simpl; lia.
  - exists q'. vm_compute in Hpoll. injection Hpoll as <- <-. done.
Defined.

(** [priqueue_remove] unlinks every node that holds [ptr] and no other,
    keeps the order of the rest, takes their number off the counter and
    returns it; for a [ptr] that is not in the queue (or is [NULL]) it
    returns 0 and changes nothing. *)
Theorem priqueue_remove_all {A} `{!EqDecision A} (q : PriQueue.priqueue_t A)
    (ptr : option A) :
  PriQueue.wf q -> PriQueue.size q <= INT_MAX ->
  exists q',
    PriQueue.priqueue_remove q ptr =
      Ok (Z.of_nat (length (filter (fun a => Some a = ptr) (PriQueue.head q))), q') /\
    PriQueue.head q' = filter (fun a => Some a <> ptr) (PriQueue.head q) /\
    PriQueue.wf q' /\
    ((forall a, a ∈ PriQueue.head q -> Some a <> ptr) ->
     PriQueue.priqueue_remove q ptr = Ok (0, q)).
Proof.
  intros Hwf Hsz. unfold PriQueue.wf in Hwf.
  assert (exists q',
    PriQueue.priqueue_remove q ptr =
      Ok (Z.of_nat (length (filter (fun a => Some a = ptr) (PriQueue.head q))), q') /\
    PriQueue.head q' = filter (fun a => Some a <> ptr) (PriQueue.head q) /\
    PriQueue.wf q') as (q' & Hrun & Hhead & Hwf').
  { unfold PriQueue.priqueue_remove. rewrite Hwf.
    destruct (PriQueueMore.remove_heads_spec ptr (PriQueue.head q) 0)
      as (l' & Hheads & Hf & Hlen & Hhd); [lia|lia|lia|].
    rewrite Hheads. cbn [bind].
    pose proof (PriQueueMore.filter_split_length ptr (PriQueue.head q)) as Hall.
    pose proof (PriQueueMore.filter_split_length ptr l') as Hl'.
    destruct l' as [|c next].
    - change (Z.of_nat (length []) >? 0) with false. cbv iota.
      eexists. split; [|split].
      + do 2 f_equal. rewrite Hf in Hall. simpl in *. lia.
      + simpl. rewrite Hf. reflexivity.
      + reflexivity.
    - replace (Z.of_nat (length (c :: next)) >? 0) with true
        by (symmetry; rewrite Z.gtb_ltb; apply Z.ltb_lt; simpl; lia).
      rewrite PriQueueMore.remove_walk_spec by (simpl in *; lia).
      eexists. split; [|split].
      + do 2 f_equal.
        rewrite (filter_cons_False (fun a => Some a = ptr)) in Hl' by done.
        rewrite (filter_cons_True (fun a => Some a <> ptr)) in Hl' by done.
        rewrite Hf in Hall.
        rewrite (filter_cons_True (fun a => Some a <> ptr)) in Hall by done.
        simpl in *. lia.
      + simpl. rewrite Hf. by rewrite (filter_cons_True (fun a => Some a <> ptr)).
      + unfold PriQueue.wf. simpl.
        pose proof (PriQueueMore.filter_split_length ptr next). lia. }
  exists q'. split_and!; try done.
  intros Hno. rewrite Hrun.
  assert (filter (fun a => Some a = ptr) (PriQueue.head q) = []) as Hnone.
  { clear -Hno. induction (PriQueue.head q) as [|a l IH]; [done|].
    rewrite (filter_cons_False (fun a => Some a = ptr)); [|apply Hno; by left].
    apply IH. intros b Hb. apply Hno. by right. }
  assert (filter (fun a => Some a <> ptr) (PriQueue.head q) = PriQueue.head q) as Hsame.
  { clear -Hno. induction (PriQueue.head q) as [|a l IH]; [done|].
    rewrite (filter_cons_True (fun a => Some a <> ptr)); [|apply Hno; by left].
    f_equal. apply IH. intros b Hb. apply Hno. by right. }
  rewrite Hnone. do 2 f_equal.
  unfold PriQueue.wf in Hwf'. destruct q as [sz l], q' as [sz' l'']. simpl in *.
  subst. by rewrite Hsame.
Qed.

Lemma priqueue_remove_all_witness :
  PriQueue.priqueue_remove {| PriQueue.size := 4; PriQueue.head := [7; 3; 7; 5] |} (Some 7) =
    Ok (2, {| PriQueue.size := 2; PriQueue.head := [3; 5] |}).
Proof.
  destruct (priqueue_remove_all {| PriQueue.size := 4; PriQueue.head := [7; 3; 7; 5] |}
              (Some 7)) as (q' & Hrun & _).
  - reflexivity.
  - simpl. unfold INT_MAX. lia.
  - rewrite Hrun. vm_compute in Hrun. by injection Hrun as <-.
Defined.

(** [priqueue_destroy] polls until the counter is 0: it leaves the
    queue as [priqueue_init] made it. *)
Theorem priqueue_destroy_empties {A} (q : PriQueue.priqueue_t A) :
  PriQueue.wf q -> PriQueue.size q <= INT_MAX ->
  PriQueue.priqueue_destroy q = Ok PriQueue.priqueue_init.
Proof.
  intros Hwf Hsz. unfold PriQueue.priqueue_destroy, PriQueue.wf in *.
  rewrite Hwf. apply PriQueueMore.destroy_walk_spec. lia.
Qed.

Lemma priqueue_destroy_empties_witness :
  PriQueue.priqueue_destroy {| PriQueue.size := 3; PriQueue.head := [1; 3; 5] |} =
    Ok PriQueue.priqueue_init.
Proof.
  apply (priqueue_destroy_empties {| PriQueue.size := 3; PriQueue.head := [1; 3; 5] |}).
  - reflexivity.
  - simpl. unfold INT_MAX. lia.
Defined.

(** [priqueue_remove_at] at an index below the size returns the item
    that [priqueue_at] reads there, leaves the items before it where
    they are and moves each later item up by one. *)
Theorem priqueue_remove_at_shifts {A} (q : PriQueue.priqueue_t A) i :
  PriQueue.wf q -> PriQueue.size q <= INT_MAX -> 0 <= i < PriQueue.size q ->
  exists a q',
    PriQueue.priqueue_at q i = Ok (Some a) /\
    PriQueue.priqueue_remove_at q i = Ok (Some a, q') /\
    PriQueue.wf q' /\ PriQueue.size q' = PriQueue.size q - 1 /\
    (forall k, 0 <= k < i -> PriQueue.priqueue_at q' k = PriQueue.priqueue_at q k) /\
    (forall k, i <= k < PriQueue.size q - 1 ->
       PriQueue.priqueue_at q' k = PriQueue.priqueue_at q (k + 1)).
Proof.
  intros Hwf Hsz Hi. unfold PriQueue.wf in Hwf.
  destruct (lookup_lt_is_Some_2 (PriQueue.head q) (Z.to_nat i)) as [a Ha]; [lia|].
  exists a. eexists.
  rewrite (PriQueueFacts.priqueue_at_in_range q i a) by (done || lia).
  rewrite (PriQueueFacts.priqueue_remove_at_in_range q i a) by (done || lia).
  rewrite wrap_pred by lia.
  split; [done|]. split; [done|].
  assert (length (delete (Z.to_nat i) (PriQueue.head q)) = Z.to_nat (PriQueue.size q - 1))
    as Hlen.
  { rewrite length_delete by done. lia. }
  split_and!.
  - unfold PriQueue.wf. simpl. lia.
  - done.
  - intros k Hk. rewrite !PriQueueFacts.priqueue_at_eq. simpl.
    ztest. by rewrite list_lookup_delete_lt by lia.
  - intros k Hk. rewrite !PriQueueFacts.priqueue_at_eq. simpl.
    ztest. rewrite list_lookup_delete_ge by lia.
    by replace (Z.to_nat (k + 1)) with (S (Z.to_nat k)) by lia.
Qed.

Lemma priqueue_remove_at_shifts_witness :
  exists q',
    PriQueue.priqueue_remove_at {| PriQueue.size := 3; PriQueue.head := [1; 3; 5] |} 1 =
      Ok (Some 3, q') /\
    PriQueue.priqueue_at q' 0 = Ok (Some 1) /\
    PriQueue.priqueue_at q' 1 = Ok (Some 5).
Proof.
  destruct (priqueue_remove_at_shifts {| PriQueue.size := 3; PriQueue.head := [1; 3; 5] |} 1)
    as (a & q' & Hat & Hrm & _ & _ & Hlow & Hup).
  - reflexivity.
  - simpl. unfold INT_MAX. lia.
  - simpl. lia.
  - exists q'. vm_compute in Hat. injection Hat as <-. split; [exact Hrm|].
    split; [rewrite Hlow by lia; reflexivity|rewrite Hup by (simpl; lia); reflexivity].
Defined.

(** ** The clock advance in two steps *)

Module ClockFacts.

Lemma wrap_spec x : exists k, wrap x = x + k * 2 ^ 32.
Proof.
  exists (- ((x + 2 ^ 31) / 2 ^ 32)). unfold wrap.
  rewrite Z.mod_eq by lia. lia.
Qed.

Lemma wrap_shift x k : wrap (x + k * 2 ^ 32) = wrap x.
Proof.
  unfold wrap. replace (x + k * 2 ^ 32 + 2 ^ 31) with (x + 2 ^ 31 + k * 2 ^ 32) by lia.
  by rewrite Z_mod_plus_full.
Qed.

(** The remaining time after two advances is the one after the second
    advance alone: the reductions to 32 bits cancel. *)
Lemma remaining_compose r u t1 t2 :
  wrap (wrap (r - wrap (t1 - u)) - wrap (t2 - t1)) = wrap (r - wrap (t2 - u)).
Proof.
  destruct (wrap_spec (t1 - u)) as [k1 ->].
  destruct (wrap_spec (r - (t1 - u + k1 * 2 ^ 32))) as [k2 ->].
  destruct (wrap_spec (t2 - t1)) as [k3 ->].
  destruct (wrap_spec (t2 - u)) as [k4 ->].
  replace (r - (t1 - u + k1 * 2 ^ 32) + k2 * 2 ^ 32 - (t2 - t1 + k3 * 2 ^ 32))
    with (r - (t2 - u) + (k2 - k1 - k3) * 2 ^ 32) by lia.
  replace (r - (t2 - u + k4 * 2 ^ 32)) with (r - (t2 - u) + (- k4) * 2 ^ 32) by lia.
  by rewrite !wrap_shift.
Qed.

Lemma tick_job_compose t1 t2 j :
  t_started j <> -1 -> tick_job t2 (tick_job t1 j) = tick_job t2 j.
Proof.
  intros Hs. rewrite (tick_job_started t1 j Hs).
  rewrite tick_job_started by exact Hs. rewrite (tick_job_started t2 j Hs).
  unfold set_t_updated, set_t_remaining. simpl. by rewrite remaining_compose.
Qed.

End ClockFacts.

(** In a state between two calls, advancing the clock to [t1] and then
    to [t2] leaves every job as advancing it to [t2] at once does: the
    time a job has run is counted once, however many events fall in
    between, and a second event at the same time changes nothing. *)
Theorem clock_advance_composes s t1 t2 :
  inv s ->
  exists s1 s2,
    increment_timestep (with_c_time t1 s) = Ok s1 /\
    increment_timestep (with_c_time t2 s1) = Ok s2 /\
    increment_timestep (with_c_time t2 s) = Ok s2.
Proof.
  intros Hinv.
  pose proof (inv_slots_live s Hinv) as Hlive.
  pose proof (inv_slots_distinct s Hinv) as Hdist.
  pose proof Hinv as (_ & _ & Hn & Hcores).
  destruct (increment_timestep_spec (with_c_time t1 s) Hn Hlive Hdist)
    as (h1 & Hrun1 & Hlen1 & Hon1 & Hoff1).
  destruct (increment_timestep_spec (with_c_time t2 s) Hn Hlive Hdist)
    as (h3 & Hrun3 & Hlen3 & Hon3 & Hoff3).
  set (s1 := with_heap h1 (with_c_time t1 s)) in *.
  assert (slots_live (with_c_time t2 s1)) as Hlive1.
  { intros k p Hk. destruct (Hlive k p Hk) as [j Hj].
    exists (tick_job t1 j). exact (Hon1 k p j Hk Hj). }
  destruct (increment_timestep_spec (with_c_time t2 s1) Hn Hlive1 Hdist)
    as (h2 & Hrun2 & Hlen2 & Hon2 & Hoff2).
  exists s1, (with_heap h2 (with_c_time t2 s1)).
  split; [exact Hrun1|]. split; [exact Hrun2|]. rewrite Hrun3.
  assert (h3 = h2) as ->; [|done].
  apply list_eq. intros p.
  destruct (decide (Some p ∈ c_job s)) as [Hp|Hp].
  - apply list_elem_of_lookup_1 in Hp as [k Hk].
    destruct (Hcores k p) as (_ & j & Hj & _ & Hst & _); [done|done|].
    rewrite (Hon3 k p j Hk Hj).
    rewrite (Hon2 k p (tick_job t1 j) Hk (Hon1 k p j Hk Hj)).
    simpl. by rewrite ClockFacts.tick_job_compose.
  - assert (forall k, c_job s !! k <> Some (Some p)) as Hno.
    { intros k Hk. apply Hp. by eapply list_elem_of_lookup_2. }
    rewrite (Hoff3 p Hno), (Hoff2 p Hno). simpl. by rewrite (Hoff1 p Hno).
Qed.

Lemma clock_advance_composes_witness :
  exists rs s s1 s2,
    run [NewJob 1 0 9 0; NewJob 2 1 7 0] (scheduler_start_up 2 FCFS) = Ok (rs, s) /\
    inv s /\
    increment_timestep (with_c_time 3 s) = Ok s1 /\
    increment_timestep (with_c_time 5 s1) = Ok s2 /\
    increment_timestep (with_c_time 5 s) = Ok s2.
Proof.
  assert (inv (scheduler_start_up 2 FCFS)) as Hinv0 by (apply inv_start_up; lia).
  destruct (run_inv [NewJob 1 0 9 0; NewJob 2 1 7 0] (scheduler_start_up 2 FCFS)
              Hinv0 eq_refl) as (rs & s & Hrun & Hinv & _).
  destruct (clock_advance_composes s 3 5 Hinv) as (s1 & s2 & H1 & H2 & H3).
  exists rs, s, s1, s2. done.
Defined.

(** ** What scheduler_show_queue prints *)

Module ShowFacts.

Lemma show_loop_spec s pre post out :
  PriQueue.head (jobs s) = pre ++ post -> PriQueue.wf (jobs s) ->
  (forall x, x ∈ post -> exists jx, heap s !! x = Some (Some jx)) ->
  exists out',
    show_loop (length post) (Z.of_nat (length pre)) s out = Ok (out ++ out') /\
    length out' = length post /\
    forall i p j, post !! i = Some p -> job_at s p j ->
      out' !! i = Some (mkshown (job_id j) (priority j) (t_remaining j) (j_core j)).
Proof.
  intros Hh Hwf. revert pre out Hh.
  induction post as [|x post IH]; intros pre out Hh Hlive.
  - exists []. rewrite app_nil_r. done.
  - destruct (Hlive x) as [jx Hx]; [by left|].
    destruct (queue_lookup_middle (jobs s) pre x post Hh Hwf) as [Hlk Hlt].
    cbn [length show_loop].
    rewrite (PriQueueFacts.priqueue_at_in_range (jobs s) _ x) by (done || lia).
    cbn [bind deref]. rewrite (load_job _ _ _ Hx). cbn [bind].
    replace (Z.of_nat (length pre) + 1) with (Z.of_nat (length (pre ++ [x])))
      by (rewrite length_app; simpl; lia).
    destruct (IH (pre ++ [x])
                (out ++ [mkshown (job_id jx) (priority jx) (t_remaining jx) (j_core jx)]))
      as (out' & Hrun & Hlen & Hout).
    { by rewrite <- app_assoc. }
    { intros y Hy. apply Hlive. by right. }
    exists (mkshown (job_id jx) (priority jx) (t_remaining jx) (j_core jx) :: out').
    rewrite Hrun, <- app_assoc. split; [done|]. split; [simpl; by rewrite Hlen|].
    intros [|i] p j Hp Hj.
    + simpl in Hp. injection Hp as <-. unfold job_at in Hj.
      assert (j = jx) as -> by congruence. done.
    + simpl in Hp. simpl. by apply (Hout i p j).
Qed.

End ShowFacts.

(** In a state between two calls [scheduler_show_queue] prints one
    entry for each job of the queue, in the order of the queue, with
    the number, the priority, the remaining time and the core of that
    job; it reads no job that was freed. *)
Theorem show_queue_lists_jobs s :
  inv s ->
  exists out,
    scheduler_show_queue s = Ok out /\
    length out = length (PriQueue.head (jobs s)) /\
    forall i p j, PriQueue.head (jobs s) !! i = Some p -> job_at s p j ->
      out !! i = Some (mkshown (job_id j) (priority j) (t_remaining j) (j_core j)).
Proof.
  intros (_ & (Hwf & _ & Hq) & _).
  destruct (ShowFacts.show_loop_spec s [] (PriQueue.head (jobs s)) [])
    as (out & Hrun & Hlen & Hout); [done|done| |].
  { intros x Hx. destruct (Hq x Hx) as (jx & Hjx & _). eauto. }
  exists out. split; [|done].
  unfold scheduler_show_queue, PriQueue.priqueue_size.
  replace (Z.to_nat (PriQueue.size (jobs s))) with (length (PriQueue.head (jobs s)))
    by (unfold PriQueue.wf in Hwf; lia).
  exact Hrun.
Qed.

Lemma show_queue_lists_jobs_witness :
  exists rs s,
    run [NewJob 1 0 9 4; NewJob 2 1 7 2] (scheduler_start_up 1 PRI) = Ok (rs, s) /\
    inv s /\
    scheduler_show_queue s = Ok [mkshown 1 4 8 0; mkshown 2 2 7 (-1)].
Proof.
  assert (inv (scheduler_start_up 1 PRI)) as Hinv0 by (apply inv_start_up; lia).
  destruct (run_inv [NewJob 1 0 9 4; NewJob 2 1 7 2] (scheduler_start_up 1 PRI)
              Hinv0 eq_refl) as (rs & s & Hrun & Hinv & _).
  exists rs, s. split; [exact Hrun|]. split; [exact Hinv|].
  destruct (show_queue_lists_jobs s Hinv) as (out & Hshow & _).
  rewrite Hshow. vm_compute in Hrun. injection Hrun as <- <-.
  vm_compute in Hshow. by injection Hshow as <-.
Defined.

(** ** The state after each call, in full *)

Module EventFacts.

(** *** Searching the first job without a core *)

Lemma first_idle_ext h h' l :
  (forall x, x ∈ l ->
     exists j j', h !! x = Some (Some j) /\ h' !! x = Some (Some j') /\
                  j_core j' = j_core j) ->
  first_idle h' l = first_idle h l.
Proof.
  induction l as [|x l IH]; intros Hl; [done|].
  destruct (Hl x) as (j & j' & Hj & Hj' & Hc); [by left|].
  cbn [first_idle]. rewrite Hj, Hj', Hc.
  destruct (j_core j =? -1); [done|]. apply IH. intros y Hy. apply Hl. by right.
Qed.

Lemma first_idle_skip h l1 p l2 j :
  h !! p = Some (Some j) -> j_core j <> -1 ->
  (forall x, x ∈ l1 -> exists jx, h !! x = Some (Some jx)) ->
  first_idle h (l1 ++ p :: l2) = first_idle h (l1 ++ l2).
Proof.
  intros Hp Hc. induction l1 as [|x l1 IH]; intros Hl1.
  - cbn [app first_idle]. rewrite Hp.
    by replace (j_core j =? -1) with false by (symmetry; by apply Z.eqb_neq).
  - destruct (Hl1 x) as [jx Hx]; [by left|].
    cbn [app first_idle]. rewrite Hx.
    destruct (j_core jx =? -1); [done|]. apply IH. intros y Hy. apply Hl1. by right.
Qed.

Lemma first_idle_app h l1 l2 :
  (forall x, x ∈ l1 -> exists jx, h !! x = Some (Some jx)) ->
  first_idle h (l1 ++ l2) =
  match first_idle h l1 with
  | Some p => Some p
  | None => first_idle h l2
  end.
Proof.
  induction l1 as [|x l1 IH]; intros Hl1; [done|].
  destruct (Hl1 x) as [jx Hx]; [by left|].
  cbn [app first_idle]. rewrite Hx.
  destruct (j_core jx =? -1); [done|]. apply IH. intros y Hy. apply Hl1. by right.
Qed.

(** *** The ordered insertion of a job *)

Lemma offer_job_run s p j :
  PriQueue.wf (jobs s) -> PriQueue.size (jobs s) < INT_MAX ->
  (forall e, e ∈ PriQueue.head (jobs s) -> exists je, job_at s e je) ->
  job_at s p j ->
  exists r l1 l2,
    PriQueue.head (jobs s) = l1 ++ l2 /\
    offer_job p s =
      Ok (r, with_jobs {| PriQueue.size := PriQueue.size (jobs s) + 1;
                          PriQueue.head := l1 ++ p :: l2 |} s) /\
    (forall e, e ∈ l1 -> exists z, comparer s p e = Ok z /\ 0 <= z) /\
    (l2 = [] \/ exists e l2' z, l2 = e :: l2' /\ comparer s p e = Ok z /\ z < 0).
Proof.
  intros Hwf Hsz Hlive Hj.
  destruct (PriQueueMore.offer_position (comparer s) (jobs s) p)
    as (l1 & l2 & Hl & Hoff & H1 & H2); [done|done| |].
  { intros e He. destruct (Hlive e He) as [je Hje]. by eapply comparer_total. }
  eexists _, l1, l2. split; [done|]. split; [|done].
  unfold offer_job. by rewrite Hoff.
Qed.

(** *** scheduler_new_job up to the end of the clock advance *)

Lemma new_job_prefix job_number time running_time prio s :
  inv s -> c_time s <= time ->
  exists h1,
    increment_timestep (arrival_state job_number time running_time prio s) =
      Ok (with_heap h1 (arrival_state job_number time running_time prio s)) /\
    inv (with_heap h1 (arrival_state job_number time running_time prio s)) /\
    length h1 = S (length (heap s)) /\
    h1 !! length (heap s) = Some (Some (fresh_job job_number time running_time prio)) /\
    ~ queued s (length (heap s)) /\
    (forall k, c_job s !! k <> Some (Some (length (heap s)))) /\
    (forall k p j, c_job s !! k = Some (Some p) -> job_at s p j ->
       h1 !! p = Some (Some (tick_job time j)) /\ t_started j <> -1) /\
    (forall p, (p < length (heap s))%nat -> (forall k, c_job s !! k <> Some (Some p)) ->
       h1 !! p = heap s !! p) /\
    (forall p j, job_at s p j -> exists j', h1 !! p = Some (Some j') /\ tick_rel j j') /\
    (forall p, heap s !! p = Some None -> h1 !! p = Some None).
Proof.
  intros Hinv Htime.
  set (job := length (heap s)).
  set (fresh := fresh_job job_number time running_time prio).
  set (s0 := arrival_state job_number time running_time prio s).
  pose proof Hinv as ((Ht & Hbd) & (Hwf & Hnd & Hq) & Hn & Hc).
  assert (inv s0) as Hinv0.
  { apply (inv_but_c_time None (with_heap (heap s ++ [Some fresh]) s) time); [|lia].
    by apply inv_but_malloc. }
  assert (forall k, c_job s !! k <> Some (Some job)) as Hnc.
  { intros k Hk. destruct (Hc k job) as (_ & j & Hj & _); [done|done|].
    apply lookup_lt_Some in Hj. unfold job in Hj. lia. }
  assert (~ queued s job) as Hnq.
  { intros Hjq. destruct (Hq job Hjq) as (j & Hj & _).
    apply lookup_lt_Some in Hj. unfold job in Hj. lia. }
  destruct (inv_tick s0 Hinv0) as (h1 & Hrun & Hinv1 & Hlen & Hrel & Hon & Hoff).
  exists h1. split; [exact Hrun|]. split; [exact Hinv1|].
  assert (forall p j, job_at s p j -> job_at s0 p j) as Hs0.
  { intros p j Hj. unfold job_at, s0. simpl. rewrite lookup_app_l; [done|].
    by eapply lookup_lt_Some. }
  split_and!.
  - rewrite Hlen. simpl. rewrite length_app. simpl. lia.
  - rewrite (Hoff job Hnc). simpl. unfold job. by rewrite list_lookup_middle.
  - done.
  - done.
  - intros k p j Hk Hj. exact (Hon k p j Hk (Hs0 p j Hj)).
  - intros p Hp Hno. rewrite (Hoff p Hno). simpl. by rewrite lookup_app_l.
  - intros p j Hj. specialize (Hrel p). simpl in Hrel.
    rewrite lookup_app_l in Hrel by (by eapply lookup_lt_Some).
    unfold job_at in Hj. by rewrite Hj in Hrel.
  - intros p Hp. specialize (Hrel p). simpl in Hrel.
    rewrite lookup_app_l in Hrel by (by eapply lookup_lt_Some).
    by rewrite Hp in Hrel.
Qed.

(** *** The PSJF scan *)

Lemma psjf_scan_spec n k remaining ctc cjl s :
  (k + n = length (c_job s))%nat -> all_busy s ->
  psjf_state s remaining k ctc cjl ->
  exists ctc' cjl',
    psjf_scan n (Z.of_nat k) remaining ctc cjl s = Ok ctc' /\
    psjf_state s remaining (length (c_job s)) ctc' cjl'.
Proof.
  revert k ctc cjl.
  induction n as [|n IH]; intros k ctc cjl Hlen Hbusy Hst; cbn [psjf_scan].
  - exists ctc, cjl. split; [done|]. by replace (length (c_job s)) with k by lia.
  - destruct (Hbusy k) as (p & j & Hp & Hj); [lia|].
    rewrite (read_core_nat _ _ _ Hp). cbn [bind deref].
    rewrite (load_job _ _ _ Hj). cbn [bind].
    replace (Z.of_nat k + 1) with (Z.of_nat (S k)) by lia.
    assert (forall i q jq, (i < S k)%nat -> c_job s !! i = Some (Some q) ->
              job_at s q jq -> (i < k)%nat \/ (i = k /\ jq = j)) as Hcase.
    { intros i q jq Hi Hq Hjq. destruct (decide (i = k)) as [->|]; [right|left; lia].
      split; [done|]. unfold job_at in *. congruence. }
    rewrite !Z.gtb_ltb.
    destruct (Z.ltb_spec remaining (t_remaining j)) as [Hqual|Hnq].
    + destruct (Z.ltb_spec cjl (t_remaining j)) as [Hgt|Hle].
      * (* more left than any job so far *)
        apply IH; [lia|done|]. right. exists k, p, j.
        assert (-1 <= cjl) as Hcjl.
        { destruct Hst as [(_ & -> & _)|(c & pc & jc & _ & _ & _ & _ & _ & Hm & _)]; lia. }
        split_and!; try done; [lia|lia|].
        intros i q jq Hi Hq Hjq.
        destruct (Hcase i q jq Hi Hq Hjq) as [Hlt|[-> ->]]; [|split; lia].
        destruct Hst as [(_ & Hc1 & Hno)|(c & pc & jc & _ & _ & _ & _ & Hcp & _ & Hmax)].
        -- specialize (Hno i q jq Hlt Hq Hjq). split; lia.
        -- destruct (Hmax i q jq Hlt Hq Hjq) as [? _]. split; lia.
      * apply IH; [lia|done|].
        destruct Hst as [(-> & -> & Hno)|(c & pc & jc & -> & Hc & Hpc & Hjc & Hcp & Hm & Hmax)].
        -- left. split_and!; try done. intros i q jq Hi Hq Hjq.
           destruct (Hcase i q jq Hi Hq Hjq) as [Hlt|[-> ->]];
             [exact (Hno i q jq Hlt Hq Hjq)|lia].
        -- right. exists c, pc, jc. split_and!; try done; [lia|].
           intros i q jq Hi Hq Hjq.
           destruct (Hcase i q jq Hi Hq Hjq) as [Hlt|[-> ->]];
             [exact (Hmax i q jq Hlt Hq Hjq)|]. split; lia.
    + apply IH; [lia|done|].
      destruct Hst as [(-> & -> & Hno)|(c & pc & jc & -> & Hc & Hpc & Hjc & Hcp & Hm & Hmax)].
      * left. split_and!; try done. intros i q jq Hi Hq Hjq.
        destruct (Hcase i q jq Hi Hq Hjq) as [Hlt|[-> ->]];
          [exact (Hno i q jq Hlt Hq Hjq)|lia].
      * right. exists c, pc, jc. split_and!; try done; [lia|].
        intros i q jq Hi Hq Hjq.
        destruct (Hcase i q jq Hi Hq Hjq) as [Hlt|[-> ->]];
          [exact (Hmax i q jq Hlt Hq Hjq)|]. split; lia.
Qed.

(** *** The three ways scheduler_new_job ends *)

Lemma queue_live_update s p j' :
  (forall e, e ∈ PriQueue.head (jobs s) -> exists je, job_at s e je) ->
  (p < length (heap s))%nat ->
  forall e, e ∈ PriQueue.head (jobs s) ->
    exists je, (<[p := Some j']> (heap s)) !! e = Some (Some je).
Proof.
  intros Hq Hp e He. destruct (Hq e He) as [je Hje].
  destruct (decide (e = p)) as [->|Hne].
  - rewrite list_lookup_insert_eq by done. eauto.
  - rewrite list_lookup_insert_ne by done. eauto.
Qed.

Lemma install_full c job j s :
  inv_but (Some c) s -> (c < length (c_job s))%nat ->
  job_at s job j -> ~ queued s job ->
  (forall k, k <> c -> c_job s !! k <> Some (Some job)) ->
  0 <= c_time s -> PriQueue.size (jobs s) < INT_MAX ->
  exists s' l1 l2,
    (let! s1 := update job (start_job (c_time s) (Z.of_nat c)) s in
     let! s2 := write_core (Z.of_nat c) (Some job) s1 in
     let! '(_, s3) := offer_job job s2 in
     Ok (Z.of_nat c, s3)) = Ok (Z.of_nat c, s') /\
    inv s' /\
    PriQueue.head (jobs s) = l1 ++ l2 /\
    jobs s' = {| PriQueue.size := PriQueue.size (jobs s) + 1;
                 PriQueue.head := l1 ++ job :: l2 |} /\
    (forall e, e ∈ l1 -> exists z, comparer s' job e = Ok z /\ 0 <= z) /\
    (l2 = [] \/ exists e l2' z, l2 = e :: l2' /\ comparer s' job e = Ok z /\ z < 0) /\
    c_job s' = <[c := Some job]> (c_job s) /\
    heap s' = <[job := Some (start_job (c_time s) (Z.of_nat c) j)]> (heap s) /\
    n_cores s' = n_cores s /\ t_scheme s' = t_scheme s /\ c_time s' = c_time s /\
    n_jobs s' = n_jobs s /\ t_wait s' = t_wait s /\ t_response s' = t_response s /\
    t_turnaround s' = t_turnaround s.
Proof.
  intros Hinv Hc Hj Hnq Hnc Ht Hsz.
  destruct (install_spec c job j s Hinv Hc Hj Hnq Hnc Ht Hsz)
    as (s' & Hrun & Hinv' & Hsize & Hcj & Hheap & Hins & Hfr).
  pose proof Hinv as (_ & (Hwf & _ & Hq) & _).
  assert (job < length (heap s))%nat as Hlt by (by eapply lookup_lt_Some).
  set (j' := start_job (c_time s) (Z.of_nat c) j) in *.
  set (s2 := with_c_job (<[c := Some job]> (c_job s))
               (with_heap (<[job := Some j']> (heap s)) s)).
  destruct (offer_job_run s2 job j') as (r & l1 & l2 & Hl & Hoff & H1 & H2).
  { exact Hwf. }
  { exact Hsz. }
  { intros e He. unfold job_at, s2. simpl.
    apply (queue_live_update s job j'); [|done|exact He].
    intros e' He'. destruct (Hq e' He') as (je & ? & _). eauto. }
  { unfold job_at, s2. simpl. by rewrite list_lookup_insert_eq. }
  pose proof Hrun as Hrun'.
  rewrite (update_job _ _ _ _ Hj) in Hrun'. cbn [bind] in Hrun'.
  rewrite write_core_nat in Hrun' by done. cbn [bind] in Hrun'.
  change (with_c_job _ _) with s2 in Hrun'.
  rewrite Hoff in Hrun'. cbn [bind] in Hrun'. injection Hrun' as <-.
  exists (with_jobs {| PriQueue.size := PriQueue.size (jobs s2) + 1;
                       PriQueue.head := l1 ++ job :: l2 |} s2), l1, l2.
  split; [exact Hrun|]. split; [exact Hinv'|]. split; [exact Hl|].
  split; [done|]. split; [exact H1|]. split; [exact H2|]. split; [done|].
  split; [done|]. exact Hfr.
Qed.

Lemma preempt_full c job j o jo s :
  inv s -> c_job s !! c = Some (Some o) -> job_at s o jo ->
  job_at s job j -> ~ queued s job ->
  (forall k, c_job s !! k <> Some (Some job)) ->
  PriQueue.size (jobs s) < INT_MAX ->
  exists s' l1 l2,
    (let! s1 := update job (start_job (c_time s) (Z.of_nat c)) s in
     let! old := read_core (Z.of_nat c) s1 in
     match old with
     | None => Crash NullDeref
     | Some o =>
         let! s2 := update o (evict_job (c_time s1)) s1 in
         let! s3 := write_core (Z.of_nat c) (Some job) s2 in
         let! '(_, s4) := offer_job job s3 in
         Ok (Z.of_nat c, s4)
     end) = Ok (Z.of_nat c, s') /\
    inv s' /\
    PriQueue.head (jobs s) = l1 ++ l2 /\
    jobs s' = {| PriQueue.size := PriQueue.size (jobs s) + 1;
                 PriQueue.head := l1 ++ job :: l2 |} /\
    (forall e, e ∈ l1 -> exists z, comparer s' job e = Ok z /\ 0 <= z) /\
    (l2 = [] \/ exists e l2' z, l2 = e :: l2' /\ comparer s' job e = Ok z /\ z < 0) /\
    c_job s' = <[c := Some job]> (c_job s) /\
    heap s' = <[o := Some (evict_job (c_time s) jo)]>
                (<[job := Some (start_job (c_time s) (Z.of_nat c) j)]> (heap s)) /\
    n_cores s' = n_cores s /\ t_scheme s' = t_scheme s /\ c_time s' = c_time s /\
    n_jobs s' = n_jobs s /\ t_wait s' = t_wait s /\ t_response s' = t_response s /\
    t_turnaround s' = t_turnaround s.
Proof.
  intros Hinv Hc Hjo Hj Hnq Hnc Hsz.
  destruct (preempt_spec c job j o jo s Hinv Hc Hjo Hj Hnq Hnc Hsz)
    as (s' & Hrun & Hinv' & Hsize & Hcj & Hev & Hst & Hqd & Hfr).
  pose proof Hinv as (_ & (Hwf & _ & Hq) & _).
  assert (o <> job) as Hne by (intros ->; by apply (Hnc c)).
  assert (c < length (c_job s))%nat as Hlt by (by eapply lookup_lt_Some).
  assert (o < length (heap s))%nat as Hlo by (by eapply lookup_lt_Some).
  assert (job < length (heap s))%nat as Hlj by (by eapply lookup_lt_Some).
  set (j' := start_job (c_time s) (Z.of_nat c) j) in *.
  set (ev := evict_job (c_time s) jo) in *.
  set (s3 := with_c_job (<[c := Some job]> (c_job s))
               (with_heap (<[o := Some ev]> (<[job := Some j']> (heap s))) s)).
  destruct (offer_job_run s3 job j') as (r & l1 & l2 & Hl & Hoff & H1 & H2).
  { exact Hwf. }
  { exact Hsz. }
  { intros e He. destruct (Hq e He) as (je & Hje & _). unfold job_at, s3. simpl.
    destruct (decide (e = o)) as [->|Hno].
    - rewrite list_lookup_insert_eq by (by rewrite length_insert). eauto.
    - rewrite list_lookup_insert_ne by done.
      destruct (decide (e = job)) as [->|Hnj].
      + rewrite list_lookup_insert_eq by done. eauto.
      + rewrite list_lookup_insert_ne by done. eauto. }
  { unfold job_at, s3. simpl. rewrite list_lookup_insert_ne by done.
    by rewrite list_lookup_insert_eq. }
  pose proof Hrun as Hrun'.
  rewrite (update_job _ _ _ _ Hj) in Hrun'. cbn [bind] in Hrun'.
  rewrite (read_core_nat _ c (Some o)) in Hrun' by exact Hc. cbn [bind] in Hrun'.
  rewrite (update_job _ o jo) in Hrun'.
  2:{ unfold job_at. simpl. by rewrite list_lookup_insert_ne. }
  cbn [bind] in Hrun'.
  rewrite write_core_nat in Hrun' by done. cbn [bind] in Hrun'.
  change (with_c_job _ _) with s3 in Hrun'.
  rewrite Hoff in Hrun'. cbn [bind] in Hrun'. injection Hrun' as <-.
  exists (with_jobs {| PriQueue.size := PriQueue.size (jobs s3) + 1;
                       PriQueue.head := l1 ++ job :: l2 |} s3), l1, l2.
  split; [exact Hrun|]. split; [exact Hinv'|]. split; [exact Hl|].
  split; [done|]. split; [exact H1|]. split; [exact H2|]. split; [done|].
  split; [done|]. exact Hfr.
Qed.

(** What [scheduler_new_job] does, with the heap [h1] that the clock
    advance leaves: the arriving job is linked into the queue where the
    comparer puts it, and it takes the lowest free slot, or the slot
    that the PSJF or PPRI scan chose, or none. *)
Lemma new_job_full job_number time running_time prio s :
  inv s -> admissible s (NewJob job_number time running_time prio) = true ->
  exists h1 r s' l1 l2,
    increment_timestep (arrival_state job_number time running_time prio s) =
      Ok (with_heap h1 (arrival_state job_number time running_time prio s)) /\
    scheduler_new_job job_number time running_time prio s = Ok (r, s') /\
    inv s' /\
    PriQueue.head (jobs s) = l1 ++ l2 /\
    jobs s' = {| PriQueue.size := PriQueue.size (jobs s) + 1;
                 PriQueue.head := l1 ++ length (heap s) :: l2 |} /\
    (forall e, e ∈ l1 -> exists z, comparer s' (length (heap s)) e = Ok z /\ 0 <= z) /\
    (l2 = [] \/
     exists e l2' z, l2 = e :: l2' /\ comparer s' (length (heap s)) e = Ok z /\ z < 0) /\
    (n_cores s' = n_cores s /\ t_scheme s' = t_scheme s /\ c_time s' = time /\
     n_jobs s' = wrap (n_jobs s + 1) /\ t_wait s' = t_wait s /\
     t_response s' = t_response s /\ t_turnaround s' = t_turnaround s) /\
    ((exists i : nat,
        r = Z.of_nat i /\ c_job s !! i = Some None /\
        (forall i', (i' < i)%nat -> exists p, c_job s !! i' = Some (Some p)) /\
        c_job s' = <[i := Some (length (heap s))]> (c_job s) /\
        heap s' =
          <[length (heap s) :=
              Some (start_job time r (fresh_job job_number time running_time prio))]> h1)
     \/
     (all_busy s /\
      exists (c : nat) o jo,
        r = Z.of_nat c /\ c_job s !! c = Some (Some o) /\ job_at s o jo /\
        c_job s' = <[c := Some (length (heap s))]> (c_job s) /\
        heap s' =
          <[o := Some (evict_job time (tick_job time jo))]>
            (<[length (heap s) :=
                 Some (start_job time r (fresh_job job_number time running_time prio))]> h1) /\
        match t_scheme s with
        | PSJF =>
            psjf_scan (length (c_job s)) 0 running_time (-1) (-1)
              (with_heap h1 (arrival_state job_number time running_time prio s)) = Ok r
        | PPRI =>
            ppri_scan (length (c_job s)) 0 prio (-1) (-1)
              (with_heap h1 (arrival_state job_number time running_time prio s)) = Ok r
        | _ => False
        end)
     \/
     (all_busy s /\ r = -1 /\ c_job s' = c_job s /\ heap s' = h1 /\
      match t_scheme s with
      | PSJF =>
          psjf_scan (length (c_job s)) 0 running_time (-1) (-1)
            (with_heap h1 (arrival_state job_number time running_time prio s)) = Ok (-1)
      | PPRI =>
          ppri_scan (length (c_job s)) 0 prio (-1) (-1)
            (with_heap h1 (arrival_state job_number time running_time prio s)) = Ok (-1)
      | _ => True
      end)).
Proof.
  intros Hinv Hadm.
  pose proof Hadm as (Htime & Hsz & Hprio)%admissible_new_job.
  destruct (new_job_prefix job_number time running_time prio s Hinv Htime)
    as (h1 & Hrun & Hinv1 & Hlen & Hfresh & Hnq & Hnc & Hon & Hoff & Hlive & Hdead).
  pose proof Hinv as ((Ht & Hbd) & (Hwf & Hnd & Hq) & Hn & Hc).
  exists h1.
  unfold scheduler_new_job. cbv zeta.
  change (with_n_jobs _ _) with (arrival_state job_number time running_time prio s).
  change (mkjob time running_time running_time None (-1) (-1) None job_number prio (-1))
    with (fresh_job job_number time running_time prio).
  set (job := length (heap s)) in *.
  set (fresh := fresh_job job_number time running_time prio) in *.
  set (s0 := arrival_state job_number time running_time prio s) in *.
  rewrite Hrun. cbn [bind].
  set (s1 := with_heap h1 s0) in *.
  assert (job_at s1 job fresh) as Hj1 by exact Hfresh.
  assert (Z.to_nat (n_cores s1) = length (c_job s)) as Hnn.
  { simpl. rewrite Hn. apply Nat2Z.id. }
  rewrite Hnn.
  destruct (free_core_scan_spec (length (c_job s)) 0 s1) as (i & Hscan & Hile & Hbusy & Hfree);
    [done|intros ? ?; lia|].
  change (Z.of_nat 0) with 0 in Hscan. rewrite Hscan. cbn [bind].
  change (n_cores s1) with (n_cores s). change (c_time s1) with time.
  change (c_job s1) with (c_job s) in *.
  destruct (Z.ltb_spec (Z.of_nat i) (n_cores s)) as [Hilt|Hige].
  - (* a free slot *)
    destruct (install_full i job fresh s1)
      as (s' & l1 & l2 & Hexec & Hinv' & Hl & Hjobs & H1 & H2 & Hcj & Hheap & Hfr).
    { by apply inv_open. }
    { simpl. lia. }
    { done. }
    { done. }
    { intros k _. apply Hnc. }
    { simpl. lia. }
    { done. }
    exists (Z.of_nat i), s', l1, l2. change (c_time s1) with time in *.
    split; [done|]. split; [exact Hexec|]. split; [done|]. split; [exact Hl|].
    split; [exact Hjobs|]. split; [exact H1|]. split; [exact H2|]. split; [exact Hfr|].
    left. exists i. split_and!; try done. apply Hfree. lia.
  - (* every slot is taken *)
    assert (i = length (c_job s)) as -> by lia.
    assert (all_busy s) as Hbusy0.
    { intros k Hk. destruct (Hbusy k Hk) as [p Hp].
      destruct (Hc k p) as (_ & j & Hj & _); [done|done|]. eauto. }
    assert (all_busy s1) as Hbusy1.
    { intros k Hk. destruct (Hbusy0 k Hk) as (p & j & Hp & Hj).
      exists p, (tick_job time j). split; [done|].
      by destruct (Hon k p j Hp Hj) as [? _]. }
    rewrite (load_job _ _ _ Hj1). cbn [bind].
    change (t_scheme s1) with (t_scheme s).
    change (t_remaining fresh) with running_time.
    change (priority fresh) with prio.
    assert (exists ctc,
      match t_scheme s with
      | PSJF => psjf_scan (length (c_job s)) 0 running_time (-1) (-1) s1
      | PPRI => ppri_scan (length (c_job s)) 0 prio (-1) (-1) s1
      | _ => Ok (-1)
      end = Ok ctc /\
      (ctc = -1 \/
       (exists c : nat, ctc = Z.of_nat c /\ (c < length (c_job s))%nat /\
          preemptive (t_scheme s) = true))) as (ctc & Hctceq & Hctc).
    { destruct (t_scheme s) eqn:Hsch; try (exists (-1); split; [done|by left]).
      - destruct (psjf_scan_range (length (c_job s)) 0 running_time (-1) (-1) s1)
          as (ctc & Hps & Hr); [done|done|by left|].
        exists ctc. split; [exact Hps|].
        change (c_job s1) with (c_job s) in Hr.
        destruct Hr as [->|Hr]; [by left|].
        right. exists (Z.to_nat ctc). split_and!; [lia|lia|done].
      - destruct (ppri_scan_spec (length (c_job s)) 0 prio (-1) (-1) s1)
          as (ctc & cp & Hpp & Hst); [by apply Hprio|done|done| |].
        { left. split_and!; try done. intros ? ? ? ?. lia. }
        exists ctc. split; [exact Hpp|].
        change (c_job s1) with (c_job s) in Hst.
        destruct Hst as [(-> & _)|(c & pc & jc & -> & Hclt & _)]; [by left|].
        right. exists c. done. }
    rewrite Hctceq. cbn [bind].
    destruct Hctc as [->|(c & -> & Hclt & Hpre)].
    + (* no slot to take over *)
      change (negb (-1 =? -1)) with false. cbv iota.
      destruct (offer_job_spec None s1 job fresh) as (r & l' & Hins & Hoffer & Hinv');
        [done|done|done|done|done|].
      pose proof Hinv1 as (_ & (Hwf1 & _ & Hq1) & _).
      destruct (offer_job_run s1 job fresh) as (r' & l1 & l2 & Hl & Hoff' & H1 & H2);
        [done|done| |done|].
      { intros e He. destruct (Hq1 e He) as (je & ? & _). eauto. }
      rewrite Hoff' in Hoffer. injection Hoffer as -> <-.
      rewrite Hoff'. cbn [bind].
      eexists (-1), _, l1, l2. split; [done|]. split; [done|]. split; [exact Hinv'|].
      split; [exact Hl|]. split; [done|]. split; [exact H1|]. split; [exact H2|].
      split; [done|]. right. right. split_and!; try done.
      destruct (t_scheme s); done.
    + (* the job on slot [c] is replaced *)
      replace (negb (Z.of_nat c =? -1)) with true by (symmetry; ztest; done).
      cbv iota.
      destruct (Hbusy0 c Hclt) as (o & jo & Ho & Hjo).
      destruct (Hon c o jo Ho Hjo) as [Hjo1 _].
      destruct (preempt_full c job fresh o (tick_job time jo) s1)
        as (s' & l1 & l2 & Hexec & Hinv' & Hl & Hjobs & H1 & H2 & Hcj & Hheap & Hfr);
        [done|done|done|done|done|done|done|].
      change (c_time s1) with time in *.
      exists (Z.of_nat c), s', l1, l2. split; [done|]. split; [exact Hexec|].
      split; [done|]. split; [exact Hl|]. split; [exact Hjobs|].
      split; [exact H1|]. split; [exact H2|]. split; [exact Hfr|].
      right. left. split; [done|]. exists c, o, jo. split_and!; try done.
      destruct (t_scheme s); done.
Qed.

(** *** The clock advance of the other two calls *)

Lemma tick_full s time :
  inv s -> c_time s <= time ->
  exists h1,
    increment_timestep (with_c_time time s) = Ok (with_heap h1 (with_c_time time s)) /\
    inv (with_heap h1 (with_c_time time s)) /\
    ticked_heap s time h1.
Proof.
  intros Hinv Htime. pose proof Hinv as ((Ht & _) & _).
  destruct (inv_tick (with_c_time time s)) as (h1 & Hrun & Hinv1 & Hlen & Hrel & Hon & Hoff).
  { apply inv_but_c_time; [done|lia]. }
  exists h1. split; [exact Hrun|]. split; [exact Hinv1|].
  split; [exact Hlen|]. split; [exact Hrel|]. split; [exact Hon|exact Hoff].
Qed.

(** A job that [first_idle] finds is on no core, so the clock advance
    and the removal of a job that is on a core do not change what it
    finds. *)
Lemma first_idle_ticked s time h1 l :
  inv s -> ticked_heap s time h1 ->
  (forall x, x ∈ l -> queued s x) ->
  first_idle h1 l = first_idle (heap s) l.
Proof.
  intros (_ & (_ & _ & Hq) & _) (_ & Hrel & _) Hl. apply first_idle_ext.
  intros x Hx. destruct (Hq x (Hl x Hx)) as (j & Hj & _).
  specialize (Hrel x). unfold job_at in Hj. rewrite Hj in Hrel.
  destruct Hrel as (j' & Hj' & Hr). exists j, j'. split_and!; try done.
  by destruct Hr as (_ & _ & _ & _ & -> & _).
Qed.

(** *** The end of a job *)

Lemma retire_run c p j w s :
  (c < length (c_job s))%nat -> job_at s p j -> t_waiting j = Some w ->
  forall A (K : sched -> res A),
    (let! s1 := update p (set_t_end (c_time s)) s in
     let! j1 := load (heap s1) p in
     let! s2 := add_stats j1 (c_time s) s1 in
     let! s3 := free p s2 in
     let! s4 := write_core (Z.of_nat c) None s3 in
     K s4) =
    K (mksched (jobs s) (<[c := None]> (c_job s)) (n_cores s) (t_scheme s)
         (c_time s) (n_jobs s)
         (fadd (t_response s)
            (fsub (float_of_int (t_started j)) (float_of_int (t_arrival j))))
         (fadd (t_wait s) (float_of_int w))
         (fadd (t_turnaround s)
            (fsub (float_of_int (c_time s)) (float_of_int (t_arrival j))))
         (<[p := None]> (heap s))).
Proof.
  intros Hc Hj Hw A K.
  assert (p < length (heap s))%nat as Hlt by (by eapply lookup_lt_Some).
  rewrite (update_job _ _ _ _ Hj). cbn [bind heap with_heap].
  rewrite (load_job _ p (set_t_end (c_time s) j))
    by (by rewrite list_lookup_insert_eq).
  cbn [bind]. unfold add_stats, read_waiting.
  cbn [t_waiting set_t_end]. rewrite Hw. cbn [bind].
  set (s2 := with_stats _ _ _ _).
  assert (job_at s2 p (set_t_end (c_time s) j)) as Hj2.
  { unfold job_at, s2. simpl. by rewrite list_lookup_insert_eq. }
  rewrite (free_job _ _ _ Hj2). cbn [bind].
  rewrite write_core_nat by done. cbn [bind].
  f_equal. unfold s2, with_c_job, with_heap, with_stats. simpl.
  by rewrite list_insert_insert_eq.
Qed.

Lemma dispatch_full c p j s :
  inv_but (Some c) s -> (c < length (c_job s))%nat ->
  queued s p -> job_at s p j -> j_core j = -1 -> 0 <= c_time s ->
  exists j' s',
    dispatch_job (c_time s) (Z.of_nat c) j = Ok j' /\
    dispatch (Z.of_nat c) p s = Ok (job_id j, s') /\
    inv s' /\
    c_job s' = <[c := Some p]> (c_job s) /\
    heap s' = <[p := Some j']> (heap s) /\
    jobs s' = jobs s /\ n_cores s' = n_cores s /\ t_scheme s' = t_scheme s /\
    c_time s' = c_time s /\ n_jobs s' = n_jobs s /\ t_wait s' = t_wait s /\
    t_response s' = t_response s /\ t_turnaround s' = t_turnaround s.
Proof.
  intros Hinv Hc Hq Hj Hcore Ht.
  destruct (dispatch_spec c p j s Hinv Hc Hq Hj Hcore Ht)
    as (j' & s' & Hrun & Hinv' & Hcj & Hheap & Hid & Hfr).
  pose proof Hrun as Hrun'. unfold dispatch in Hrun'.
  rewrite (load_job _ _ _ Hj) in Hrun'. cbn [bind] in Hrun'.
  destruct (dispatch_job (c_time s) (Z.of_nat c) j) as [j2|] eqn:Hdj; [|done].
  cbn [bind] in Hrun'. rewrite write_core_nat in Hrun' by done.
  cbn [bind] in Hrun'. injection Hrun' as _ <-.
  exists j2. eexists. split; [done|]. split; [exact Hrun|]. split; [exact Hinv'|].
  split; [done|]. split; [done|]. exact Hfr.
Qed.

(** What [scheduler_job_finished] does: the job [p] of the slot is
    unlinked, its times are added to the sums, its object is freed and
    the slot emptied (the state [sF]); then the first job of the queue
    that is on no core, if there is one, gets the slot. *)
Lemma job_finished_full core_id job_number time s :
  inv s -> admissible s (JobFinished core_id job_number time) = true ->
  exists (c : nat) p jp w l1 l2 h1 sF,
    core_id = Z.of_nat c /\ c_job s !! c = Some (Some p) /\ job_at s p jp /\
    job_id jp = job_number /\ t_waiting jp = Some w /\ j_core jp = Z.of_nat c /\
    PriQueue.head (jobs s) = l1 ++ p :: l2 /\
    ticked_heap s time h1 /\
    sF = mksched {| PriQueue.size := PriQueue.size (jobs s) - 1;
                    PriQueue.head := l1 ++ l2 |}
           (<[c := None]> (c_job s)) (n_cores s) (t_scheme s) time (n_jobs s)
           (fadd (t_response s)
              (fsub (float_of_int (t_started jp)) (float_of_int (t_arrival jp))))
           (fadd (t_wait s) (float_of_int w))
           (fadd (t_turnaround s)
              (fsub (float_of_int time) (float_of_int (t_arrival jp))))
           (<[p := None]> h1) /\
    inv sF /\
    first_idle (heap sF) (l1 ++ l2) = first_idle (heap s) (PriQueue.head (jobs s)) /\
    scheduler_job_finished core_id job_number time s =
      match first_idle (heap s) (PriQueue.head (jobs s)) with
      | Some p2 => dispatch (Z.of_nat c) p2 sF
      | None => Ok (-1, sF)
      end.
Proof.
  intros Hinv Hadm.
  apply admissible_job_finished in Hadm as (Htime & c & p & -> & Hcp & Hfirst).
  pose proof Hinv as ((Ht & Hbd) & (Hwf0 & Hnd0 & Hq0) & _ & Hc0).
  destruct (tick_full s time Hinv Htime) as (h1 & Hrun & Hinv1 & Htk).
  pose proof Htk as (Hlen & Hrel & Hon & Hoff).
  unfold scheduler_job_finished. cbv zeta.
  set (s0 := with_c_time time s) in *.
  rewrite Hrun. cbn [bind].
  set (s1 := with_heap h1 s0) in *.
  pose proof Hinv1 as (_ & (Hwf & Hnd & Hq) & Hn & Hc).
  change (jobs s1) with (jobs s) in *. change (c_job s1) with (c_job s) in *.
  change (heap s1) with h1 in *.
  assert (c < length (c_job s))%nat as Hclt by (by eapply lookup_lt_Some).
  destruct (Hc0 c p) as (Hpq & jp & Hjp0 & Hcore0 & Hst0 & [w Hw0]); [done|done|].
  destruct (Hon c p jp Hcp Hjp0) as [Hjp1 _].
  pose proof Hfirst as Hfirst0.
  rewrite <- (heap_rel_first_with_id _ _ _ _ Hrel) in Hfirst.
  destruct (finished_scan_spec h1 job_number (jobs s) p [] (PriQueue.head (jobs s)) None)
    as (l1 & l2 & jp1 & Hhead & Hjp & Hid & Hscan); [done|done|done|].
  assert (jp1 = tick_job time jp) as -> by congruence.
  unfold PriQueue.priqueue_size.
  replace (Z.to_nat (PriQueue.size (jobs s))) with (length (PriQueue.head (jobs s)))
    by (unfold PriQueue.wf in Hwf; lia).
  change 0 with (Z.of_nat (length (@nil nat))). rewrite Hscan. cbn [bind local_ptr].
  assert (wrap (PriQueue.size (jobs s) - 1) = PriQueue.size (jobs s) - 1) as ->.
  { apply wrap_in_int. pose proof (f_equal length Hhead) as Hl.
    rewrite length_app in Hl. simpl in Hl. unfold PriQueue.wf in Hwf.
    unfold in_int, INT_MIN, INT_MAX in *. lia. }
  cbn [app].
  destruct (inv_but_unlink (Some c) s1 p (l1 ++ l2)) as [HinvR Hpnq].
  { by apply inv_open. }
  { by exists l1, l2. }
  { intros k Hk Hkp. apply Hk. f_equal. by apply (inv_slots_distinct s1 Hinv1 k c p). }
  change (jobs s1) with (jobs s) in HinvR. clear Hscan.
  set (sR := with_jobs _ s1) in *.
  assert (is_Some (t_waiting (tick_job time jp))) as Hw1.
  { destruct (tick_job_rel time jp) as (_ & _ & _ & _ & _ & -> & _). by exists w. }
  destruct (retire_spec c p (tick_job time jp) sR) as (s5 & Hjf & _ & Hinv5 & _).
  { done. }
  { done. }
  { done. }
  { done. }
  { done. }
  { intros k Hk Hkp. apply Hk. by apply (inv_slots_distinct s1 Hinv1 k c p). }
  assert (t_waiting (tick_job time jp) = Some w) as Hw1'.
  { by destruct (tick_job_rel time jp) as (_ & _ & _ & _ & _ & -> & _). }
  pose proof (retire_run c p (tick_job time jp) w sR Hclt Hjp Hw1') as Hexp.
  assert (t_started (tick_job time jp) = t_started jp) as Est.
  { by destruct (tick_job_rel time jp) as (_ & _ & _ & _ & _ & _ & _ & ->). }
  assert (t_arrival (tick_job time jp) = t_arrival jp) as Ear.
  { by destruct (tick_job_rel time jp) as (_ & _ & -> & _). }
  rewrite Est, Ear in Hexp.
  set (sF := mksched _ _ _ _ _ _ _ _ _ _) in Hexp.
  assert (s5 = sF) as ->.
  { pose proof (Hjf _ Ok) as E. rewrite (Hexp _ Ok) in E. by injection E. }
  change time with (c_time sR). rewrite Hexp.
  pose proof Hinv5 as (_ & (Hwf5 & _ & Hq5) & _).
  rewrite job_finished_tail; [|done|].
  2:{ intros x Hx. destruct (Hq5 x Hx) as (jx & Hjx & _). eauto. }
  assert (first_idle (heap sF) (l1 ++ l2) = first_idle (heap s) (PriQueue.head (jobs s)))
    as Hfi.
  { rewrite Hhead.
    rewrite (first_idle_skip (heap s) l1 p l2 jp); [|done|lia|].
    2:{ intros x Hx. destruct (Hq0 x) as (jx & ? & _); [|eauto].
        unfold queued. rewrite Hhead. apply elem_of_app. by left. }
    rewrite <- (first_idle_ticked s time h1 (l1 ++ l2) Hinv Htk).
    2:{ intros x Hx. unfold queued. rewrite Hhead.
        apply elem_of_app in Hx as [?|?]; apply elem_of_app; [by left|right; by right]. }
    apply first_idle_ext. intros x Hx.
    destruct (Hq x) as (jx & Hjx & _).
    { change (x ∈ PriQueue.head (jobs s)). rewrite Hhead.
      apply elem_of_app in Hx as [?|?]; apply elem_of_app; [by left|right; by right]. }
    exists jx, jx. split; [done|]. split; [|done].
    unfold sF. simpl. rewrite list_lookup_insert_ne; [done|]. intros ->. by apply Hpnq. }
  exists c, p, jp, w, l1, l2, h1, sF.
  split_and!; try done.
  - destruct (tick_job_rel time jp) as (E & _). by rewrite <- E.
  - change (PriQueue.head (jobs sF)) with (l1 ++ l2). by rewrite Hfi.
Qed.

(** *** The end of a quantum *)

Lemma retire_run_expired c p j w s :
  (c < length (c_job s))%nat -> job_at s p j -> t_waiting j = Some w ->
  t_remaining j = 0 ->
  requeue_or_end (Z.of_nat c) (Some p) s =
    Ok (mksched (jobs s) (<[c := None]> (c_job s)) (n_cores s) (t_scheme s)
          (c_time s) (n_jobs s)
          (fadd (t_response s)
             (fsub (float_of_int (t_started j)) (float_of_int (t_arrival j))))
          (fadd (t_wait s) (float_of_int w))
          (fadd (t_turnaround s)
             (fsub (float_of_int (c_time s)) (float_of_int (t_arrival j))))
          (<[p := None]> (heap s))).
Proof.
  intros Hc Hj Hw Hrem.
  assert (p < length (heap s))%nat as Hlt by (by eapply lookup_lt_Some).
  unfold requeue_or_end. cbn [deref]. rewrite (load_job _ _ _ Hj). cbn [bind].
  rewrite Hrem. cbn [Z.eqb negb].
  rewrite (update_job _ _ _ _ Hj). cbn [bind heap with_heap].
  rewrite (load_job _ p (set_t_end (c_time s) j))
    by (by rewrite list_lookup_insert_eq).
  cbn [bind]. unfold add_stats, read_waiting.
  cbn [t_waiting set_t_end]. rewrite Hw. cbn [bind].
  rewrite write_core_nat by done. cbn [bind].
  set (s3 := with_c_job _ _).
  assert (job_at s3 p (set_t_end (c_time s) j)) as Hj3.
  { unfold job_at, s3. simpl. by rewrite list_lookup_insert_eq. }
  rewrite (free_job _ _ _ Hj3).
  f_equal. unfold s3, with_c_job, with_heap, with_stats. simpl.
  by rewrite list_insert_insert_eq.
Qed.

Lemma requeue_full c p j s :
  inv_but (Some c) s -> job_at s p j -> ~ queued s p ->
  is_Some (t_waiting j) ->
  (forall k, k <> c -> c_job s !! k <> Some (Some p)) ->
  PriQueue.size (jobs s) < INT_MAX -> t_remaining j <> 0 ->
  exists s' m1 m2,
    requeue_or_end (Z.of_nat c) (Some p) s = Ok s' /\
    inv_but (Some c) s' /\
    PriQueue.head (jobs s) = m1 ++ m2 /\
    s' = with_jobs {| PriQueue.size := PriQueue.size (jobs s) + 1;
                      PriQueue.head := m1 ++ p :: m2 |}
           (with_heap (<[p := Some (set_t_updated (c_time s) (set_j_core (-1) j))]> (heap s))
              s) /\
    (forall e, e ∈ m1 -> exists z, comparer s' p e = Ok z /\ 0 <= z) /\
    (m2 = [] \/ exists e m2' z, m2 = e :: m2' /\ comparer s' p e = Ok z /\ z < 0).
Proof.
  intros Hinv Hj Hnq Hw Hnc Hsz Hrem.
  destruct (requeue_spec c p j s Hinv Hj Hnq Hw Hnc Hsz Hrem) as (s' & Hrun & Hinv' & _).
  pose proof Hinv as (_ & (Hwf & _ & Hq) & _).
  assert (p < length (heap s))%nat as Hlt by (by eapply lookup_lt_Some).
  set (j' := set_t_updated (c_time s) (set_j_core (-1) j)).
  set (s1 := with_heap (<[p := Some j']> (heap s)) s).
  destruct (offer_job_run s1 p j') as (r & m1 & m2 & Hl & Hoff & H1 & H2).
  { exact Hwf. }
  { exact Hsz. }
  { intros e He. unfold job_at, s1. simpl.
    apply (queue_live_update s p j'); [|done|exact He].
    intros e' He'. destruct (Hq e' He') as (je & ? & _). eauto. }
  { unfold job_at, s1. simpl. by rewrite list_lookup_insert_eq. }
  pose proof Hrun as Hrun'. unfold requeue_or_end in Hrun'. cbn [deref] in Hrun'.
  rewrite (load_job _ _ _ Hj) in Hrun'. cbn [bind] in Hrun'.
  replace (t_remaining j =? 0) with false in Hrun' by (symmetry; by apply Z.eqb_neq).
  cbn [negb] in Hrun'. rewrite (update_job _ _ _ _ Hj) in Hrun'. cbn [bind] in Hrun'.
  change (with_heap _ s) with s1 in Hrun'.
  rewrite Hoff in Hrun'. cbn [bind] in Hrun'. injection Hrun' as <-.
  eexists _, m1, m2. split; [exact Hrun|]. split; [exact Hinv'|].
  split; [exact Hl|]. split; [reflexivity|]. split; [exact H1|exact H2].
Qed.

(** What [scheduler_quantum_expired] does with the job [p] of the slot:
    if it has no time left it ends as in [scheduler_job_finished] (the
    state [sF]); otherwise it loses the slot and is linked into the
    queue again where the comparer puts it (the state [sQ]).  Then the
    first job of the queue that is on no core gets the slot. *)
Lemma quantum_expired_full core_id time s :
  inv s -> admissible s (QuantumExpired core_id time) = true ->
  exists (c : nat) p jp w l1 l2 h1,
    core_id = Z.of_nat c /\ c_job s !! c = Some (Some p) /\ job_at s p jp /\
    t_waiting jp = Some w /\ j_core jp = Z.of_nat c /\
    PriQueue.head (jobs s) = l1 ++ p :: l2 /\
    ticked_heap s time h1 /\
    (t_remaining (tick_job time jp) = 0 ->
     exists sF,
       sF = mksched {| PriQueue.size := PriQueue.size (jobs s) - 1;
                       PriQueue.head := l1 ++ l2 |}
              (<[c := None]> (c_job s)) (n_cores s) (t_scheme s) time (n_jobs s)
              (fadd (t_response s)
                 (fsub (float_of_int (t_started jp)) (float_of_int (t_arrival jp))))
              (fadd (t_wait s) (float_of_int w))
              (fadd (t_turnaround s)
                 (fsub (float_of_int time) (float_of_int (t_arrival jp))))
              (<[p := None]> h1) /\
       inv sF /\
       scheduler_quantum_expired core_id time s =
         match first_idle (heap s) (PriQueue.head (jobs s)) with
         | Some p2 => dispatch (Z.of_nat c) p2 sF
         | None => Ok (-1, sF)
         end) /\
    (t_remaining (tick_job time jp) <> 0 ->
     exists m1 m2 sQ,
       l1 ++ l2 = m1 ++ m2 /\
       sQ = mksched {| PriQueue.size := PriQueue.size (jobs s);
                       PriQueue.head := m1 ++ p :: m2 |}
              (c_job s) (n_cores s) (t_scheme s) time (n_jobs s)
              (t_response s) (t_wait s) (t_turnaround s)
              (<[p := Some (set_t_updated time (set_j_core (-1) (tick_job time jp)))]> h1) /\
       inv_but (Some c) sQ /\
       (forall e, e ∈ m1 -> exists z, comparer sQ p e = Ok z /\ 0 <= z) /\
       (m2 = [] \/ exists e m2' z, m2 = e :: m2' /\ comparer sQ p e = Ok z /\ z < 0) /\
       exists p2,
         first_idle (heap sQ) (m1 ++ p :: m2) = Some p2 /\
         scheduler_quantum_expired core_id time s = dispatch (Z.of_nat c) p2 sQ).
Proof.
  intros Hinv Hadm.
  apply admissible_quantum_expired in Hadm as (Htime & c & p & jp & -> & Hcp & Hjp0 & Hfirst).
  pose proof Hinv as ((Ht & Hbd) & (Hwf0 & Hnd0 & Hq0) & _ & Hc0).
  destruct (tick_full s time Hinv Htime) as (h1 & Hrun & Hinv1 & Htk).
  pose proof Htk as (Hlen & Hrel & Hon & Hoff).
  destruct (Hc0 c p) as (Hpq & jp' & Hjp0' & Hcore0 & Hst0 & [w Hw0]); [done|done|].
  assert (jp' = jp) as -> by (unfold job_at in *; congruence).
  set (s0 := with_c_time time s) in *.
  set (s1 := with_heap h1 s0) in *.
  pose proof Hinv1 as (_ & (Hwf & Hnd & Hq) & Hn & Hc).
  assert (c < length (c_job s))%nat as Hclt by (by eapply lookup_lt_Some).
  destruct (Hon c p jp Hcp Hjp0) as [Hj1 _].
  set (j1 := tick_job time jp) in *.
  destruct (tick_job_rel time jp) as (Hid1 & _ & Ear & _ & _ & Ew & _ & Est).
  fold j1 in Hid1, Ear, Ew, Est. specialize (Est Hst0).
  rewrite <- (heap_rel_first_with_id _ _ _ _ Hrel), <- Hid1 in Hfirst.
  destruct (active_scan_spec c s1 p j1 p [] (PriQueue.head (jobs s1)))
    as (l1 & l2 & Hhead & Hscan); [done|done|done|done|done|].
  assert (wrap (PriQueue.size (jobs s1) - 1) = PriQueue.size (jobs s1) - 1) as Hwr.
  { apply wrap_in_int. pose proof (f_equal length Hhead) as Hl.
    rewrite length_app in Hl. simpl in Hl. unfold PriQueue.wf in Hwf.
    change (jobs s1) with (jobs s) in *.
    unfold in_int, INT_MIN, INT_MAX in *. lia. }
  rewrite Hwr in Hscan. cbn [app] in Hscan.
  assert (scheduler_quantum_expired (Z.of_nat c) time s =
          let! s2 := requeue_or_end (Z.of_nat c) (Some p)
                       (with_jobs {| PriQueue.size := PriQueue.size (jobs s1) - 1;
                                     PriQueue.head := l1 ++ l2 |} s1) in
          assign_scan (Z.to_nat (PriQueue.priqueue_size (jobs s2))) 0 (Z.of_nat c) s2)
    as Hqe.
  { unfold scheduler_quantum_expired. cbv zeta. fold s0. rewrite Hrun. cbn [bind].
    fold s1. unfold PriQueue.priqueue_size at 1.
    replace (Z.to_nat (PriQueue.size (jobs s1))) with (length (PriQueue.head (jobs s1)))
      by (unfold PriQueue.wf in Hwf; lia).
    change 0 with (Z.of_nat (length (@nil nat))) at 1. by rewrite Hscan. }
  destruct (inv_but_unlink (Some c) s1 p (l1 ++ l2)) as [HinvR Hpnq].
  { by apply inv_open. }
  { by exists l1, l2. }
  { intros k Hk Hkp. apply Hk. f_equal. by apply (inv_slots_distinct s1 Hinv1 k c p). }
  clear Hscan.
  set (sR := with_jobs _ s1) in *.
  assert (forall k, k <> c -> c_job sR !! k <> Some (Some p)) as Hnc.
  { intros k Hk Hkp. apply Hk. by apply (inv_slots_distinct s1 Hinv1 k c p). }
  change (PriQueue.head (jobs s1)) with (PriQueue.head (jobs s)) in Hhead.
  assert (forall x, x ∈ l1 ++ l2 -> queued s x) as Hsub.
  { intros x Hx. unfold queued. rewrite Hhead.
    apply elem_of_app in Hx as [?|?]; apply elem_of_app; [by left|right; by right]. }
  assert (first_idle (heap s) (l1 ++ l2) = first_idle (heap s) (PriQueue.head (jobs s)))
    as Hskip.
  { rewrite Hhead. symmetry. apply (first_idle_skip (heap s) l1 p l2 jp); [done|lia|].
    intros x Hx. destruct (Hq0 x) as (jx & ? & _); [|eauto].
    apply Hsub. apply elem_of_app. by left. }
  exists c, p, jp, w, l1, l2, h1. split_and!; try done.
  - (* the job has ended *)
    intros Hrem. fold j1 in Hrem. rewrite Hqe. fold sR.
    rewrite (retire_run_expired c p j1 w sR); [|done|done|by rewrite Ew|done].
    rewrite Est, Ear. cbn [bind].
    set (sF := mksched _ _ _ _ _ _ _ _ _ _).
    assert (inv sF) as HinvF.
    { destruct (retire_spec c p j1 sR) as (s5 & _ & Hqe5 & Hinv5 & _);
        [done|done|done|by rewrite Ew|exact Hpnq|done|].
      assert (requeue_or_end (Z.of_nat c) (Some p) sR = Ok s5) as E.
      { unfold requeue_or_end. cbn [deref].
        rewrite (load_job (heap sR) p j1) by exact Hj1. cbn [bind].
        rewrite Hrem. cbn [Z.eqb negb]. rewrite <- Hqe5.
        rewrite !(update_job sR p j1) by exact Hj1. reflexivity. }
      rewrite (retire_run_expired c p j1 w sR) in E; [|done|done|by rewrite Ew|done].
      rewrite Est, Ear in E. by injection E as <-. }
    exists sF. split; [done|]. split; [exact HinvF|].
    pose proof HinvF as (_ & (Hwf5 & _ & Hq5) & _).
    rewrite assign_scan_all; [|done|].
    2:{ intros x Hx. destruct (Hq5 x Hx) as (jx & Hjx & _). eauto. }
    change (PriQueue.head (jobs sF)) with (l1 ++ l2).
    replace (first_idle (heap sF) (l1 ++ l2))
      with (first_idle (heap s) (PriQueue.head (jobs s))); [done|].
    rewrite <- Hskip.
    rewrite <- (first_idle_ticked s time h1 (l1 ++ l2) Hinv Htk Hsub).
    symmetry. apply first_idle_ext. intros x Hx.
    destruct (Hq x) as (jx & Hjx & _).
    { change (x ∈ PriQueue.head (jobs s)). by apply Hsub. }
    exists jx, jx. split; [done|]. split; [|done].
    unfold sF. simpl. rewrite list_lookup_insert_ne; [done|]. intros ->. by apply Hpnq.
  - (* the job goes back into the queue *)
    intros Hrem. fold j1 in Hrem.
    destruct (requeue_full c p j1 sR) as (s3 & m1 & m2 & Hreq & Hinv3 & Hm & Hs3 & H1 & H2);
      [done|done|exact Hpnq|by rewrite Ew|done| |done|].
    { simpl. lia. }
    rewrite Hqe. fold sR. rewrite Hreq. cbn [bind].
    assert (s3 =
      mksched {| PriQueue.size := PriQueue.size (jobs s);
                 PriQueue.head := m1 ++ p :: m2 |}
        (c_job s) (n_cores s) (t_scheme s) time (n_jobs s)
        (t_response s) (t_wait s) (t_turnaround s)
        (<[p := Some (set_t_updated time (set_j_core (-1) j1))]> h1)) as Hs3'.
    { rewrite Hs3. unfold with_jobs, with_heap. simpl.
      by replace (PriQueue.size (jobs s) - 1 + 1) with (PriQueue.size (jobs s)) by lia. }
    clear Hs3. subst s3.
    set (sQ := mksched _ _ _ _ _ _ _ _ _ _) in *.
    exists m1, m2, sQ. split; [exact Hm|]. split; [done|]. split; [exact Hinv3|].
    split; [exact H1|]. split; [exact H2|].
    pose proof Hinv3 as (_ & (Hwf3 & _ & Hqs3) & _).
    assert (forall x, x ∈ PriQueue.head (jobs sQ) ->
              exists jx, heap sQ !! x = Some (Some jx)) as Hlive3.
    { intros x Hx. destruct (Hqs3 x Hx) as (jx & Hjx & _). eauto. }
    rewrite assign_scan_all; [|done|done].
    change (PriQueue.head (jobs sQ)) with (m1 ++ p :: m2) in *.
    destruct (first_idle (heap sQ) (m1 ++ p :: m2)) as [p2|] eqn:Hfi.
    + exists p2. done.
    + exfalso.
      apply (first_idle_None (heap sQ) (m1 ++ p :: m2) p
               (set_t_updated time (set_j_core (-1) j1))); try done.
      * apply elem_of_app. right. by left.
      * unfold sQ. simpl. rewrite list_lookup_insert_eq; [done|].
        by eapply lookup_lt_Some.
Qed.

(** *** The result of scheduler_job_finished *)

(** A job on no core is in no slot, so the clock advance leaves it as
    it is. *)
Lemma idle_unticked s time h1 p2 j2 :
  inv s -> ticked_heap s time h1 -> job_at s p2 j2 -> j_core j2 = -1 ->
  (forall k, c_job s !! k <> Some (Some p2)) /\ h1 !! p2 = Some (Some j2).
Proof.
  intros (_ & _ & _ & Hc) (_ & _ & _ & Hoff) Hj Hcore.
  assert (forall k, c_job s !! k <> Some (Some p2)) as Hno.
  { intros k Hk. destruct (Hc k p2) as (_ & j & Hj' & Hjc & _); [done|done|].
    unfold job_at in *. assert (j = j2) as -> by congruence. lia. }
  split; [done|]. by rewrite (Hoff p2 Hno).
Qed.

Lemma job_finished_result core_id job_number time s :
  inv s -> admissible s (JobFinished core_id job_number time) = true ->
  exists (c : nat) p jp w l1 l2 h1 r s',
    core_id = Z.of_nat c /\ c_job s !! c = Some (Some p) /\ job_at s p jp /\
    job_id jp = job_number /\ t_waiting jp = Some w /\
    PriQueue.head (jobs s) = l1 ++ p :: l2 /\
    ticked_heap s time h1 /\
    scheduler_job_finished core_id job_number time s = Ok (r, s') /\
    inv s' /\
    jobs s' = {| PriQueue.size := PriQueue.size (jobs s) - 1;
                 PriQueue.head := l1 ++ l2 |} /\
    (t_response s' =
       fadd (t_response s)
         (fsub (float_of_int (t_started jp)) (float_of_int (t_arrival jp))) /\
     t_wait s' = fadd (t_wait s) (float_of_int w) /\
     t_turnaround s' =
       fadd (t_turnaround s) (fsub (float_of_int time) (float_of_int (t_arrival jp)))) /\
    (n_cores s' = n_cores s /\ t_scheme s' = t_scheme s /\ c_time s' = time /\
     n_jobs s' = n_jobs s) /\
    match first_idle (heap s) (PriQueue.head (jobs s)) with
    | None =>
        r = -1 /\ c_job s' = <[c := None]> (c_job s) /\ heap s' = <[p := None]> h1
    | Some p2 =>
        exists j2 j2',
          job_at s p2 j2 /\ j_core j2 = -1 /\ p2 <> p /\
          dispatch_job time core_id j2 = Ok j2' /\
          r = job_id j2 /\ c_job s' = <[c := Some p2]> (c_job s) /\
          heap s' = <[p2 := Some j2']> (<[p := None]> h1)
    end.
Proof.
  intros Hinv Hadm.
  pose proof Hadm as (Htime & _)%admissible_job_finished.
  pose proof Hinv as ((Ht & _) & _).
  destruct (job_finished_full core_id job_number time s Hinv Hadm)
    as (c & p & jp & w & l1 & l2 & h1 & sF & -> & Hcp & Hjp & Hid & Hw & Hcore & Hhead &
        Htk & HsF & HinvF & Hfi & Hrun).
  assert (c < length (c_job s))%nat as Hclt by (by eapply lookup_lt_Some).
  exists c, p, jp, w, l1, l2, h1.
  destruct (first_idle (heap s) (PriQueue.head (jobs s))) as [p2|] eqn:Hfirst.
  - destruct (first_idle_Some _ _ _ Hfirst) as (Hq2 & j2 & Hj2 & Hc2).
    destruct (idle_unticked s time h1 p2 j2 Hinv Htk Hj2 Hc2) as [Hno2 Hh2].
    assert (p2 <> p) as Hne by (intros ->; by apply (Hno2 c)).
    destruct (first_idle_Some _ _ _ Hfi) as (Hq2F & _).
    assert (job_at sF p2 j2) as Hj2F.
    { unfold job_at. rewrite HsF. simpl. by rewrite list_lookup_insert_ne. }
    destruct (dispatch_full c p2 j2 sF)
      as (j2' & s' & Hdj & Hd & Hinv' & Hcj & Hheap & Hjobs & Hnc & Hsc & Hct & Hnj &
          Hwt & Hrs & Htt).
    { by apply inv_open. }
    { rewrite HsF. simpl. by rewrite length_insert. }
    { unfold queued. by rewrite HsF. }
    { done. }
    { done. }
    { rewrite HsF. simpl. lia. }
    exists (job_id j2), s'. rewrite Hrun, Hd.
    rewrite Hjobs, Hnc, Hsc, Hct, Hnj, Hwt, Hrs, Htt, Hcj, Hheap. rewrite HsF. simpl.
    split_and!; try done.
    exists j2, j2'. rewrite HsF in Hdj. simpl in Hdj.
    split_and!; try done. by rewrite list_insert_insert_eq.
  - exists (-1), sF. rewrite Hrun. rewrite HsF. simpl.
    split_and!; try done. by rewrite <- HsF.
Qed.

(** *** The result of scheduler_quantum_expired *)

Lemma quantum_expired_result core_id time s :
  inv s -> admissible s (QuantumExpired core_id time) = true ->
  exists (c : nat) p jp w l1 l2 h1 r s',
    core_id = Z.of_nat c /\ c_job s !! c = Some (Some p) /\ job_at s p jp /\
    t_waiting jp = Some w /\
    PriQueue.head (jobs s) = l1 ++ p :: l2 /\
    ticked_heap s time h1 /\
    scheduler_quantum_expired core_id time s = Ok (r, s') /\
    inv s' /\
    (n_cores s' = n_cores s /\ t_scheme s' = t_scheme s /\ c_time s' = time /\
     n_jobs s' = n_jobs s) /\
    (t_remaining (tick_job time jp) = 0 ->
     jobs s' = {| PriQueue.size := PriQueue.size (jobs s) - 1;
                  PriQueue.head := l1 ++ l2 |} /\
     (t_response s' =
        fadd (t_response s)
          (fsub (float_of_int (t_started jp)) (float_of_int (t_arrival jp))) /\
      t_wait s' = fadd (t_wait s) (float_of_int w) /\
      t_turnaround s' =
        fadd (t_turnaround s) (fsub (float_of_int time) (float_of_int (t_arrival jp)))) /\
     match first_idle (heap s) (PriQueue.head (jobs s)) with
     | None =>
         r = -1 /\ c_job s' = <[c := None]> (c_job s) /\ heap s' = <[p := None]> h1
     | Some p2 =>
         exists j2 j2',
           job_at s p2 j2 /\ j_core j2 = -1 /\ p2 <> p /\
           dispatch_job time core_id j2 = Ok j2' /\
           r = job_id j2 /\ c_job s' = <[c := Some p2]> (c_job s) /\
           heap s' = <[p2 := Some j2']> (<[p := None]> h1)
     end) /\
    (t_remaining (tick_job time jp) <> 0 ->
     (t_response s' = t_response s /\ t_wait s' = t_wait s /\
      t_turnaround s' = t_turnaround s) /\
     exists m1 m2,
       l1 ++ l2 = m1 ++ m2 /\
       jobs s' = {| PriQueue.size := PriQueue.size (jobs s);
                    PriQueue.head := m1 ++ p :: m2 |} /\
       (forall e, e ∈ m1 ->
          exists z,
            comparer
              (with_heap
                 (<[p := Some (set_t_updated time (set_j_core (-1) (tick_job time jp)))]> h1)
                 s) p e = Ok z /\ 0 <= z) /\
       (m2 = [] \/
        exists e m2' z,
          m2 = e :: m2' /\
          comparer
            (with_heap
               (<[p := Some (set_t_updated time (set_j_core (-1) (tick_job time jp)))]> h1)
               s) p e = Ok z /\ z < 0) /\
       match first_idle (heap s) m1 with
       | Some p2 =>
           exists j2 j2',
             job_at s p2 j2 /\ j_core j2 = -1 /\ p2 <> p /\
             dispatch_job time core_id j2 = Ok j2' /\
             r = job_id j2 /\ c_job s' = <[c := Some p2]> (c_job s) /\
             heap s' =
               <[p2 := Some j2']>
                 (<[p := Some (set_t_updated time (set_j_core (-1) (tick_job time jp)))]> h1)
       | None =>
           exists jp',
             dispatch_job time core_id
               (set_t_updated time (set_j_core (-1) (tick_job time jp))) = Ok jp' /\
             r = job_id jp /\ c_job s' = c_job s /\
             heap s' = <[p := Some jp']> h1
       end).
Proof.
  intros Hinv Hadm.
  pose proof Hadm as (Htime & _)%admissible_quantum_expired.
  pose proof Hinv as ((Ht & _) & (_ & Hnd0 & Hq0) & _ & Hc0).
  destruct (quantum_expired_full core_id time s Hinv Hadm)
    as (c & p & jp & w & l1 & l2 & h1 & -> & Hcp & Hjp & Hw & Hcore & Hhead & Htk &
        Hend & Hgo).
  assert (c < length (c_job s))%nat as Hclt by (by eapply lookup_lt_Some).
  assert (p < length h1)%nat as Hplt.
  { destruct Htk as (-> & _). by eapply lookup_lt_Some. }
  exists c, p, jp, w, l1, l2, h1.
  destruct (Z.eq_dec (t_remaining (tick_job time jp)) 0) as [Hrem|Hrem].
  - (* the job has ended *)
    destruct (Hend Hrem) as (sF & HsF & HinvF & Hrun).
    assert (first_idle (heap sF) (l1 ++ l2) =
            first_idle (heap s) (PriQueue.head (jobs s))) as Hfi.
    { rewrite Hhead.
      rewrite (first_idle_skip (heap s) l1 p l2 jp); [|done|lia|].
      2:{ intros x Hx. destruct (Hq0 x) as (jx & ? & _); [|eauto].
          unfold queued. rewrite Hhead. apply elem_of_app. by left. }
      assert (forall x, x ∈ l1 ++ l2 -> queued s x) as Hsub.
      { intros x Hx. unfold queued. rewrite Hhead.
        apply elem_of_app in Hx as [?|?]; apply elem_of_app; [by left|right; by right]. }
      rewrite <- (first_idle_ticked s time h1 (l1 ++ l2) Hinv Htk Hsub).
      apply first_idle_ext. intros x Hx.
      destruct (Hq0 x (Hsub x Hx)) as (jx & Hjx & _).
      destruct Htk as (_ & Hrel & _). specialize (Hrel x).
      unfold job_at in Hjx. rewrite Hjx in Hrel. destruct Hrel as (jx' & Hjx' & _).
      exists jx', jx'. split; [done|]. split; [|done].
      rewrite HsF. simpl. rewrite list_lookup_insert_ne; [done|]. intros Heq. subst x.
      rewrite Hhead in Hnd0. apply NoDup_app in Hnd0 as (_ & Hd & Hn2).
      apply NoDup_cons in Hn2 as [Hn2 _].
      apply elem_of_app in Hx as [Hx|Hx]; [|done]. apply (Hd p Hx). by left. }
    destruct (first_idle (heap s) (PriQueue.head (jobs s))) as [p2|] eqn:Hfirst.
    + destruct (first_idle_Some _ _ _ Hfirst) as (Hq2 & j2 & Hj2 & Hc2).
      destruct (idle_unticked s time h1 p2 j2 Hinv Htk Hj2 Hc2) as [Hno2 Hh2].
      assert (p2 <> p) as Hne by (intros ->; by apply (Hno2 c)).
      destruct (first_idle_Some _ _ _ Hfi) as (Hq2F & _).
      assert (job_at sF p2 j2) as Hj2F.
      { unfold job_at. rewrite HsF. simpl. by rewrite list_lookup_insert_ne. }
      destruct (dispatch_full c p2 j2 sF)
        as (j2' & s' & Hdj & Hd & Hinv' & Hcj & Hheap & Hjobs & Hnc & Hsc & Hct & Hnj &
            Hwt & Hrs & Htt).
      { by apply inv_open. }
      { rewrite HsF. simpl. by rewrite length_insert. }
      { unfold queued. by rewrite HsF. }
      { done. }
      { done. }
      { rewrite HsF. simpl. lia. }
      exists (job_id j2), s'. rewrite Hrun, Hd.
      rewrite Hjobs, Hnc, Hsc, Hct, Hnj, Hwt, Hrs, Htt, Hcj, Hheap. rewrite HsF. simpl.
      split_and!; try done.
      intros _. split_and!; try done.
      exists j2, j2'. rewrite HsF in Hdj. simpl in Hdj.
      split_and!; try done. by rewrite list_insert_insert_eq.
    + exists (-1), sF. rewrite Hrun. rewrite HsF. simpl.
      split_and!; try done. by rewrite <- HsF.
  - (* the job is linked into the queue again *)
    destruct (Hgo Hrem) as (m1 & m2 & sQ & Hm & HsQ & HinvQ & H1 & H2 & p2 & Hfi & Hrun).
    set (jq := set_t_updated time (set_j_core (-1) (tick_job time jp))) in *.
    assert (forall e, comparer (with_heap (<[p := Some jq]> h1) s) p e = comparer sQ p e)
      as Hcmp by (intros e; by rewrite HsQ).
    setoid_rewrite <- Hcmp in H1. setoid_rewrite <- Hcmp in H2. clear Hcmp.
    assert (forall x, x ∈ m1 -> x <> p /\ queued s x) as Hm1.
    { intros x Hx.
      assert (x ∈ l1 ++ l2) as Hx' by (rewrite Hm; apply elem_of_app; by left).
      split.
      - intros ->. rewrite Hhead in Hnd0. apply NoDup_app in Hnd0 as (_ & Hd & Hn2).
        apply NoDup_cons in Hn2 as [Hn2 _].
        apply elem_of_app in Hx' as [Hx'|Hx']; [|done]. apply (Hd p Hx'). by left.
      - unfold queued. rewrite Hhead.
        apply elem_of_app in Hx' as [?|?]; apply elem_of_app; [by left|right; by right]. }
    assert (first_idle (heap sQ) m1 = first_idle (heap s) m1) as Hfi1.
    { rewrite <- (first_idle_ticked s time h1 m1 Hinv Htk); [|intros x Hx; by apply Hm1].
      apply first_idle_ext. intros x Hx. destruct (Hm1 x Hx) as [Hxp Hxq].
      destruct (Hq0 x Hxq) as (jx & Hjx & _).
      destruct Htk as (_ & Hrel & _). specialize (Hrel x).
      unfold job_at in Hjx. rewrite Hjx in Hrel. destruct Hrel as (jx' & Hjx' & _).
      exists jx', jx'. split; [done|]. split; [|done].
      rewrite HsQ. simpl. by rewrite list_lookup_insert_ne. }
    assert (job_at sQ p jq) as HjqQ.
    { unfold job_at. rewrite HsQ. simpl. by rewrite list_lookup_insert_eq. }
    rewrite first_idle_app in Hfi.
    2:{ intros x Hx. destruct (Hm1 x Hx) as [Hxp Hxq].
        destruct (Hq0 x Hxq) as (jx & Hjx & _).
        destruct Htk as (_ & Hrel & _). specialize (Hrel x).
        unfold job_at in Hjx. rewrite Hjx in Hrel. destruct Hrel as (jx' & Hjx' & _).
        exists jx'. rewrite HsQ. simpl. by rewrite list_lookup_insert_ne. }
    rewrite Hfi1 in Hfi.
    destruct (first_idle (heap s) m1) as [p2'|] eqn:Hfirst.
    + injection Hfi as ->.
      destruct (first_idle_Some _ _ _ Hfirst) as (Hq2 & j2 & Hj2 & Hc2).
      destruct (idle_unticked s time h1 p2 j2 Hinv Htk Hj2 Hc2) as [Hno2 Hh2].
      destruct (Hm1 p2 Hq2) as [Hne _].
      assert (job_at sQ p2 j2) as Hj2Q.
      { unfold job_at. rewrite HsQ. simpl. by rewrite list_lookup_insert_ne. }
      destruct (dispatch_full c p2 j2 sQ)
        as (j2' & s' & Hdj & Hd & Hinv' & Hcj & Hheap & Hjobs & Hnc & Hsc & Hct & Hnj &
            Hwt & Hrs & Htt).
      { done. }
      { by rewrite HsQ. }
      { unfold queued. rewrite HsQ. simpl. apply elem_of_app. by left. }
      { done. }
      { done. }
      { rewrite HsQ. simpl. lia. }
      exists (job_id j2), s'. rewrite Hrun, Hd.
      rewrite Hjobs, Hnc, Hsc, Hct, Hnj, Hwt, Hrs, Htt, Hcj, Hheap.
      rewrite HsQ. simpl.
      split_and!; try done.
      intros _. split; [done|]. exists m1, m2. rewrite Hfirst. split_and!; try done.
      exists j2, j2'. rewrite HsQ in Hdj. simpl in Hdj. done.
    + cbn [first_idle] in Hfi. rewrite HjqQ in Hfi.
      change (j_core jq) with (-1) in Hfi. simpl in Hfi. injection Hfi as <-.
      destruct (dispatch_full c p jq sQ)
        as (jp' & s' & Hdj & Hd & Hinv' & Hcj & Hheap & Hjobs & Hnc & Hsc & Hct & Hnj &
            Hwt & Hrs & Htt).
      { done. }
      { by rewrite HsQ. }
      { unfold queued. rewrite HsQ. simpl. apply elem_of_app. right. by left. }
      { done. }
      { done. }
      { rewrite HsQ. simpl. lia. }
      assert (job_id jq = job_id jp) as Hidq.
      { unfold jq. simpl. by destruct (tick_job_rel time jp) as (-> & _). }
      exists (job_id jp), s'. rewrite Hrun, Hd, Hidq.
      rewrite Hjobs, Hnc, Hsc, Hct, Hnj, Hwt, Hrs, Htt, Hcj, Hheap. rewrite HsQ. simpl.
      split_and!; try done.
      intros _. split; [done|]. exists m1, m2. rewrite Hfirst. split_and!; try done.
      exists jp'. rewrite HsQ in Hdj. simpl in Hdj. split_and!; try done.
      * by apply list_insert_id.
      * by rewrite list_insert_insert_eq.
Qed.

(** *** What a dispatch writes *)

Lemma dispatch_job_fields now core j j' :
  dispatch_job now core j = Ok j' ->
  j_core j' = core /\ job_id j' = job_id j /\ t_arrival j' = t_arrival j /\
  t_updated j' = now /\
  (t_started j = -1 ->
   t_started j' = now /\ t_waiting j' = Some (wrap (now - t_arrival j))) /\
  (t_started j <> -1 ->
   t_started j' = t_started j /\
   exists w, t_waiting j = Some w /\
             t_waiting j' = Some (wrap (w + wrap (now - t_updated j)))).
Proof.
  unfold dispatch_job. destruct (Z.eqb_spec (t_started j) (-1)) as [Hs|Hs].
  - intros [= <-]. simpl. split_and!; try done.
  - unfold read_waiting. destruct (t_waiting j) as [w|] eqn:Hw; [|done].
    cbn [bind]. intros [= <-]. simpl. split_and!; try done. eauto.
Qed.

(** *** Every allocated job is in the queue *)

Lemma ticked_live s time h1 p j' :
  ticked_heap s time h1 -> h1 !! p = Some (Some j') -> exists j, job_at s p j.
Proof.
  intros (_ & Hrel & _) Hp. specialize (Hrel p). unfold job_at.
  destruct (heap s !! p) as [[j|]|]; [eauto|congruence|congruence].
Qed.

Lemma elem_of_middle_ne {A} (x p : A) l1 l2 :
  x ∈ l1 ++ p :: l2 -> x <> p -> x ∈ l1 ++ l2.
Proof.
  intros [H|[->|H]%elem_of_cons]%elem_of_app Hne;
    [apply elem_of_app; by left|done|apply elem_of_app; by right].
Qed.

Lemma elem_of_middle {A} (x p : A) l1 l2 : x ∈ l1 ++ l2 -> x ∈ l1 ++ p :: l2.
Proof.
  intros [H|H]%elem_of_app; apply elem_of_app; [by left|right; by right].
Qed.

Lemma no_leak_new_job job_number time running_time prio s r s' :
  inv s -> no_leak s ->
  admissible s (NewJob job_number time running_time prio) = true ->
  scheduler_new_job job_number time running_time prio s = Ok (r, s') ->
  no_leak s'.
Proof.
  intros Hinv Hleak Hadm Hstep.
  pose proof Hadm as (Htime & _)%admissible_new_job.
  destruct (new_job_full job_number time running_time prio s Hinv Hadm)
    as (h1 & r0 & s0 & l1 & l2 & Htick & Hrun & _ & Hl & Hjobs & _ & _ & _ & Hcase).
  rewrite Hstep in Hrun. injection Hrun as <- <-.
  destruct (new_job_prefix job_number time running_time prio s Hinv Htime)
    as (h1' & Htick' & _ & Hlen & _ & _ & _ & _ & _ & Hlive & Hdead).
  assert (h1' = h1) as -> by (rewrite Htick in Htick'; by injection Htick').
  assert (forall p j', h1 !! p = Some (Some j') -> p <> length (heap s) -> queued s' p)
    as Hold.
  { intros p j' Hp Hne.
    assert (p < length (heap s))%nat as Hlt by (apply lookup_lt_Some in Hp; lia).
    destruct (lookup_lt_is_Some_2 (heap s) p Hlt) as [[j|] Hj].
    - unfold queued. rewrite Hjobs. simpl. apply elem_of_middle. rewrite <- Hl.
      by apply (Hleak p j).
    - rewrite (Hdead p Hj) in Hp. done. }
  assert (queued s' (length (heap s))) as Hnew.
  { unfold queued. rewrite Hjobs. simpl. apply elem_of_app. right. by left. }
  intros p j' Hp. unfold job_at in Hp.
  destruct (decide (p = length (heap s))) as [->|Hne]; [done|].
  destruct Hcase as [(i & _ & _ & _ & _ & Hheap)|[(_ & c & o & jo & _ & Hc & Hjo & _ & Hheap & _)|
                                                  (_ & _ & _ & Hheap & _)]];
    rewrite Hheap in Hp.
  - rewrite list_lookup_insert_ne in Hp by done. by apply (Hold p j').
  - destruct (decide (p = o)) as [->|Hno].
    + destruct (Hlive o jo Hjo) as (jo' & Hjo' & _). by apply (Hold o jo').
    + rewrite list_lookup_insert_ne in Hp by done.
      rewrite list_lookup_insert_ne in Hp by done. by apply (Hold p j').
  - by apply (Hold p j').
Qed.

Lemma no_leak_job_finished core_id job_number time s r s' :
  inv s -> no_leak s ->
  admissible s (JobFinished core_id job_number time) = true ->
  scheduler_job_finished core_id job_number time s = Ok (r, s') ->
  no_leak s'.
Proof.
  intros Hinv Hleak Hadm Hstep.
  destruct (job_finished_result core_id job_number time s Hinv Hadm)
    as (c & p & jp & w & l1 & l2 & h1 & r0 & s0 & -> & Hcp & Hjp & _ & _ & Hhead & Htk &
        Hrun & _ & Hjobs & _ & _ & Hnext).
  rewrite Hstep in Hrun. injection Hrun as <- <-.
  assert (p < length h1)%nat as Hlt.
  { destruct Htk as (-> & _). by eapply lookup_lt_Some. }
  assert (forall q j', h1 !! q = Some (Some j') -> q <> p -> queued s' q) as Hold.
  { intros q j' Hq Hne. destruct (ticked_live s time h1 q j' Htk Hq) as [j Hj].
    unfold queued. rewrite Hjobs. simpl. apply (elem_of_middle_ne q p); [|done].
    rewrite <- Hhead. by apply (Hleak q j). }
  intros q j' Hq. unfold job_at in Hq.
  destruct (first_idle (heap s) (PriQueue.head (jobs s))) as [p2|].
  - destruct Hnext as (j2 & j2' & Hj2 & _ & Hne & _ & _ & _ & Hheap). rewrite Hheap in Hq.
    destruct (decide (q = p2)) as [->|Hq2].
    + unfold queued. rewrite Hjobs. simpl. apply (elem_of_middle_ne p2 p); [|done].
      rewrite <- Hhead. by apply (Hleak p2 j2).
    + rewrite list_lookup_insert_ne in Hq by done.
      destruct (decide (q = p)) as [->|Hqp].
      * rewrite list_lookup_insert_eq in Hq by done. done.
      * rewrite list_lookup_insert_ne in Hq by done. by apply (Hold q j').
  - destruct Hnext as (_ & _ & Hheap). rewrite Hheap in Hq.
    destruct (decide (q = p)) as [->|Hqp].
    + rewrite list_lookup_insert_eq in Hq by done. done.
    + rewrite list_lookup_insert_ne in Hq by done. by apply (Hold q j').
Qed.

Lemma no_leak_quantum_expired core_id time s r s' :
  inv s -> no_leak s ->
  admissible s (QuantumExpired core_id time) = true ->
  scheduler_quantum_expired core_id time s = Ok (r, s') ->
  no_leak s'.
Proof.
  intros Hinv Hleak Hadm Hstep.
  destruct (quantum_expired_result core_id time s Hinv Hadm)
    as (c & p & jp & w & l1 & l2 & h1 & r0 & s0 & -> & Hcp & Hjp & _ & Hhead & Htk &
        Hrun & _ & _ & Hend & Hgo).
  rewrite Hstep in Hrun. injection Hrun as <- <-.
  assert (p < length h1)%nat as Hlt.
  { destruct Htk as (-> & _). by eapply lookup_lt_Some. }
  assert (forall q j', h1 !! q = Some (Some j') -> q <> p -> q ∈ l1 ++ l2) as Hold.
  { intros q j' Hq Hne. destruct (ticked_live s time h1 q j' Htk Hq) as [j Hj].
    apply (elem_of_middle_ne q p); [|done]. rewrite <- Hhead. by apply (Hleak q j). }
  intros q j' Hq. unfold job_at in Hq.
  destruct (Z.eq_dec (t_remaining (tick_job time jp)) 0) as [Hrem|Hrem].
  - destruct (Hend Hrem) as (Hjobs & _ & Hnext).
    unfold queued. rewrite Hjobs. simpl.
    destruct (first_idle (heap s) (PriQueue.head (jobs s))) as [p2|].
    + destruct Hnext as (j2 & j2' & Hj2 & _ & Hne & _ & _ & _ & Hheap). rewrite Hheap in Hq.
      destruct (decide (q = p2)) as [->|Hq2].
      * apply (elem_of_middle_ne p2 p); [|done]. rewrite <- Hhead. by apply (Hleak p2 j2).
      * rewrite list_lookup_insert_ne in Hq by done.
        destruct (decide (q = p)) as [->|Hqp].
        -- rewrite list_lookup_insert_eq in Hq by done. done.
        -- rewrite list_lookup_insert_ne in Hq by done. by apply (Hold q j').
    + destruct Hnext as (_ & _ & Hheap). rewrite Hheap in Hq.
      destruct (decide (q = p)) as [->|Hqp].
      * rewrite list_lookup_insert_eq in Hq by done. done.
      * rewrite list_lookup_insert_ne in Hq by done. by apply (Hold q j').
  - destruct (Hgo Hrem) as (_ & m1 & m2 & Hm & Hjobs & _ & _ & Hnext).
    unfold queued. rewrite Hjobs. simpl.
    destruct (decide (q = p)) as [->|Hqp]; [apply elem_of_app; right; by left|].
    apply elem_of_middle. rewrite <- Hm.
    destruct (first_idle (heap s) m1) as [p2|].
    + destruct Hnext as (j2 & j2' & Hj2 & _ & Hne & _ & _ & _ & Hheap). rewrite Hheap in Hq.
      destruct (decide (q = p2)) as [->|Hq2].
      * apply (elem_of_middle_ne p2 p); [|done]. rewrite <- Hhead. by apply (Hleak p2 j2).
      * rewrite list_lookup_insert_ne in Hq by done.
        rewrite list_lookup_insert_ne in Hq by done. by apply (Hold q j').
    + destruct Hnext as (jp' & _ & _ & _ & Hheap). rewrite Hheap in Hq.
      rewrite list_lookup_insert_ne in Hq by done. by apply (Hold q j').
Qed.

Lemma run_no_leak es s :
  inv s -> no_leak s -> conforming es s = true ->
  exists rs s', run es s = Ok (rs, s') /\ inv s' /\ no_leak s'.
Proof.
  revert s. induction es as [|e es IH]; intros s Hinv Hleak Hconf.
  - by exists [], s.
  - apply conforming_cons in Hconf as [Ha Hc].
    destruct (step_inv e s Hinv Ha) as (r & s1 & Hs & Hinv1 & _).
    assert (no_leak s1) as Hleak1.
    { destruct e as [id t rt prio|core id t|core t]; cbn [step] in Hs.
      - by apply (no_leak_new_job id t rt prio s r s1).
      - by apply (no_leak_job_finished core id t s r s1).
      - by apply (no_leak_quantum_expired core t s r s1). }
    destruct (IH s1 Hinv1 Hleak1 (Hc r s1 Hs)) as (rs & s' & Hr & Hinv' & Hleak').
    exists (r :: rs), s'. cbn [run]. rewrite Hs. cbn [bind]. rewrite Hr. done.
Qed.

(** *** No idle core while a job waits *)

Lemma first_idle_None_all h l :
  (forall x, x ∈ l -> exists jx, h !! x = Some (Some jx)) ->
  first_idle h l = None ->
  forall x j, x ∈ l -> h !! x = Some (Some j) -> j_core j <> -1.
Proof.
  intros Hlive Hnone x j Hx Hj Hc. by apply (first_idle_None h l x j).
Qed.

Lemma inv_queue_live s :
  inv s -> forall x, x ∈ PriQueue.head (jobs s) -> exists jx, heap s !! x = Some (Some jx).
Proof.
  intros (_ & (_ & _ & Hq) & _) x Hx. destruct (Hq x Hx) as (jx & ? & _). eauto.
Qed.

(** A queued job that is not the one [p] an event works on keeps its
    core through the clock advance. *)
Lemma ticked_core s time h1 q j' :
  inv s -> ticked_heap s time h1 -> queued s q -> h1 !! q = Some (Some j') ->
  exists j, job_at s q j /\ j_core j' = j_core j /\ same_identity j j'.
Proof.
  intros (_ & (_ & _ & Hq) & _) (_ & Hrel & _) Hqq Hj'.
  destruct (Hq q Hqq) as (j & Hj & _). exists j. split; [done|].
  specialize (Hrel q). unfold job_at in Hj. rewrite Hj in Hrel.
  destruct Hrel as (j2 & Hj2 & Hr). assert (j2 = j') as -> by congruence.
  destruct Hr as (? & ? & ? & ? & ? & _). by repeat split.
Qed.

Lemma work_conserving_new_job job_number time running_time prio s r s' :
  inv s -> work_conserving s ->
  admissible s (NewJob job_number time running_time prio) = true ->
  scheduler_new_job job_number time running_time prio s = Ok (r, s') ->
  work_conserving s'.
Proof.
  intros Hinv Hwc Hadm Hstep.
  pose proof Hadm as (Htime & _)%admissible_new_job.
  destruct (new_job_full job_number time running_time prio s Hinv Hadm)
    as (h1 & r0 & s0 & l1 & l2 & Htick & Hrun & _ & Hl & Hjobs & _ & _ & _ & Hcase).
  rewrite Hstep in Hrun. injection Hrun as <- <-.
  destruct (new_job_prefix job_number time running_time prio s Hinv Htime)
    as (h1' & Htick' & _ & Hlen & _ & Hnq & _ & _ & _ & Hlive & _).
  assert (h1' = h1) as -> by (rewrite Htick in Htick'; by injection Htick').
  pose proof Hinv as (_ & (_ & _ & Hq) & _).
  intros [k Hk].
  destruct Hcase as [(i & -> & Hi & _ & Hcj & Hheap)|[(Hbusy & c & o & jo & _ & _ & _ & Hcj & _)|
                                                       (Hbusy & _ & Hcj & _)]].
  - assert (k <> i) as Hki.
    { intros ->. rewrite Hcj in Hk.
      rewrite list_lookup_insert_eq in Hk by (by eapply lookup_lt_Some). done. }
    rewrite Hcj, list_lookup_insert_ne in Hk by done.
    intros p j' Hp Hj'. unfold queued in Hp. rewrite Hjobs in Hp. simpl in Hp.
    unfold job_at in Hj'. rewrite Hheap in Hj'.
    destruct (decide (p = length (heap s))) as [->|Hne].
    + rewrite list_lookup_insert_eq in Hj' by lia. injection Hj' as <-. simpl. lia.
    + rewrite list_lookup_insert_ne in Hj' by done.
      assert (queued s p) as Hqp.
      { unfold queued. rewrite Hl. by apply (elem_of_middle_ne p (length (heap s))). }
      destruct (Hq p Hqp) as (j & Hj & _).
      destruct (Hlive p j Hj) as (j2 & Hj2 & Hr).
      assert (j2 = j') as -> by congruence.
      destruct Hr as (_ & _ & _ & _ & -> & _). apply (Hwc (ex_intro _ k Hk) p j Hqp Hj).
  - exfalso. rewrite Hcj in Hk.
    destruct (decide (k = c)) as [->|Hkc].
    + rewrite list_lookup_insert_eq in Hk; [done|].
      apply lookup_lt_Some in Hk. by rewrite length_insert in Hk.
    + rewrite list_lookup_insert_ne in Hk by done.
      destruct (Hbusy k) as (q & jq & Hq' & _); [by eapply lookup_lt_Some|]. congruence.
  - exfalso. rewrite Hcj in Hk.
    destruct (Hbusy k) as (q & jq & Hq' & _); [by eapply lookup_lt_Some|]. congruence.
Qed.

Lemma work_conserving_after_end s time h1 p l1 l2 c s' :
  inv s -> work_conserving s -> ticked_heap s time h1 ->
  PriQueue.head (jobs s) = l1 ++ p :: l2 ->
  PriQueue.head (jobs s') = l1 ++ l2 ->
  match first_idle (heap s) (PriQueue.head (jobs s)) with
  | None => c_job s' = <[c := None]> (c_job s) /\ heap s' = <[p := None]> h1
  | Some p2 =>
      exists j2 j2',
        job_at s p2 j2 /\ j_core j2 = -1 /\ p2 <> p /\
        c_job s' = <[c := Some p2]> (c_job s) /\
        heap s' = <[p2 := Some j2']> (<[p := None]> h1)
  end ->
  work_conserving s'.
Proof.
  intros Hinv Hwc Htk Hhead Hhead' Hnext [k Hk] q j' Hq Hj'.
  unfold queued in Hq. rewrite Hhead' in Hq. unfold job_at in Hj'.
  assert (queued s q) as Hqs by (unfold queued; rewrite Hhead; by apply elem_of_middle).
  destruct (first_idle (heap s) (PriQueue.head (jobs s))) as [p2|] eqn:Hfirst.
  - destruct Hnext as (j2 & j2' & Hj2 & Hc2 & Hne & Hcj & Hheap).
    destruct (first_idle_Some _ _ _ Hfirst) as (Hq2 & _).
    exfalso. rewrite Hcj in Hk.
    destruct (decide (k = c)) as [->|Hkc].
    + rewrite list_lookup_insert_eq in Hk; [done|].
      apply lookup_lt_Some in Hk. by rewrite length_insert in Hk.
    + rewrite list_lookup_insert_ne in Hk by done.
      by apply (Hwc (ex_intro _ k Hk) p2 j2 Hq2 Hj2).
  - destruct Hnext as (Hcj & Hheap). rewrite Hheap in Hj'.
    destruct (decide (q = p)) as [->|Hqp].
    + rewrite list_lookup_insert_eq in Hj'; [done|].
      apply lookup_lt_Some in Hj'. by rewrite length_insert in Hj'.
    + rewrite list_lookup_insert_ne in Hj' by done.
      destruct (ticked_core s time h1 q j' Hinv Htk Hqs Hj') as (j & Hj & -> & _).
      apply (first_idle_None_all (heap s) (PriQueue.head (jobs s))
               (inv_queue_live s Hinv) Hfirst q j Hqs Hj).
Qed.

Lemma work_conserving_job_finished core_id job_number time s r s' :
  inv s -> work_conserving s ->
  admissible s (JobFinished core_id job_number time) = true ->
  scheduler_job_finished core_id job_number time s = Ok (r, s') ->
  work_conserving s'.
Proof.
  intros Hinv Hwc Hadm Hstep.
  destruct (job_finished_result core_id job_number time s Hinv Hadm)
    as (c & p & jp & w & l1 & l2 & h1 & r0 & s0 & -> & Hcp & Hjp & _ & _ & Hhead & Htk &
        Hrun & _ & Hjobs & _ & _ & Hnext).
  rewrite Hstep in Hrun. injection Hrun as <- <-.
  apply (work_conserving_after_end s time h1 p l1 l2 c s'); try done.
  - by rewrite Hjobs.
  - destruct (first_idle (heap s) (PriQueue.head (jobs s))) as [p2|].
    + destruct Hnext as (j2 & j2' & ? & ? & ? & _ & _ & ? & ?). by exists j2, j2'.
    + by destruct Hnext as (_ & ? & ?).
Qed.

Lemma work_conserving_quantum_expired core_id time s r s' :
  inv s -> work_conserving s ->
  admissible s (QuantumExpired core_id time) = true ->
  scheduler_quantum_expired core_id time s = Ok (r, s') ->
  work_conserving s'.
Proof.
  intros Hinv Hwc Hadm Hstep.
  destruct (quantum_expired_result core_id time s Hinv Hadm)
    as (c & p & jp & w & l1 & l2 & h1 & r0 & s0 & -> & Hcp & Hjp & _ & Hhead & Htk &
        Hrun & _ & _ & Hend & Hgo).
  rewrite Hstep in Hrun. injection Hrun as <- <-.
  destruct (Z.eq_dec (t_remaining (tick_job time jp)) 0) as [Hrem|Hrem].
  - destruct (Hend Hrem) as (Hjobs & _ & Hnext).
    apply (work_conserving_after_end s time h1 p l1 l2 c s'); try done.
    + by rewrite Hjobs.
    + destruct (first_idle (heap s) (PriQueue.head (jobs s))) as [p2|].
      * destruct Hnext as (j2 & j2' & ? & ? & ? & _ & _ & ? & ?). by exists j2, j2'.
      * by destruct Hnext as (_ & ? & ?).
  - destruct (Hgo Hrem) as (_ & m1 & m2 & Hm & Hjobs & _ & _ & Hnext).
    assert (p < length h1)%nat as Hlt.
    { destruct Htk as (-> & _). by eapply lookup_lt_Some. }
    intros [k Hk] q j' Hq Hj'.
    unfold queued in Hq. rewrite Hjobs in Hq. simpl in Hq. unfold job_at in Hj'.
    destruct (first_idle (heap s) m1) as [p2|] eqn:Hfirst.
    + destruct Hnext as (j2 & j2' & Hj2 & Hc2 & Hne & _ & _ & Hcj & _).
      destruct (first_idle_Some _ _ _ Hfirst) as (Hq2 & _).
      exfalso. rewrite Hcj in Hk.
      destruct (decide (k = c)) as [->|Hkc].
      * rewrite list_lookup_insert_eq in Hk; [done|].
        apply lookup_lt_Some in Hk. by rewrite length_insert in Hk.
      * rewrite list_lookup_insert_ne in Hk by done.
        apply (Hwc (ex_intro _ k Hk) p2 j2); [|done|done].
        unfold queued. rewrite Hhead. apply elem_of_middle. rewrite Hm.
        apply elem_of_app. by left.
    + destruct Hnext as (jp' & Hdj & _ & Hcj & Hheap). rewrite Hheap in Hj'.
      rewrite Hcj in Hk.
      destruct (decide (q = p)) as [->|Hqp].
      * rewrite list_lookup_insert_eq in Hj' by done. injection Hj' as <-.
        destruct (dispatch_job_fields _ _ _ _ Hdj) as (-> & _). lia.
      * rewrite list_lookup_insert_ne in Hj' by done.
        assert (queued s q) as Hqs.
        { unfold queued. rewrite Hhead. apply elem_of_middle. rewrite Hm.
          by apply (elem_of_middle_ne q p). }
        destruct (ticked_core s time h1 q j' Hinv Htk Hqs Hj') as (j & Hj & -> & _).
        by apply (Hwc (ex_intro _ k Hk) q j).
Qed.

Lemma run_work_conserving es s :
  inv s -> work_conserving s -> conforming es s = true ->
  exists rs s', run es s = Ok (rs, s') /\ inv s' /\ work_conserving s'.
Proof.
  revert s. induction es as [|e es IH]; intros s Hinv Hwc Hconf.
  - by exists [], s.
  - apply conforming_cons in Hconf as [Ha Hc].
    destruct (step_inv e s Hinv Ha) as (r & s1 & Hs & Hinv1 & _).
    assert (work_conserving s1) as Hwc1.
    { destruct e as [id t rt prio|core id t|core t]; cbn [step] in Hs.
      - by apply (work_conserving_new_job id t rt prio s r s1).
      - by apply (work_conserving_job_finished core id t s r s1).
      - by apply (work_conserving_quantum_expired core t s r s1). }
    destruct (IH s1 Hinv1 Hwc1 (Hc r s1 Hs)) as (rs & s' & Hr & Hinv' & Hwc').
    exists (r :: rs), s'. cbn [run]. rewrite Hs. cbn [bind]. rewrite Hr. done.
Qed.

(** *** What a call does to each job *)

Lemma ticked_step s time h1 q j :
  ticked_heap s time h1 -> job_at s q j ->
  exists j', h1 !! q = Some (Some j') /\ job_step time j j'.
Proof.
  intros (_ & _ & Hon & Hoff) Hj.
  destruct (decide (Some q ∈ c_job s)) as [Hq|Hq].
  - apply list_elem_of_lookup_1 in Hq as [k Hk].
    destruct (Hon k q j Hk Hj) as [Hj' Hst]. exists (tick_job time j).
    split; [done|]. by apply step_tick.
  - exists j. split; [|apply step_same]. rewrite Hoff; [done|].
    intros k Hk. apply Hq. by eapply list_elem_of_lookup_2.
Qed.

Lemma ticked_freed s time h1 q :
  ticked_heap s time h1 -> heap s !! q = Some None -> h1 !! q = Some None.
Proof. intros (_ & Hrel & _) Hq. specialize (Hrel q). by rewrite Hq in Hrel. Qed.

Lemma step_jobs_new_job job_number time running_time prio s r s' :
  inv s -> admissible s (NewJob job_number time running_time prio) = true ->
  scheduler_new_job job_number time running_time prio s = Ok (r, s') ->
  (forall q j, job_at s q j ->
     exists j', job_at s' q j' /\
       (job_step time j j' \/
        (preemptive (t_scheme s) = true /\ t_started j <> -1 /\
         j' = evict_job time (tick_job time j)))) /\
  (forall q, heap s !! q = Some None -> heap s' !! q = Some None) /\
  (job_at s' (length (heap s)) (fresh_job job_number time running_time prio) \/
   job_at s' (length (heap s))
     (start_job time r (fresh_job job_number time running_time prio))) /\
  (forall q, (length (heap s) < q)%nat -> heap s' !! q = None).
Proof.
  intros Hinv Hadm Hstep.
  pose proof Hadm as (Htime & _)%admissible_new_job.
  destruct (new_job_full job_number time running_time prio s Hinv Hadm)
    as (h1 & r0 & s0 & l1 & l2 & Htick & Hrun & _ & Hl & Hjobs & _ & _ & _ & Hcase).
  rewrite Hstep in Hrun. injection Hrun as <- <-.
  destruct (new_job_prefix job_number time running_time prio s Hinv Htime)
    as (h1' & Htick' & _ & Hlen & Hfresh & _ & Hnc & Hon & Hoff & Hlive & Hdead).
  assert (h1' = h1) as -> by (rewrite Htick in Htick'; by injection Htick').
  assert (forall q j, job_at s q j ->
            (q < length (heap s))%nat /\
            exists j', h1 !! q = Some (Some j') /\ job_step time j j') as Hold.
  { intros q j Hj.
    assert (q < length (heap s))%nat as Hlt by (by eapply lookup_lt_Some).
    split; [done|].
    destruct (decide (Some q ∈ c_job s)) as [Hq|Hq].
    - apply list_elem_of_lookup_1 in Hq as [k Hk].
      destruct (Hon k q j Hk Hj) as [Hj' Hst]. exists (tick_job time j).
      split; [done|]. by apply step_tick.
    - exists j. split; [|apply step_same]. rewrite Hoff; [done|done|].
      intros k Hk. apply Hq. by eapply list_elem_of_lookup_2. }
  assert (forall q, heap s !! q = Some None -> (q < length (heap s))%nat) as Hdlt.
  { intros q Hq. by eapply lookup_lt_Some. }
  destruct Hcase as [(i & -> & _ & _ & _ & Hheap)|[(_ & c & o & jo & -> & Hc & Hjo & _ & Hheap & Hsc)|
                                                   (_ & -> & _ & Hheap & _)]];
    unfold job_at; rewrite Hheap.
  - split_and!.
    + intros q j Hj. destruct (Hold q j Hj) as (Hlt & j' & Hj' & Hs).
      exists j'. rewrite list_lookup_insert_ne by lia. auto.
    + intros q Hq. specialize (Hdlt q Hq). rewrite list_lookup_insert_ne by lia. auto.
    + right. by rewrite list_lookup_insert_eq by lia.
    + intros q Hq. rewrite list_lookup_insert_ne by lia. apply lookup_ge_None. lia.
  - assert (o < length (heap s))%nat as Hlo by (by eapply lookup_lt_Some).
    destruct (Hon c o jo Hc Hjo) as [_ Hsto].
    split_and!.
    + intros q j Hj. destruct (Hold q j Hj) as (Hlt & j' & Hj' & Hs).
      destruct (decide (q = o)) as [->|Hqo].
      * rewrite list_lookup_insert_eq by (rewrite length_insert; lia).
        unfold job_at in *. assert (j = jo) as -> by congruence.
        eexists. split; [done|]. right. split_and!; [|done|done].
        by destruct (t_scheme s).
      * rewrite list_lookup_insert_ne by done. rewrite list_lookup_insert_ne by lia.
        eauto.
    + intros q Hq. specialize (Hdlt q Hq).
      rewrite list_lookup_insert_ne by (intros ->; unfold job_at in Hjo; congruence).
      rewrite list_lookup_insert_ne by lia. auto.
    + right. rewrite list_lookup_insert_ne by lia. by rewrite list_lookup_insert_eq by lia.
    + intros q Hq. rewrite list_lookup_insert_ne by lia.
      rewrite list_lookup_insert_ne by lia. apply lookup_ge_None. lia.
  - split_and!.
    + intros q j Hj. destruct (Hold q j Hj) as (Hlt & j' & Hj' & Hs). eauto.
    + intros q Hq. auto.
    + by left.
    + intros q Hq. apply lookup_ge_None. lia.
Qed.

Lemma step_jobs_after_end s time h1 p c s' :
  inv s -> ticked_heap s time h1 ->
  match first_idle (heap s) (PriQueue.head (jobs s)) with
  | None => heap s' = <[p := None]> h1
  | Some p2 =>
      exists j2 j2',
        job_at s p2 j2 /\ j_core j2 = -1 /\ p2 <> p /\
        dispatch_job time c j2 = Ok j2' /\
        heap s' = <[p2 := Some j2']> (<[p := None]> h1)
  end ->
  (forall q j, job_at s q j ->
     (q = p /\ heap s' !! q = Some None) \/
     exists j', job_at s' q j' /\ job_step time j j') /\
  (forall q, heap s !! q = Some None -> heap s' !! q = Some None) /\
  length (heap s') = length (heap s).
Proof.
  intros Hinv Htk Hnext.
  pose proof Htk as (Hlen & _).
  destruct (first_idle (heap s) (PriQueue.head (jobs s))) as [p2|].
  - destruct Hnext as (j2 & j2' & Hj2 & Hc2 & Hne & Hdj & Hheap).
    unfold job_at. rewrite Hheap. split_and!.
    + intros q j Hj. destruct (ticked_step s time h1 q j Htk Hj) as (j' & Hj' & Hs).
      assert (q < length h1)%nat as Hlt by (by eapply lookup_lt_Some).
      destruct (decide (q = p2)) as [->|Hq2].
      * right. rewrite list_lookup_insert_eq by (by rewrite length_insert).
        unfold job_at in *. assert (j = j2) as -> by congruence.
        exists j2'. split; [done|]. by apply (step_dispatch time j2 c j2').
      * rewrite list_lookup_insert_ne by done.
        destruct (decide (q = p)) as [->|Hqp].
        -- left. by rewrite list_lookup_insert_eq.
        -- right. rewrite list_lookup_insert_ne by done. eauto.
    + intros q Hq. pose proof (ticked_freed s time h1 q Htk Hq) as Hq1.
      rewrite list_lookup_insert_ne by (intros ->; unfold job_at in Hj2; congruence).
      destruct (decide (q = p)) as [->|Hqp].
      * rewrite list_lookup_insert_eq; [done|]. by eapply lookup_lt_Some.
      * by rewrite list_lookup_insert_ne.
    + by rewrite !length_insert.
  - unfold job_at. rewrite Hnext. split_and!.
    + intros q j Hj. destruct (ticked_step s time h1 q j Htk Hj) as (j' & Hj' & Hs).
      assert (q < length h1)%nat as Hlt by (by eapply lookup_lt_Some).
      destruct (decide (q = p)) as [->|Hqp].
      * left. by rewrite list_lookup_insert_eq.
      * right. rewrite list_lookup_insert_ne by done. eauto.
    + intros q Hq. pose proof (ticked_freed s time h1 q Htk Hq) as Hq1.
      destruct (decide (q = p)) as [->|Hqp].
      * rewrite list_lookup_insert_eq; [done|]. by eapply lookup_lt_Some.
      * by rewrite list_lookup_insert_ne.
    + by rewrite length_insert.
Qed.

Lemma step_jobs_job_finished core_id job_number time s r s' :
  inv s -> admissible s (JobFinished core_id job_number time) = true ->
  scheduler_job_finished core_id job_number time s = Ok (r, s') ->
  (forall q j, job_at s q j ->
     heap s' !! q = Some None \/ exists j', job_at s' q j' /\ job_step time j j') /\
  (forall q, heap s !! q = Some None -> heap s' !! q = Some None) /\
  length (heap s') = length (heap s).
Proof.
  intros Hinv Hadm Hstep.
  destruct (job_finished_result core_id job_number time s Hinv Hadm)
    as (c & p & jp & w & l1 & l2 & h1 & r0 & s0 & -> & Hcp & Hjp & _ & _ & Hhead & Htk &
        Hrun & _ & Hjobs & _ & _ & Hnext).
  rewrite Hstep in Hrun. injection Hrun as <- <-.
  destruct (step_jobs_after_end s time h1 p (Z.of_nat c) s' Hinv Htk) as (H1 & H2 & H3).
  { destruct (first_idle (heap s) (PriQueue.head (jobs s))) as [p2|].
    - destruct Hnext as (j2 & j2' & ? & ? & ? & ? & _ & _ & ?). by exists j2, j2'.
    - by destruct Hnext as (_ & _ & ?). }
  split_and!; try done.
  intros q j Hj. destruct (H1 q j Hj) as [[_ ?]|?]; [by left|by right].
Qed.

Lemma step_jobs_quantum_expired core_id time s r s' :
  inv s -> admissible s (QuantumExpired core_id time) = true ->
  scheduler_quantum_expired core_id time s = Ok (r, s') ->
  (forall q j, job_at s q j ->
     heap s' !! q = Some None \/ exists j', job_at s' q j' /\ job_step time j j') /\
  (forall q, heap s !! q = Some None -> heap s' !! q = Some None) /\
  length (heap s') = length (heap s).
Proof.
  intros Hinv Hadm Hstep.
  destruct (quantum_expired_result core_id time s Hinv Hadm)
    as (c & p & jp & w & l1 & l2 & h1 & r0 & s0 & -> & Hcp & Hjp & _ & Hhead & Htk &
        Hrun & _ & _ & Hend & Hgo).
  rewrite Hstep in Hrun. injection Hrun as <- <-.
  destruct (Z.eq_dec (t_remaining (tick_job time jp)) 0) as [Hrem|Hrem].
  - destruct (Hend Hrem) as (_ & _ & Hnext).
    destruct (step_jobs_after_end s time h1 p (Z.of_nat c) s' Hinv Htk) as (H1 & H2 & H3).
    { destruct (first_idle (heap s) (PriQueue.head (jobs s))) as [p2|].
      - destruct Hnext as (j2 & j2' & ? & ? & ? & ? & _ & _ & ?). by exists j2, j2'.
      - by destruct Hnext as (_ & _ & ?). }
    split_and!; try done.
    intros q j Hj. destruct (H1 q j Hj) as [[_ ?]|?]; [by left|by right].
  - destruct (Hgo Hrem) as (_ & m1 & m2 & _ & _ & _ & _ & Hnext).
    pose proof Htk as (Hlen & _ & Hon & _).
    destruct (Hon c p jp Hcp Hjp) as [Hjp1 Hst].
    assert (p < length h1)%nat as Hlt by (by eapply lookup_lt_Some).
    destruct (first_idle (heap s) m1) as [p2|].
    + destruct Hnext as (j2 & j2' & Hj2 & Hc2 & Hne & Hdj & _ & _ & Hheap).
      unfold job_at. rewrite Hheap. split_and!.
      * intros q j Hj. right.
        destruct (ticked_step s time h1 q j Htk Hj) as (j' & Hj' & Hs).
        assert (q < length h1)%nat as Hql by (by eapply lookup_lt_Some).
        destruct (decide (q = p2)) as [->|Hq2].
        -- rewrite list_lookup_insert_eq by (by rewrite length_insert).
           unfold job_at in *. assert (j = j2) as -> by congruence.
           exists j2'. split; [done|]. by apply (step_dispatch time j2 (Z.of_nat c) j2').
        -- rewrite list_lookup_insert_ne by done.
           destruct (decide (q = p)) as [->|Hqp].
           ++ rewrite list_lookup_insert_eq by done.
              unfold job_at in *. assert (j = jp) as -> by congruence.
              eexists. split; [done|]. by apply step_requeue.
           ++ rewrite list_lookup_insert_ne by done. eauto.
      * intros q Hq. pose proof (ticked_freed s time h1 q Htk Hq) as Hq1.
        rewrite list_lookup_insert_ne by (intros ->; unfold job_at in Hj2; congruence).
        rewrite list_lookup_insert_ne by (intros ->; unfold job_at in Hjp; congruence).
        done.
      * by rewrite !length_insert.
    + destruct Hnext as (jp' & Hdj & _ & _ & Hheap).
      unfold job_at. rewrite Hheap. split_and!.
      * intros q j Hj. right.
        destruct (ticked_step s time h1 q j Htk Hj) as (j' & Hj' & Hs).
        destruct (decide (q = p)) as [->|Hqp].
        -- rewrite list_lookup_insert_eq by done.
           unfold job_at in *. assert (j = jp) as -> by congruence.
           exists jp'. split; [done|]. by apply (step_continue time jp (Z.of_nat c) jp').
        -- rewrite list_lookup_insert_ne by done. eauto.
      * intros q Hq. pose proof (ticked_freed s time h1 q Htk Hq) as Hq1.
        rewrite list_lookup_insert_ne by (intros ->; unfold job_at in Hjp; congruence).
        done.
      * by rewrite length_insert.
Qed.

Lemma step_clock e s r s' :
  inv s -> admissible s e = true -> step e s = Ok (r, s') ->
  c_time s <= c_time s' /\
  match e with
  | NewJob _ time _ _ | JobFinished _ _ time | QuantumExpired _ time => c_time s' = time
  end.
Proof.
  intros Hinv Hadm Hstep.
  destruct e as [id t rt prio|core id t|core t]; cbn [step] in Hstep.
  - pose proof Hadm as (Htime & _)%admissible_new_job.
    destruct (new_job_full id t rt prio s Hinv Hadm)
      as (h1 & r0 & s0 & l1 & l2 & _ & Hrun & _ & _ & _ & _ & _ & (_ & _ & Hc & _) & _).
    rewrite Hstep in Hrun. injection Hrun as <- <-. lia.
  - destruct (job_finished_result core id t s Hinv Hadm)
      as (c & p & jp & w & l1 & l2 & h1 & r0 & s0 & _ & _ & _ & _ & _ & _ & _ &
          Hrun & _ & _ & _ & (_ & _ & Hc & _) & _).
    rewrite Hstep in Hrun. injection Hrun as <- <-.
    cbn [admissible] in Hadm. apply andb_true_iff in Hadm as [Ht%Z.leb_le _]. lia.
  - destruct (quantum_expired_result core t s Hinv Hadm)
      as (c & p & jp & w & l1 & l2 & h1 & r0 & s0 & _ & _ & _ & _ & _ & _ &
          Hrun & _ & (_ & _ & Hc & _) & _).
    rewrite Hstep in Hrun. injection Hrun as <- <-.
    cbn [admissible] in Hadm. apply andb_true_iff in Hadm as [Ht%Z.leb_le _]. lia.
Qed.

Lemma step_jobs e s r s' :
  inv s -> admissible s e = true -> step e s = Ok (r, s') ->
  (forall q j, job_at s q j ->
     heap s' !! q = Some None \/
     exists j', job_at s' q j' /\
       (job_step (c_time s') j j' \/
        (preemptive (t_scheme s) = true /\ t_started j <> -1 /\
         j' = evict_job (c_time s') (tick_job (c_time s') j)))) /\
  (forall q, heap s !! q = Some None -> heap s' !! q = Some None) /\
  (forall q j', job_at s' q j' ->
     (exists j, job_at s q j) \/
     exists id rt prio,
       e = NewJob id (c_time s') rt prio /\ q = length (heap s) /\
       (j' = fresh_job id (c_time s') rt prio \/
        j' = start_job (c_time s') r (fresh_job id (c_time s') rt prio))).
Proof.
  intros Hinv Hadm Hstep.
  destruct (step_clock e s r s' Hinv Hadm Hstep) as [_ Hc].
  assert (forall q j', job_at s' q j' ->
            (forall x, heap s !! x = Some None -> heap s' !! x = Some None) ->
            (forall x, (length (heap s) <= x)%nat -> heap s' !! x = None) ->
            exists j, job_at s q j) as Hback.
  { intros q j' Hj' Hdead Hlen. unfold job_at in *.
    destruct (heap s !! q) as [[j|]|] eqn:Hq.
    - by exists j.
    - rewrite (Hdead q Hq) in Hj'. discriminate.
    - apply lookup_ge_None in Hq. rewrite (Hlen q Hq) in Hj'. discriminate. }
  destruct e as [id t rt prio|core id t|core t]; cbn [step] in Hstep; subst t.
  - destruct (step_jobs_new_job id (c_time s') rt prio s r s' Hinv Hadm Hstep)
      as (H1 & H2 & H3 & H4).
    split_and!; [|done|].
    + intros q j Hj. right. by apply H1.
    + intros q j' Hj'. unfold job_at in *.
      destruct (heap s !! q) as [[j|]|] eqn:Hq.
      * left. by exists j.
      * rewrite (H2 q Hq) in Hj'. discriminate.
      * apply lookup_ge_None in Hq.
        destruct (decide (q = length (heap s))) as [->|Hne].
        -- right. exists id, rt, prio. split_and!; [done|done|].
           destruct H3 as [H3|H3]; rewrite H3 in Hj'; injection Hj' as <-; auto.
        -- rewrite H4 in Hj' by lia. discriminate.
  - destruct (step_jobs_job_finished core id (c_time s') s r s' Hinv Hadm Hstep)
      as (H1 & H2 & H3).
    split_and!; [|done|].
    { intros q j Hj. destruct (H1 q j Hj) as [?|(j' & ? & ?)]; [by left|right; eauto]. }
    intros q j' Hj'. left. apply (Hback q j' Hj' H2).
    intros x Hx. apply lookup_ge_None. lia.
  - destruct (step_jobs_quantum_expired core (c_time s') s r s' Hinv Hadm Hstep)
      as (H1 & H2 & H3).
    split_and!; [|done|].
    { intros q j Hj. destruct (H1 q j Hj) as [?|(j' & ? & ?)]; [by left|right; eauto]. }
    intros q j' Hj'. left. apply (Hback q j' Hj' H2).
    intros x Hx. apply lookup_ge_None. lia.
Qed.

(** *** What a job keeps *)

Lemma job_step_identity now j j' : job_step now j j' -> same_identity j j'.
Proof.
  assert (forall t x, t_started x <> -1 -> same_identity x (tick_job t x)) as Htick.
  { intros t x Hx. by rewrite tick_job_started. }
  assert (forall c x x', dispatch_job now c x = Ok x' -> same_identity x x') as Hdisp.
  { intros c x x' Hd. unfold dispatch_job in Hd.
    destruct (t_started x =? -1).
    - by injection Hd as <-.
    - destruct (read_waiting x); [|discriminate]. cbn [bind] in Hd. by injection Hd as <-. }
  intros [| Hs | c j2 Hc Hd | Hs | c j2 Hs Hd].
  - done.
  - by apply Htick.
  - by apply (Hdisp c).
  - by rewrite tick_job_started.
  - apply Hdisp in Hd. rewrite tick_job_started in Hd by done. exact Hd.
Qed.

Lemma evict_job_identity now j :
  t_started j <> -1 -> same_identity j (evict_job now (tick_job now j)).
Proof.
  intros Hs. unfold evict_job. cbv zeta. rewrite tick_job_started by done.
  by destruct (_ =? now).
Qed.

Lemma same_identity_trans j1 j2 j3 :
  same_identity j1 j2 -> same_identity j2 j3 -> same_identity j1 j3.
Proof. unfold same_identity. intros (? & ? & ? & ?) (? & ? & ? & ?). split_and!; congruence. Qed.

Lemma run_identity es s rs s' :
  inv s -> conforming es s = true -> run es s = Ok (rs, s') ->
  (forall q j, job_at s q j ->
     heap s' !! q = Some None \/ exists j', job_at s' q j' /\ same_identity j j') /\
  (forall q, heap s !! q = Some None -> heap s' !! q = Some None).
Proof.
  revert s rs. induction es as [|e es IH]; intros s rs Hinv Hconf Hrun.
  - cbn [run] in Hrun. injection Hrun as <- <-. split; [|done].
    intros q j Hj. right. by exists j.
  - apply conforming_cons in Hconf as [Ha Hc].
    destruct (step_inv e s Hinv Ha) as (r & s1 & Hs & Hinv1 & _).
    cbn [run] in Hrun. rewrite Hs in Hrun. cbn [bind] in Hrun.
    destruct (run es s1) as [[rs1 s2]|] eqn:Hr; [|discriminate].
    cbn [bind] in Hrun. injection Hrun as <- <-.
    destruct (IH s1 rs1 Hinv1 (Hc r s1 Hs) Hr) as [IH1 IH2].
    destruct (step_jobs e s r s1 Hinv Ha Hs) as (H1 & H2 & _).
    split.
    + intros q j Hj. destruct (H1 q j Hj) as [Hq|(j1 & Hj1 & Hstep)].
      * left. by apply IH2.
      * destruct (IH1 q j1 Hj1) as [Hq|(j' & Hj' & Hid)]; [by left|right].
        exists j'. split; [done|].
        apply (same_identity_trans j j1 j'); [|done].
        destruct Hstep as [Hstep|(_ & Hst & ->)].
        -- by eapply job_step_identity.
        -- by apply evict_job_identity.
    + intros q Hq. apply IH2. by apply H2.
Qed.

Lemma run_split es1 es2 s :
  inv s -> conforming (es1 ++ es2) s = true ->
  exists rs1 s1 rs2 s2,
    run es1 s = Ok (rs1, s1) /\ inv s1 /\ conforming es2 s1 = true /\
    run es2 s1 = Ok (rs2, s2) /\ inv s2 /\
    run (es1 ++ es2) s = Ok (rs1 ++ rs2, s2).
Proof.
  revert s. induction es1 as [|e es1 IH]; intros s Hinv Hconf.
  - simpl in Hconf. destruct (run_inv es2 s Hinv Hconf) as (rs2 & s2 & Hr & Hinv2 & _).
    exists [], s, rs2, s2. by rewrite Hr.
  - change ((e :: es1) ++ es2) with (e :: (es1 ++ es2)) in *.
    apply conforming_cons in Hconf as [Ha Hc].
    destruct (step_inv e s Hinv Ha) as (r & s0 & Hs & Hinv0 & _).
    destruct (IH s0 Hinv0 (Hc r s0 Hs))
      as (rs1 & s1 & rs2 & s2 & Hr1 & Hinv1 & Hc2 & Hr2 & Hinv2 & Hr).
    exists (r :: rs1), s1, rs2, s2. cbn [run]. rewrite Hs. cbn [bind].
    rewrite Hr1, Hr. by cbn [bind].
Qed.

(** *** The times of a job *)

Lemma cong32_intro x y k : x = y + k * 2 ^ 32 -> cong32 x y.
Proof. intros ->. unfold cong32. by rewrite ClockFacts.wrap_shift. Qed.

Lemma cong32_elim x y : cong32 x y -> exists k, x = y + k * 2 ^ 32.
Proof.
  unfold cong32. destruct (ClockFacts.wrap_spec x) as [k1 ->].
  destruct (ClockFacts.wrap_spec y) as [k2 ->]. intros H. exists (k2 - k1). lia.
Qed.

Lemma cong32_mod x y : (x - y) mod 2 ^ 32 = 0 -> cong32 x y.
Proof.
  intros H. apply (cong32_intro x y ((x - y) / 2 ^ 32)).
  pose proof (Z.div_mod (x - y) (2 ^ 32)). lia.
Qed.

Ltac cong32_solve :=
  repeat match goal with
         | H : cong32 _ _ |- _ => apply cong32_elim in H as [? H]
         end;
  repeat match goal with
         | |- context [wrap ?x] => destruct (ClockFacts.wrap_spec x) as [? ->]
         end;
  apply cong32_mod; Z.div_mod_to_equations; lia.

Lemma accounted_later clock now j : clock <= now -> accounted clock j -> accounted now j.
Proof.
  unfold accounted. intros Hle [Ha Hacc]. split; [lia|].
  destruct (t_started j =? -1); [done|].
  destruct Hacc as (w & ? & ? & ? & ? & ?). exists w.
  split; [done|]. split; [done|]. split; [done|]. split; [lia|done].
Qed.

Lemma accounted_tick clock now j :
  clock <= now -> t_started j <> -1 -> accounted clock j ->
  accounted now (tick_job now j) /\ t_waiting (tick_job now j) = t_waiting j /\
  t_started (tick_job now j) = t_started j /\ t_updated (tick_job now j) = now.
Proof.
  intros Hle Hs Hacc. rewrite tick_job_started by done.
  split; [|done]. unfold accounted in *. simpl.
  destruct Hacc as [Ha Hacc]. split; [lia|].
  destruct (t_started j =? -1) eqn:E; [apply Z.eqb_eq in E; done|].
  destruct Hacc as (w & Hw & Hc & Has & Hr & Hz). exists w.
  split; [done|]. split; [cong32_solve|]. split; [done|]. split; [lia|].
  intros Hnow. assert (t_updated j = t_started j) as Hu by lia.
  specialize (Hz Hu). rewrite Hnow, Hu in *. cong32_solve.
Qed.

Lemma accounted_ext now j j' :
  t_started j' = t_started j -> t_total j' = t_total j ->
  t_remaining j' = t_remaining j -> t_waiting j' = t_waiting j ->
  t_updated j' = t_updated j -> t_arrival j' = t_arrival j ->
  accounted now j -> accounted now j'.
Proof. unfold accounted. by intros -> -> -> -> -> ->. Qed.

Lemma accounted_dispatch clock now core j j' :
  0 <= clock <= now -> accounted clock j -> dispatch_job now core j = Ok j' ->
  accounted now j'.
Proof.
  intros Hle Hacc Hd. unfold dispatch_job in Hd. unfold accounted in Hacc.
  destruct Hacc as [Ha Hacc].
  destruct (t_started j =? -1) eqn:E.
  - injection Hd as <-. unfold accounted. simpl. split; [lia|].
    destruct (now =? -1) eqn:E'; [apply Z.eqb_eq in E'; lia|].
    exists (wrap (now - t_arrival j)).
    split; [done|]. split; [cong32_solve|]. split; [lia|]. split; [lia|]. by intros _.
  - destruct Hacc as (w & Hw & Hc & Has & Hr & Hz).
    unfold read_waiting in Hd. rewrite Hw in Hd. cbn [bind] in Hd. injection Hd as <-.
    unfold accounted. simpl. rewrite E. split; [lia|].
    exists (wrap (w + wrap (now - t_updated j))).
    split; [done|]. split; [cong32_solve|]. split; [done|]. split; [lia|].
    intros Hnow. apply Hz. lia.
Qed.

Lemma accounted_requeue clock now j :
  clock <= now -> t_started j <> -1 -> accounted clock j ->
  accounted now (set_t_updated now (set_j_core (-1) (tick_job now j))).
Proof.
  intros Hle Hs Hacc.
  destruct (accounted_tick clock now j Hle Hs Hacc) as (Ht & _ & _ & Hu).
  revert Ht. by apply accounted_ext.
Qed.

Lemma accounted_evict clock now j :
  clock <= now -> t_started j <> -1 -> accounted clock j ->
  accounted now (evict_job now (tick_job now j)).
Proof.
  intros Hle Hs Hacc.
  pose proof (accounted_requeue clock now j Hle Hs Hacc) as Hq.
  unfold evict_job. cbv zeta.
  destruct (t_started _ =? now) eqn:E; [|done].
  apply Z.eqb_eq in E. unfold accounted in Hq |- *.
  rewrite tick_job_started in E, Hq |- * by done. simpl in E, Hq |- *.
  destruct Hq as [Ha Hq]. split; [done|].
  destruct (t_started j =? -1) eqn:E'; [done|].
  destruct Hq as (w & _ & _ & _ & _ & Hz). by apply Hz.
Qed.

Lemma job_step_accounted clock now j j' :
  0 <= clock <= now -> accounted clock j -> job_step now j j' -> accounted now j'.
Proof.
  intros Hle Hacc [| Hs | c j2 Hc Hd | Hs | c j2 Hs Hd].
  - apply (accounted_later clock); [lia|done].
  - apply (accounted_tick clock); [lia|done|done].
  - by apply (accounted_dispatch clock now c j).
  - apply (accounted_requeue clock); [lia|done|done].
  - apply (accounted_dispatch now now c
             (set_t_updated now (set_j_core (-1) (tick_job now j))) j2); [lia| |done].
    apply (accounted_requeue clock); [lia|done|done].
Qed.

Lemma accounted_fresh id time rt prio : accounted time (fresh_job id time rt prio).
Proof. unfold accounted. simpl. split; [lia|]. cong32_solve. Qed.

Lemma accounted_start id time rt prio core :
  0 <= time -> accounted time (start_job time core (fresh_job id time rt prio)).
Proof.
  intros Ht. unfold accounted. simpl. split; [lia|].
  destruct (time =? -1) eqn:E; [apply Z.eqb_eq in E; lia|].
  exists 0. split; [done|]. split; [cong32_solve|]. split; [lia|]. split; [lia|].
  intros _. cong32_solve.
Qed.

Lemma all_accounted_step e s r s' :
  inv s -> admissible s e = true -> step e s = Ok (r, s') ->
  all_accounted s -> all_accounted s'.
Proof.
  intros Hinv Hadm Hstep Hacc q j' Hj'.
  pose proof Hinv as ((Ht & _) & _).
  destruct (step_clock e s r s' Hinv Hadm Hstep) as [Hle _].
  destruct (step_jobs e s r s' Hinv Hadm Hstep) as (H1 & _ & H3).
  destruct (H3 q j' Hj') as [[j Hj]|(id & rt & prio & _ & _ & [->| ->])].
  - destruct (H1 q j Hj) as [Hq|(j2 & Hj2 & Hs)].
    + unfold job_at in Hj'. congruence.
    + assert (j2 = j') as -> by (unfold job_at in *; congruence).
      destruct Hs as [Hs|(_ & Hst & ->)].
      * apply (job_step_accounted (c_time s) (c_time s') j j'); [lia| |done].
        by apply (Hacc q).
      * apply (accounted_evict (c_time s)); [lia|done|]. by apply (Hacc q).
  - apply accounted_fresh.
  - apply accounted_start. lia.
Qed.

Lemma run_accounted es s :
  inv s -> all_accounted s -> conforming es s = true ->
  exists rs s', run es s = Ok (rs, s') /\ inv s' /\ all_accounted s'.
Proof.
  revert s. induction es as [|e es IH]; intros s Hinv Hacc Hconf.
  - by exists [], s.
  - apply conforming_cons in Hconf as [Ha Hc].
    destruct (step_inv e s Hinv Ha) as (r & s1 & Hs & Hinv1 & _).
    pose proof (all_accounted_step e s r s1 Hinv Ha Hs Hacc) as Hacc1.
    destruct (IH s1 Hinv1 Hacc1 (Hc r s1 Hs)) as (rs & s' & Hr & Hinv' & Hacc').
    exists (r :: rs), s'. cbn [run]. rewrite Hs. cbn [bind]. rewrite Hr. done.
Qed.

(** *** The order of the queue *)

Lemma sorted_insert {A} (R : A -> A -> Prop) l1 x l2 :
  StronglySorted R (l1 ++ l2) -> Forall (fun e => R e x) l1 -> Forall (R x) l2 ->
  StronglySorted R (l1 ++ x :: l2).
Proof.
  induction l1 as [|a l1 IH]; simpl; intros Hs H1 H2.
  - by constructor.
  - inversion Hs as [|? ? Hs' Ha]; subst. inversion H1 as [|? ? Hax H1']; subst.
    constructor; [by apply IH|].
    apply Forall_app in Ha as [Ha1 Ha2]. apply Forall_app. split; [done|].
    by constructor.
Qed.

Lemma sorted_delete {A} (R : A -> A -> Prop) l1 x l2 :
  StronglySorted R (l1 ++ x :: l2) -> StronglySorted R (l1 ++ l2).
Proof.
  induction l1 as [|a l1 IH]; simpl; intros Hs.
  - by inversion Hs.
  - inversion Hs as [|? ? Hs' Ha]; subst. constructor; [by apply IH|].
    apply Forall_app in Ha as [Ha1 Ha2]. apply Forall_app. split; [done|].
    by inversion Ha2.
Qed.

Lemma sorted_impl {A} (R R' : A -> A -> Prop) l :
  StronglySorted R l -> (forall a b, a ∈ l -> b ∈ l -> R a b -> R' a b) ->
  StronglySorted R' l.
Proof.
  induction 1 as [|a l Hs IH Ha]; intros Himp; [constructor|].
  constructor.
  - apply IH. intros x y Hx Hy. apply Himp; by right.
  - rewrite Forall_forall in Ha |- *. intros y Hy.
    apply Himp; [by left|by right|by apply Ha].
Qed.

Lemma sorted_lookup {A} (R : A -> A -> Prop) l i k x y :
  StronglySorted R l -> (i < k)%nat -> l !! i = Some x -> l !! k = Some y -> R x y.
Proof.
  intros Hs. revert i k. induction Hs as [|a l Hs IH Ha]; intros i k Hik Hx Hy; [done|].
  destruct k as [|k]; [lia|]. simpl in Hy.
  destruct i as [|i]; simpl in Hx.
  - injection Hx as ->. rewrite Forall_forall in Ha. apply Ha.
    by eapply list_elem_of_lookup_2.
  - apply (IH i k); [lia|done|done].
Qed.

Lemma in_order_refl scheme j : in_order scheme j j.
Proof. destruct scheme; simpl; try done; intros; lia. Qed.

Lemma comparer_after s n e z :
  comparer s n e = Ok z -> 0 <= z ->
  (forall jn, heap s !! n = Some (Some jn) -> t_started jn = -1 ->
     t_remaining jn = t_total jn) ->
  heap_in_order (t_scheme s) (heap s) e n.
Proof.
  intros Hcmp Hz Hn je jn He Hjn. specialize (Hn jn Hjn).
  unfold comparer, load in Hcmp. rewrite Hjn, He in Hcmp. cbn [bind] in Hcmp.
  destruct (t_scheme s); simpl; try done.
  - intros Hse Hsn. rewrite Hse in Hcmp. specialize (Hn Hsn).
    destruct (t_total jn <? t_remaining je) eqn:E; simpl in Hcmp.
    + injection Hcmp as <-. lia.
    + apply Z.ltb_ge in E. lia.
  - intros Hse Hsn. rewrite Hse in Hcmp.
    destruct (priority jn <? priority je) eqn:E; simpl in Hcmp.
    + injection Hcmp as <-. lia.
    + apply Z.ltb_ge in E. lia.
  - destruct (priority jn <? priority je) eqn:E.
    + injection Hcmp as <-. lia.
    + apply Z.ltb_ge in E. lia.
Qed.

Lemma comparer_before s n e z x :
  comparer s n e = Ok z -> z < 0 ->
  (forall jn, heap s !! n = Some (Some jn) -> t_started jn = -1 ->
     t_remaining jn = t_total jn) ->
  heap_in_order (t_scheme s) (heap s) e x ->
  heap_in_order (t_scheme s) (heap s) n x.
Proof.
  intros Hcmp Hz Hn Hex jn jx Hjn Hjx. specialize (Hn jn Hjn).
  unfold heap_in_order in Hex.
  unfold comparer, load in Hcmp. rewrite Hjn in Hcmp.
  destruct (t_scheme s); simpl; try done.
  - destruct (heap s !! e) as [[je|]|] eqn:He; try discriminate. cbn [bind] in Hcmp.
    specialize (Hex je jx eq_refl Hjx). simpl in Hex.
    intros Hsn Hsx. specialize (Hn Hsn).
    destruct (t_total jn <? t_remaining je) eqn:E; simpl in Hcmp.
    + destruct (t_started je =? -1) eqn:E'.
      * apply Z.ltb_lt in E. apply Z.eqb_eq in E'. specialize (Hex E' Hsx). lia.
      * injection Hcmp as <-. lia.
    + injection Hcmp as <-. lia.
  - destruct (heap s !! e) as [[je|]|] eqn:He; try discriminate. cbn [bind] in Hcmp.
    specialize (Hex je jx eq_refl Hjx). simpl in Hex.
    intros Hsn Hsx.
    destruct (priority jn <? priority je) eqn:E; simpl in Hcmp.
    + destruct (t_started je =? -1) eqn:E'.
      * apply Z.ltb_lt in E. apply Z.eqb_eq in E'. specialize (Hex E' Hsx). lia.
      * injection Hcmp as <-. lia.
    + injection Hcmp as <-. lia.
  - destruct (heap s !! e) as [[je|]|] eqn:He; try discriminate. cbn [bind] in Hcmp.
    specialize (Hex je jx eq_refl Hjx). simpl in Hex.
    destruct (priority jn <? priority je) eqn:E.
    + apply Z.ltb_lt in E. lia.
    + injection Hcmp as <-. lia.
Qed.

Lemma placement_in_order s n l1 l2 :
  StronglySorted (heap_in_order (t_scheme s) (heap s)) (l1 ++ l2) ->
  (forall jn, heap s !! n = Some (Some jn) -> t_started jn = -1 ->
     t_remaining jn = t_total jn) ->
  (forall e, e ∈ l1 -> exists z, comparer s n e = Ok z /\ 0 <= z) ->
  (l2 = [] \/ exists e l2' z, l2 = e :: l2' /\ comparer s n e = Ok z /\ z < 0) ->
  StronglySorted (heap_in_order (t_scheme s) (heap s)) (l1 ++ n :: l2).
Proof.
  intros Hs Hn H1 H2. apply sorted_insert; [done| |].
  - apply Forall_forall. intros e He. destruct (H1 e He) as (z & Hz & Hz0).
    by apply (comparer_after s n e z).
  - destruct H2 as [->|(e & l2' & z & -> & Hz & Hz0)]; [constructor|].
    apply StronglySorted_app_1_r in Hs. inversion Hs as [|? ? Hs' He]; subst.
    constructor.
    + apply (comparer_before s n e z e); [done|done|done|].
      intros j1 j2 Hj1 Hj2. assert (j1 = j2) as -> by congruence. apply in_order_refl.
    + rewrite Forall_forall in He |- *. intros x Hx.
      apply (comparer_before s n e z x); [done|done|done|by apply He].
Qed.

Lemma in_order_transfer scheme h h' l :
  StronglySorted (heap_in_order scheme h) l ->
  (forall q j', q ∈ l -> h' !! q = Some (Some j') ->
     exists j, h !! q = Some (Some j) /\ priority j' = priority j /\
       (preemptive scheme = false -> t_started j' = -1 ->
        t_started j = -1 /\ t_remaining j' = t_remaining j)) ->
  StronglySorted (heap_in_order scheme h') l.
Proof.
  intros Hs Hk. apply (sorted_impl _ _ _ Hs).
  intros a b Ha Hb HR ja' jb' Hja' Hjb'.
  destruct (Hk a ja' Ha Hja') as (ja & Hja & Hpa & Hua).
  destruct (Hk b jb' Hb Hjb') as (jb & Hjb & Hpb & Hub).
  specialize (HR ja jb Hja Hjb).
  destruct scheme; simpl in *; try done.
  - intros Hsa Hsb. destruct (Hua eq_refl Hsa) as [? ?].
    destruct (Hub eq_refl Hsb) as [? ?]. specialize (HR ltac:(done) ltac:(done)). lia.
  - intros Hsa Hsb. destruct (Hua eq_refl Hsa) as [? ?].
    destruct (Hub eq_refl Hsb) as [? ?]. specialize (HR ltac:(done) ltac:(done)). lia.
  - lia.
Qed.

Lemma dispatch_job_started now core j j' :
  0 <= now -> dispatch_job now core j = Ok j' ->
  priority j' = priority j /\ t_started j' <> -1.
Proof.
  intros Hnow Hd. unfold dispatch_job in Hd.
  destruct (t_started j =? -1) eqn:E.
  - injection Hd as <-. simpl. split; [done|lia].
  - apply Z.eqb_neq in E. destruct (read_waiting j); [|discriminate].
    cbn [bind] in Hd. by injection Hd as <-.
Qed.

Lemma job_step_keeps now j j' :
  0 <= now -> job_step now j j' ->
  priority j' = priority j /\
  (t_started j' = -1 -> t_started j = -1 /\ t_remaining j' = t_remaining j).
Proof.
  intros Hnow [| Hs | c j2 Hc Hd | Hs | c j2 Hs Hd].
  - done.
  - by rewrite tick_job_started.
  - destruct (dispatch_job_started now c j j2 Hnow Hd) as [? ?]. done.
  - by rewrite tick_job_started.
  - destruct (dispatch_job_started now c _ j2 Hnow Hd) as [Hp ?].
    rewrite tick_job_started in Hp by done. done.
Qed.

Lemma step_keeps e s r s' :
  inv s -> admissible s e = true -> step e s = Ok (r, s') ->
  forall q j', queued s q -> job_at s' q j' ->
    exists j, job_at s q j /\ priority j' = priority j /\
      (preemptive (t_scheme s) = false -> t_started j' = -1 ->
       t_started j = -1 /\ t_remaining j' = t_remaining j).
Proof.
  intros Hinv Hadm Hstep q j' Hq Hj'.
  pose proof Hinv as ((Ht & _) & _).
  destruct (step_clock e s r s' Hinv Hadm Hstep) as [Hle _].
  destruct (step_jobs e s r s' Hinv Hadm Hstep) as (H1 & _ & _).
  destruct (inv_queue_live s Hinv q Hq) as [j Hj]. exists j. split; [done|].
  destruct (H1 q j Hj) as [Hfree|(j2 & Hj2 & Hs)]; [unfold job_at in *; congruence|].
  assert (j2 = j') as -> by (unfold job_at in *; congruence).
  destruct Hs as [Hs|(Hpre & Hst & ->)].
  - destruct (job_step_keeps (c_time s') j j') as [? ?]; [lia|done|]. done.
  - split; [|intros; congruence].
    by destruct (evict_job_identity (c_time s') j Hst) as (_ & _ & _ & ?).
Qed.

Lemma in_order_new_job id time rt prio s r s' :
  inv s -> admissible s (NewJob id time rt prio) = true ->
  scheduler_new_job id time rt prio s = Ok (r, s') ->
  queue_in_order s -> queue_in_order s'.
Proof.
  intros Hinv Hadm Hstep Hord.
  destruct (new_job_full id time rt prio s Hinv Hadm)
    as (h1 & r0 & s0 & l1 & l2 & _ & Hrun & _ & Hl & Hjobs & Hp1 & Hp2 & (_ & Hsc & _) & _).
  rewrite Hstep in Hrun. injection Hrun as <- <-.
  destruct (step_jobs_new_job id time rt prio s r s' Hinv Hadm Hstep) as (_ & _ & Hnew & _).
  unfold queue_in_order in *. rewrite Hjobs. cbn [PriQueue.head]. rewrite Hl in Hord.
  apply placement_in_order; [| |done|done].
  - rewrite Hsc. apply (in_order_transfer _ (heap s)); [done|].
    intros q j' Hq Hj'.
    apply (step_keeps (NewJob id time rt prio) s r s' Hinv Hadm Hstep q j'); [|done].
    unfold queued. by rewrite Hl.
  - intros jn Hjn _. unfold job_at in Hnew.
    destruct Hnew as [Hnew|Hnew]; rewrite Hnew in Hjn; by injection Hjn as <-.
Qed.

Lemma in_order_after_end (e : event) s r s' l1 p l2 :
  inv s -> admissible s e = true -> step e s = Ok (r, s') ->
  PriQueue.head (jobs s) = l1 ++ p :: l2 ->
  PriQueue.head (jobs s') = l1 ++ l2 -> t_scheme s' = t_scheme s ->
  queue_in_order s -> queue_in_order s'.
Proof.
  intros Hinv Hadm Hstep Hhead Hhead' Hsc Hord.
  unfold queue_in_order in *. rewrite Hhead', Hsc. rewrite Hhead in Hord.
  apply sorted_delete in Hord.
  apply (in_order_transfer _ (heap s)); [done|].
  intros q j' Hq Hj'. apply (step_keeps e s r s' Hinv Hadm Hstep q j'); [|done].
  unfold queued. rewrite Hhead. apply elem_of_app in Hq as [Hq|Hq].
  - apply elem_of_app. by left.
  - apply elem_of_app. right. by right.
Qed.

Lemma in_order_job_finished core id time s r s' :
  inv s -> admissible s (JobFinished core id time) = true ->
  scheduler_job_finished core id time s = Ok (r, s') ->
  queue_in_order s -> queue_in_order s'.
Proof.
  intros Hinv Hadm Hstep Hord.
  destruct (job_finished_result core id time s Hinv Hadm)
    as (c & p & jp & w & l1 & l2 & h1 & r0 & s0 & _ & _ & _ & _ & _ & Hhead & _ &
        Hrun & _ & Hjobs & _ & (_ & Hsc & _) & _).
  rewrite Hstep in Hrun. injection Hrun as <- <-.
  apply (in_order_after_end (JobFinished core id time) s r s' l1 p l2); try done.
  by rewrite Hjobs.
Qed.

Lemma in_order_quantum_expired core time s r s' :
  inv s -> admissible s (QuantumExpired core time) = true ->
  scheduler_quantum_expired core time s = Ok (r, s') ->
  queue_in_order s -> queue_in_order s'.
Proof.
  intros Hinv Hadm Hstep Hord.
  pose proof Hadm as (Htime & _)%admissible_quantum_expired.
  pose proof Hinv as ((Ht & _) & (_ & Hnd & _) & _).
  destruct (quantum_expired_result core time s Hinv Hadm)
    as (c & p & jp & w & l1 & l2 & h1 & r0 & s0 & -> & Hcp & Hjp & _ & Hhead & Htk &
        Hrun & _ & (_ & Hsc & _) & Hend & Hgo).
  rewrite Hstep in Hrun. injection Hrun as <- <-.
  destruct (Z.eq_dec (t_remaining (tick_job time jp)) 0) as [Hrem|Hrem].
  { destruct (Hend Hrem) as (Hjobs & _).
    apply (in_order_after_end (QuantumExpired (Z.of_nat c) time) s r s' l1 p l2); try done.
    by rewrite Hjobs. }
  destruct (Hgo Hrem) as (_ & m1 & m2 & Hm & Hjobs & Hp1 & Hp2 & Hnext).
  pose proof Htk as (Hlen & _ & Hon & _).
  destruct (Hon c p jp Hcp Hjp) as [Hjp1 Hst].
  assert (p < length h1)%nat as Hlt by (by eapply lookup_lt_Some).
  rewrite Hhead in Hnd. apply NoDup_app in Hnd as (_ & Hnd1 & Hnd2).
  apply NoDup_cons in Hnd2 as [Hnd2 _].
  assert (forall q, q ∈ m1 ++ m2 -> queued s q /\ q <> p) as Hmq.
  { intros q Hq. rewrite <- Hm in Hq. unfold queued. rewrite Hhead.
    apply elem_of_app in Hq as [Hq|Hq].
    - split; [apply elem_of_app; by left|]. intros ->. apply (Hnd1 p Hq). by left.
    - split; [apply elem_of_app; right; by right|]. by intros ->. }
  set (jq := set_t_updated time (set_j_core (-1) (tick_job time jp))) in *.
  set (hX := <[p := Some jq]> h1) in *.
  unfold queue_in_order in *. rewrite Hjobs, Hsc. cbn [PriQueue.head].
  rewrite Hhead in Hord. apply sorted_delete in Hord. rewrite Hm in Hord.
  assert (StronglySorted (heap_in_order (t_scheme s) hX) (m1 ++ m2)) as HordX.
  { apply (in_order_transfer _ (heap s)); [done|].
    intros q j' Hq Hj'. destruct (Hmq q Hq) as [Hqq Hqp].
    unfold hX in Hj'. rewrite list_lookup_insert_ne in Hj' by done.
    destruct (inv_queue_live s Hinv q Hqq) as [j Hj]. exists j. split; [done|].
    destruct (ticked_step s time h1 q j Htk Hj) as (j2 & Hj2 & Hs).
    assert (j2 = j') as -> by congruence.
    destruct (job_step_keeps time j j') as [? ?]; [lia|done|]. done. }
  pose proof (placement_in_order (with_heap hX s) p m1 m2) as Hpl.
  cbn [t_scheme heap with_heap] in Hpl.
  specialize (Hpl HordX).
  assert (StronglySorted (heap_in_order (t_scheme s) hX) (m1 ++ p :: m2)) as HordP.
  { apply Hpl; [|done|done].
    intros jn Hjn Hsn. unfold hX in Hjn. rewrite list_lookup_insert_eq in Hjn by done.
    injection Hjn as <-. unfold jq in Hsn. rewrite tick_job_started in Hsn by done.
    simpl in Hsn. done. }
  apply (in_order_transfer _ hX); [done|].
  intros q j' Hq Hj'.
  destruct (first_idle (heap s) m1) as [p2|].
  - destruct Hnext as (j2 & j2' & Hj2 & Hc2 & Hne & Hdj & _ & _ & Hheap).
    rewrite Hheap in Hj'. fold jq in Hj'. fold hX in Hj'.
    destruct (decide (q = p2)) as [->|Hq2].
    + destruct (ticked_step s time h1 p2 j2 Htk Hj2) as (jx & Hjx & Hs).
      assert (p2 < length hX)%nat as Hp2lt.
      { unfold hX. rewrite length_insert. by eapply lookup_lt_Some. }
      rewrite list_lookup_insert_eq in Hj' by done. injection Hj' as <-.
      exists jx. split; [unfold hX; by rewrite list_lookup_insert_ne|].
      destruct (job_step_keeps time j2 jx) as [Hpx _]; [lia|done|].
      destruct (dispatch_job_started time (Z.of_nat c) j2 j2') as [Hp' Hs']; [lia|done|].
      split; [congruence|]. intros _ ?. done.
    + rewrite list_lookup_insert_ne in Hj' by done. by exists j'.
  - destruct Hnext as (jp' & Hdj & _ & _ & Hheap).
    rewrite Hheap in Hj'.
    destruct (decide (q = p)) as [->|Hqp].
    + rewrite list_lookup_insert_eq in Hj' by done. injection Hj' as <-.
      exists jq. split; [unfold hX; by rewrite list_lookup_insert_eq|].
      destruct (dispatch_job_started time (Z.of_nat c) jq jp') as [Hp' Hs']; [lia|done|].
      split; [done|]. intros _ ?. done.
    + rewrite list_lookup_insert_ne in Hj' by done. exists j'.
      split; [unfold hX; by rewrite list_lookup_insert_ne|done].
Qed.

Lemma run_in_order es s :
  inv s -> queue_in_order s -> conforming es s = true ->
  exists rs s',
    run es s = Ok (rs, s') /\ inv s' /\ t_scheme s' = t_scheme s /\ queue_in_order s'.
Proof.
  revert s. induction es as [|e es IH]; intros s Hinv Hord Hconf.
  - by exists [], s.
  - apply conforming_cons in Hconf as [Ha Hc].
    destruct (step_inv e s Hinv Ha) as (r & s1 & Hs & Hinv1 & Hsc1).
    assert (queue_in_order s1) as Hord1.
    { destruct e as [id t rt prio|core id t|core t]; cbn [step] in Hs.
      - by apply (in_order_new_job id t rt prio s r s1).
      - by apply (in_order_job_finished core id t s r s1).
      - by apply (in_order_quantum_expired core t s r s1). }
    destruct (IH s1 Hinv1 Hord1 (Hc r s1 Hs)) as (rs & s' & Hr & Hinv' & Hsc' & Hord').
    exists (r :: rs), s'. cbn [run]. rewrite Hs. cbn [bind]. rewrite Hr. cbn [bind].
    split_and!; [done|done|congruence|done].
Qed.

Lemma first_idle_split h l p :
  first_idle h l = Some p ->
  exists l1 l2,
    l = l1 ++ p :: l2 /\
    forall x, x ∈ l1 -> exists jx, h !! x = Some (Some jx) /\ j_core jx <> -1.
Proof.
  induction l as [|a l IH]; [done|]. cbn [first_idle].
  destruct (h !! a) as [[ja|]|] eqn:Ha; [|done..].
  destruct (Z.eqb_spec (j_core ja) (-1)) as [Hc|Hc].
  - intros [= ->]. exists [], l. split; [done|]. intros x Hx. by apply elem_of_nil in Hx.
  - intros Hf. destruct (IH Hf) as (l1 & l2 & -> & Hl1).
    exists (a :: l1), l2. split; [done|].
    intros x [->|Hx]%elem_of_cons; [by exists ja|by apply Hl1].
Qed.

(** *** The core a job records *)

Lemma ticked_back s time h1 q j' :
  ticked_heap s time h1 -> h1 !! q = Some (Some j') ->
  exists j, job_at s q j /\ j_core j' = j_core j.
Proof.
  intros (_ & Hrel & _) Hq. specialize (Hrel q). unfold job_at.
  destruct (heap s !! q) as [[j|]|]; [|congruence..].
  destruct Hrel as (j2 & Hj2 & Hr). assert (j2 = j') as -> by congruence.
  exists j. split; [done|]. by destruct Hr as (_ & _ & _ & _ & ? & _).
Qed.

Lemma recorded_old s (h1 : list (option job_t)) q j' (cs : list (option ptr)) :
  core_recorded s ->
  (exists j, job_at s q j /\ j_core j' = j_core j) ->
  j_core j' <> -1 ->
  (forall k, c_job s !! k = Some (Some q) -> cs !! k = Some (Some q)) ->
  exists k : nat, j_core j' = Z.of_nat k /\ cs !! k = Some (Some q).
Proof.
  intros Hrec (j & Hj & Hc) Hne Hcs. rewrite Hc in Hne |- *.
  destruct (Hrec q j Hj Hne) as (k & Hk & Hslot). exists k. auto.
Qed.

Lemma recorded_new_job id time rt prio s r s' :
  inv s -> admissible s (NewJob id time rt prio) = true ->
  scheduler_new_job id time rt prio s = Ok (r, s') ->
  core_recorded s -> core_recorded s'.
Proof.
  intros Hinv Hadm Hstep Hrec.
  pose proof Hadm as (Htime & _)%admissible_new_job.
  destruct (new_job_full id time rt prio s Hinv Hadm)
    as (h1 & r0 & s0 & l1 & l2 & Htick & Hrun & _ & _ & _ & _ & _ & _ & Hcase).
  rewrite Hstep in Hrun. injection Hrun as <- <-.
  destruct (new_job_prefix id time rt prio s Hinv Htime)
    as (h1' & Htick' & _ & Hlen & Hfresh & _ & Hnc & _ & _ & Hlive & Hdead).
  assert (h1' = h1) as -> by (rewrite Htick in Htick'; by injection Htick').
  assert (forall q j', h1 !! q = Some (Some j') -> q <> length (heap s) ->
            exists j, job_at s q j /\ j_core j' = j_core j) as Hback.
  { intros q j' Hq Hne.
    assert (q < length (heap s))%nat as Hlt by (apply lookup_lt_Some in Hq; lia).
    destruct (lookup_lt_is_Some_2 (heap s) q Hlt) as [[j|] Hj].
    - destruct (Hlive q j Hj) as (j2 & Hj2 & Hr). assert (j2 = j') as -> by congruence.
      exists j. split; [done|]. by destruct Hr as (_ & _ & _ & _ & ? & _).
    - rewrite (Hdead q Hj) in Hq. done. }
  intros q j' Hj' Hcore. unfold job_at in Hj'.
  destruct Hcase as [(i & -> & Hi & _ & Hcj & Hheap)|
                     [(_ & c & o & jo & -> & Hc & Hjo & Hcj & Hheap & _)|
                      (_ & -> & Hcj & Hheap & _)]];
    rewrite Hheap in Hj'; rewrite Hcj.
  - assert (i < length (c_job s))%nat as Hilt by (by eapply lookup_lt_Some).
    destruct (decide (q = length (heap s))) as [->|Hne].
    + rewrite list_lookup_insert_eq in Hj' by lia. injection Hj' as <-.
      exists i. split; [done|]. by rewrite list_lookup_insert_eq.
    + rewrite list_lookup_insert_ne in Hj' by done.
      apply (recorded_old s h1 q j'); [done|by apply Hback|done|].
      intros k Hk. rewrite list_lookup_insert_ne; [done|]. intros ->. congruence.
  - assert (c < length (c_job s))%nat as Hclt by (by eapply lookup_lt_Some).
    assert (o < length (heap s))%nat as Holt by (by eapply lookup_lt_Some).
    destruct (decide (q = o)) as [->|Hqo].
    + rewrite list_lookup_insert_eq in Hj' by (rewrite length_insert; lia).
      injection Hj' as <-. by destruct (evict_job_fields time (tick_job time jo)) as [? _].
    + rewrite list_lookup_insert_ne in Hj' by done.
      destruct (decide (q = length (heap s))) as [->|Hne].
      * rewrite list_lookup_insert_eq in Hj' by lia. injection Hj' as <-.
        exists c. split; [done|]. by rewrite list_lookup_insert_eq.
      * rewrite list_lookup_insert_ne in Hj' by done.
        apply (recorded_old s h1 q j'); [done|by apply Hback|done|].
        intros k Hk. rewrite list_lookup_insert_ne; [done|]. intros ->. congruence.
  - destruct (decide (q = length (heap s))) as [->|Hne].
    + rewrite Hfresh in Hj'. injection Hj' as <-. done.
    + apply (recorded_old s h1 q j'); [done|by apply Hback|done|done].
Qed.

Lemma recorded_after_end s time h1 c p (core : Z) s' :
  ticked_heap s time h1 -> core_recorded s ->
  core = Z.of_nat c -> c_job s !! c = Some (Some p) ->
  match first_idle (heap s) (PriQueue.head (jobs s)) with
  | None => c_job s' = <[c := None]> (c_job s) /\ heap s' = <[p := None]> h1
  | Some p2 =>
      exists j2 j2',
        job_at s p2 j2 /\ p2 <> p /\ dispatch_job time core j2 = Ok j2' /\
        c_job s' = <[c := Some p2]> (c_job s) /\
        heap s' = <[p2 := Some j2']> (<[p := None]> h1)
  end ->
  core_recorded s'.
Proof.
  intros Htk Hrec -> Hcp Hnext q j' Hj' Hcore. unfold job_at in Hj'.
  assert (c < length (c_job s))%nat as Hclt by (by eapply lookup_lt_Some).
  pose proof Htk as (Hlen & _).
  destruct (first_idle (heap s) (PriQueue.head (jobs s))) as [p2|].
  - destruct Hnext as (j2 & j2' & Hj2 & Hne & Hdj & Hcj & Hheap).
    rewrite Hheap in Hj'. rewrite Hcj.
    destruct (decide (q = p2)) as [->|Hq2].
    + rewrite list_lookup_insert_eq in Hj'
        by (rewrite length_insert, Hlen; by eapply lookup_lt_Some).
      injection Hj' as <-. exists c.
      destruct (dispatch_job_fields time (Z.of_nat c) j2 j2' Hdj) as [? _].
      split; [done|]. by rewrite list_lookup_insert_eq.
    + rewrite list_lookup_insert_ne in Hj' by done.
      destruct (decide (q = p)) as [->|Hqp].
      * rewrite list_lookup_insert_eq in Hj'; [done|].
        rewrite Hlen. destruct (lookup_lt_is_Some_2 h1 p) as [x Hx]; [|].
        -- apply lookup_lt_Some in Hj'. by rewrite length_insert in Hj'.
        -- apply lookup_lt_Some in Hx. lia.
      * rewrite list_lookup_insert_ne in Hj' by done.
        apply (recorded_old s h1 q j'); [done|by apply (ticked_back s time h1)|done|].
        intros k Hk. rewrite list_lookup_insert_ne; [done|]. intros ->. congruence.
  - destruct Hnext as (Hcj & Hheap). rewrite Hheap in Hj'. rewrite Hcj.
    destruct (decide (q = p)) as [->|Hqp].
    + rewrite list_lookup_insert_eq in Hj'; [done|].
      apply lookup_lt_Some in Hj'. by rewrite length_insert in Hj'.
    + rewrite list_lookup_insert_ne in Hj' by done.
      apply (recorded_old s h1 q j'); [done|by apply (ticked_back s time h1)|done|].
      intros k Hk. rewrite list_lookup_insert_ne; [done|]. intros ->. congruence.
Qed.

Lemma recorded_job_finished core id time s r s' :
  inv s -> admissible s (JobFinished core id time) = true ->
  scheduler_job_finished core id time s = Ok (r, s') ->
  core_recorded s -> core_recorded s'.
Proof.
  intros Hinv Hadm Hstep Hrec.
  destruct (job_finished_result core id time s Hinv Hadm)
    as (c & p & jp & w & l1 & l2 & h1 & r0 & s0 & Hcore & Hcp & Hjp & _ & _ & Hhead & Htk &
        Hrun & _ & _ & _ & _ & Hnext).
  rewrite Hstep in Hrun. injection Hrun as <- <-.
  apply (recorded_after_end s time h1 c p core s' Htk Hrec Hcore Hcp).
  destruct (first_idle (heap s) (PriQueue.head (jobs s))) as [p2|].
  - destruct Hnext as (j2 & j2' & ? & ? & ? & ? & _ & ? & ?). by exists j2, j2'.
  - by destruct Hnext as (_ & ? & ?).
Qed.

Lemma recorded_quantum_expired core time s r s' :
  inv s -> admissible s (QuantumExpired core time) = true ->
  scheduler_quantum_expired core time s = Ok (r, s') ->
  core_recorded s -> core_recorded s'.
Proof.
  intros Hinv Hadm Hstep Hrec.
  destruct (quantum_expired_result core time s Hinv Hadm)
    as (c & p & jp & w & l1 & l2 & h1 & r0 & s0 & Hcore & Hcp & Hjp & _ & Hhead & Htk &
        Hrun & _ & _ & Hend & Hgo).
  rewrite Hstep in Hrun. injection Hrun as <- <-.
  destruct (Z.eq_dec (t_remaining (tick_job time jp)) 0) as [Hrem|Hrem].
  { destruct (Hend Hrem) as (_ & _ & Hnext).
    apply (recorded_after_end s time h1 c p core s' Htk Hrec Hcore Hcp).
    destruct (first_idle (heap s) (PriQueue.head (jobs s))) as [p2|].
    - destruct Hnext as (j2 & j2' & ? & ? & ? & ? & _ & ? & ?). by exists j2, j2'.
    - by destruct Hnext as (_ & ? & ?). }
  destruct (Hgo Hrem) as (_ & m1 & m2 & _ & _ & _ & _ & Hnext).
  pose proof Htk as (Hlen & _ & Hon & _).
  destruct (Hon c p jp Hcp Hjp) as [Hjp1 Hst].
  assert (p < length h1)%nat as Hlt by (by eapply lookup_lt_Some).
  assert (c < length (c_job s))%nat as Hclt by (by eapply lookup_lt_Some).
  subst core.
  intros q j' Hj' Hcq. unfold job_at in Hj'.
  destruct (first_idle (heap s) m1) as [p2|].
  - destruct Hnext as (j2 & j2' & Hj2 & _ & Hne & Hdj & _ & Hcj & Hheap).
    rewrite Hheap in Hj'. rewrite Hcj.
    destruct (decide (q = p2)) as [->|Hq2].
    + rewrite list_lookup_insert_eq in Hj'
        by (rewrite length_insert, Hlen; by eapply lookup_lt_Some).
      injection Hj' as <-. exists c.
      destruct (dispatch_job_fields time (Z.of_nat c) j2 j2' Hdj) as [? _].
      split; [done|]. by rewrite list_lookup_insert_eq.
    + rewrite list_lookup_insert_ne in Hj' by done.
      destruct (decide (q = p)) as [->|Hqp].
      * rewrite list_lookup_insert_eq in Hj' by done. injection Hj' as <-. done.
      * rewrite list_lookup_insert_ne in Hj' by done.
        apply (recorded_old s h1 q j'); [done|by apply (ticked_back s time h1)|done|].
        intros k Hk. rewrite list_lookup_insert_ne; [done|]. intros ->. congruence.
  - destruct Hnext as (jp' & Hdj & _ & Hcj & Hheap).
    rewrite Hheap in Hj'. rewrite Hcj.
    destruct (decide (q = p)) as [->|Hqp].
    + rewrite list_lookup_insert_eq in Hj' by done. injection Hj' as <-.
      destruct (dispatch_job_fields time (Z.of_nat c) _ jp' Hdj) as [? _].
      exists c. done.
    + rewrite list_lookup_insert_ne in Hj' by done.
      apply (recorded_old s h1 q j'); [done|by apply (ticked_back s time h1)|done|done].
Qed.

Lemma run_recorded es s :
  inv s -> core_recorded s -> conforming es s = true ->
  exists rs s', run es s = Ok (rs, s') /\ inv s' /\ core_recorded s'.
Proof.
  revert s. induction es as [|e es IH]; intros s Hinv Hrec Hconf.
  - by exists [], s.
  - apply conforming_cons in Hconf as [Ha Hc].
    destruct (step_inv e s Hinv Ha) as (r & s1 & Hs & Hinv1 & _).
    assert (core_recorded s1) as Hrec1.
    { destruct e as [id t rt prio|core id t|core t]; cbn [step] in Hs.
      - by apply (recorded_new_job id t rt prio s r s1).
      - by apply (recorded_job_finished core id t s r s1).
      - by apply (recorded_quantum_expired core t s r s1). }
    destruct (IH s1 Hinv1 Hrec1 (Hc r s1 Hs)) as (rs & s' & Hr & Hinv' & Hrec').
    exists (r :: rs), s'. cbn [run]. rewrite Hs. cbn [bind]. rewrite Hr. done.
Qed.

(** *** The order of the arrivals *)

Lemma step_identity e s r s' :
  inv s -> admissible s e = true -> step e s = Ok (r, s') ->
  forall q j j', job_at s q j -> job_at s' q j' -> same_identity j j'.
Proof.
  intros Hinv Hadm Hstep q j j' Hj Hj'.
  destruct (step_jobs e s r s' Hinv Hadm Hstep) as (H1 & _ & _).
  destruct (H1 q j Hj) as [Hfree|(j2 & Hj2 & Hs)]; [unfold job_at in *; congruence|].
  assert (j2 = j') as -> by (unfold job_at in *; congruence).
  destruct Hs as [Hs|(_ & Hst & ->)].
  - by eapply job_step_identity.
  - by apply evict_job_identity.
Qed.

Lemma by_arrival_transfer e s r s' l :
  inv s -> admissible s e = true -> step e s = Ok (r, s') ->
  (forall q, q ∈ l -> queued s q) ->
  StronglySorted (heap_by_arrival (heap s)) l ->
  StronglySorted (heap_by_arrival (heap s')) l.
Proof.
  intros Hinv Hadm Hstep Hl Hs. apply (sorted_impl _ _ _ Hs).
  intros a b Ha Hb HR ja' jb' Hja' Hjb'.
  destruct (inv_queue_live s Hinv a (Hl a Ha)) as [ja Hja].
  destruct (inv_queue_live s Hinv b (Hl b Hb)) as [jb Hjb].
  destruct (step_identity e s r s' Hinv Hadm Hstep a ja ja' Hja Hja') as (_ & Ea & _).
  destruct (step_identity e s r s' Hinv Hadm Hstep b jb jb' Hjb Hjb') as (_ & Eb & _).
  specialize (HR ja jb Hja Hjb). lia.
Qed.

Lemma by_arrival_new_job id time rt prio s r s' :
  t_scheme s = FCFS ->
  inv s -> all_accounted s -> admissible s (NewJob id time rt prio) = true ->
  scheduler_new_job id time rt prio s = Ok (r, s') ->
  queue_by_arrival s -> queue_by_arrival s'.
Proof.
  intros Hfcfs Hinv Hacc Hadm Hstep Hord.
  pose proof Hadm as (Htime & _)%admissible_new_job.
  destruct (new_job_full id time rt prio s Hinv Hadm)
    as (h1 & r0 & s0 & l1 & l2 & _ & Hrun & _ & Hl & Hjobs & _ & Hp2 & (_ & Hsc & _) & _).
  rewrite Hstep in Hrun. injection Hrun as <- <-.
  destruct (step_jobs_new_job id time rt prio s r s' Hinv Hadm Hstep) as (_ & _ & Hnew & _).
  assert (l2 = []) as ->.
  { destruct Hp2 as [?|(e & l2' & z & _ & Hcmp & Hz)]; [done|].
    unfold comparer in Hcmp. rewrite Hsc, Hfcfs in Hcmp. injection Hcmp as <-. lia. }
  rewrite app_nil_r in Hl.
  unfold queue_by_arrival in *. rewrite Hjobs. cbn [PriQueue.head]. rewrite Hl in Hord.
  apply sorted_insert; [| |constructor].
  - rewrite app_nil_r.
    apply (by_arrival_transfer (NewJob id time rt prio) s r s'); try done.
    intros q Hq. unfold queued. by rewrite Hl.
  - apply Forall_forall. intros e He je' jn He' Hn.
    assert (queued s e) as Hqe by (unfold queued; by rewrite Hl).
    destruct (inv_queue_live s Hinv e Hqe) as [je Hje].
    destruct (step_identity (NewJob id time rt prio) s r s' Hinv Hadm Hstep e je je' Hje He')
      as (_ & Ea & _).
    destruct (Hacc e je Hje) as [Hle _].
    assert (t_arrival jn = time) as ->.
    { unfold job_at in Hnew. destruct Hnew as [Hnew|Hnew];
        rewrite Hnew in Hn; by injection Hn as <-. }
    lia.
Qed.

Lemma by_arrival_job_finished core id time s r s' :
  inv s -> admissible s (JobFinished core id time) = true ->
  scheduler_job_finished core id time s = Ok (r, s') ->
  queue_by_arrival s -> queue_by_arrival s'.
Proof.
  intros Hinv Hadm Hstep Hord.
  destruct (job_finished_result core id time s Hinv Hadm)
    as (c & p & jp & w & l1 & l2 & h1 & r0 & s0 & _ & _ & _ & _ & _ & Hhead & _ &
        Hrun & _ & Hjobs & _).
  rewrite Hstep in Hrun. injection Hrun as <- <-.
  unfold queue_by_arrival in *. rewrite Hjobs. cbn [PriQueue.head].
  rewrite Hhead in Hord. apply sorted_delete in Hord.
  apply (by_arrival_transfer (JobFinished core id time) s r s'); try done.
  intros q Hq. unfold queued. rewrite Hhead. apply elem_of_app in Hq as [Hq|Hq].
  - apply elem_of_app. by left.
  - apply elem_of_app. right. by right.
Qed.

Lemma run_by_arrival es s :
  t_scheme s = FCFS ->
  forallb (fun e => negb (is_quantum_expiry e)) es = true ->
  inv s -> all_accounted s -> queue_by_arrival s -> conforming es s = true ->
  exists rs s', run es s = Ok (rs, s') /\ inv s' /\ queue_by_arrival s'.
Proof.
  revert s. induction es as [|e es IH]; intros s Hfcfs Hnq Hinv Hacc Hord Hconf.
  - by exists [], s.
  - apply conforming_cons in Hconf as [Ha Hc].
    cbn [forallb] in Hnq. apply andb_true_iff in Hnq as [He Hnq].
    destruct (step_inv e s Hinv Ha) as (r & s1 & Hs & Hinv1 & Hsc1).
    pose proof (all_accounted_step e s r s1 Hinv Ha Hs Hacc) as Hacc1.
    assert (queue_by_arrival s1) as Hord1.
    { destruct e as [id t rt prio|core id t|core t]; cbn [step] in Hs; [| |done].
      - by apply (by_arrival_new_job id t rt prio s r s1).
      - by apply (by_arrival_job_finished core id t s r s1). }
    destruct (IH s1) as (rs & s' & Hr & Hinv' & Hord'); try done; [congruence|by apply (Hc r)|].
    exists (r :: rs), s'. cbn [run]. rewrite Hs. cbn [bind]. rewrite Hr. done.
Qed.

(** *** The waiting jobs of the disciplines without preemption *)

Lemma waiting_new_job id time rt prio s r s' :
  preemptive (t_scheme s) = false ->
  inv s -> admissible s (NewJob id time rt prio) = true ->
  scheduler_new_job id time rt prio s = Ok (r, s') ->
  waiting_unstarted s -> waiting_unstarted s'.
Proof.
  intros Hnp Hinv Hadm Hstep Hw.
  pose proof Hadm as (Htime & _)%admissible_new_job.
  pose proof Hinv as (_ & _ & _ & Hcores).
  destruct (new_job_full id time rt prio s Hinv Hadm)
    as (h1 & r0 & s0 & l1 & l2 & Htick & Hrun & _ & _ & _ & _ & _ & _ & Hcase).
  rewrite Hstep in Hrun. injection Hrun as <- <-.
  destruct (new_job_prefix id time rt prio s Hinv Htime)
    as (h1' & Htick' & _ & Hlen & Hfresh & _ & _ & _ & Hoff & Hlive & Hdead).
  assert (h1' = h1) as -> by (rewrite Htick in Htick'; by injection Htick').
  assert (forall q j', h1 !! q = Some (Some j') -> q <> length (heap s) ->
            j_core j' = -1 -> t_started j' = -1 /\ t_remaining j' = t_total j') as Hold.
  { intros q j' Hq Hne Hcore.
    assert (q < length (heap s))%nat as Hlt by (apply lookup_lt_Some in Hq; lia).
    destruct (lookup_lt_is_Some_2 (heap s) q Hlt) as [[j|] Hj];
      [|rewrite (Hdead q Hj) in Hq; done].
    destruct (Hlive q j Hj) as (j2 & Hj2 & Hr). assert (j2 = j') as -> by congruence.
    destruct Hr as (_ & _ & _ & _ & Hjc & _).
    assert (forall k, c_job s !! k <> Some (Some q)) as Hno.
    { intros k Hk. destruct (Hcores k q) as (_ & jx & Hjx & Hjc' & _); [done|done|].
      unfold job_at in Hjx. assert (jx = j) as -> by congruence. lia. }
    rewrite (Hoff q Hlt Hno) in Hq. assert (j' = j) as -> by congruence.
    apply (Hw q j Hj). lia. }
  intros q j' Hj' Hcore. unfold job_at in Hj'.
  destruct Hcase as [(i & -> & Hi & _ & _ & Hheap)|
                     [(_ & c & o & jo & _ & _ & _ & _ & _ & Hsch)|
                      (_ & -> & _ & Hheap & _)]].
  - rewrite Hheap in Hj'.
    destruct (decide (q = length (heap s))) as [->|Hne].
    + rewrite list_lookup_insert_eq in Hj' by lia. injection Hj' as <-.
      simpl in Hcore. lia.
    + rewrite list_lookup_insert_ne in Hj' by done. by apply (Hold q j').
  - by destruct (t_scheme s).
  - rewrite Hheap in Hj'.
    destruct (decide (q = length (heap s))) as [->|Hne].
    + rewrite Hfresh in Hj'. by injection Hj' as <-.
    + by apply (Hold q j').
Qed.

Lemma waiting_job_finished core id time s r s' :
  inv s -> admissible s (JobFinished core id time) = true ->
  scheduler_job_finished core id time s = Ok (r, s') ->
  waiting_unstarted s -> waiting_unstarted s'.
Proof.
  intros Hinv Hadm Hstep Hw.
  destruct (job_finished_result core id time s Hinv Hadm)
    as (c & p & jp & w & l1 & l2 & h1 & r0 & s0 & -> & Hcp & Hjp & _ & _ & _ & Htk &
        Hrun & _ & _ & _ & _ & Hnext).
  rewrite Hstep in Hrun. injection Hrun as <- <-.
  pose proof Htk as (Hlen & _).
  assert (forall q j', h1 !! q = Some (Some j') -> j_core j' = -1 ->
            t_started j' = -1 /\ t_remaining j' = t_total j') as Hold.
  { intros q j' Hq Hcore.
    destruct (ticked_back s time h1 q j' Htk Hq) as (j & Hj & Hjc).
    destruct (idle_unticked s time h1 q j Hinv Htk Hj) as [_ Hq']; [lia|].
    assert (j' = j) as -> by congruence. by apply (Hw q j Hj). }
  intros q j' Hj' Hcore. unfold job_at in Hj'.
  destruct (first_idle (heap s) (PriQueue.head (jobs s))) as [p2|].
  - destruct Hnext as (j2 & j2' & Hj2 & _ & Hne & Hdj & _ & _ & Hheap).
    rewrite Hheap in Hj'.
    destruct (decide (q = p2)) as [->|Hq2].
    + rewrite list_lookup_insert_eq in Hj'
        by (rewrite length_insert, Hlen; by eapply lookup_lt_Some).
      injection Hj' as <-.
      destruct (dispatch_job_fields time (Z.of_nat c) j2 j2' Hdj) as [? _]. lia.
    + rewrite list_lookup_insert_ne in Hj' by done.
      destruct (decide (q = p)) as [->|Hqp].
      * rewrite list_lookup_insert_eq in Hj'; [done|].
        rewrite Hlen. by eapply lookup_lt_Some.
      * rewrite list_lookup_insert_ne in Hj' by done. by apply (Hold q j').
  - destruct Hnext as (_ & _ & Hheap). rewrite Hheap in Hj'.
    destruct (decide (q = p)) as [->|Hqp].
    + rewrite list_lookup_insert_eq in Hj'; [done|].
      rewrite Hlen. by eapply lookup_lt_Some.
    + rewrite list_lookup_insert_ne in Hj' by done. by apply (Hold q j').
Qed.

Lemma run_waiting es s :
  preemptive (t_scheme s) = false ->
  forallb (fun e => negb (is_quantum_expiry e)) es = true ->
  inv s -> waiting_unstarted s -> conforming es s = true ->
  exists rs s', run es s = Ok (rs, s') /\ inv s' /\ waiting_unstarted s'.
Proof.
  revert s. induction es as [|e es IH]; intros s Hnp Hnq Hinv Hw Hconf.
  - by exists [], s.
  - apply conforming_cons in Hconf as [Ha Hc].
    cbn [forallb] in Hnq. apply andb_true_iff in Hnq as [He Hnq].
    destruct (step_inv e s Hinv Ha) as (r & s1 & Hs & Hinv1 & Hsc1).
    assert (waiting_unstarted s1) as Hw1.
    { destruct e as [id t rt prio|core id t|core t]; cbn [step] in Hs; [| |done].
      - by apply (waiting_new_job id t rt prio s r s1).
      - by apply (waiting_job_finished core id t s r s1). }
    destruct (IH s1) as (rs & s' & Hr & Hinv' & Hw'); try done;
      [congruence|by apply (Hc r)|].
    exists (r :: rs), s'. cbn [run]. rewrite Hs. cbn [bind]. rewrite Hr. done.
Qed.

Lemma first_idle_least (R : nat -> nat -> Prop) (h : list (option job_t)) l p2 q jq :
  StronglySorted R l -> first_idle h l = Some p2 ->
  q ∈ l -> h !! q = Some (Some jq) -> j_core jq = -1 -> q = p2 \/ R p2 q.
Proof.
  intros Hord Hfirst Hq Hjq Hcore.
  destruct (first_idle_split _ _ _ Hfirst) as (l1 & l2 & -> & Hl1).
  apply elem_of_app in Hq as [Hq|Hq].
  - destruct (Hl1 q Hq) as (jx & Hjx & Hx). congruence.
  - apply elem_of_cons in Hq as [->|Hq]; [by left|right].
    apply StronglySorted_app_1_r in Hord.
    inversion Hord as [|? ? _ Hall]; subst. rewrite Forall_forall in Hall.
    by apply Hall.
Qed.

End EventFacts.

(** ** Arrivals *)

(** Under every discipline, when a core is idle an arriving job gets
    the idle core with the lowest index and that index is returned; the
    job has waited 0, starts at the time of the call, and is in the
    queue. *)
Theorem arrival_takes_lowest_idle_core job_number time running_time prio s (i : nat) :
  inv s -> admissible s (NewJob job_number time running_time prio) = true ->
  c_job s !! i = Some None ->
  (forall i', (i' < i)%nat -> c_job s !! i' <> Some None) ->
  exists s',
    scheduler_new_job job_number time running_time prio s = Ok (Z.of_nat i, s') /\
    c_job s' = <[i := Some (length (heap s))]> (c_job s) /\
    job_at s' (length (heap s))
      (mkjob time running_time running_time (Some 0) time time None
             job_number prio (Z.of_nat i)) /\
    queued s' (length (heap s)).
Proof.
  intros Hinv Hadm Hi Hlow.
  pose proof Hadm as (Htime & _)%admissible_new_job.
  destruct (EventFacts.new_job_full job_number time running_time prio s Hinv Hadm)
    as (h1 & r & s' & l1 & l2 & Htick & Hrun & Hinv' & Hl & Hjobs & _ & _ & _ & Hcase).
  destruct (EventFacts.new_job_prefix job_number time running_time prio s Hinv Htime)
    as (h1' & Htick' & _ & Hlen & _).
  assert (h1' = h1) as -> by (rewrite Htick in Htick'; by injection Htick').
  destruct Hcase as [(i0 & -> & Hi0 & Hbelow & Hcj & Hheap)|[(Hbusy & _)|(Hbusy & _)]].
  - assert (i0 = i) as ->.
    { destruct (Nat.lt_trichotomy i0 i) as [Hlt|[->|Hgt]]; [|done|].
      - by destruct (Hlow i0 Hlt).
      - destruct (Hbelow i Hgt) as [p Hp]. congruence. }
    exists s'. split_and!; try done.
    + unfold job_at. rewrite Hheap. rewrite list_lookup_insert_eq by lia. done.
    + unfold queued. rewrite Hjobs. simpl. apply elem_of_app. right. by left.
  - destruct (Hbusy i) as (p & j & Hp & _); [by eapply lookup_lt_Some|]. congruence.
  - destruct (Hbusy i) as (p & j & Hp & _); [by eapply lookup_lt_Some|]. congruence.
Qed.

Lemma arrival_takes_lowest_idle_core_witness :
  exists rs s s',
    run [NewJob 1 0 9 0] (scheduler_start_up 3 SJF) = Ok (rs, s) /\
    inv s /\ admissible s (NewJob 2 4 7 0) = true /\
    c_job s !! 1%nat = Some None /\
    scheduler_new_job 2 4 7 0 s = Ok (1, s') /\
    job_at s' 1%nat (mkjob 4 7 7 (Some 0) 4 4 None 2 0 1).
Proof.
  assert (inv (scheduler_start_up 3 SJF)) as Hinv0 by (apply inv_start_up; lia).
  destruct (run_inv [NewJob 1 0 9 0] (scheduler_start_up 3 SJF) Hinv0 eq_refl)
    as (rs & s & Hrun & Hinv & _).
  pose proof Hrun as Hrun'. vm_compute in Hrun'. injection Hrun' as <- <-.
  set (s := mksched _ _ _ _ _ _ _ _ _ _) in *.
  destruct (arrival_takes_lowest_idle_core 2 4 7 0 s 1 Hinv eq_refl eq_refl)
    as (s' & Hnew & _ & Hjob & _).
  { intros [|i'] Hlt; [discriminate|lia]. }
  exists [0], s, s'. split; [exact Hrun|]. split; [exact Hinv|].
  split; [reflexivity|]. split; [reflexivity|]. split; [exact Hnew|exact Hjob].
Defined.

(** Under FCFS, SJF, PRI and RR, when every core is taken an arriving
    job takes none: the call returns -1, the cores keep their jobs, and
    the job is in the queue with no core and no start time. *)
Theorem arrival_waits_without_preemption job_number time running_time prio s :
  inv s -> admissible s (NewJob job_number time running_time prio) = true ->
  all_busy s -> preemptive (t_scheme s) = false ->
  exists s',
    scheduler_new_job job_number time running_time prio s = Ok (-1, s') /\
    c_job s' = c_job s /\
    job_at s' (length (heap s))
      (mkjob time running_time running_time None (-1) (-1) None job_number prio (-1)) /\
    queued s' (length (heap s)).
Proof.
  intros Hinv Hadm Hbusy Hpre.
  pose proof Hadm as (Htime & _)%admissible_new_job.
  destruct (EventFacts.new_job_full job_number time running_time prio s Hinv Hadm)
    as (h1 & r & s' & l1 & l2 & Htick & Hrun & Hinv' & Hl & Hjobs & _ & _ & _ & Hcase).
  destruct (EventFacts.new_job_prefix job_number time running_time prio s Hinv Htime)
    as (h1' & Htick' & _ & Hlen & Hfresh & _).
  assert (h1' = h1) as -> by (rewrite Htick in Htick'; by injection Htick').
  destruct Hcase as [(i0 & -> & Hi0 & _)|[(_ & c & o & jo & _ & _ & _ & _ & _ & Hsch)|
                                          (_ & -> & Hcj & Hheap & _)]].
  - destruct (Hbusy i0) as (p & j & Hp & _); [by eapply lookup_lt_Some|]. congruence.
  - by destruct (t_scheme s).
  - exists s'. split_and!; try done.
    + unfold job_at. by rewrite Hheap.
    + unfold queued. rewrite Hjobs. simpl. apply elem_of_app. right. by left.
Qed.

Lemma arrival_waits_without_preemption_witness :
  exists rs s s',
    run [NewJob 1 0 9 0] (scheduler_start_up 1 PRI) = Ok (rs, s) /\
    inv s /\ admissible s (NewJob 2 4 7 0) = true /\
    all_busy s /\ preemptive (t_scheme s) = false /\
    scheduler_new_job 2 4 7 0 s = Ok (-1, s') /\
    c_job s' = c_job s.
Proof.
  assert (inv (scheduler_start_up 1 PRI)) as Hinv0 by (apply inv_start_up; lia).
  destruct (run_inv [NewJob 1 0 9 0] (scheduler_start_up 1 PRI) Hinv0 eq_refl)
    as (rs & s & Hrun & Hinv & _).
  pose proof Hrun as Hrun'. vm_compute in Hrun'. injection Hrun' as <- <-.
  set (s := mksched _ _ _ _ _ _ _ _ _ _) in *.
  assert (all_busy s) as Hbusy.
  { intros [|i] Hi; simpl in Hi; [|lia]. eexists _, _. split; reflexivity. }
  destruct (arrival_waits_without_preemption 2 4 7 0 s Hinv eq_refl Hbusy eq_refl)
    as (s' & Hnew & Hcj & _).
  exists [0], s, s'. split; [exact Hrun|]. split; [exact Hinv|].
  split; [reflexivity|]. split; [exact Hbusy|]. split; [reflexivity|].
  split; [exact Hnew|exact Hcj].
Defined.

(** Under FCFS and RR an arriving job is linked at the tail of the
    queue, behind every job of the queue, whether it gets a core or
    not. *)
Theorem arrival_joins_tail_fcfs_rr job_number time running_time prio s :
  inv s -> admissible s (NewJob job_number time running_time prio) = true ->
  t_scheme s = FCFS \/ t_scheme s = RR ->
  exists r s',
    scheduler_new_job job_number time running_time prio s = Ok (r, s') /\
    PriQueue.head (jobs s') = PriQueue.head (jobs s) ++ [length (heap s)] /\
    PriQueue.size (jobs s') = PriQueue.size (jobs s) + 1.
Proof.
  intros Hinv Hadm Hsch.
  destruct (EventFacts.new_job_full job_number time running_time prio s Hinv Hadm)
    as (h1 & r & s' & l1 & l2 & _ & Hrun & _ & Hl & Hjobs & _ & Hl2 & (_ & Hsc & _) & _).
  exists r, s'. split; [exact Hrun|]. rewrite Hjobs. simpl. split; [|done].
  destruct Hl2 as [->|(e & l2' & z & _ & Hz & Hneg)].
  - rewrite Hl. by rewrite app_nil_r.
  - unfold comparer in Hz. rewrite Hsc in Hz.
    destruct Hsch as [E|E]; rewrite E in Hz; injection Hz as <-; lia.
Qed.

Lemma arrival_joins_tail_fcfs_rr_witness :
  exists rs s r s',
    run [NewJob 1 0 9 5; NewJob 2 1 7 3] (scheduler_start_up 1 RR) = Ok (rs, s) /\
    inv s /\ admissible s (NewJob 3 2 4 1) = true /\
    scheduler_new_job 3 2 4 1 s = Ok (r, s') /\
    PriQueue.head (jobs s') = PriQueue.head (jobs s) ++ [length (heap s)].
Proof.
  assert (inv (scheduler_start_up 1 RR)) as Hinv0 by (apply inv_start_up; lia).
  destruct (run_inv [NewJob 1 0 9 5; NewJob 2 1 7 3] (scheduler_start_up 1 RR)
              Hinv0 eq_refl) as (rs & s & Hrun & Hinv & Hsc).
  assert (admissible s (NewJob 3 2 4 1) = true) as Hadm.
  { vm_compute in Hrun. by injection Hrun as <- <-. }
  destruct (arrival_joins_tail_fcfs_rr 3 2 4 1 s Hinv Hadm) as (r & s' & Hnew & Hhead & _).
  { right. by rewrite Hsc. }
  exists rs, s, r, s'. done.
Defined.

(** Under PSJF, with every core taken: if some running job has, after
    the clock advance, more time left than the arriving job needs (and
    more than the -1 the scan starts from), the arriving job takes the
    core of the running job with the most time left, the lowest such
    core if several have as much; that job stays in the queue with no
    core.  If no running job has more left, the call returns -1 and the
    cores keep their jobs. *)
Theorem psjf_preemption_target job_number time running_time prio s :
  inv s -> t_scheme s = PSJF ->
  admissible s (NewJob job_number time running_time prio) = true ->
  all_busy s ->
  ((exists i p j, c_job s !! i = Some (Some p) /\ job_at s p j /\
                  Z.max running_time (-1) < t_remaining (tick_job time j)) ->
   exists (c : nat) o jo s',
     scheduler_new_job job_number time running_time prio s = Ok (Z.of_nat c, s') /\
     c_job s !! c = Some (Some o) /\ job_at s o jo /\
     Z.max running_time (-1) < t_remaining (tick_job time jo) /\
     (forall i p j, c_job s !! i = Some (Some p) -> job_at s p j ->
        t_remaining (tick_job time j) <= t_remaining (tick_job time jo) /\
        (t_remaining (tick_job time j) = t_remaining (tick_job time jo) -> (c <= i)%nat)) /\
     c_job s' = <[c := Some (length (heap s))]> (c_job s) /\
     queued s' (length (heap s)) /\
     job_at s' o (evict_job time (tick_job time jo)) /\
     j_core (evict_job time (tick_job time jo)) = -1) /\
  ((forall i p j, c_job s !! i = Some (Some p) -> job_at s p j ->
      t_remaining (tick_job time j) <= Z.max running_time (-1)) ->
   exists s',
     scheduler_new_job job_number time running_time prio s = Ok (-1, s') /\
     c_job s' = c_job s).
Proof.
  intros Hinv Hsch Hadm Hbusy.
  pose proof Hadm as (Htime & _)%admissible_new_job.
  destruct (EventFacts.new_job_full job_number time running_time prio s Hinv Hadm)
    as (h1 & r & s' & l1 & l2 & Htick & Hrun & Hinv' & Hl & Hjobs & _ & _ & _ & Hcase).
  destruct (EventFacts.new_job_prefix job_number time running_time prio s Hinv Htime)
    as (h1' & Htick' & _ & Hlen & _ & _ & _ & Hon & _).
  assert (h1' = h1) as -> by (rewrite Htick in Htick'; by injection Htick').
  set (s1 := with_heap h1 (arrival_state job_number time running_time prio s)) in *.
  assert (all_busy s1) as Hbusy1.
  { intros k Hk. destruct (Hbusy k Hk) as (p & j & Hp & Hj).
    exists p, (tick_job time j). split; [done|]. by destruct (Hon k p j Hp Hj). }
  destruct (EventFacts.psjf_scan_spec (length (c_job s)) 0 running_time (-1) (-1) s1)
    as (ctc & cjl & Hscan & Hst); [done|done| |].
  { left. split_and!; try done. intros ? ? ? ?. lia. }
  change (Z.of_nat 0) with 0 in Hscan. change (c_job s1) with (c_job s) in Hst.
  assert (forall i p j, c_job s !! i = Some (Some p) -> job_at s p j ->
            (i < length (c_job s))%nat /\ job_at s1 p (tick_job time j)) as Hs1.
  { intros i p j Hp Hj. split; [by eapply lookup_lt_Some|].
    by destruct (Hon i p j Hp Hj). }
  assert (queued s' (length (heap s))) as Hqd.
  { unfold queued. rewrite Hjobs. simpl. apply elem_of_app. right. by left. }
  rewrite Hsch in Hcase.
  destruct Hcase as [(i0 & -> & Hi0 & _)|[(_ & c & o & jo & -> & Hc & Hjo & Hcj & Hheap & Hr)|
                                          (_ & -> & Hcj & _ & Hr)]].
  - destruct (Hbusy i0) as (p & j & Hp & _); [by eapply lookup_lt_Some|]. congruence.
  - rewrite Hr in Hscan. injection Hscan as <-.
    destruct Hst as [(Hneg & _)|(c' & pc & jc & Hcc & _ & Hpc & Hjc & Hcjl & Hm & Hmax)];
      [lia|].
    assert (c' = c) as -> by lia.
    change (c_job s1) with (c_job s) in Hpc.
    assert (pc = o) as -> by congruence.
    destruct (Hs1 c o jo Hc Hjo) as [_ Hjo1].
    assert (jc = tick_job time jo) as -> by (unfold job_at in *; congruence).
    split.
    + intros _. exists c, o, jo, s'. split_and!; try done; [lia| | |].
      * intros i p j Hp Hj. destruct (Hs1 i p j Hp Hj) as [Hi Hj1].
        rewrite Hcjl. by apply (Hmax i p (tick_job time j)).
      * unfold job_at. rewrite Hheap. rewrite list_lookup_insert_eq; [done|].
        rewrite length_insert. apply lookup_lt_Some in Hjo. lia.
      * by destruct (evict_job_fields time (tick_job time jo)) as (? & _).
    + intros Hall. specialize (Hall c o jo Hc Hjo). lia.
  - rewrite Hr in Hscan. injection Hscan as <-.
    destruct Hst as [(_ & _ & Hno)|(c' & _ & _ & Hcc & _)]; [|lia].
    split.
    + intros (i & p & j & Hp & Hj & Hgt). destruct (Hs1 i p j Hp Hj) as [Hi Hj1].
      specialize (Hno i p (tick_job time j) Hi Hp Hj1). lia.
    + intros _. exists s'. done.
Qed.

Lemma psjf_preemption_target_witness :
  exists rs s (c : nat) s',
    run [NewJob 1 0 9 0; NewJob 2 1 20 0] (scheduler_start_up 2 PSJF) = Ok (rs, s) /\
    inv s /\ t_scheme s = PSJF /\ admissible s (NewJob 3 4 5 0) = true /\
    all_busy s /\
    (exists i p j, c_job s !! i = Some (Some p) /\ job_at s p j /\
                   Z.max 5 (-1) < t_remaining (tick_job 4 j)) /\
    scheduler_new_job 3 4 5 0 s = Ok (Z.of_nat c, s') /\
    c_job s !! c = Some (Some 1%nat).
Proof.
  assert (inv (scheduler_start_up 2 PSJF)) as Hinv0 by (apply inv_start_up; lia).
  destruct (run_inv [NewJob 1 0 9 0; NewJob 2 1 20 0] (scheduler_start_up 2 PSJF)
              Hinv0 eq_refl) as (rs & s & Hrun & Hinv & Hsc).
  pose proof Hrun as Hrun'. vm_compute in Hrun'. injection Hrun' as <- <-.
  set (s := mksched _ _ _ _ _ _ _ _ _ _) in *.
  assert (all_busy s) as Hbusy.
  { intros [|[|i]] Hi; simpl in Hi; [| |lia]; eexists _, _; split; reflexivity. }
  assert (exists i p j, c_job s !! i = Some (Some p) /\ job_at s p j /\
                        Z.max 5 (-1) < t_remaining (tick_job 4 j)) as Hqual.
  { exists 1%nat. eexists _, _. split; [reflexivity|]. split; [reflexivity|].
    vm_compute. reflexivity. }
  destruct (psjf_preemption_target 3 4 5 0 s Hinv eq_refl eq_refl Hbusy) as [Hpre _].
  destruct (Hpre Hqual) as (c & o & jo & s' & Hnew & Hc & Hjo & Hgt & Hmax & _).
  exists [0; 1], s, c, s'. split; [exact Hrun|]. split; [exact Hinv|].
  split; [reflexivity|]. split; [reflexivity|]. split; [exact Hbusy|].
  split; [exact Hqual|]. split; [exact Hnew|].
  (* the job with 20 units is the one replaced *)
  destruct (Hmax 1%nat 1%nat _ eq_refl eq_refl) as [Hle _].
  destruct c as [|[|c]]; simpl in Hc.
  - injection Hc as <-. unfold job_at in Hjo. simpl in Hjo. injection Hjo as <-.
    vm_compute in Hle. by destruct Hle.
  - done.
  - apply lookup_lt_Some in Hc. simpl in Hc. lia.
Defined.

(** ** Completions *)

(** When a job finishes, the core goes to the first job of the queue,
    in the order of the queue, that is on no core, and the number of
    that job is returned; if every queued job is on a core the call
    returns -1 and the core stays idle.  A job that never ran starts at
    the time of the call and has waited since its arrival; a job that
    ran before keeps its start time, and the time since it lost its
    core is added to its waiting time. *)
Theorem completion_gives_core_to_first_idle core_id job_number time s :
  inv s -> admissible s (JobFinished core_id job_number time) = true ->
  exists (c : nat) r s',
    core_id = Z.of_nat c /\
    scheduler_job_finished core_id job_number time s = Ok (r, s') /\
    match first_idle (heap s) (PriQueue.head (jobs s)) with
    | None => r = -1 /\ c_job s' = <[c := None]> (c_job s)
    | Some p2 =>
        exists j2 j2',
          job_at s p2 j2 /\ j_core j2 = -1 /\ r = job_id j2 /\
          c_job s' = <[c := Some p2]> (c_job s) /\
          job_at s' p2 j2' /\ j_core j2' = core_id /\
          (t_started j2 = -1 ->
           t_started j2' = time /\ t_waiting j2' = Some (wrap (time - t_arrival j2))) /\
          (t_started j2 <> -1 ->
           t_started j2' = t_started j2 /\
           exists w, t_waiting j2 = Some w /\
                     t_waiting j2' = Some (wrap (w + wrap (time - t_updated j2))))
    end.
Proof.
  intros Hinv Hadm.
  destruct (EventFacts.job_finished_result core_id job_number time s Hinv Hadm)
    as (c & p & jp & w & l1 & l2 & h1 & r & s' & -> & Hcp & Hjp & _ & _ & _ & Htk & Hrun &
        _ & _ & _ & _ & Hnext).
  exists c, r, s'. split; [done|]. split; [exact Hrun|].
  destruct (first_idle (heap s) (PriQueue.head (jobs s))) as [p2|].
  - destruct Hnext as (j2 & j2' & Hj2 & Hc2 & Hne & Hdj & -> & Hcj & Hheap).
    destruct (EventFacts.dispatch_job_fields _ _ _ _ Hdj) as (Hcore & _ & _ & _ & Hnew & Hold).
    exists j2, j2'. split_and!; try done.
    unfold job_at. rewrite Hheap. rewrite list_lookup_insert_eq; [done|].
    rewrite length_insert. destruct Htk as (-> & _). by eapply lookup_lt_Some.
  - by destruct Hnext as (-> & Hcj & _).
Qed.

Lemma completion_gives_core_to_first_idle_witness :
  exists rs s s' j2',
    run [NewJob 1 0 5 0; NewJob 2 1 3 0; NewJob 3 2 2 0] (scheduler_start_up 1 FCFS)
      = Ok (rs, s) /\
    inv s /\ admissible s (JobFinished 0 1 5) = true /\
    first_idle (heap s) (PriQueue.head (jobs s)) = Some 1%nat /\
    scheduler_job_finished 0 1 5 s = Ok (2, s') /\
    job_at s' 1%nat j2' /\ t_waiting j2' = Some 4.
Proof.
  assert (inv (scheduler_start_up 1 FCFS)) as Hinv0 by (apply inv_start_up; lia).
  destruct (run_inv [NewJob 1 0 5 0; NewJob 2 1 3 0; NewJob 3 2 2 0]
              (scheduler_start_up 1 FCFS) Hinv0 eq_refl) as (rs & s & Hrun & Hinv & _).
  pose proof Hrun as Hrun'. vm_compute in Hrun'. injection Hrun' as <- <-.
  set (s := mksched _ _ _ _ _ _ _ _ _ _) in *.
  destruct (completion_gives_core_to_first_idle 0 1 5 s Hinv eq_refl)
    as (c & r & s' & Hc & Hfin & Hnext).
  change (first_idle (heap s) (PriQueue.head (jobs s))) with (Some 1%nat) in Hnext.
  destruct Hnext as (j2 & j2' & Hj2 & _ & -> & _ & Hj2' & _ & Hnew & _).
  unfold job_at in Hj2. simpl in Hj2. injection Hj2 as <-.
  destruct Hnew as [_ Hw]; [reflexivity|].
  exists [0; -1; -1], s, s', j2'. split; [exact Hrun|]. split; [exact Hinv|].
  split; [reflexivity|]. split; [reflexivity|]. split; [exact Hfin|].
  split; [exact Hj2'|exact Hw].
Defined.

(** When a job finishes, its times are added to the three sums: the
    turnaround (the time of the call minus its arrival), its waiting
    time, and its response (its start minus its arrival); its object is
    freed and is no longer in the queue, and [n_jobs] does not change. *)
Theorem completion_adds_times_to_sums core_id job_number time s :
  inv s -> admissible s (JobFinished core_id job_number time) = true ->
  exists (c : nat) p jp w r s',
    core_id = Z.of_nat c /\ c_job s !! c = Some (Some p) /\ job_at s p jp /\
    job_id jp = job_number /\ t_waiting jp = Some w /\
    scheduler_job_finished core_id job_number time s = Ok (r, s') /\
    t_turnaround s' =
      fadd (t_turnaround s) (fsub (float_of_int time) (float_of_int (t_arrival jp))) /\
    t_wait s' = fadd (t_wait s) (float_of_int w) /\
    t_response s' =
      fadd (t_response s)
        (fsub (float_of_int (t_started jp)) (float_of_int (t_arrival jp))) /\
    n_jobs s' = n_jobs s /\
    heap s' !! p = Some None /\ ~ queued s' p.
Proof.
  intros Hinv Hadm.
  destruct (EventFacts.job_finished_result core_id job_number time s Hinv Hadm)
    as (c & p & jp & w & l1 & l2 & h1 & r & s' & -> & Hcp & Hjp & Hid & Hw & Hhead & Htk &
        Hrun & Hinv' & Hjobs & (Hrs & Hwt & Htt) & (_ & _ & _ & Hnj) & Hnext).
  exists c, p, jp, w, r, s'. split_and!; try done.
  - assert (p < length h1)%nat as Hlt.
    { destruct Htk as (-> & _). by eapply lookup_lt_Some. }
    destruct (first_idle (heap s) (PriQueue.head (jobs s))) as [p2|].
    + destruct Hnext as (j2 & j2' & _ & _ & Hne & _ & _ & _ & ->).
      rewrite list_lookup_insert_ne by done. by rewrite list_lookup_insert_eq.
    + destruct Hnext as (_ & _ & ->). by rewrite list_lookup_insert_eq.
  - unfold queued. rewrite Hjobs. simpl.
    destruct Hinv as (_ & (_ & Hnd & _) & _). rewrite Hhead in Hnd.
    apply NoDup_app in Hnd as (_ & Hd & Hn2). apply NoDup_cons in Hn2 as [Hn2 _].
    intros [Hx|Hx]%elem_of_app; [|done]. apply (Hd p Hx). by left.
Qed.

Lemma completion_adds_times_to_sums_witness :
  exists rs s r s',
    run [NewJob 1 0 5 0; NewJob 2 1 3 0; JobFinished 0 1 5] (scheduler_start_up 1 FCFS)
      = Ok (rs, s) /\
    inv s /\ admissible s (JobFinished 0 2 8) = true /\
    scheduler_job_finished 0 2 8 s = Ok (r, s') /\
    t_turnaround s' = float_of_int 12 /\ t_wait s' = float_of_int 4.
Proof.
  assert (inv (scheduler_start_up 1 FCFS)) as Hinv0 by (apply inv_start_up; lia).
  destruct (run_inv [NewJob 1 0 5 0; NewJob 2 1 3 0; JobFinished 0 1 5]
              (scheduler_start_up 1 FCFS) Hinv0 eq_refl) as (rs & s & Hrun & Hinv & _).
  pose proof Hrun as Hrun'. vm_compute in Hrun'. injection Hrun' as <- <-.
  set (s := mksched _ _ _ _ _ _ _ _ _ _) in *.
  destruct (completion_adds_times_to_sums 0 2 8 s Hinv eq_refl)
    as (c & p & jp & w & r & s' & Hc & Hcp & Hjp & _ & Hw & Hfin & Htt & Hwt & _).
  assert (c = 0%nat) as -> by lia.
  simpl in Hcp. injection Hcp as <-.
  unfold job_at in Hjp. simpl in Hjp. injection Hjp as <-.
  simpl in Hw. injection Hw as <-.
  exists [0; -1; 2], s, r, s'. split; [exact Hrun|]. split; [exact Hinv|].
  split; [reflexivity|]. split; [exact Hfin|].
  split; [rewrite Htt|rewrite Hwt]; vm_compute; reflexivity.
Defined.

(** ** The end of a quantum *)

(** A quantum expiry for a job that has, after the clock advance, no
    time left ends that job as a completion does: it leaves the queue,
    its object is freed and its times are added to the sums.  A job
    with time left loses the core but stays in the queue, which keeps
    its size and its jobs, and the sums do not change; the core is not
    left idle, since that job itself is then on no core. *)
Theorem quantum_expiry_requeues_or_ends core_id time s :
  inv s -> admissible s (QuantumExpired core_id time) = true ->
  exists (c : nat) p jp w r s',
    core_id = Z.of_nat c /\ c_job s !! c = Some (Some p) /\ job_at s p jp /\
    t_waiting jp = Some w /\
    scheduler_quantum_expired core_id time s = Ok (r, s') /\
    (t_remaining (tick_job time jp) = 0 ->
     PriQueue.size (jobs s') = PriQueue.size (jobs s) - 1 /\
     heap s' !! p = Some None /\ ~ queued s' p /\
     t_turnaround s' =
       fadd (t_turnaround s) (fsub (float_of_int time) (float_of_int (t_arrival jp))) /\
     t_wait s' = fadd (t_wait s) (float_of_int w) /\
     t_response s' =
       fadd (t_response s)
         (fsub (float_of_int (t_started jp)) (float_of_int (t_arrival jp)))) /\
    (t_remaining (tick_job time jp) <> 0 ->
     PriQueue.size (jobs s') = PriQueue.size (jobs s) /\
     PriQueue.head (jobs s') ≡ₚ PriQueue.head (jobs s) /\
     (exists p2 j2, c_job s' = <[c := Some p2]> (c_job s) /\ job_at s' p2 j2 /\
                    r = job_id j2) /\
     t_turnaround s' = t_turnaround s /\ t_wait s' = t_wait s /\
     t_response s' = t_response s).
Proof.
  intros Hinv Hadm.
  destruct (EventFacts.quantum_expired_result core_id time s Hinv Hadm)
    as (c & p & jp & w & l1 & l2 & h1 & r & s' & -> & Hcp & Hjp & Hw & Hhead & Htk &
        Hrun & Hinv' & _ & Hend & Hgo).
  assert (p < length h1)%nat as Hlt.
  { destruct Htk as (-> & _). by eapply lookup_lt_Some. }
  exists c, p, jp, w, r, s'. split_and!; try done.
  - intros Hrem. destruct (Hend Hrem) as (Hjobs & (Hrs & Hwt & Htt) & Hnext).
    rewrite Hjobs. simpl. split_and!; try done.
    + destruct (first_idle (heap s) (PriQueue.head (jobs s))) as [p2|].
      * destruct Hnext as (j2 & j2' & _ & _ & Hne & _ & _ & _ & ->).
        rewrite list_lookup_insert_ne by done. by rewrite list_lookup_insert_eq.
      * destruct Hnext as (_ & _ & ->). by rewrite list_lookup_insert_eq.
    + unfold queued. rewrite Hjobs. simpl.
      destruct Hinv as (_ & (_ & Hnd & _) & _). rewrite Hhead in Hnd.
      apply NoDup_app in Hnd as (_ & Hd & Hn2). apply NoDup_cons in Hn2 as [Hn2 _].
      intros [Hx|Hx]%elem_of_app; [|done]. apply (Hd p Hx). by left.
  - intros Hrem.
    destruct (Hgo Hrem) as ((Hrs & Hwt & Htt) & m1 & m2 & Hm & Hjobs & _ & _ & Hnext).
    rewrite Hjobs. simpl. split_and!; try done.
    + rewrite Hhead, <- !Permutation_middle. by rewrite Hm.
    + destruct (first_idle (heap s) m1) as [p2|].
      * destruct Hnext as (j2 & j2' & Hj2 & _ & Hne & Hdj & -> & Hcj & Hheap).
        exists p2, j2'. split; [done|]. split.
        -- unfold job_at. rewrite Hheap. rewrite list_lookup_insert_eq; [done|].
           rewrite length_insert. destruct Htk as (-> & _). by eapply lookup_lt_Some.
        -- by destruct (EventFacts.dispatch_job_fields _ _ _ _ Hdj) as (_ & -> & _).
      * destruct Hnext as (jp' & Hdj & -> & Hcj & Hheap).
        exists p, jp'. split; [by rewrite Hcj, list_insert_id|]. split.
        -- unfold job_at. rewrite Hheap. by rewrite list_lookup_insert_eq.
        -- destruct (EventFacts.dispatch_job_fields _ _ _ _ Hdj) as (_ & -> & _).
           simpl. by destruct (tick_job_rel time jp) as (-> & _).
Qed.

Lemma quantum_expiry_requeues_or_ends_witness :
  exists rs s r s',
    run [NewJob 1 0 5 0; NewJob 2 1 3 0] (scheduler_start_up 1 RR) = Ok (rs, s) /\
    inv s /\ admissible s (QuantumExpired 0 2) = true /\
    scheduler_quantum_expired 0 2 s = Ok (r, s') /\
    PriQueue.size (jobs s') = PriQueue.size (jobs s).
Proof.
  assert (inv (scheduler_start_up 1 RR)) as Hinv0 by (apply inv_start_up; lia).
  destruct (run_inv [NewJob 1 0 5 0; NewJob 2 1 3 0] (scheduler_start_up 1 RR)
              Hinv0 eq_refl) as (rs & s & Hrun & Hinv & _).
  pose proof Hrun as Hrun'. vm_compute in Hrun'. injection Hrun' as <- <-.
  set (s := mksched _ _ _ _ _ _ _ _ _ _) in *.
  destruct (quantum_expiry_requeues_or_ends 0 2 s Hinv eq_refl)
    as (c & p & jp & w & r & s' & Hc & Hcp & Hjp & _ & Hq & _ & Hgo).
  assert (c = 0%nat) as -> by lia.
  simpl in Hcp. injection Hcp as <-.
  unfold job_at in Hjp. simpl in Hjp. injection Hjp as <-.
  destruct Hgo as (Hsz & _); [vm_compute; discriminate|].
  exists [0; -1], s, r, s'. split; [exact Hrun|]. split; [exact Hinv|].
  split; [reflexivity|]. split; [exact Hq|exact Hsz].
Defined.

(** Under RR (and under FCFS) the job whose quantum expired with time
    left goes to the tail of the queue, behind every other job, and the
    core goes to the first job of the queue that was on no core; when
    every other job is on a core the same job keeps the core and its
    number is returned. *)
Theorem rr_quantum_rotates core_id time s :
  inv s -> t_scheme s = RR \/ t_scheme s = FCFS ->
  admissible s (QuantumExpired core_id time) = true ->
  exists (c : nat) p jp l1 l2 r s',
    core_id = Z.of_nat c /\ c_job s !! c = Some (Some p) /\ job_at s p jp /\
    PriQueue.head (jobs s) = l1 ++ p :: l2 /\
    scheduler_quantum_expired core_id time s = Ok (r, s') /\
    (t_remaining (tick_job time jp) <> 0 ->
     PriQueue.head (jobs s') = l1 ++ l2 ++ [p] /\
     match first_idle (heap s) (PriQueue.head (jobs s)) with
     | Some p2 =>
         exists j2, job_at s p2 j2 /\ r = job_id j2 /\ p2 <> p /\
                    c_job s' = <[c := Some p2]> (c_job s) /\
                    exists jp', job_at s' p jp' /\ j_core jp' = -1
     | None =>
         r = job_id jp /\ c_job s' = c_job s /\
         exists jp', job_at s' p jp' /\ j_core jp' = core_id
     end).
Proof.
  intros Hinv Hsch Hadm.
  destruct (EventFacts.quantum_expired_result core_id time s Hinv Hadm)
    as (c & p & jp & w & l1 & l2 & h1 & r & s' & -> & Hcp & Hjp & Hw & Hhead & Htk &
        Hrun & Hinv' & _ & _ & Hgo).
  assert (p < length h1)%nat as Hlt.
  { destruct Htk as (-> & _). by eapply lookup_lt_Some. }
  pose proof Hinv as (_ & (_ & _ & Hq) & _ & Hc).
  exists c, p, jp, l1, l2, r, s'. split_and!; try done.
  intros Hrem.
  destruct (Hgo Hrem) as (_ & m1 & m2 & Hm & Hjobs & _ & H2 & Hnext).
  assert (m2 = []) as ->.
  { destruct H2 as [->|(e & m2' & z & _ & Hz & Hneg)]; [done|].
    unfold comparer in Hz. simpl in Hz.
    destruct Hsch as [E|E]; rewrite E in Hz; injection Hz as <-; lia. }
  rewrite app_nil_r in Hm. subst m1.
  split; [rewrite Hjobs; simpl; by rewrite <- app_assoc|].
  assert (first_idle (heap s) (l1 ++ l2) = first_idle (heap s) (PriQueue.head (jobs s)))
    as Hskip.
  { rewrite Hhead. symmetry.
    destruct (Hc c p) as (_ & jp2 & Hjp2 & Hcore & _); [done|done|].
    apply (EventFacts.first_idle_skip (heap s) l1 p l2 jp2); [done|lia|].
    intros x Hx. destruct (Hq x) as (jx & ? & _); [|eauto].
    unfold queued. rewrite Hhead. apply elem_of_app. by left. }
  rewrite <- Hskip.
  destruct (first_idle (heap s) (l1 ++ l2)) as [p2|].
  - destruct Hnext as (j2 & j2' & Hj2 & _ & Hne & Hdj & -> & Hcj & Hheap).
    exists j2. split_and!; try done.
    eexists. split.
    + unfold job_at. rewrite Hheap. rewrite list_lookup_insert_ne by done.
      by rewrite list_lookup_insert_eq.
    + done.
  - destruct Hnext as (jp' & Hdj & -> & Hcj & Hheap).
    split_and!; try done. exists jp'. split.
    + unfold job_at. rewrite Hheap. by rewrite list_lookup_insert_eq.
    + by destruct (EventFacts.dispatch_job_fields _ _ _ _ Hdj) as (-> & _).
Qed.

Lemma rr_quantum_rotates_witness :
  exists rs s r s',
    run [NewJob 1 0 5 0; NewJob 2 1 3 0; NewJob 3 1 4 0] (scheduler_start_up 1 RR)
      = Ok (rs, s) /\
    inv s /\ admissible s (QuantumExpired 0 2) = true /\
    PriQueue.head (jobs s) = [0%nat; 1%nat; 2%nat] /\
    scheduler_quantum_expired 0 2 s = Ok (r, s') /\
    PriQueue.head (jobs s') = [1%nat; 2%nat; 0%nat] /\
    r = 2.
Proof.
  assert (inv (scheduler_start_up 1 RR)) as Hinv0 by (apply inv_start_up; lia).
  destruct (run_inv [NewJob 1 0 5 0; NewJob 2 1 3 0; NewJob 3 1 4 0]
              (scheduler_start_up 1 RR) Hinv0 eq_refl) as (rs & s & Hrun & Hinv & _).
  pose proof Hrun as Hrun'. vm_compute in Hrun'. injection Hrun' as <- <-.
  set (s := mksched _ _ _ _ _ _ _ _ _ _) in *.
  destruct (rr_quantum_rotates 0 2 s Hinv (or_introl eq_refl) eq_refl)
    as (c & p & jp & l1 & l2 & r & s' & Hc & Hcp & Hjp & Hhead & Hq & Hgo).
  assert (c = 0%nat) as -> by lia.
  simpl in Hcp. injection Hcp as <-.
  unfold job_at in Hjp. simpl in Hjp. injection Hjp as <-.
  destruct l1 as [|x [|y [|z l1]]]; simpl in Hhead;
    [|discriminate|discriminate|destruct l1; discriminate].
  injection Hhead as <-.
  destruct Hgo as (Hh' & Hnext); [vm_compute; discriminate|].
  change (first_idle (heap s) (PriQueue.head (jobs s))) with (Some 1%nat) in Hnext.
  destruct Hnext as (j2 & Hj2 & -> & _).
  unfold job_at in Hj2. simpl in Hj2. injection Hj2 as <-.
  exists [0; -1; -1], s, 2, s'. split; [exact Hrun|]. split; [exact Hinv|].
  split; [reflexivity|]. split; [reflexivity|]. split; [exact Hq|].
  split; [exact Hh'|reflexivity].
Defined.

(** ** The job objects *)

(** After [scheduler_start_up] and any calls made as the simulator
    makes them, the job objects that are allocated are the jobs of the
    queue: every object that [scheduler_new_job] allocated is freed by
    the call that ends its job and not before, and none is lost. *)
Theorem no_job_object_leaks cores scheme es :
  0 < cores ->
  conforming es (scheduler_start_up cores scheme) = true ->
  exists rs s,
    run es (scheduler_start_up cores scheme) = Ok (rs, s) /\
    (forall p, (exists j, job_at s p j) <-> queued s p) /\
    NoDup (PriQueue.head (jobs s)) /\
    PriQueue.size (jobs s) = Z.of_nat (length (PriQueue.head (jobs s))).
Proof.
  intros Hc Hconf.
  destruct (EventFacts.run_no_leak es (scheduler_start_up cores scheme))
    as (rs & s & Hrun & Hinv & Hleak); [by apply inv_start_up| |done|].
  { intros p j Hj. unfold job_at in Hj. simpl in Hj. by rewrite lookup_nil in Hj. }
  exists rs, s. split; [done|].
  destruct Hinv as (_ & (Hwf & Hnd & Hq) & _). split_and!; try done.
  intros p. split.
  - intros [j Hj]. by apply (Hleak p j).
  - intros Hp. destruct (Hq p Hp) as (j & Hj & _). eauto.
Qed.

Lemma no_job_object_leaks_witness :
  exists rs s,
    run [NewJob 1 0 5 0; NewJob 2 1 3 0; JobFinished 0 1 5; JobFinished 0 2 8]
      (scheduler_start_up 1 SJF) = Ok (rs, s) /\
    (forall p, (exists j, job_at s p j) <-> queued s p) /\
    PriQueue.head (jobs s) = [] /\ heap s = [None; None].
Proof.
  destruct (no_job_object_leaks 1 SJF
              [NewJob 1 0 5 0; NewJob 2 1 3 0; JobFinished 0 1 5; JobFinished 0 2 8])
    as (rs & s & Hrun & Hiff & _); [lia|vm_compute; reflexivity|].
  exists rs, s. split; [exact Hrun|]. split; [exact Hiff|].
  vm_compute in Hrun. by injection Hrun as <- <-.
Defined.

(** [scheduler_clean_up] after such calls returns, and frees no job:
    the objects of the jobs that are still in the queue stay allocated,
    and they are all that stays; when every job has finished nothing
    stays. *)
Theorem clean_up_keeps_unfinished_jobs cores scheme es :
  0 < cores ->
  conforming es (scheduler_start_up cores scheme) = true ->
  exists rs s h,
    run es (scheduler_start_up cores scheme) = Ok (rs, s) /\
    PriQueue.priqueue_destroy (jobs s) = Ok PriQueue.priqueue_init /\
    scheduler_clean_up s = Ok h /\
    (forall p, (exists j, h !! p = Some (Some j)) <-> queued s p) /\
    (PriQueue.priqueue_size (jobs s) = 0 -> forall p j, h !! p <> Some (Some j)).
Proof.
  intros Hc Hconf.
  destruct (EventFacts.run_no_leak es (scheduler_start_up cores scheme))
    as (rs & s & Hrun & Hinv & Hleak); [by apply inv_start_up| |done|].
  { intros p j Hj. unfold job_at in Hj. simpl in Hj. by rewrite lookup_nil in Hj. }
  destruct Hinv as ((_ & Hbd) & (Hwf & Hnd & Hq) & _).
  assert (PriQueue.priqueue_destroy (jobs s) = Ok PriQueue.priqueue_init) as Hd.
  { unfold PriQueue.priqueue_destroy, PriQueue.wf in *. rewrite Hwf.
    apply PriQueueMore.destroy_walk_spec. lia. }
  exists rs, s, (heap s). split; [done|]. split; [exact Hd|].
  split; [unfold scheduler_clean_up; by rewrite Hd|].
  assert (forall p, (exists j, heap s !! p = Some (Some j)) <-> queued s p) as Hiff.
  { intros p. split.
    - intros [j Hj]. by apply (Hleak p j).
    - intros Hp. destruct (Hq p Hp) as (j & Hj & _). eauto. }
  split; [exact Hiff|].
  intros Hsz p j Hp. assert (queued s p) as Hqp by (apply Hiff; eauto).
  unfold queued in Hqp. unfold PriQueue.wf, PriQueue.priqueue_size in *.
  destruct (PriQueue.head (jobs s)); [by apply elem_of_nil in Hqp|simpl in *; lia].
Qed.

Lemma clean_up_keeps_unfinished_jobs_witness :
  exists rs s h j,
    run [NewJob 1 0 5 0; NewJob 2 1 3 0; JobFinished 0 1 5] (scheduler_start_up 1 SJF)
      = Ok (rs, s) /\
    scheduler_clean_up s = Ok h /\
    h !! 0%nat = Some None /\ h !! 1%nat = Some (Some j) /\ job_id j = 2.
Proof.
  destruct (clean_up_keeps_unfinished_jobs 1 SJF
              [NewJob 1 0 5 0; NewJob 2 1 3 0; JobFinished 0 1 5])
    as (rs & s & h & Hrun & _ & Hclean & _); [lia|vm_compute; reflexivity|].
  pose proof Hrun as Hrun'. vm_compute in Hrun'. injection Hrun' as <- <-.
  vm_compute in Hclean. injection Hclean as <-.
  eexists _, _, _, _. split; [exact Hrun|]. split; [vm_compute; reflexivity|].
  split; [reflexivity|]. split; reflexivity.
Defined.

(** ** The cores and the waiting jobs *)

(** After [scheduler_start_up] and any calls made as the simulator
    makes them, no core is idle while a job of the queue is on no core:
    an arriving job takes an idle core when there is one, and a core
    that a job leaves goes to the first job of the queue that has none. *)
Theorem no_core_idle_while_a_job_waits cores scheme es :
  0 < cores ->
  conforming es (scheduler_start_up cores scheme) = true ->
  exists rs s,
    run es (scheduler_start_up cores scheme) = Ok (rs, s) /\
    forall p j, queued s p -> job_at s p j -> j_core j = -1 ->
      forall k, (k < length (c_job s))%nat -> exists q, c_job s !! k = Some (Some q).
Proof.
  intros Hc Hconf.
  destruct (EventFacts.run_work_conserving es (scheduler_start_up cores scheme))
    as (rs & s & Hrun & Hinv & Hwc); [by apply inv_start_up| |done|].
  { intros _ p j Hp. unfold queued in Hp. simpl in Hp. by apply elem_of_nil in Hp. }
  exists rs, s. split; [done|].
  intros p j Hp Hj Hcore k Hk.
  destruct (lookup_lt_is_Some_2 _ _ Hk) as [[q|] Hq]; [by exists q|].
  exfalso. by apply (Hwc (ex_intro _ k Hq) p j).
Qed.

Lemma no_core_idle_while_a_job_waits_witness :
  exists rs s,
    run [NewJob 1 0 5 0; NewJob 2 1 3 0; NewJob 3 2 4 0; JobFinished 1 2 4]
      (scheduler_start_up 2 FCFS) = Ok (rs, s) /\
    rs = [0; 1; -1; 3] /\ c_job s = [Some 0%nat; Some 2%nat] /\
    (forall p j, queued s p -> job_at s p j -> j_core j = -1 ->
       forall k, (k < length (c_job s))%nat -> exists q, c_job s !! k = Some (Some q)).
Proof.
  destruct (no_core_idle_while_a_job_waits 2 FCFS
              [NewJob 1 0 5 0; NewJob 2 1 3 0; NewJob 3 2 4 0; JobFinished 1 2 4])
    as (rs & s & Hrun & Hwc); [lia|vm_compute; reflexivity|].
  exists rs, s. split; [exact Hrun|].
  vm_compute in Hrun. injection Hrun as <- <-. done.
Defined.

(** ** What the calls keep of a job *)

(** The object that [scheduler_new_job] allocates for an arriving job
    keeps the number, the arrival time, the running time and the
    priority the call was given through every later call, until
    [scheduler_job_finished] or [scheduler_quantum_expired] frees it:
    no call writes [job_id], [t_arrival], [t_total] or [priority] of a
    job in the queue. *)
Theorem arriving_job_keeps_its_identity cores scheme es1 id time rt prio es2 :
  0 < cores ->
  conforming (es1 ++ NewJob id time rt prio :: es2)
    (scheduler_start_up cores scheme) = true ->
  exists rs1 s1 rs s,
    run es1 (scheduler_start_up cores scheme) = Ok (rs1, s1) /\
    run (es1 ++ NewJob id time rt prio :: es2)
      (scheduler_start_up cores scheme) = Ok (rs, s) /\
    (heap s !! length (heap s1) = Some None \/
     exists j,
       job_at s (length (heap s1)) j /\
       job_id j = id /\ t_arrival j = time /\ t_total j = rt /\ priority j = prio).
Proof.
  intros Hc Hconf.
  destruct (EventFacts.run_split es1 (NewJob id time rt prio :: es2)
              (scheduler_start_up cores scheme))
    as (rs1 & s1 & rs2 & s2 & Hr1 & Hinv1 & Hc2 & Hr2 & Hinv2 & Hr);
    [by apply inv_start_up|done|].
  exists rs1, s1, (rs1 ++ rs2), s2. split; [done|]. split; [done|].
  apply conforming_cons in Hc2 as [Ha Hc2].
  destruct (step_inv (NewJob id time rt prio) s1 Hinv1 Ha) as (r & s1' & Hs & Hinv1' & _).
  cbn [run] in Hr2. rewrite Hs in Hr2. cbn [bind] in Hr2.
  destruct (run es2 s1') as [[rs2' s2']|] eqn:Hr2'; [|discriminate].
  cbn [bind] in Hr2. injection Hr2 as <- <-.
  destruct (EventFacts.run_identity es2 s1' rs2' s2' Hinv1' (Hc2 r s1' Hs) Hr2')
    as [Hid _].
  cbn [step] in Hs.
  destruct (EventFacts.step_jobs_new_job id time rt prio s1 r s1' Hinv1 Ha Hs)
    as (_ & _ & Hnew & _).
  destruct Hnew as [Hnew|Hnew];
    (destruct (Hid _ _ Hnew) as [Hfree|(j & Hj & H1 & H2 & H3 & H4)];
     [by left|right; exists j; split; [done|]; simpl in *; by split_and!]).
Qed.

Lemma arriving_job_keeps_its_identity_witness :
  exists rs1 s1 rs s,
    run [NewJob 1 0 5 0] (scheduler_start_up 1 PPRI) = Ok (rs1, s1) /\
    run ([NewJob 1 0 5 0] ++ NewJob 2 1 3 7 :: [NewJob 3 2 1 4; JobFinished 0 1 3])
      (scheduler_start_up 1 PPRI) = Ok (rs, s) /\
    (heap s !! length (heap s1) = Some None \/
     exists j,
       job_at s (length (heap s1)) j /\
       job_id j = 2 /\ t_arrival j = 1 /\ t_total j = 3 /\ priority j = 7).
Proof.
  apply (arriving_job_keeps_its_identity 1 PPRI [NewJob 1 0 5 0] 2 1 3 7
           [NewJob 3 2 1 4; JobFinished 0 1 3]); [lia|vm_compute; reflexivity].
Defined.

(** After [scheduler_start_up] and any calls made as the simulator
    makes them, the times of every job that has a start time add up: its
    waiting time plus the time it has run, [t_total - t_remaining], is
    the time from its arrival to its last update, as [int]s of 32 bits;
    a job with no start time has all of its running time left.  No job
    has arrived after the clock, the start is not before the arrival,
    and the last update is not before the start nor after the clock. *)
Theorem job_times_add_up cores scheme es :
  0 < cores ->
  conforming es (scheduler_start_up cores scheme) = true ->
  exists rs s,
    run es (scheduler_start_up cores scheme) = Ok (rs, s) /\
    forall p j, job_at s p j ->
      t_arrival j <= c_time s /\
      (t_started j = -1 -> wrap (t_remaining j) = wrap (t_total j)) /\
      (t_started j <> -1 ->
       exists w,
         t_waiting j = Some w /\
         wrap (w + (t_total j - t_remaining j)) = wrap (t_updated j - t_arrival j) /\
         t_arrival j <= t_started j /\ t_started j <= t_updated j <= c_time s).
Proof.
  intros Hc Hconf.
  destruct (EventFacts.run_accounted es (scheduler_start_up cores scheme))
    as (rs & s & Hrun & Hinv & Hacc); [by apply inv_start_up| |done|].
  { intros p j Hj. unfold job_at in Hj. simpl in Hj. by rewrite lookup_nil in Hj. }
  exists rs, s. split; [done|].
  intros p j Hj. specialize (Hacc p j Hj). unfold accounted, cong32 in Hacc.
  destruct Hacc as [Ha Hacc]. split; [done|].
  destruct (t_started j =? -1) eqn:E.
  - apply Z.eqb_eq in E. split; [|done]. intros _.
    destruct (ClockFacts.wrap_spec (t_total j - t_remaining j)) as [k Hk].
    rewrite Hacc in Hk. change (wrap 0) with 0 in Hk.
    replace (t_remaining j) with (t_total j + k * 2 ^ 32) by lia.
    apply ClockFacts.wrap_shift.
  - apply Z.eqb_neq in E. split; [done|]. intros _.
    destruct Hacc as (w & Hw & Hcg & Has & Hr & _). by exists w.
Qed.

Lemma job_times_add_up_witness :
  exists rs s,
    run [NewJob 1 0 5 0; NewJob 2 1 3 0; QuantumExpired 0 2; QuantumExpired 0 4]
      (scheduler_start_up 1 RR) = Ok (rs, s) /\
    rs = [0; -1; 2; 1] /\
    (exists j, job_at s 0%nat j /\ t_waiting j = Some 2 /\ t_remaining j = 3) /\
    (forall p j, job_at s p j ->
       t_arrival j <= c_time s /\
       (t_started j = -1 -> wrap (t_remaining j) = wrap (t_total j)) /\
       (t_started j <> -1 ->
        exists w,
          t_waiting j = Some w /\
          wrap (w + (t_total j - t_remaining j)) = wrap (t_updated j - t_arrival j) /\
          t_arrival j <= t_started j /\ t_started j <= t_updated j <= c_time s)).
Proof.
  destruct (job_times_add_up 1 RR
              [NewJob 1 0 5 0; NewJob 2 1 3 0; QuantumExpired 0 2; QuantumExpired 0 4])
    as (rs & s & Hrun & Hacc); [lia|vm_compute; reflexivity|].
  exists rs, s. split; [exact Hrun|].
  vm_compute in Hrun. injection Hrun as <- <-.
  split; [reflexivity|]. split; [|exact Hacc].
  eexists. split; [reflexivity|]. split; reflexivity.
Defined.

(** ** The order of the queue *)

(** After [scheduler_start_up] and any calls made as the simulator
    makes them, the queue is in the order of its discipline: of two jobs
    of the queue the earlier has, under PPRI, the priority number that
    is not greater; under PRI the same and under SJF the remaining time
    that is not greater, when neither has a start time.  So the job that
    the next dispatch takes, the first of the queue that is on no core,
    is in this order before every other job of the queue that is on no
    core. *)
Theorem queue_keeps_discipline_order cores scheme es :
  0 < cores ->
  conforming es (scheduler_start_up cores scheme) = true ->
  exists rs s,
    run es (scheduler_start_up cores scheme) = Ok (rs, s) /\
    (forall (i k : nat) p q jp jq,
       (i < k)%nat ->
       PriQueue.head (jobs s) !! i = Some p -> PriQueue.head (jobs s) !! k = Some q ->
       job_at s p jp -> job_at s q jq -> in_order scheme jp jq) /\
    (forall p2 j2 q jq,
       first_idle (heap s) (PriQueue.head (jobs s)) = Some p2 -> job_at s p2 j2 ->
       queued s q -> job_at s q jq -> j_core jq = -1 -> in_order scheme j2 jq).
Proof.
  intros Hc Hconf.
  destruct (EventFacts.run_in_order es (scheduler_start_up cores scheme))
    as (rs & s & Hrun & Hinv & Hsc & Hord); [by apply inv_start_up|constructor|done|].
  simpl in Hsc. unfold queue_in_order in Hord. rewrite Hsc in Hord.
  exists rs, s. split; [done|]. split.
  - intros i k p q jp jq Hik Hp Hq Hjp Hjq.
    by apply (EventFacts.sorted_lookup _ _ i k p q Hord Hik Hp Hq jp jq).
  - intros p2 j2 q jq Hfirst Hj2 Hq Hjq Hcore.
    destruct (EventFacts.first_idle_split _ _ _ Hfirst) as (l1 & l2 & Hl & Hl1).
    unfold queued in Hq. rewrite Hl in Hq, Hord.
    apply elem_of_app in Hq as [Hq|Hq].
    + destruct (Hl1 q Hq) as (jx & Hjx & Hx). unfold job_at in Hjq. congruence.
    + apply elem_of_cons in Hq as [->|Hq].
      * unfold job_at in *. assert (j2 = jq) as -> by congruence.
        apply EventFacts.in_order_refl.
      * apply StronglySorted_app_1_r in Hord.
        inversion Hord as [|? ? _ Hall]; subst. rewrite Forall_forall in Hall.
        by apply (Hall q Hq j2 jq).
Qed.

Lemma queue_keeps_discipline_order_witness :
  exists rs s,
    run [NewJob 1 0 5 0; NewJob 2 1 3 7; NewJob 3 2 1 4] (scheduler_start_up 1 PPRI)
      = Ok (rs, s) /\
    PriQueue.head (jobs s) = [0; 2; 1]%nat /\
    first_idle (heap s) (PriQueue.head (jobs s)) = Some 2%nat /\
    (forall (i k : nat) p q jp jq,
       (i < k)%nat ->
       PriQueue.head (jobs s) !! i = Some p -> PriQueue.head (jobs s) !! k = Some q ->
       job_at s p jp -> job_at s q jq -> priority jp <= priority jq) /\
    (forall p2 j2 q jq,
       first_idle (heap s) (PriQueue.head (jobs s)) = Some p2 -> job_at s p2 j2 ->
       queued s q -> job_at s q jq -> j_core jq = -1 -> priority j2 <= priority jq).
Proof.
  destruct (queue_keeps_discipline_order 1 PPRI
              [NewJob 1 0 5 0; NewJob 2 1 3 7; NewJob 3 2 1 4])
    as (rs & s & Hrun & Hord & Hfirst); [lia|vm_compute; reflexivity|].
  exists rs, s. split; [exact Hrun|].
  vm_compute in Hrun. injection Hrun as <- <-.
  split; [reflexivity|]. split; [reflexivity|]. split; [exact Hord|exact Hfirst].
Defined.

(** ** The core a job records *)

(** After [scheduler_start_up] and any calls made as the simulator
    makes them, [j_core] of a job and the slots of the cores agree in
    both directions: slot [k] points to a job exactly when that job
    records the core [k], and a job that no slot points to records -1.
    A job that loses its core, to an arriving job or at the end of a
    quantum, never keeps the number of the core. *)
Theorem recorded_core_is_the_slot cores scheme es :
  0 < cores ->
  conforming es (scheduler_start_up cores scheme) = true ->
  exists rs s,
    run es (scheduler_start_up cores scheme) = Ok (rs, s) /\
    forall q j, job_at s q j ->
      (forall k : nat, c_job s !! k = Some (Some q) <-> j_core j = Z.of_nat k) /\
      (j_core j = -1 \/
       exists k : nat, (k < length (c_job s))%nat /\ j_core j = Z.of_nat k).
Proof.
  intros Hc Hconf.
  destruct (EventFacts.run_recorded es (scheduler_start_up cores scheme))
    as (rs & s & Hrun & Hinv & Hrec); [by apply inv_start_up| |done|].
  { intros q j Hj. unfold job_at in Hj. simpl in Hj. by rewrite lookup_nil in Hj. }
  exists rs, s. split; [done|].
  intros q j Hj. split.
  - intros k. split.
    + intros Hk. destruct Hinv as (_ & _ & _ & Hcores).
      destruct (Hcores k q) as (_ & j2 & Hj2 & Hcore & _); [done|done|].
      unfold job_at in *. congruence.
    + intros Hk. destruct (Hrec q j Hj) as (k' & Hk' & Hslot); [lia|].
      assert (k' = k) as -> by lia. done.
  - destruct (Z.eq_dec (j_core j) (-1)) as [?|Hne]; [by left|right].
    destruct (Hrec q j Hj Hne) as (k & Hk & Hslot). exists k.
    split; [by eapply lookup_lt_Some|done].
Qed.

Lemma recorded_core_is_the_slot_witness :
  exists rs s,
    run [NewJob 1 0 9 5; NewJob 2 1 3 7; NewJob 3 2 1 4]
      (scheduler_start_up 2 PPRI) = Ok (rs, s) /\
    rs = [0; 1; 1] /\ c_job s = [Some 0%nat; Some 2%nat] /\
    (exists j, job_at s 1%nat j /\ j_core j = -1) /\
    (forall q j, job_at s q j ->
       (forall k : nat, c_job s !! k = Some (Some q) <-> j_core j = Z.of_nat k) /\
       (j_core j = -1 \/
        exists k : nat, (k < length (c_job s))%nat /\ j_core j = Z.of_nat k)).
Proof.
  destruct (recorded_core_is_the_slot 2 PPRI
              [NewJob 1 0 9 5; NewJob 2 1 3 7; NewJob 3 2 1 4])
    as (rs & s & Hrun & Hrec); [lia|vm_compute; reflexivity|].
  exists rs, s. split; [exact Hrun|].
  vm_compute in Hrun. injection Hrun as <- <-.
  split; [reflexivity|]. split; [reflexivity|]. split; [|exact Hrec].
  eexists. split; reflexivity.
Defined.

(** Under FCFS, after [scheduler_start_up] and any calls made as the
    simulator makes them, none of which reports the end of a quantum,
    the queue is in the order of the arrivals: every job joins last, at
    a time that is not before the arrival of any job of the queue, and a
    job that ends leaves the others where they are.  So the job that the
    next dispatch takes has waited longest of the jobs on no core. *)
Theorem fcfs_queue_in_arrival_order cores es :
  0 < cores ->
  forallb (fun e => negb (is_quantum_expiry e)) es = true ->
  conforming es (scheduler_start_up cores FCFS) = true ->
  exists rs s,
    run es (scheduler_start_up cores FCFS) = Ok (rs, s) /\
    (forall (i k : nat) p q jp jq,
       (i < k)%nat ->
       PriQueue.head (jobs s) !! i = Some p -> PriQueue.head (jobs s) !! k = Some q ->
       job_at s p jp -> job_at s q jq -> t_arrival jp <= t_arrival jq) /\
    (forall p2 j2 q jq,
       first_idle (heap s) (PriQueue.head (jobs s)) = Some p2 -> job_at s p2 j2 ->
       queued s q -> job_at s q jq -> j_core jq = -1 -> t_arrival j2 <= t_arrival jq).
Proof.
  intros Hc Hnq Hconf.
  destruct (EventFacts.run_by_arrival es (scheduler_start_up cores FCFS))
    as (rs & s & Hrun & Hinv & Hord);
    [done|done|by apply inv_start_up| |constructor|done|].
  { intros p j Hj. unfold job_at in Hj. simpl in Hj. by rewrite lookup_nil in Hj. }
  unfold queue_by_arrival in Hord.
  exists rs, s. split; [done|]. split.
  - intros i k p q jp jq Hik Hp Hq Hjp Hjq.
    by apply (EventFacts.sorted_lookup _ _ i k p q Hord Hik Hp Hq jp jq).
  - intros p2 j2 q jq Hfirst Hj2 Hq Hjq Hcore.
    destruct (EventFacts.first_idle_split _ _ _ Hfirst) as (l1 & l2 & Hl & Hl1).
    unfold queued in Hq. rewrite Hl in Hq, Hord.
    apply elem_of_app in Hq as [Hq|Hq].
    + destruct (Hl1 q Hq) as (jx & Hjx & Hx). unfold job_at in Hjq. congruence.
    + apply elem_of_cons in Hq as [->|Hq].
      * unfold job_at in *. assert (j2 = jq) as -> by congruence. lia.
      * apply StronglySorted_app_1_r in Hord.
        inversion Hord as [|? ? _ Hall]; subst. rewrite Forall_forall in Hall.
        by apply (Hall q Hq j2 jq).
Qed.

Lemma fcfs_queue_in_arrival_order_witness :
  exists rs s,
    run [NewJob 1 0 5 3; NewJob 2 1 3 1; NewJob 3 2 1 0; JobFinished 0 1 5]
      (scheduler_start_up 1 FCFS) = Ok (rs, s) /\
    rs = [0; -1; -1; 2] /\ PriQueue.head (jobs s) = [1; 2]%nat /\
    (forall (i k : nat) p q jp jq,
       (i < k)%nat ->
       PriQueue.head (jobs s) !! i = Some p -> PriQueue.head (jobs s) !! k = Some q ->
       job_at s p jp -> job_at s q jq -> t_arrival jp <= t_arrival jq) /\
    (forall p2 j2 q jq,
       first_idle (heap s) (PriQueue.head (jobs s)) = Some p2 -> job_at s p2 j2 ->
       queued s q -> job_at s q jq -> j_core jq = -1 -> t_arrival j2 <= t_arrival jq).
Proof.
  destruct (fcfs_queue_in_arrival_order 1
              [NewJob 1 0 5 3; NewJob 2 1 3 1; NewJob 3 2 1 0; JobFinished 0 1 5])
    as (rs & s & Hrun & Hord & Hfirst);
    [lia|vm_compute; reflexivity|vm_compute; reflexivity|].
  exists rs, s. split; [exact Hrun|].
  vm_compute in Hrun. injection Hrun as <- <-.
  split; [reflexivity|]. split; [reflexivity|]. split; [exact Hord|exact Hfirst].
Defined.

(** Under SJF and PRI, after [scheduler_start_up] and any calls made as
    the simulator makes them, none of which reports the end of a
    quantum, a job of the queue that is on no core has never run: it
    has no start time and all of its running time left.  So the job that
    the next dispatch takes is, under SJF, one with the least running
    time of the jobs that wait and, under PRI, one with the least
    priority number. *)
Theorem sjf_pri_dispatch_takes_best_waiting cores scheme es :
  0 < cores -> scheme = SJF \/ scheme = PRI ->
  forallb (fun e => negb (is_quantum_expiry e)) es = true ->
  conforming es (scheduler_start_up cores scheme) = true ->
  exists rs s,
    run es (scheduler_start_up cores scheme) = Ok (rs, s) /\
    (forall q j, job_at s q j -> j_core j = -1 ->
       t_started j = -1 /\ t_remaining j = t_total j) /\
    (forall p2 j2 q jq,
       first_idle (heap s) (PriQueue.head (jobs s)) = Some p2 -> job_at s p2 j2 ->
       queued s q -> job_at s q jq -> j_core jq = -1 ->
       match scheme with
       | SJF => t_total j2 <= t_total jq
       | _ => priority j2 <= priority jq
       end).
Proof.
  intros Hc Hsch Hnq Hconf.
  assert (inv (scheduler_start_up cores scheme)) as Hinv0 by (by apply inv_start_up).
  destruct (EventFacts.run_waiting es (scheduler_start_up cores scheme))
    as (rs & s & Hrun & Hinv & Hw); [by destruct Hsch as [-> | ->]|done|done| |done|].
  { intros q j Hj. unfold job_at in Hj. simpl in Hj. by rewrite lookup_nil in Hj. }
  destruct (EventFacts.run_in_order es (scheduler_start_up cores scheme))
    as (rs' & s' & Hrun' & _ & Hsc & Hord); [done|constructor|done|].
  rewrite Hrun in Hrun'. injection Hrun' as <- <-.
  simpl in Hsc. unfold queue_in_order in Hord. rewrite Hsc in Hord.
  exists rs, s. split; [done|]. split; [done|].
  intros p2 j2 q jq Hfirst Hj2 Hq Hjq Hcore.
  destruct (first_idle_Some _ _ _ Hfirst) as (_ & j2' & Hj2' & Hcore2).
  unfold job_at in Hj2. assert (j2' = j2) as -> by congruence.
  destruct (Hw p2 j2 Hj2 Hcore2) as [Hs2 Hr2].
  destruct (Hw q jq Hjq Hcore) as [Hsq Hrq].
  destruct (EventFacts.first_idle_least _ _ _ p2 q jq Hord Hfirst Hq Hjq Hcore) as [->|HR].
  - unfold job_at in Hjq. assert (jq = j2) as -> by congruence.
    destruct scheme; lia.
  - specialize (HR j2 jq Hj2 Hjq).
    destruct Hsch as [-> | ->]; simpl in HR; specialize (HR Hs2 Hsq); lia.
Qed.

Lemma sjf_pri_dispatch_takes_best_waiting_witness :
  exists rs s,
    run [NewJob 1 0 5 0; NewJob 2 1 7 0; NewJob 3 2 4 0; NewJob 4 3 6 0]
      (scheduler_start_up 1 SJF) = Ok (rs, s) /\
    PriQueue.head (jobs s) = [0; 2; 3; 1]%nat /\
    first_idle (heap s) (PriQueue.head (jobs s)) = Some 2%nat /\
    (forall q j, job_at s q j -> j_core j = -1 ->
       t_started j = -1 /\ t_remaining j = t_total j) /\
    (forall p2 j2 q jq,
       first_idle (heap s) (PriQueue.head (jobs s)) = Some p2 -> job_at s p2 j2 ->
       queued s q -> job_at s q jq -> j_core jq = -1 -> t_total j2 <= t_total jq).
Proof.
  destruct (sjf_pri_dispatch_takes_best_waiting 1 SJF
              [NewJob 1 0 5 0; NewJob 2 1 7 0; NewJob 3 2 4 0; NewJob 4 3 6 0])
    as (rs & s & Hrun & Hw & Hfirst);
    [lia|by left|vm_compute; reflexivity|vm_compute; reflexivity|].
  exists rs, s. split; [exact Hrun|].
  vm_compute in Hrun. injection Hrun as <- <-.
  split; [reflexivity|]. split; [reflexivity|]. split; [exact Hw|exact Hfirst].
Defined.

(** ** A quantum that expires on an idle core *)

(** [scheduler_quantum_expired] for a core that holds no job: with an
    empty queue the two searches end at once and the call returns -1,
    having moved only the clock; with any job in the queue the first
    comparison of the search reads [c_cores->c_job[core_id]->job_id]
    through the null slot. *)
Theorem quantum_expired_on_idle_core s (c : nat) time :
  inv s -> c_time s <= time -> c_job s !! c = Some None ->
  (PriQueue.head (jobs s) = [] ->
   scheduler_quantum_expired (Z.of_nat c) time s = Ok (-1, with_c_time time s)) /\
  (PriQueue.head (jobs s) <> [] ->
   scheduler_quantum_expired (Z.of_nat c) time s = Crash NullDeref).
Proof.
  intros Hinv Htime Hc.
  pose proof Hinv as (_ & (Hwf & _ & Hq) & _ & Hcores).
  destruct (EventFacts.tick_full s time Hinv Htime) as (h1 & Hrun & _ & Htk).
  unfold scheduler_quantum_expired. cbv zeta. rewrite Hrun. cbn [bind].
  unfold PriQueue.priqueue_size. cbn [jobs with_heap with_c_time].
  unfold PriQueue.wf in Hwf. rewrite Hwf.
  destruct (PriQueue.head (jobs s)) as [|p0 l] eqn:Hhead.
  - split; [intros _|done]. simpl.
    assert (h1 = heap s) as ->.
    { destruct Htk as (Hlen & _ & _ & Hoff). apply list_eq. intros p. apply Hoff.
      intros k Hk. destruct (Hcores k p) as (Hqp & _); [done|done|].
      unfold queued in Hqp. rewrite Hhead in Hqp. by apply elem_of_nil in Hqp. }
    rewrite Hwf. simpl. by destruct s.
  - split; [done|intros _].
    rewrite Nat2Z.id. cbn [length active_scan].
    rewrite (PriQueueFacts.priqueue_at_in_range _ 0 p0);
      [|lia|cbn [jobs with_heap with_c_time]; by rewrite Hhead|
       cbn [jobs with_heap with_c_time]; lia].
    cbn [bind deref heap with_heap].
    destruct (Hq p0) as (j0 & Hj0 & _); [unfold queued; rewrite Hhead; by left|].
    destruct (EventFacts.ticked_step s time h1 p0 j0 Htk Hj0) as (j0' & Hj0' & _).
    rewrite (load_job _ _ _ Hj0'). cbn [bind].
    rewrite (read_core_nat _ c None) by done. done.
Qed.

Lemma quantum_expired_on_idle_core_witness :
  exists rs s,
    run [NewJob 1 0 5 0] (scheduler_start_up 2 RR) = Ok (rs, s) /\
    c_job s = [Some 0%nat; None] /\
    scheduler_quantum_expired 1 2 s = Crash NullDeref /\
    scheduler_quantum_expired 0 2 (scheduler_start_up 2 RR) =
      Ok (-1, with_c_time 2 (scheduler_start_up 2 RR)).
Proof.
  assert (inv (scheduler_start_up 2 RR)) as Hinv0 by (apply inv_start_up; lia).
  destruct (run_inv [NewJob 1 0 5 0] (scheduler_start_up 2 RR) Hinv0 eq_refl)
    as (rs & s & Hrun & Hinv & _).
  pose proof Hrun as Hrun'. vm_compute in Hrun'. injection Hrun' as <- <-.
  eexists _, _. split; [exact Hrun|]. split; [reflexivity|]. split.
  - refine (proj2 (quantum_expired_on_idle_core _ 1%nat 2 Hinv _ _) _);
      [simpl; lia|reflexivity|discriminate].
  - refine (proj1 (quantum_expired_on_idle_core _ 0%nat 2 Hinv0 _ _) _);
      [simpl; lia|reflexivity|reflexivity].
Defined.
